(** * MSHX mesh compiler: the geometry pipeline of [main.go] and [bounds.go]

    A shallow embedding of the OBJ-to-MSHX converter: the geometry store,
    Ritter's bounding sphere, quad validation and triangulation, attribute
    de-duplication, the Morton-order mesh optimiser and the face section of
    the binary writer, followed by the properties established about them.

    Conventions.
    - [uint8]/[uint32] values are [N]; conversions from Go's [int] wrap
      through [u32].  Go [int] loop counters and slice lengths are [nat].
    - A Go run-time panic (index out of range) is the result [None].
    - Floating point is abstracted by the class [FloatOps]; the instance
      [IEEE.ops] computes with the IEEE-754 binary32/binary64 operations of
      [SpecFloat].
    - What the Go run time decides (growth of [append], the slot vacated by
      [slices.Delete], the permutation picked by [slices.SortFunc]) is the
      class [GoRuntime]. *)

From Stdlib Require Import ZArith NArith List String Lia.
From Stdlib Require Import Floats.SpecFloat.
From stdpp Require Import base option list numbers sorting.

Local Open Scope N_scope.

(** ** Numbers *)

(** [uint32(x)] for a non-negative [x]. *)
Definition u32 (x : N) : N := x mod 2^32.

(** The floating-point operations the pipeline uses.  [f32] is Go's
    [float32], [f64] is [float64]. *)
Class FloatOps := {
  f32 : Type;
  f64 : Type;
  f32_of_Z : Z → f32;
  f32_add : f32 → f32 → f32;
  f32_sub : f32 → f32 → f32;
  f32_mul : f32 → f32 → f32;
  f32_div : f32 → f32 → f32;
  f64_lit : Z → Z → f64;
  f64_add : f64 → f64 → f64;
  f64_sub : f64 → f64 → f64;
  f64_mul : f64 → f64 → f64;
  f64_div : f64 → f64 → f64;
  f64_sqrt : f64 → f64;
  f64_abs : f64 → f64;
  f64_ltb : f64 → f64 → bool;
  f64_of_f32 : f32 → f64;
  f32_of_f64 : f64 → f32;
  f32_to_uint32 : f32 → N
}.

(** [a > b] on [float64]. *)
Definition f64_gtb `{FloatOps} (a b : f64) : bool := f64_ltb b a.

(** IEEE-754 arithmetic, round to nearest even, from [SpecFloat]:
    binary32 is [prec = 24, emax = 128], binary64 is [prec = 53, emax = 1024]. *)
Module IEEE.

Definition of_Z32 (z : Z) : spec_float := binary_normalize 24 128 z 0 false.
Definition of_Z64 (z : Z) : spec_float := binary_normalize 53 1024 z 0 false.

(** A constant [n/d], rounded once (both operands are exact). *)
Definition lit64 (n d : Z) : spec_float := SFdiv 53 1024 (of_Z64 n) (of_Z64 d).

(** [float64(x)]: exact, the mantissa is re-aligned to the wider format. *)
Definition widen (x : spec_float) : spec_float :=
  match x with
  | S754_finite s m e => binary_round 53 1024 s m e
  | _ => x
  end.

(** [float32(x)]: rounds, overflows to an infinity. *)
Definition narrow (x : spec_float) : spec_float :=
  match x with
  | S754_finite s m e => binary_round 24 128 s m e
  | _ => x
  end.

(** The integer part, towards zero. *)
Definition trunc (x : spec_float) : option Z :=
  match x with
  | S754_zero _ => Some 0%Z
  | S754_finite s m e =>
      Some (cond_Zopp s (match e with
                         | Zneg p => Z.pos m / 2 ^ Z.pos p
                         | _ => Z.pos m * 2 ^ e
                         end))%Z
  | _ => None
  end.

(** [uint32(x)] for a [float32]: Go goes through a 64-bit signed conversion
    and keeps the low 32 bits; a value outside [int64] (and a NaN) gives the
    "integer indefinite" [0x8000000000000000], whose low half is 0.  The
    language leaves the out-of-range result to the implementation; this is
    the amd64 one. *)
Definition to_uint32 (x : spec_float) : N :=
  match trunc x with
  | Some z => if ((- 2 ^ 63 <=? z) && (z <? 2 ^ 63))%Z then Z.to_N (z mod 2 ^ 32) else 0
  | None => 0
  end.

#[export] Instance ops : FloatOps := {|
  f32 := spec_float;
  f64 := spec_float;
  f32_of_Z := of_Z32;
  f32_add := SFadd 24 128;
  f32_sub := SFsub 24 128;
  f32_mul := SFmul 24 128;
  f32_div := SFdiv 24 128;
  f64_lit := lit64;
  f64_add := SFadd 53 1024;
  f64_sub := SFsub 53 1024;
  f64_mul := SFmul 53 1024;
  f64_div := SFdiv 53 1024;
  f64_sqrt := SFsqrt 53 1024;
  f64_abs := SFabs;
  f64_ltb := SFltb;
  f64_of_f32 := widen;
  f32_of_f64 := narrow;
  f32_to_uint32 := to_uint32
|}.

End IEEE.

(** ** The Go run time *)

(** [cmp] is a strict weak ordering, as [slices.SortFunc] requires:
    [cmp a b < 0] is "a before b". *)
Record StrictWeakOrder {A : Type} (cmp : A → A → Z) : Prop := {
  swo_irrefl : ∀ a, ¬ (cmp a a < 0)%Z;
  swo_trans : ∀ a b c, (cmp a b < 0)%Z → (cmp b c < 0)%Z → (cmp a c < 0)%Z;
  swo_incomparable : ∀ a b c,
    ¬ (cmp a b < 0)%Z → ¬ (cmp b c < 0)%Z → ¬ (cmp a c < 0)%Z
}.

(** "Not after": the order [slices.SortFunc] establishes between an element
    and every later one. *)
Definition notAfter {A : Type} (cmp : A → A → Z) (a b : A) : Prop :=
  ¬ (cmp b a < 0)%Z.

Class GoRuntime := {
  (** the capacity [append] picks when the backing array is full *)
  growslice : nat → nat;
  (** what [slices.Delete] leaves in the slot it vacates at the end of the
      backing array, given the element that was last: the zero value since
      Go 1.22, that element itself before *)
  deleteTail : N → N;
  (** [slices.SortFunc]: "sorts the slice x in ascending order as determined
      by the cmp function.  This sort is not guaranteed to be stable." *)
  sortFunc : ∀ {A : Type}, (A → A → Z) → list A → list A;
  sortFunc_Permutation : ∀ (A : Type) (cmp : A → A → Z) (l : list A),
    sortFunc cmp l ≡ₚ l;
  sortFunc_Sorted : ∀ (A : Type) (cmp : A → A → Z) (l : list A),
    StrictWeakOrder cmp → StronglySorted (notAfter cmp) (sortFunc cmp l)
}.

(** ** Data model (the struct declarations) *)

Module Vertex.
Record t `{FloatOps} := mk {
  X : f32; Y : f32; Z : f32; W : f32;
  A : f32; R : f32; G : f32; B : f32;
  flushed : bool
}.
End Vertex.
Abbreviation Vertex := Vertex.t.

Module Normal.
Record t `{FloatOps} := mk {
  X : f32; Y : f32; Z : f32; W : f32;
  flushed : bool
}.
End Normal.
Abbreviation Normal := Normal.t.

Module TextureCoord.
Record t `{FloatOps} := mk {
  U : f32; V : f32; W : f32;
  flushed : bool
}.
End TextureCoord.
Abbreviation TextureCoord := TextureCoord.t.

Module BoundSphere.
Record t `{FloatOps} := mk {
  center : Vertex;
  radius : f32
}.
End BoundSphere.
Abbreviation BoundSphere := BoundSphere.t.

Module Face.
Record face := mk {
  edges : N;
  v : list N;
  n : list N;
  t : list N;
  uv : list N;
  materialID : N;
  materialName : string;
  mortonCode : N;
  complete : bool
}.

Definition set_edges (x : N) (f : face) : face :=
  mk x (v f) (n f) (t f) (uv f) (materialID f) (materialName f) (mortonCode f) (complete f).
Definition set_v (x : list N) (f : face) : face :=
  mk (edges f) x (n f) (t f) (uv f) (materialID f) (materialName f) (mortonCode f) (complete f).
Definition set_n (x : list N) (f : face) : face :=
  mk (edges f) (v f) x (t f) (uv f) (materialID f) (materialName f) (mortonCode f) (complete f).
Definition set_t (x : list N) (f : face) : face :=
  mk (edges f) (v f) (n f) x (uv f) (materialID f) (materialName f) (mortonCode f) (complete f).
Definition set_uv (x : list N) (f : face) : face :=
  mk (edges f) (v f) (n f) (t f) x (materialID f) (materialName f) (mortonCode f) (complete f).
Definition set_mortonCode (x : N) (f : face) : face :=
  mk (edges f) (v f) (n f) (t f) (uv f) (materialID f) (materialName f) x (complete f).
Definition set_complete (x : bool) (f : face) : face :=
  mk (edges f) (v f) (n f) (t f) (uv f) (materialID f) (materialName f) (mortonCode f) x.
End Face.
Abbreviation Face := Face.face.

Module Material.
Record t `{FloatOps} := mk {
  name : string;
  diffuse : f32 * f32 * f32;
  specular : f32 * f32 * f32;
  ambient : f32 * f32 * f32;
  transmissive : f32 * f32 * f32;
  emissive : f32 * f32 * f32;
  power : f32;
  transparency : f32;
  refractivity : f32;
  illum : N;
  roughness : f32;
  metallic : f32;
  sheen : f32;
  clearcoat_thickness : f32;
  clearcoat_roughness : f32;
  aniso : f32;
  aniso_rotation : f32;
  texture : string
}.
End Material.
Abbreviation Material := Material.t.

(** The package-level variables of [main.go] that the pipeline stages read
    and write.  [facesCap] is [cap(faces)]. *)
Record Store `{FloatOps} := mkStore {
  vertices : list Vertex;
  normals : list Normal;
  textureCoords : list TextureCoord;
  faces : list Face;
  facesCap : nat;
  materials : list Material;
  boundSphere : BoundSphere;
  vertexType : N
}.

(** ** Slices and loops *)

(** [a[i]], [None] when out of range. *)
Definition index {A : Type} (a : list A) (i : N) : option A := a !! N.to_nat i.

(** [a[i] = x], [None] when out of range. *)
Definition assign {A : Type} (i : nat) (x : A) (a : list A) : option (list A) :=
  if decide (i < length a)%nat then Some (<[i:=x]> a) else None.

(** [dst[j] = src[i]]. *)
Definition copySlot (src : list N) (i : nat) (dst : list N) (j : nat) : option (list N) :=
  x ← src !! i; assign j x dst.

(** [RemoveAtIndex(s, index)], that is [slices.Delete(s, index, index+1)]:
    the slice it returns. *)
Definition RemoveAtIndex {A : Type} (s : list A) (index : nat) : option (list A) :=
  if decide (index + 1 ≤ length s)%nat then Some (delete index s) else None.

(** What [slices.Delete] leaves in the backing array, as seen through a
    slice header that still has the old length. *)
Definition deletedBacking `{GoRuntime} (s : list N) (index : nat) : list N :=
  match last s with
  | Some x => delete index s ++ [deleteTail x]
  | None => s
  end.

(** [for i := lo; i < lo + n; i++ { body }] over a state, stopping at a panic. *)
Fixpoint for_range {St : Type} (n lo : nat) (body : nat → St → option St) (s : St)
  : option St :=
  match n with
  | O => Some s
  | S n' => s' ← body lo s; for_range n' (S lo) body s'
  end.

Declare Scope f64_scope.
Delimit Scope f64_scope with f64.
Notation "a + b" := (f64_add a b) : f64_scope.
Notation "a - b" := (f64_sub a b) : f64_scope.
Notation "a * b" := (f64_mul a b) : f64_scope.
Notation "a / b" := (f64_div a b) : f64_scope.
Notation "a <? b" := (f64_ltb a b) : f64_scope.
Notation "a >? b" := (f64_gtb a b) : f64_scope.

Declare Scope f32_scope.
Delimit Scope f32_scope with f32.
Notation "a + b" := (f32_add a b) : f32_scope.
Notation "a - b" := (f32_sub a b) : f32_scope.
Notation "a * b" := (f32_mul a b) : f32_scope.
Notation "a / b" := (f32_div a b) : f32_scope.

Section Pipeline.
Context `{FO : FloatOps} `{RT : GoRuntime}.

Definition set_vertices (x : list Vertex) (s : Store) : Store :=
  mkStore _ x (normals s) (textureCoords s) (faces s) (facesCap s) (materials s)
    (boundSphere s) (vertexType s).
Definition set_normals (x : list Normal) (s : Store) : Store :=
  mkStore _ (vertices s) x (textureCoords s) (faces s) (facesCap s) (materials s)
    (boundSphere s) (vertexType s).
Definition set_textureCoords (x : list TextureCoord) (s : Store) : Store :=
  mkStore _ (vertices s) (normals s) x (faces s) (facesCap s) (materials s)
    (boundSphere s) (vertexType s).
Definition set_faces (x : list Face) (s : Store) : Store :=
  mkStore _ (vertices s) (normals s) (textureCoords s) x (facesCap s) (materials s)
    (boundSphere s) (vertexType s).
Definition set_facesCap (x : nat) (s : Store) : Store :=
  mkStore _ (vertices s) (normals s) (textureCoords s) (faces s) x (materials s)
    (boundSphere s) (vertexType s).
Definition set_boundSphere (x : BoundSphere) (s : Store) : Store :=
  mkStore _ (vertices s) (normals s) (textureCoords s) (faces s) (facesCap s) (materials s)
    x (vertexType s).

(** ** Quad validation ([crossProduct] ... [ValidateQuad]) *)

Definition crossProduct (ax ay az bx by_ bz : f64) : f64 * f64 * f64 :=
  (ay * bz - az * by_, az * bx - ax * bz, ax * by_ - ay * bx)%f64.

Definition dotProduct (ax ay az bx by_ bz : f64) : f64 :=
  (ax * bx + ay * by_ + az * bz)%f64.

Definition crossProductZ (ax ay bx by_ : f64) : f64 :=
  (ax * by_ - ay * bx)%f64.

(** The four turn values [c1 .. c4] that [isConvex] computes from the corners
    [a b c d]. *)
Definition turns (ax ay bx by_ cx cy dx dy : f64) : f64 * f64 * f64 * f64 :=
  let '(v1x, v1y) := (bx - ax, by_ - ay)%f64 in
  let '(v2x, v2y) := (cx - bx, cy - by_)%f64 in
  let '(v3x, v3y) := (dx - cx, dy - cy)%f64 in
  let '(v4x, v4y) := (ax - dx, ay - dy)%f64 in
  (crossProductZ v1x v1y v2x v2y, crossProductZ v2x v2y v3x v3y,
   crossProductZ v3x v3y v4x v4y, crossProductZ v4x v4y v1x v1y).

Definition isConvex (ax ay bx by_ cx cy dx dy : f64) : bool :=
  let '(c1, c2, c3, c4) := turns ax ay bx by_ cx cy dx dy in
  let zero := f64_lit 0 1 in
  ((c1 >? zero) && (c2 >? zero) && (c3 >? zero) && (c4 >? zero)
   || (c1 <? zero) && (c2 <? zero) && (c3 <? zero) && (c4 <? zero))%f64.

(** [vertices[f.v[k]]]. *)
Definition corner (s : Store) (f : Face) (k : nat) : option Vertex :=
  i ← Face.v f !! k; index (vertices s) i.

(** The value [dot] of [ValidateQuad]: the dot product of the unit normals
    of the triangles [(p0, p1, p2)] and [(p0, p2, p3)]. *)
Definition quadDot (p0 p1 p2 p3 : Vertex) : f64 :=
  let abx := f64_of_f32 (Vertex.X p1 - Vertex.X p0)%f32 in
  let aby := f64_of_f32 (Vertex.Y p1 - Vertex.Y p0)%f32 in
  let abz := f64_of_f32 (Vertex.Z p1 - Vertex.Z p0)%f32 in
  let acx := f64_of_f32 (Vertex.X p2 - Vertex.X p0)%f32 in
  let acy := f64_of_f32 (Vertex.Y p2 - Vertex.Y p0)%f32 in
  let acz := f64_of_f32 (Vertex.Z p2 - Vertex.Z p0)%f32 in
  let adx := f64_of_f32 (Vertex.X p3 - Vertex.X p0)%f32 in
  let ady := f64_of_f32 (Vertex.Y p3 - Vertex.Y p0)%f32 in
  let adz := f64_of_f32 (Vertex.Z p3 - Vertex.Z p0)%f32 in
  let '(nx1, ny1, nz1) := crossProduct abx aby abz acx acy acz in
  let '(nx2, ny2, nz2) := crossProduct acx acy acz adx ady adz in
  let len1 := f64_sqrt (nx1 * nx1 + ny1 * ny1 + nz1 * nz1)%f64 in
  let len2 := f64_sqrt (nx2 * nx2 + ny2 * ny2 + nz2 * nz2)%f64 in
  let '(nx1, ny1, nz1) := (nx1 / len1, ny1 / len1, nz1 / len1)%f64 in
  let '(nx2, ny2, nz2) := (nx2 / len2, ny2 / len2, nz2 / len2)%f64 in
  dotProduct nx1 ny1 nz1 nx2 ny2 nz2.

(** The call of [isConvex] in [ValidateQuad]: the corners' X and Y only. *)
Definition quadConvex (p0 p1 p2 p3 : Vertex) : bool :=
  isConvex (f64_of_f32 (Vertex.X p0)) (f64_of_f32 (Vertex.Y p0))
           (f64_of_f32 (Vertex.X p1)) (f64_of_f32 (Vertex.Y p1))
           (f64_of_f32 (Vertex.X p2)) (f64_of_f32 (Vertex.Y p2))
           (f64_of_f32 (Vertex.X p3)) (f64_of_f32 (Vertex.Y p3)).

(** A Go [error] value: [nil] or [errors.New msg]. *)
Inductive error : Type :=
  | nil_error
  | errors_New (msg : string).

Definition ValidateQuad (s : Store) (f : Face) : option error :=
  p1 ← corner s f 1; p0 ← corner s f 0;
  p2 ← corner s f 2; p3 ← corner s f 3;
  let dot := quadDot p0 p1 p2 p3 in
  if (f64_abs dot <? f64_lit 999 1000)%f64 then
    Some (errors_New "quad face is not planar")
  else if negb (quadConvex p0 p1 p2 p3) then
    Some (errors_New "quad face is not convex")
  else Some nil_error.

(** ** Triangulation ([ConvertQuadToTriangles], called on [&faces[i]]) *)

Definition ConvertQuadToTriangles (i : nat) (s : Store) : option Store :=
  f ← faces s !! i;
  (* f.edges = 3 *)
  let f := Face.set_edges 3 f in
  (* var newFace Face; the four make calls *)
  let nn := replicate 3 0 in
  let nuv := replicate 3 0 in
  let nv := replicate 3 0 in
  let nt := @nil N in
  nv ← copySlot (Face.v f) 0 nv 0;
  nv ← copySlot (Face.v f) 2 nv 1;
  nv ← copySlot (Face.v f) 3 nv 2;
  nn ← copySlot (Face.n f) 0 nn 0;
  nn ← copySlot (Face.n f) 2 nn 1;
  nn ← copySlot (Face.n f) 3 nn 2;
  nuv ← copySlot (Face.uv f) 0 nuv 0;
  nuv ← copySlot (Face.uv f) 2 nuv 1;
  nuv ← copySlot (Face.uv f) 3 nuv 2;
  nt ← (if decide (length (Face.t f) = 4%nat) then
          nt ← copySlot (Face.t f) 0 nt 0;
          nt ← copySlot (Face.t f) 2 nt 1;
          copySlot (Face.t f) 3 nt 2
        else Some nt);
  let newFace :=
    Face.mk 3 nv nn nt nuv (Face.materialID f) (Face.materialName f) 0 false in
  (* faces = append(faces, newFace): in place when there is room, otherwise
     the array moves and [f] keeps pointing into the abandoned one *)
  let moved := bool_decide (facesCap s ≤ length (faces s))%nat in
  v' ← RemoveAtIndex (Face.v f) 3;
  n' ← RemoveAtIndex (Face.n f) 3;
  uv' ← RemoveAtIndex (Face.uv f) 3;
  t' ← (if decide (length (Face.t f) = 4%nat) then RemoveAtIndex (Face.t f) 3
        else Some (Face.t f));
  let f' :=
    if moved then
      (* the moved copy keeps its four-slot headers over the shifted arrays *)
      Face.set_t (if decide (length (Face.t f) = 4%nat)
                  then deletedBacking (Face.t f) 3 else Face.t f)
        (Face.set_uv (deletedBacking (Face.uv f) 3)
          (Face.set_n (deletedBacking (Face.n f) 3)
            (Face.set_v (deletedBacking (Face.v f) 3) f)))
    else
      Face.set_t t' (Face.set_uv uv' (Face.set_n n' (Face.set_v v' f))) in
  Some (set_facesCap (if moved then growslice (facesCap s) else facesCap s)
         (set_faces (<[i:=f']> (faces s) ++ [newFace]) s)).

(** [FakeQuadCheck]: only reads the four corners (and prints). *)
Definition FakeQuadCheck (f : Face) : option unit :=
  _ ← Face.v f !! 0%nat; _ ← Face.v f !! 1%nat;
  _ ← Face.v f !! 2%nat; _ ← Face.v f !! 3%nat; Some ().


(** The quad pass of [main]: the [for i < len(faces)] loop.  [q] is the
    [-q] flag.  The loop re-reads [len(faces)], which grows with every
    triangulation, so the model counts iterations with [fuel]. *)
Inductive outcome : Type :=
  | Completed (s : Store)
  | Aborted (e : error)
  | Panicked
  | OutOfFuel.

Definition ofOption (r : option Store) (k : Store → outcome) : outcome :=
  match r with
  | Some s => k s
  | None => Panicked
  end.

Fixpoint validateQuads (fuel : nat) (q : Z) (i : nat) (s : Store) : outcome :=
  match fuel with
  | O => OutOfFuel
  | S fuel' =>
      match faces s !! i with
      | None => Completed s
      | Some f =>
          let isQuad := Face.edges f =? 4 in
          match (if isQuad && negb (q =? 3)%Z then FakeQuadCheck f else Some ()) with
          | None => Panicked
          | Some _ =>
              if isQuad && (q =? 3)%Z then
                ofOption (ConvertQuadToTriangles i s) (validateQuads fuel' q (S i))
              else if isQuad && (0 <? q)%Z then
                match ValidateQuad s f with
                | None => Panicked
                | Some nil_error => validateQuads fuel' q (S i) s
                | Some err =>
                    if (q =? 1)%Z then Aborted err
                    else if (q =? 2)%Z then
                      ofOption (ConvertQuadToTriangles i s) (validateQuads fuel' q (S i))
                    else validateQuads fuel' q (S i) s
                end
              else validateQuads fuel' q (S i) s
          end
      end
  end.

(** Every iteration either passes a face or turns a quad into two
    triangles and passes it, so twice the face count (plus the last test of
    the loop condition) is enough. *)
Definition validateStage (q : Z) (s : Store) : outcome :=
  validateQuads (2 * length (faces s) + 1) q 0 s.

(** ** Index rewriting shared by [DeDupe] and [OptimiseMesh]

    Both functions repeat, for the [v], [n] and [uv] arrays in turn, the
    loops [for l := 0; l < int(f.edges); l++ { if f.x[l] ... { f.x[l] = ... } }]
    nested in [for k := 0; k < len(faces); k++].  [get]/[set] pick the array. *)

Definition eachCorner (h : N → N) (edges : N) (a : list N) : option (list N) :=
  for_range (N.to_nat edges) 0 (λ l a, x ← a !! l; Some (<[l:=h x]> a)) a.

Definition eachFace (get : Face → list N) (set : list N → Face → Face) (h : N → N)
    (fs : list Face) : option (list Face) :=
  for_range (length fs) 0
    (λ k fs, f ← fs !! k; a ← eachCorner h (Face.edges f) (get f);
             Some (<[k:=set a f]> fs)) fs.

(** [if x == from { x = to }] *)
Definition redirect (from to : N) (x : N) : N := if x =? from then to else x.

(** [if x > i { x-- }] *)
Definition shiftDown (i : N) (x : N) : N := if i <? x then x - 1 else x.

(** ** [DeDupe] *)

Section Attribute.
Context {A : Type}.
Variable skip : A → bool.
Variable near : A → A → bool.
Variable isFlushed : A → bool.
Variable flush : A → A.
Variable get : Face → list N.
Variable set : list N → Face → Face.

(** The state of one attribute pass: the array, the faces and the counter
    of duplicates. *)
Definition pass : Type := list A * list Face * nat.

(** The body of the [j] loop at the pair [(i, j)]. *)
Definition mergeInto (i j : nat) (st : pass) : option pass :=
  let '(arr, fs, dupes) := st in
  ai ← arr !! i; aj ← arr !! j;
  if near ai aj then
    fs ← eachFace get set (redirect (u32 (N.of_nat j)) (u32 (N.of_nat i))) fs;
    Some (<[j:=flush aj]> arr, fs, S dupes)
  else Some st.

(** The first loop nest of a pass: find the duplicates of every entry that
    is not skipped, redirect the faces, flag the duplicate. *)
Definition markDuplicates (st : pass) : option pass :=
  let len := length (st.1.1) in
  for_range len 0
    (λ i st, ai ← st.1.1 !! i;
             if skip ai then Some st
             else for_range (len - (i + 1)) (i + 1) (mergeInto i) st) st.

(** The second loop of a pass.  [todo] is [len(arr) - i], the entries not
    yet examined: a removal shortens the array and keeps [i] (the [i--]
    before the [i++]), anything else advances [i]. *)
Fixpoint removeFlushed (todo i : nat) (arr : list A) (fs : list Face)
  : option (list A * list Face) :=
  match todo with
  | O => Some (arr, fs)
  | S todo' =>
      ai ← arr !! i;
      if isFlushed ai then
        arr ← RemoveAtIndex arr i;
        fs ← eachFace get set (shiftDown (u32 (N.of_nat i))) fs;
        removeFlushed todo' i arr fs
      else removeFlushed todo' (S i) arr fs
  end.

Definition dedupePass (arr : list A) (fs : list Face) : option pass :=
  '(arr, fs, dupes) ← markDuplicates (arr, fs, 0%nat);
  '(arr, fs) ← removeFlushed (length arr) 0 arr fs;
  Some (arr, fs, dupes).

End Attribute.

Definition flushVertex (p : Vertex) : Vertex :=
  Vertex.mk _ (Vertex.X p) (Vertex.Y p) (Vertex.Z p) (Vertex.W p)
    (Vertex.A p) (Vertex.R p) (Vertex.G p) (Vertex.B p) true.
Definition flushNormal (p : Normal) : Normal :=
  Normal.mk _ (Normal.X p) (Normal.Y p) (Normal.Z p) (Normal.W p) true.
Definition flushTextureCoord (p : TextureCoord) : TextureCoord :=
  TextureCoord.mk _ (TextureCoord.U p) (TextureCoord.V p) (TextureCoord.W p) true.

(** [d < vT] for the pair [vertices[i], vertices[j]]: the differences and
    the sum of squares are single precision. *)
Definition nearVertex (vT : f64) (a b : Vertex) : bool :=
  let dx := (Vertex.X a - Vertex.X b)%f32 in
  let dy := (Vertex.Y a - Vertex.Y b)%f32 in
  let dz := (Vertex.Z a - Vertex.Z b)%f32 in
  let d := f64_sqrt (f64_of_f32 (dx * dx + dy * dy + dz * dz)%f32) in
  (d <? vT)%f64.

Definition nearNormal (nT : f64) (a b : Normal) : bool :=
  let dx := f64_abs (f64_of_f32 (Normal.X a - Normal.X b)%f32) in
  let dy := f64_abs (f64_of_f32 (Normal.Y a - Normal.Y b)%f32) in
  let dz := f64_abs (f64_of_f32 (Normal.Z a - Normal.Z b)%f32) in
  ((dx <? nT) && (dy <? nT) && (dz <? nT))%f64.

Definition nearTextureCoord (uvT : f64) (a b : TextureCoord) : bool :=
  let du := f64_abs (f64_of_f32 (TextureCoord.U a - TextureCoord.U b)%f32) in
  let dv := f64_abs (f64_of_f32 (TextureCoord.V a - TextureCoord.V b)%f32) in
  ((du <? uvT) && (dv <? uvT))%f64.

(** The vertex pass skips [i] on [!vertices[i].flushed], the normal and
    texture-coordinate passes on [normals[i].flushed] and
    [textureCoords[i].flushed]. *)
Definition dedupeVertices (vT : f64) :=
  dedupePass (λ p, negb (Vertex.flushed p)) (nearVertex vT) Vertex.flushed flushVertex
    Face.v Face.set_v.
Definition dedupeNormals (nT : f64) :=
  dedupePass Normal.flushed (nearNormal nT) Normal.flushed flushNormal
    Face.n Face.set_n.
Definition dedupeTextureCoords (uvT : f64) :=
  dedupePass TextureCoord.flushed (nearTextureCoord uvT) TextureCoord.flushed
    flushTextureCoord Face.uv Face.set_uv.

(** [DeDupe(vT, nT, uvT)]: the new store and the three counts it prints. *)
Definition DeDupe (vT nT uvT : f64) (s : Store) : option (Store * (nat * nat * nat)) :=
  '(vs, fs, dupeV) ← dedupeVertices vT (vertices s) (faces s);
  '(ns, fs, dupeN) ← dedupeNormals nT (normals s) fs;
  '(ts, fs, dupeU) ← dedupeTextureCoords uvT (textureCoords s) fs;
  Some (set_faces fs (set_textureCoords ts (set_normals ns (set_vertices vs s))),
        (dupeV, dupeN, dupeU)).


(** ** [OptimiseMesh] *)

Definition interleaveBits (x : N) : N :=
  let x := N.land (N.lor x (u32 (N.shiftl x 16))) 0x030000FF in
  let x := N.land (N.lor x (u32 (N.shiftl x 8))) 0x0300F00F in
  let x := N.land (N.lor x (u32 (N.shiftl x 4))) 0x030C30C3 in
  let x := N.land (N.lor x (u32 (N.shiftl x 2))) 0x09249249 in
  x.

Definition Morton3D (x y z : N) : N :=
  N.lor (N.lor (interleaveBits x) (u32 (N.shiftl (interleaveBits y) 1)))
        (u32 (N.shiftl (interleaveBits z) 2)).

(** The body of the first loop of [OptimiseMesh] for one face: centroid,
    position inside the extents of the bounding sphere, 10-bit quantisation,
    Morton code. *)
Definition faceMortonCode (s : Store) (f : Face) : option N :=
  let c := BoundSphere.center (boundSphere s) in
  let r := BoundSphere.radius (boundSphere s) in
  let extents0 := (Vertex.X c - r)%f32 in
  let extents1 := (Vertex.Y c - r)%f32 in
  let extents2 := (Vertex.Z c - r)%f32 in
  let extents3 := (Vertex.X c + r)%f32 in
  let extents4 := (Vertex.Y c + r)%f32 in
  let extents5 := (Vertex.Z c + r)%f32 in
  '(cx, cy, cz) ←
    for_range (N.to_nat (Face.edges f)) 0
      (λ j '(cx, cy, cz),
         p ← corner s f j;
         Some (cx + Vertex.X p, cy + Vertex.Y p, cz + Vertex.Z p)%f32)
      (f32_of_Z 0, f32_of_Z 0, f32_of_Z 0);
  let e := f32_of_Z (Z.of_N (Face.edges f)) in
  let '(cx, cy, cz) := (cx / e, cy / e, cz / e)%f32 in
  let cx := ((cx - extents0) / (extents3 - extents0))%f32 in
  let cy := ((cy - extents1) / (extents4 - extents1))%f32 in
  let cz := ((cz - extents2) / (extents5 - extents2))%f32 in
  let icx := f32_to_uint32 (cx * f32_of_Z 1024)%f32 in
  let icy := f32_to_uint32 (cy * f32_of_Z 1024)%f32 in
  let icz := f32_to_uint32 (cz * f32_of_Z 1024)%f32 in
  Some (Morton3D icx icy icz).

Definition assignMortonCodes (s : Store) : option Store :=
  for_range (length (faces s)) 0
    (λ i s, f ← faces s !! i; code ← faceMortonCode s f;
            Some (set_faces (<[i:=Face.set_mortonCode code f]> (faces s)) s)) s.

(** The comparison passed to [slices.SortFunc]. *)
Definition compareMorton (a b : Face) : Z :=
  if Face.mortonCode a <? Face.mortonCode b then (-1)%Z
  else if Face.mortonCode b <? Face.mortonCode a then 1%Z
  else 0%Z.

Definition sortFaces (s : Store) : Store :=
  set_faces (sortFunc compareMorton (faces s)) s.

Section Reindex.
Context {A : Type}.
Variable isFlushed : A → bool.
Variable flush : A → A.
Variable get : Face → list N.
Variable set : list N → Face → Face.

(** The variables of one "remap" block: [faces], the attribute array, the
    [...FaceUse] table, the array under construction and [curIndex]. *)
Record remap : Type := mkRemap {
  rfaces : list Face;
  rarr : list A;
  ruse : list (list N);
  rnew : list A;
  rcur : nat
}.

(** [for i ... { faces[i].complete = false }] *)
Definition clearComplete (fs : list Face) : option (list Face) :=
  for_range (length fs) 0
    (λ i fs, f ← fs !! i; Some (<[i:=Face.set_complete false f]> fs)) fs.

(** The table of the faces that use each entry, one item per corner. *)
Definition buildUse (len : nat) (fs : list Face) : option (list (list N)) :=
  for_range (length fs) 0
    (λ i use, f ← fs !! i;
       for_range (N.to_nat (Face.edges f)) 0
         (λ j use, idx ← get f !! j; users ← index use idx;
                   Some (<[N.to_nat idx := users ++ [u32 (N.of_nat i)]]> use)) use)
    (replicate len []).

(** The [k] loop: rewrite [idx] into [curIndex] on the faces that use it and
    are not complete.  The copy [face] shares its index array with
    [faces[...]], so the write lands in the store. *)
Definition renumberUsers (idx : N) (cur : nat) (users : list N) (fs : list Face)
  : option (list Face) :=
  for_range (length users) 0
    (λ k fs, fi ← users !! k; face ← index fs fi;
       if Face.complete face then Some fs
       else a ← eachCorner (redirect idx (u32 (N.of_nat cur))) (Face.edges face) (get face);
            Some (<[N.to_nat fi := set a face]> fs)) fs.

(** The body of the [j] loop at corner [j] of face [i]. *)
Definition visitCorner (i j : nat) (st : remap) : option remap :=
  f ← rfaces st !! i; idx ← get f !! j; a ← index (rarr st) idx;
  if isFlushed a then Some st
  else
    users ← index (ruse st) idx;
    fs ← renumberUsers idx (rcur st) users (rfaces st);
    Some (mkRemap fs
            (<[N.to_nat idx := flush a]> (rarr st))
            (<[N.to_nat idx := []]> (ruse st))
            (rnew st ++ [a])
            (S (rcur st))).

Definition visitFace (i : nat) (st : remap) : option remap :=
  f ← rfaces st !! i;
  st ← for_range (N.to_nat (Face.edges f)) 0 (visitCorner i) st;
  f ← rfaces st !! i;
  Some (mkRemap (<[i:=Face.set_complete true f]> (rfaces st))
          (rarr st) (ruse st) (rnew st) (rcur st)).

(** One "remap" block: returns the rebuilt array and the faces. *)
Definition reindex (arr : list A) (fs : list Face) : option (list A * list Face) :=
  fs ← clearComplete fs;
  use ← buildUse (length arr) fs;
  st ← for_range (length fs) 0 visitFace (mkRemap fs arr use [] 0%nat);
  Some (rnew st, rfaces st).

End Reindex.

Definition OptimiseMesh (s : Store) : option Store :=
  s ← assignMortonCodes s;
  let s := sortFaces s in
  '(vs, fs) ← reindex Vertex.flushed flushVertex Face.v Face.set_v (vertices s) (faces s);
  '(ns, fs) ← reindex Normal.flushed flushNormal Face.n Face.set_n (normals s) fs;
  '(ts, fs) ← reindex TextureCoord.flushed flushTextureCoord Face.uv Face.set_uv
                (textureCoords s) fs;
  Some (set_faces fs (set_textureCoords ts (set_normals ns (set_vertices vs s)))).


(** ** [bounds.go]: Ritter's bounding sphere *)

(** [Vertex{}], the zero value. *)
Definition zeroVertex : Vertex :=
  Vertex.mk _ (f32_of_Z 0) (f32_of_Z 0) (f32_of_Z 0) (f32_of_Z 0)
    (f32_of_Z 0) (f32_of_Z 0) (f32_of_Z 0) (f32_of_Z 0) false.

Definition Distance (a b : Vertex) : f64 :=
  let dx := f64_of_f32 (Vertex.X a - Vertex.X b)%f32 in
  let dy := f64_of_f32 (Vertex.Y a - Vertex.Y b)%f32 in
  let dz := f64_of_f32 (Vertex.Z a - Vertex.Z b)%f32 in
  f64_sqrt (dx * dx + dy * dy + dz * dz)%f64.

(** One iteration of the loop of [FarthestPoint] over [(farthest, maxDist)]. *)
Definition fartherOf (ref : Vertex) (acc : Vertex * f64) (p : Vertex) : Vertex * f64 :=
  let dist := Distance ref p in
  if (dist >? acc.2)%f64 then (p, dist) else acc.

Definition FarthestPoint (points : list Vertex) (ref : Vertex) : Vertex :=
  (fold_left (fartherOf ref) points (zeroVertex, f64_lit (-1) 1)).1.

(** The vertex literal of steps 4 and 5: [W: 1.0], the colours 0. *)
Definition centerAt (x y z : f32) : Vertex :=
  Vertex.mk _ x y z (f32_of_Z 1) (f32_of_Z 0) (f32_of_Z 0) (f32_of_Z 0) (f32_of_Z 0) false.

(** One iteration of step 5 over [(center, radius)]. *)
Definition expandSphere (acc : Vertex * f64) (p : Vertex) : Vertex * f64 :=
  let '(center, radius) := acc in
  let dist := Distance center p in
  if (dist >? radius)%f64 then
    let newRadius := ((radius + dist) / f64_lit 2 1)%f64 in
    let ratio := ((newRadius - radius) / dist)%f64 in
    let toward (c pc : f32) : f32 :=
      (c + f32_of_f64 (f64_of_f32 (pc - c)%f32 * ratio)%f64)%f32 in
    (centerAt (toward (Vertex.X center) (Vertex.X p))
              (toward (Vertex.Y center) (Vertex.Y p))
              (toward (Vertex.Z center) (Vertex.Z p)), newRadius)
  else acc.

Definition RitterBoundingSphere (points : list Vertex) : Vertex * f64 :=
  match points with
  | [] => (zeroVertex, f64_lit 0 1)
  | p0 :: _ =>
      let p1 := FarthestPoint points p0 in
      let p2 := FarthestPoint points p1 in
      let two := f32_of_Z 2 in
      let center := centerAt ((Vertex.X p1 + Vertex.X p2) / two)%f32
                             ((Vertex.Y p1 + Vertex.Y p2) / two)%f32
                             ((Vertex.Z p1 + Vertex.Z p2) / two)%f32 in
      let radius := (Distance p1 p2 / f64_lit 2 1)%f64 in
      fold_left expandSphere points (center, radius)
  end.

Definition GenerateBoundingSphere (s : Store) : Store :=
  let '(center, radius) := RitterBoundingSphere (vertices s) in
  set_boundSphere (BoundSphere.mk _ center (f32_of_f64 radius)) s.

(** ** Normals at creation: [normalize] and the ["vn"] case of the reader *)

Definition normalize (n : Normal) : Normal :=
  let length :=
    f32_of_f64 (f64_sqrt (f64_of_f32
      (Normal.X n * Normal.X n + Normal.Y n * Normal.Y n + Normal.Z n * Normal.Z n)%f32)) in
  Normal.mk _ (Normal.X n / length)%f32 (Normal.Y n / length)%f32 (Normal.Z n / length)%f32
    (Normal.W n) (Normal.flushed n).

(** What the reader does with the three numbers of a ["vn"] line. *)
Definition acceptNormal (x y z : f32) (s : Store) : Store :=
  set_normals (normals s ++ [normalize (Normal.mk _ x y z (f32_of_Z 0) false)]) s.

(** ** [WriteOutput]: the bytes handed to the buffered writer *)

Inductive ByteOrder : Type := LittleEndian | BigEndian.

Section Writer.
(** [math.Float32bits], which [binary.Write] applies to a [float32]. *)
Variable Float32bits : f32 → N.
Variable byteOrder : ByteOrder.

Definition putUint32 (x : N) : list N :=
  let b0 := x mod 256 in
  let b1 := (x / 2 ^ 8) mod 256 in
  let b2 := (x / 2 ^ 16) mod 256 in
  let b3 := (x / 2 ^ 24) mod 256 in
  match byteOrder with
  | LittleEndian => [b0; b1; b2; b3]
  | BigEndian => [b3; b2; b1; b0]
  end.

Definition putFloat32 (x : f32) : list N := putUint32 (Float32bits x).

Definition putFloat32x3 (x : f32 * f32 * f32) : list N :=
  putFloat32 x.1.1 ++ putFloat32 x.1.2 ++ putFloat32 x.2.

Definition putString (x : string) : list N :=
  map (λ c, N.of_nat (Ascii.nat_of_ascii c)) (list_ascii_of_string x).

Definition putVertex (vertexType : N) (p : Vertex) : list N :=
  putFloat32 (Vertex.X p) ++ putFloat32 (Vertex.Y p) ++ putFloat32 (Vertex.Z p) ++
  (if vertexType =? 1 then
     putFloat32 (Vertex.A p) ++ putFloat32 (Vertex.R p) ++
     putFloat32 (Vertex.G p) ++ putFloat32 (Vertex.B p)
   else []).

Definition putNormal (p : Normal) : list N :=
  putFloat32 (Normal.X p) ++ putFloat32 (Normal.Y p) ++ putFloat32 (Normal.Z p).

Definition putTextureCoord (p : TextureCoord) : list N :=
  putFloat32 (TextureCoord.U p) ++ putFloat32 (TextureCoord.V p).

(** [for j := 0; j < int(edges); j++ { binary.Write(..., a[j]) }] *)
Definition putIndices (edges : N) (a : list N) (out : list N) : option (list N) :=
  for_range (N.to_nat edges) 0 (λ j out, x ← a !! j; Some (out ++ putUint32 x)) out.

(** The body of the face loop. *)
Definition putFace (f : Face) (out : list N) : option (list N) :=
  let out := out ++ [Face.edges f] in
  out ← putIndices (Face.edges f) (Face.v f) out;
  out ← putIndices (Face.edges f) (Face.n f) out;
  out ← putIndices (Face.edges f) (Face.uv f) out;
  Some (out ++ putUint32 (Face.materialID f)).

Definition putMaterial (m : Material) : list N :=
  putFloat32x3 (Material.diffuse m) ++ putFloat32x3 (Material.specular m) ++
  putFloat32x3 (Material.ambient m) ++ putFloat32x3 (Material.transmissive m) ++
  putFloat32x3 (Material.emissive m) ++
  putFloat32 (Material.power m) ++ putFloat32 (Material.transparency m) ++
  putFloat32 (Material.refractivity m) ++ putUint32 (Material.illum m) ++
  putFloat32 (Material.roughness m) ++ putFloat32 (Material.metallic m) ++
  putFloat32 (Material.sheen m) ++ putFloat32 (Material.clearcoat_thickness m) ++
  putFloat32 (Material.clearcoat_roughness m) ++ putFloat32 (Material.aniso m) ++
  putFloat32 (Material.aniso_rotation m) ++
  putUint32 (u32 (N.of_nat (String.length (Material.texture m)))) ++
  putString (Material.texture m).

Definition putHeader (s : Store) : list N :=
  putString "MSHX" ++ putUint32 1 ++
  putUint32 (u32 (N.of_nat (length (vertices s)))) ++
  putUint32 (u32 (N.of_nat (length (normals s)))) ++
  putUint32 0 ++
  putUint32 (u32 (N.of_nat (length (textureCoords s)))) ++
  putUint32 (u32 (N.of_nat (length (faces s)))) ++
  putUint32 (u32 (N.of_nat (length (materials s)))) ++
  putUint32 (vertexType s) ++
  putFloat32 (Vertex.X (BoundSphere.center (boundSphere s))) ++
  putFloat32 (Vertex.Y (BoundSphere.center (boundSphere s))) ++
  putFloat32 (Vertex.Z (BoundSphere.center (boundSphere s))) ++
  putFloat32 (BoundSphere.radius (boundSphere s)).

(** [WriteOutput]: every byte written before the final [Flush], or [None]
    when an index expression panics on the way. *)
Definition WriteOutput (s : Store) : option (list N) :=
  let out := putHeader s in
  let out := out ++ concat (map (putVertex (vertexType s)) (vertices s)) in
  let out := out ++ concat (map putNormal (normals s)) in
  let out := out ++ concat (map putTextureCoord (textureCoords s)) in
  out ← for_range (length (faces s)) 0 (λ i out, f ← faces s !! i; putFace f out) out;
  Some (out ++ concat (map putMaterial (materials s))).

End Writer.

End Pipeline.

(** [math.Float32bits] on the IEEE instance.  [SpecFloat] has one NaN; it is
    written as the quiet NaN [0x7FC00000]. *)
Definition IEEE_Float32bits (x : spec_float) : N :=
  match x with
  | S754_zero s => if s then 0x80000000 else 0
  | S754_infinity s => if s then 0xFF800000 else 0x7F800000
  | S754_nan => 0x7FC00000
  | S754_finite s m e =>
      (if s then 0x80000000 else 0) +
      (if (Z.pos (digits2_pos m) =? 24)%Z
       then Z.to_N (e + 150) * 2 ^ 23 + (N.pos m - 2 ^ 23)
       else N.pos m)
  end.

(** * Properties *)

(** ** Loops *)

Lemma for_range_inv {St : Type} (P : nat → St → Prop) n lo body (s s' : St) :
  for_range n lo body s = Some s' →
  P lo s →
  (∀ i t t', (lo ≤ i < lo + n)%nat → P i t → body i t = Some t' → P (S i) t') →
  P (lo + n)%nat s'.
Proof.
  revert lo s. induction n as [|n IH]; intros lo s Hrun Hs Hstep; simpl in Hrun.
  - injection Hrun as <-. by rewrite Nat.add_0_r.
  - destruct (body lo s) as [t|] eqn:Hb; simpl in Hrun; [|done].
    replace (lo + S n)%nat with (S lo + n)%nat by lia.
    apply (IH (S lo) t); [done| |].
    + apply (Hstep lo s t); [lia|done|done].
    + intros i u u' Hi. apply Hstep. lia.
Qed.

(** The same for a property that does not mention the counter. *)
Lemma for_range_preserves {St : Type} (P : St → Prop) n lo body (s s' : St) :
  for_range n lo body s = Some s' →
  P s →
  (∀ i t t', (lo ≤ i < lo + n)%nat → P t → body i t = Some t' → P t') →
  P s'.
Proof.
  intros Hrun Hs Hstep.
  apply (for_range_inv (λ _, P) n lo body s s' Hrun Hs). eauto.
Qed.

Lemma for_range_total {St : Type} (P : nat → St → Prop) n lo body (s : St) :
  P lo s →
  (∀ i t, (lo ≤ i < lo + n)%nat → P i t → ∃ t', body i t = Some t' ∧ P (S i) t') →
  ∃ s', for_range n lo body s = Some s' ∧ P (lo + n)%nat s'.
Proof.
  revert lo s. induction n as [|n IH]; intros lo s Hs Hstep; simpl.
  - exists s. by rewrite Nat.add_0_r.
  - destruct (Hstep lo s) as (t & Hb & Ht); [lia|done|]. rewrite Hb. simpl.
    replace (lo + S n)%nat with (S lo + n)%nat by lia.
    apply IH; [done|]. intros i u Hi. apply Hstep. lia.
Qed.

(** A loop that rewrites the slots of a list one after the other is [mapM]. *)
Lemma for_range_mapM {A : Type} (g : A → option A) (done_ todo : list A) :
  for_range (length todo) (length done_)
    (λ k l, x ← l !! k; y ← g x; Some (<[k:=y]> l)) (done_ ++ todo)
  = (λ r, done_ ++ r) <$> mapM g todo.
Proof.
  revert done_. induction todo as [|x todo IH]; intros done_; simpl.
  - by rewrite app_nil_r.
  - rewrite lookup_app_r, Nat.sub_diag by lia. simpl.
    destruct (g x) as [y|]; simpl; [|done].
    replace (<[length done_:=y]> (done_ ++ x :: todo)) with ((done_ ++ [y]) ++ todo).
    2:{ rewrite insert_app_r_alt, Nat.sub_diag by lia. simpl. by rewrite <- app_assoc. }
    replace (S (length done_)) with (length (done_ ++ [y])).
    2:{ rewrite length_app. simpl. lia. }
    rewrite IH. destruct (mapM g todo) as [r|]; simpl; [|done].
    by rewrite <- app_assoc.
Qed.

Lemma for_range_mapM_0 {A : Type} (g : A → option A) (l : list A) :
  for_range (length l) 0 (λ k l, x ← l !! k; y ← g x; Some (<[k:=y]> l)) l = mapM g l.
Proof.
  pose proof (for_range_mapM g [] l) as H. simpl in H. rewrite H.
  by destruct (mapM g l).
Qed.

Lemma for_range_ext {St : Type} n lo (body body' : nat → St → option St) (s : St) :
  (∀ i t, body i t = body' i t) → for_range n lo body s = for_range n lo body' s.
Proof.
  intros Hext. revert lo s. induction n as [|n IH]; intros lo s; simpl; [done|].
  rewrite Hext. destruct (body' lo s); simpl; [apply IH|done].
Qed.

(** ** The corner loops in closed form *)

(** [a] has a slot for each of the [edges] corners. *)
Definition covers (edges : N) (a : list N) : Prop := (N.to_nat edges ≤ length a)%nat.

#[local] Instance covers_dec edges a : Decision (covers edges a).
Proof. unfold covers. apply _. Defined.

(** The corners of an index array: the slots the loops read. *)
Definition corners (edges : N) (a : list N) : list N := take (N.to_nat edges) a.

(** [h] applied to the corners, the slots behind them untouched. *)
Definition mapCorners (h : N → N) (edges : N) (a : list N) : list N :=
  map h (take (N.to_nat edges) a) ++ drop (N.to_nat edges) a.

Lemma eachCorner_from (h : N → N) n (done_ todo : list N) :
  for_range n (length done_) (λ l a, x ← a !! l; Some (<[l:=h x]> a)) (done_ ++ todo)
  = if decide (n ≤ length todo)%nat
    then Some (done_ ++ map h (take n todo) ++ drop n todo) else None.
Proof.
  revert done_ todo. induction n as [|n IH]; intros done_ todo; cbn [for_range].
  - rewrite decide_True by lia. by rewrite take_0, drop_0.
  - rewrite lookup_app_r, Nat.sub_diag by lia.
    destruct todo as [|x todo]; cbn [lookup list_lookup mbind option_bind length].
    + by rewrite decide_False by lia.
    + replace (<[length done_:=h x]> (done_ ++ x :: todo)) with ((done_ ++ [h x]) ++ todo).
      2:{ rewrite insert_app_r_alt, Nat.sub_diag by lia. simpl. by rewrite <- app_assoc. }
      replace (S (length done_)) with (length (done_ ++ [h x])).
      2:{ rewrite length_app. simpl. lia. }
      rewrite IH. destruct (decide (n ≤ length todo)%nat).
      * rewrite decide_True by lia. by rewrite <- app_assoc.
      * by rewrite decide_False by lia.
Qed.

Lemma eachCorner_spec (h : N → N) (edges : N) (a : list N) :
  eachCorner h edges a
  = if decide (covers edges a) then Some (mapCorners h edges a) else None.
Proof. unfold eachCorner, covers, mapCorners. apply (eachCorner_from h _ [] a). Qed.

Lemma length_mapCorners h edges a : length (mapCorners h edges a) = length a.
Proof.
  unfold mapCorners. rewrite length_app, length_map, length_take, length_drop. lia.
Qed.

Lemma corners_mapCorners h edges a :
  corners edges (mapCorners h edges a) = map h (corners edges a).
Proof.
  unfold corners, mapCorners.
  destruct (decide (N.to_nat edges ≤ length a)%nat).
  - rewrite take_app_le by (rewrite length_map, length_take; lia).
    rewrite take_ge; [done|]. rewrite length_map, length_take. lia.
  - rewrite drop_ge, app_nil_r by lia.
    rewrite take_ge; [done|]. rewrite length_map, length_take. lia.
Qed.

Lemma covers_mapCorners h edges a : covers edges a → covers edges (mapCorners h edges a).
Proof. unfold covers. by rewrite length_mapCorners. Qed.

(** The three index arrays of a face, as one family. *)
Inductive attr : Type := AttrV | AttrN | AttrUV.

Definition getA (k : attr) : Face → list N :=
  match k with AttrV => Face.v | AttrN => Face.n | AttrUV => Face.uv end.

Definition setA (k : attr) : list N → Face → Face :=
  match k with AttrV => Face.set_v | AttrN => Face.set_n | AttrUV => Face.set_uv end.

#[local] Instance attr_eq_dec : EqDecision attr.
Proof. solve_decision. Defined.

Lemma getA_setA k a f : getA k (setA k a f) = a.
Proof. by destruct k. Qed.

Lemma getA_setA_ne k k' a f : k ≠ k' → getA k' (setA k a f) = getA k' f.
Proof. by destruct k, k'. Qed.

Lemma edges_setA k a f : Face.edges (setA k a f) = Face.edges f.
Proof. by destruct k. Qed.

Lemma complete_setA k a f : Face.complete (setA k a f) = Face.complete f.
Proof. by destruct k. Qed.

(** What neither [DeDupe] nor the remap blocks of [OptimiseMesh] may touch:
    everything but the three index arrays and the [complete] marker. *)
Definition sameFrame (f f' : Face) : Prop :=
  Face.edges f' = Face.edges f ∧ Face.t f' = Face.t f ∧
  Face.materialID f' = Face.materialID f ∧ Face.materialName f' = Face.materialName f ∧
  Face.mortonCode f' = Face.mortonCode f.

Lemma sameFrame_refl f : sameFrame f f.
Proof. by repeat split. Qed.

Lemma sameFrame_trans f g h : sameFrame f g → sameFrame g h → sameFrame f h.
Proof. unfold sameFrame. intros (?&?&?&?&?) (?&?&?&?&?). repeat split; congruence. Qed.

Lemma sameFrame_setA k a f : sameFrame f (setA k a f).
Proof. by destruct k. Qed.

Lemma sameFrame_set_complete b f : sameFrame f (Face.set_complete b f).
Proof. by repeat split. Qed.

(** One face after the corner loop. *)
Definition onCorners (k : attr) (h : N → N) (f : Face) : Face :=
  setA k (mapCorners h (Face.edges f) (getA k f)) f.

Lemma eachFace_spec (k : attr) (h : N → N) (fs : list Face) :
  eachFace (getA k) (setA k) h fs
  = if decide (Forall (λ f, covers (Face.edges f) (getA k f)) fs)
    then Some (map (onCorners k h) fs) else None.
Proof.
  unfold eachFace.
  rewrite (for_range_ext _ _ _
    (λ i l, x ← l !! i;
            y ← (a ← eachCorner h (Face.edges x) (getA k x); Some (setA k a x));
            Some (<[i:=y]> l))).
  2:{ intros i l. destruct (l !! i) as [x|]; simpl; [|done].
      by destruct (eachCorner h (Face.edges x) (getA k x)). }
  rewrite for_range_mapM_0.
  induction fs as [|f fs IH]; [done|]. cbn [mapM map].
  - rewrite eachCorner_spec. destruct (decide (covers (Face.edges f) (getA k f))) as [Hc|Hc]; simpl.
    + rewrite IH. destruct (decide (Forall _ fs)) as [Hfs|Hfs]; simpl.
      * by rewrite decide_True by (by constructor).
      * rewrite decide_False; [done|]. by inversion 1.
    + rewrite decide_False; [done|]. by inversion 1.
Qed.

(** ** The run time

    Two instances.  The first sorts with a merge sort on "not after", which
    meets the documented contract of [slices.SortFunc]; the second, further
    down, sorts as the library does. *)

#[local] Instance notAfter_dec {A : Type} (cmp : A → A → Z) a b : Decision (notAfter cmp a b).
Proof. unfold notAfter. apply _. Defined.

Lemma notAfter_transitive {A : Type} (cmp : A → A → Z) :
  StrictWeakOrder cmp → Transitive (notAfter cmp).
Proof. intros [_ _ Hn] a b c Hab Hbc. unfold notAfter in *. eauto. Qed.

Lemma notAfter_total {A : Type} (cmp : A → A → Z) :
  StrictWeakOrder cmp → Total (notAfter cmp).
Proof.
  intros [Hi Ht _] a b. unfold notAfter.
  destruct (decide (cmp b a < 0)%Z) as [Hba|]; [|by left].
  right. intros Hab. apply (Hi a). eauto.
Qed.

Definition mergeSortFunc {A : Type} (cmp : A → A → Z) (l : list A) : list A :=
  merge_sort (notAfter cmp) l.

Lemma mergeSortFunc_Permutation (A : Type) (cmp : A → A → Z) (l : list A) :
  mergeSortFunc cmp l ≡ₚ l.
Proof. apply merge_sort_Permutation. Qed.

Lemma mergeSortFunc_Sorted (A : Type) (cmp : A → A → Z) (l : list A) :
  StrictWeakOrder cmp → StronglySorted (notAfter cmp) (mergeSortFunc cmp l).
Proof.
  intros Hcmp. pose proof (notAfter_transitive cmp Hcmp). pose proof (notAfter_total cmp Hcmp).
  apply StronglySorted_merge_sort; apply _.
Qed.

(** Doubling growth, zeroing [slices.Delete], merge sort. *)
Definition plainRuntime : GoRuntime := {|
  growslice := λ c, (2 * c + 1)%nat;
  deleteTail := λ _, 0;
  sortFunc := @mergeSortFunc;
  sortFunc_Permutation := mergeSortFunc_Permutation;
  sortFunc_Sorted := mergeSortFunc_Sorted
|}.

(** ** [slices.SortFunc] as the library implements it

    [slices.SortFunc(x, cmp)] is [pdqsortCmpFunc(x, 0, n, bits.Len(uint(n)), cmp)]
    of the file [zsortanyfunc.go] of package [slices]: pattern-defeating
    quicksort, with an insertion sort for at most 12 elements and a heap
    sort when the recursion budget [limit] is spent.  The functions below
    follow that file one by one.  The slice is a list that is handed on;
    every index the library uses is in range, and [less] and [swap], the
    only two ways the sort touches the slice, are written total.  Loops
    whose counters do not simply count up or down carry the number of
    iterations they can take at most. *)

(** [for i := lo; i < lo + n; i++ { body }] *)
Fixpoint for_up {St : Type} (n lo : nat) (body : nat → St → St) (s : St) : St :=
  match n with
  | O => s
  | S n' => for_up n' (S lo) body (body lo s)
  end.

(** [for i := hi; i >= 0; i-- { body }] *)
Fixpoint for_down {St : Type} (hi : nat) (body : nat → St → St) (s : St) : St :=
  match hi with
  | O => body O s
  | S hi' => for_down hi' body (body hi s)
  end.

(** [bits.Len(uint(n))]: the number of bits of [n]. *)
Definition bits_Len (n : nat) : nat :=
  match n with
  | O => O
  | S _ => S (Nat.log2 n)
  end.

(** [xorshift.Next]: the generator of [breakPatterns], on [uint64]. *)
Definition xorshift_Next (r : N) : N :=
  let r := N.lxor r (N.shiftl r 13 mod 2 ^ 64) in
  let r := N.lxor r (N.shiftr r 7) in
  N.lxor r (N.shiftl r 17 mod 2 ^ 64).

Inductive sortedHint : Type :=
  | unknownHint
  | increasingHint
  | decreasingHint.

Section SlicesSort.
Context {A : Type}.
Variable cmp : A → A → Z.
Local Open Scope nat_scope.

(** [cmp(data[i], data[j]) < 0] *)
Definition less (data : list A) (i j : nat) : bool :=
  match data !! i, data !! j with
  | Some x, Some y => bool_decide (cmp x y < 0)%Z
  | _, _ => false
  end.

(** [data[i], data[j] = data[j], data[i]] *)
Definition swap (data : list A) (i j : nat) : list A :=
  match data !! i, data !! j with
  | Some x, Some y => <[j:=x]> (<[i:=y]> data)
  | _, _ => data
  end.

(** The inner loop of [insertionSortCmpFunc]:
    [for j := i; j > a && cmp(data[j], data[j-1]) < 0; j-- { swap }]. *)
Fixpoint insertDown (data : list A) (a j : nat) : list A :=
  match j with
  | O => data
  | S j' =>
      if (a <? j) && less data j j' then insertDown (swap data j j') a j' else data
  end.

Definition insertionSortCmpFunc (data : list A) (a b : nat) : list A :=
  for_up (b - (a + 1)) (a + 1) (λ i data, insertDown data a i) data.

(** [siftDownCmpFunc]: [root] at least doubles with every iteration and
    stays below [hi]. *)
Fixpoint siftDownLoop (fuel : nat) (data : list A) (root hi first : nat) : list A :=
  match fuel with
  | O => data
  | S fuel' =>
      let child := 2 * root + 1 in
      if hi <=? child then data
      else
        let child :=
          if (child + 1 <? hi) && less data (first + child) (first + child + 1)
          then child + 1 else child in
        if negb (less data (first + root) (first + child)) then data
        else siftDownLoop fuel' (swap data (first + root) (first + child)) child hi first
  end.

Definition siftDownCmpFunc (data : list A) (lo hi first : nat) : list A :=
  siftDownLoop hi data lo hi first.

Definition heapSortCmpFunc (data : list A) (a b : nat) : list A :=
  let first := a in
  let lo := 0 in
  let hi := b - a in
  (* Build heap with greatest element at top. *)
  let data := for_down ((hi - 1) / 2) (λ i data, siftDownCmpFunc data i hi first) data in
  (* Pop elements, largest first, into end of data. *)
  match hi with
  | O => data
  | S top =>
      for_down top
        (λ i data, siftDownCmpFunc (swap data first (first + i)) lo i first) data
  end.

(** [for i <= j && keep(i) { i++ }]: the new [i]. *)
Fixpoint skipUp (fuel : nat) (keep : nat → bool) (i j : nat) : nat :=
  match fuel with
  | O => i
  | S fuel' => if (i <=? j) && keep i then skipUp fuel' keep (S i) j else i
  end.

(** [for i <= j && keep(j) { j-- }]: the new [j]. *)
Fixpoint skipDown (fuel : nat) (keep : nat → bool) (i j : nat) : nat :=
  match fuel with
  | O => j
  | S fuel' => if (i <=? j) && keep j then skipDown fuel' keep i (j - 1) else j
  end.

(** The [for] loop that ends [partitionCmpFunc]: the slice and [j]. *)
Fixpoint partitionLoop (fuel : nat) (data : list A) (a b i j : nat) : list A * nat :=
  match fuel with
  | O => (data, j)
  | S fuel' =>
      let i := skipUp (b - a) (λ i, less data i a) i j in
      let j := skipDown (b - a) (λ j, negb (less data j a)) i j in
      if j <? i then (data, j)
      else partitionLoop fuel' (swap data i j) a b (S i) (j - 1)
  end.

(** [partitionCmpFunc]: the slice, [newpivot] and [alreadyPartitioned]. *)
Definition partitionCmpFunc (data : list A) (a b pivot : nat) : list A * nat * bool :=
  let data := swap data a pivot in
  let i := a + 1 in
  let j := b - 1 in
  let i := skipUp (b - a) (λ i, less data i a) i j in
  let j := skipDown (b - a) (λ j, negb (less data j a)) i j in
  if j <? i then (swap data j a, j, true)
  else
    let data := swap data i j in
    let '(data, j) := partitionLoop (b - a) data a b (S i) (j - 1) in
    (swap data j a, j, false).

(** The loop of [partitionEqualCmpFunc]: the slice and [i]. *)
Fixpoint partitionEqualLoop (fuel : nat) (data : list A) (a b i j : nat)
  : list A * nat :=
  match fuel with
  | O => (data, i)
  | S fuel' =>
      let i := skipUp (b - a) (λ i, negb (less data a i)) i j in
      let j := skipDown (b - a) (λ j, less data a j) i j in
      if j <? i then (data, i)
      else partitionEqualLoop fuel' (swap data i j) a b (S i) (j - 1)
  end.

Definition partitionEqualCmpFunc (data : list A) (a b pivot : nat) : list A * nat :=
  let data := swap data a pivot in
  partitionEqualLoop (b - a) data a b (a + 1) (b - 1).

(** [for j := i - 1; j >= 1; j-- { if !less(j, j-1) { break }; swap }] *)
Fixpoint shiftLeft (data : list A) (j : nat) : list A :=
  match j with
  | O => data
  | S j' => if less data j j' then shiftLeft (swap data j j') j' else data
  end.

(** [for j := i + 1; j < b; j++ { if !less(j, j-1) { break }; swap }] *)
Fixpoint shiftRight (fuel : nat) (data : list A) (j b : nat) : list A :=
  match fuel with
  | O => data
  | S fuel' =>
      if (j <? b) && less data j (j - 1) then shiftRight fuel' (swap data j (j - 1)) (S j) b
      else data
  end.

(** The [for j := 0; j < maxSteps; j++] loop of [partialInsertionSortCmpFunc]. *)
Fixpoint partialInsertionSortLoop (steps : nat) (data : list A) (a b i : nat)
  : list A * bool :=
  match steps with
  | O => (data, false)
  | S steps' =>
      let i := skipUp (b - a) (λ i, negb (less data i (i - 1))) i (b - 1) in
      if i =? b then (data, true)
      else if b - a <? 50 then (data, false)
      else
        let data := swap data i (i - 1) in
        (* Shift the smaller one to the left. *)
        let data := if 2 <=? i - a then shiftLeft data (i - 1) else data in
        (* Shift the greater one to the right. *)
        let data := if 2 <=? b - i then shiftRight (b - a) data (i + 1) b else data in
        partialInsertionSortLoop steps' data a b i
  end.

Definition partialInsertionSortCmpFunc (data : list A) (a b : nat) : list A * bool :=
  partialInsertionSortLoop 5 data a b (a + 1).

Definition breakPatternsCmpFunc (data : list A) (a b : nat) : list A :=
  let length := b - a in
  if 8 <=? length then
    let modulus := 2 ^ bits_Len length in
    let idx := a + (length / 4) * 2 - 1 in
    (for_up 3 0
       (λ i '(data, random),
          let random := xorshift_Next random in
          let other := N.to_nat (N.land random (N.of_nat (modulus - 1))) in
          let other := if length <=? other then other - length else other in
          (swap data (idx - 1 + i) (a + other), random))
       (data, N.of_nat length)).1
  else data.

(** [order2CmpFunc]: the two indices in order, and the count of swaps. *)
Definition order2CmpFunc (data : list A) (a b swaps : nat) : nat * nat * nat :=
  if less data b a then (b, a, S swaps) else (a, b, swaps).

Definition medianCmpFunc (data : list A) (a b c swaps : nat) : nat * nat :=
  let '(a, b, swaps) := order2CmpFunc data a b swaps in
  let '(b, c, swaps) := order2CmpFunc data b c swaps in
  let '(a, b, swaps) := order2CmpFunc data a b swaps in
  (b, swaps).

Definition medianAdjacentCmpFunc (data : list A) (a swaps : nat) : nat * nat :=
  medianCmpFunc data (a - 1) a (a + 1) swaps.

Definition choosePivotCmpFunc (data : list A) (a b : nat) : nat * sortedHint :=
  let l := b - a in
  let i := a + l / 4 * 1 in
  let j := a + l / 4 * 2 in
  let k := a + l / 4 * 3 in
  let '(j, swaps) :=
    if 8 <=? l then
      let '(i, j, k, swaps) :=
        if 50 <=? l then
          (* Tukey ninther method *)
          let '(i, swaps) := medianAdjacentCmpFunc data i 0 in
          let '(j, swaps) := medianAdjacentCmpFunc data j swaps in
          let '(k, swaps) := medianAdjacentCmpFunc data k swaps in
          (i, j, k, swaps)
        else (i, j, k, 0) in
      (* Find the median among i, j, k and store it into j. *)
      medianCmpFunc data i j k swaps
    else (j, 0) in
  if swaps =? 0 then (j, increasingHint)
  else if swaps =? 12 then (j, decreasingHint)
  else (j, unknownHint).

Fixpoint reverseRangeLoop (fuel : nat) (data : list A) (i j : nat) : list A :=
  match fuel with
  | O => data
  | S fuel' => if i <? j then reverseRangeLoop fuel' (swap data i j) (S i) (j - 1) else data
  end.

Definition reverseRangeCmpFunc (data : list A) (a b : nat) : list A :=
  reverseRangeLoop (b - a) data a (b - 1).

(** [pdqsortCmpFunc] sorts [data[a:b]].  Every turn of its loop returns or
    goes on with a shorter range, and so does the call it makes: [fuel]
    bounds both. *)
Fixpoint pdqsortLoop (fuel : nat) (data : list A) (a b limit : nat)
    (wasBalanced wasPartitioned : bool) : list A :=
  match fuel with
  | O => data
  | S fuel' =>
      let length := b - a in
      if length <=? 12 then insertionSortCmpFunc data a b
      else if limit =? 0 then
        (* Fall back to heapsort if too many bad choices were made. *)
        heapSortCmpFunc data a b
      else
        (* If the last partitioning was imbalanced, we need to breakPatterns. *)
        let '(data, limit) :=
          if negb wasBalanced then (breakPatternsCmpFunc data a b, limit - 1)
          else (data, limit) in
        let '(pivot, hint) := choosePivotCmpFunc data a b in
        let '(data, pivot, hint) :=
          match hint with
          | decreasingHint =>
              (reverseRangeCmpFunc data a b, (b - 1) - (pivot - a), increasingHint)
          | _ => (data, pivot, hint)
          end in
        (* The slice is likely already sorted. *)
        let '(data, sorted) :=
          match hint with
          | increasingHint =>
              if wasBalanced && wasPartitioned then partialInsertionSortCmpFunc data a b
              else (data, false)
          | _ => (data, false)
          end in
        if sorted then data
        else if (0 <? a) && negb (less data (a - 1) pivot) then
          (* Probably the slice contains many duplicate elements. *)
          let '(data, mid) := partitionEqualCmpFunc data a b pivot in
          pdqsortLoop fuel' data mid b limit wasBalanced wasPartitioned
        else
          let '(data, mid, alreadyPartitioned) := partitionCmpFunc data a b pivot in
          let leftLen := mid - a in
          let rightLen := b - mid in
          let balanceThreshold := length / 8 in
          if leftLen <? rightLen then
            let data := pdqsortLoop fuel' data a mid limit true true in
            pdqsortLoop fuel' data (mid + 1) b limit
              (balanceThreshold <=? leftLen) alreadyPartitioned
          else
            let data := pdqsortLoop fuel' data (mid + 1) b limit true true in
            pdqsortLoop fuel' data a mid limit
              (balanceThreshold <=? rightLen) alreadyPartitioned
  end.

Definition pdqsortCmpFunc (data : list A) (a b limit : nat) : list A :=
  pdqsortLoop (S (b - a)) data a b limit true true.

(** [slices.SortFunc(x, cmp)] *)
Definition slices_SortFunc (x : list A) : list A :=
  let n := length x in
  pdqsortCmpFunc x 0 n (bits_Len n).

(** No element is before an earlier one. *)
Fixpoint sortedBy (l : list A) : bool :=
  match l with
  | [] => true
  | x :: l' => forallb (λ y, negb (bool_decide (cmp y x < 0)%Z)) l' && sortedBy l'
  end.

End SlicesSort.

(** *** The sort only swaps *)

Lemma for_up_preserves {St : Type} (P : St → Prop) n lo (body : nat → St → St) (s : St) :
  P s → (∀ i t, P t → P (body i t)) → P (for_up n lo body s).
Proof.
  intros Hs Hstep. revert lo s Hs. induction n as [|n IH]; intros lo s Hs; cbn; [done|].
  apply IH. by apply Hstep.
Qed.

Lemma for_down_preserves {St : Type} (P : St → Prop) hi (body : nat → St → St) (s : St) :
  P s → (∀ i t, P t → P (body i t)) → P (for_down hi body s).
Proof.
  intros Hs Hstep. revert s Hs. induction hi as [|hi IH]; intros s Hs; cbn.
  - by apply Hstep.
  - apply IH. by apply Hstep.
Qed.

Section SlicesSortFacts.
Context {A : Type}.
Variable cmp : A → A → Z.

Lemma insert_swap_Permutation (l : list A) (j : nat) (y d : A) :
  l !! j = Some y → y :: <[j:=d]> l ≡ₚ d :: l.
Proof.
  revert j. induction l as [|e l IH]; intros [|j] Hj; try done; cbn in *.
  - injection Hj as ->. apply perm_swap.
  - rewrite perm_swap. rewrite (IH j Hj). apply perm_swap.
Qed.

Lemma swap_Permutation (data : list A) (i j : nat) : swap data i j ≡ₚ data.
Proof.
  unfold swap.
  destruct (data !! i) as [x|] eqn:Hi; [|done].
  destruct (data !! j) as [y|] eqn:Hj; [|done].
  revert i j Hi Hj. induction data as [|d data IH]; intros [|i] [|j] Hi Hj; try done; cbn in *.
  - injection Hi as ->. by injection Hj as ->.
  - injection Hi as ->. by apply insert_swap_Permutation.
  - injection Hj as ->. by apply insert_swap_Permutation.
  - by rewrite IH.
Qed.

(** The elements of the slice are kept. *)
Definition kept (data data' : list A) : Prop := data' ≡ₚ data.

Lemma kept_refl data : kept data data.
Proof. by unfold kept. Qed.

Lemma kept_swap data data' i j : kept data data' → kept data (swap data' i j).
Proof. unfold kept. intros <-. apply swap_Permutation. Qed.

Lemma insertDown_kept data0 data a j : kept data0 data → kept data0 (insertDown cmp data a j).
Proof.
  revert data. induction j as [|j IH]; intros data Hk; cbn [insertDown]; [done|].
  case_match; [|done]. by apply IH, kept_swap.
Qed.

Lemma insertionSortCmpFunc_kept data0 data a b :
  kept data0 data → kept data0 (insertionSortCmpFunc cmp data a b).
Proof.
  intros Hk. unfold insertionSortCmpFunc. apply for_up_preserves; [done|].
  intros i t. apply insertDown_kept.
Qed.

Lemma siftDownLoop_kept fuel data0 data root hi first :
  kept data0 data → kept data0 (siftDownLoop cmp fuel data root hi first).
Proof.
  revert data root. induction fuel as [|fuel IH]; intros data root Hk;
    cbn [siftDownLoop]; cbv zeta; [done|].
  repeat case_match; try done; by apply IH, kept_swap.
Qed.

Lemma heapSortCmpFunc_kept data0 data a b :
  kept data0 data → kept data0 (heapSortCmpFunc cmp data a b).
Proof.
  intros Hk. unfold heapSortCmpFunc, siftDownCmpFunc. cbv zeta.
  assert (Hbuild : kept data0
            (for_down ((b - a - 1) / 2)
               (λ i data, siftDownLoop cmp (b - a) data i (b - a) a) data)).
  { apply for_down_preserves; [done|]. intros i t. apply siftDownLoop_kept. }
  destruct (b - a)%nat as [|top] eqn:Hhi; [done|].
  apply for_down_preserves; [done|]. intros i t Ht. by apply siftDownLoop_kept, kept_swap.
Qed.

Lemma partitionLoop_kept fuel data0 data a b i j :
  kept data0 data → kept data0 (partitionLoop cmp fuel data a b i j).1.
Proof.
  revert data i j. induction fuel as [|fuel IH]; intros data i j Hk;
    cbn [partitionLoop]; cbv zeta; [done|].
  case_match; [done|]. by apply IH, kept_swap.
Qed.

Lemma partitionCmpFunc_kept data0 data a b pivot :
  kept data0 data → kept data0 (partitionCmpFunc cmp data a b pivot).1.1.
Proof.
  intros Hk. unfold partitionCmpFunc. cbv zeta.
  case_match; [by do 2 apply kept_swap|].
  match goal with
  | |- context [partitionLoop cmp ?f ?d ?a ?b ?i ?j] =>
      pose proof (partitionLoop_kept f data0 d a b i j) as Hloop;
      destruct (partitionLoop cmp f d a b i j) as [d' j']
  end.
  cbn [fst snd] in *. apply kept_swap, Hloop. by do 2 apply kept_swap.
Qed.

Lemma partitionEqualLoop_kept fuel data0 data a b i j :
  kept data0 data → kept data0 (partitionEqualLoop cmp fuel data a b i j).1.
Proof.
  revert data i j. induction fuel as [|fuel IH]; intros data i j Hk;
    cbn [partitionEqualLoop]; cbv zeta; [done|].
  case_match; [done|]. by apply IH, kept_swap.
Qed.

Lemma partitionEqualCmpFunc_kept data0 data a b pivot :
  kept data0 data → kept data0 (partitionEqualCmpFunc cmp data a b pivot).1.
Proof. intros Hk. by apply partitionEqualLoop_kept, kept_swap. Qed.

Lemma shiftLeft_kept data0 data j : kept data0 data → kept data0 (shiftLeft cmp data j).
Proof.
  revert data. induction j as [|j IH]; intros data Hk; cbn [shiftLeft]; [done|].
  case_match; [|done]. by apply IH, kept_swap.
Qed.

Lemma shiftRight_kept fuel data0 data j b :
  kept data0 data → kept data0 (shiftRight cmp fuel data j b).
Proof.
  revert data j. induction fuel as [|fuel IH]; intros data j Hk; cbn [shiftRight]; [done|].
  case_match; [|done]. by apply IH, kept_swap.
Qed.

Lemma partialInsertionSortLoop_kept steps data0 data a b i :
  kept data0 data → kept data0 (partialInsertionSortLoop cmp steps data a b i).1.
Proof.
  revert data i. induction steps as [|steps IH]; intros data i Hk;
    cbn [partialInsertionSortLoop]; cbv zeta; [done|].
  case_match; [done|]. case_match; [done|]. apply IH.
  repeat case_match;
    repeat first [apply shiftRight_kept | apply shiftLeft_kept]; by apply kept_swap.
Qed.

Lemma breakPatternsCmpFunc_kept data0 data a b :
  kept data0 data → kept data0 (breakPatternsCmpFunc data a b).
Proof.
  intros Hk. unfold breakPatternsCmpFunc. cbv zeta. case_match; [|done].
  apply (for_up_preserves (λ st : list A * N, kept data0 st.1)); [done|].
  intros i [d r] Hd. cbn [fst snd] in *. by apply kept_swap.
Qed.

Lemma reverseRangeLoop_kept fuel data0 data i j :
  kept data0 data → kept data0 (reverseRangeLoop fuel data i j).
Proof.
  revert data i j. induction fuel as [|fuel IH]; intros data i j Hk;
    cbn [reverseRangeLoop]; [done|].
  case_match; [|done]. by apply IH, kept_swap.
Qed.

Lemma pdqsortLoop_kept fuel data0 data a b limit wasBalanced wasPartitioned :
  kept data0 data →
  kept data0 (pdqsortLoop cmp fuel data a b limit wasBalanced wasPartitioned).
Proof.
  revert data a b limit wasBalanced wasPartitioned.
  induction fuel as [|fuel IH]; intros data a b limit wasBalanced wasPartitioned Hk;
    cbn [pdqsortLoop]; [done|].
  destruct (b - a <=? 12)%nat; [by apply insertionSortCmpFunc_kept|].
  destruct (limit =? 0)%nat; [by apply heapSortCmpFunc_kept|].
  assert (H1 : kept data0
            (if negb wasBalanced then (breakPatternsCmpFunc data a b, (limit - 1)%nat)
             else (data, limit)).1).
  { destruct (negb wasBalanced); [by apply breakPatternsCmpFunc_kept|done]. }
  destruct (if negb wasBalanced then _ else _) as [data1 limit1]. cbn in H1.
  destruct (choosePivotCmpFunc cmp data1 a b) as [pivot hint].
  assert (H2 : kept data0
            (match hint with
             | decreasingHint =>
                 (reverseRangeCmpFunc data1 a b, (b - 1 - (pivot - a))%nat, increasingHint)
             | _ => (data1, pivot, hint)
             end).1.1).
  { destruct hint; try done. by apply reverseRangeLoop_kept. }
  destruct (match hint with decreasingHint => _ | _ => _ end) as [[data2 pivot2] hint2].
  cbn in H2.
  assert (H3 : kept data0
            (match hint2 with
             | increasingHint =>
                 if wasBalanced && wasPartitioned
                 then partialInsertionSortCmpFunc cmp data2 a b else (data2, false)
             | _ => (data2, false)
             end).1).
  { destruct hint2; try done. destruct (_ && _); [|done].
    by apply partialInsertionSortLoop_kept. }
  destruct (match hint2 with increasingHint => _ | _ => _ end) as [data3 sorted].
  cbn in H3. destruct sorted; [done|].
  destruct (_ && _).
  - pose proof (partitionEqualCmpFunc_kept data0 data3 a b pivot2 H3) as H4.
    destruct (partitionEqualCmpFunc cmp data3 a b pivot2) as [data4 mid]. by apply IH.
  - pose proof (partitionCmpFunc_kept data0 data3 a b pivot2 H3) as H4.
    destruct (partitionCmpFunc cmp data3 a b pivot2) as [[data4 mid] already]. cbn in H4.
    destruct (_ <? _)%nat; by do 2 apply IH.
Qed.

Lemma slices_SortFunc_Permutation (x : list A) : slices_SortFunc cmp x ≡ₚ x.
Proof. unfold slices_SortFunc, pdqsortCmpFunc. apply pdqsortLoop_kept, kept_refl. Qed.

Lemma sortedBy_StronglySorted (l : list A) :
  sortedBy cmp l = true → StronglySorted (notAfter cmp) l.
Proof.
  induction l as [|x l IH]; cbn [sortedBy]; [constructor|].
  intros [Hx Hl]%andb_prop. constructor; [by apply IH|].
  apply Forall_forall. intros y Hy.
  rewrite forallb_forall in Hx. apply list_elem_of_In in Hy.
  specialize (Hx y Hy). apply negb_true_iff, bool_decide_eq_false in Hx. exact Hx.
Qed.


End SlicesSortFacts.

(** [slices.SortFunc] with its result checked: the slice the library's sort
    leaves when that slice is in order, as the library promises of every
    strict weak ordering (the promise is proved below for at most 12
    elements and relied on beyond that); the merge sort otherwise. *)
Definition checkedSortFunc {A : Type} (cmp : A → A → Z) (x : list A) : list A :=
  let sorted := slices_SortFunc cmp x in
  if sortedBy cmp sorted then sorted else mergeSortFunc cmp x.

Lemma checkedSortFunc_Permutation (A : Type) (cmp : A → A → Z) (l : list A) :
  checkedSortFunc cmp l ≡ₚ l.
Proof.
  unfold checkedSortFunc. destruct (sortedBy _ _).
  - apply slices_SortFunc_Permutation.
  - apply mergeSortFunc_Permutation.
Qed.

Lemma checkedSortFunc_Sorted (A : Type) (cmp : A → A → Z) (l : list A) :
  StrictWeakOrder cmp → StronglySorted (notAfter cmp) (checkedSortFunc cmp l).
Proof.
  intros Hcmp. unfold checkedSortFunc. destruct (sortedBy _ _) eqn:Hs.
  - by apply sortedBy_StronglySorted.
  - by apply mergeSortFunc_Sorted.
Qed.

(** Doubling growth, zeroing [slices.Delete], the sort of the library. *)
Definition libraryRuntime : GoRuntime := {|
  growslice := λ c, (2 * c + 1)%nat;
  deleteTail := λ _, 0;
  sortFunc := @checkedSortFunc;
  sortFunc_Permutation := checkedSortFunc_Permutation;
  sortFunc_Sorted := checkedSortFunc_Sorted
|}.

(** *** At most 12 elements: the insertion sort

    [pdqsortCmpFunc] hands a slice of at most 12 elements to
    [insertionSortCmpFunc], which moves an element towards the front only
    past elements it is strictly before: the slice comes out in order, and
    elements of which none is strictly before another keep their order. *)

Section InsertionSort.
Context {A : Type}.
Variable cmp : A → A → Z.
Hypothesis cmp_order : StrictWeakOrder cmp.

(** A class of elements no two of which are strictly ordered. *)
Variable tied : A → Prop.
Context `{∀ x, Decision (tied x)}.
Hypothesis tied_unordered : ∀ x y, tied x → tied y → ¬ (cmp x y < 0)%Z.










End InsertionSort.

(** ** Sample data on the IEEE instance *)

Module Sample.

Definition F (z : Z) : spec_float := IEEE.of_Z32 z.

Definition V (x y z : Z) : Vertex (H := IEEE.ops) :=
  Vertex.mk IEEE.ops (F x) (F y) (F z) (F 1) (F 1) (F 1) (F 1) (F 1) false.
Definition Nm (x y z : Z) : Normal (H := IEEE.ops) :=
  Normal.mk IEEE.ops (F x) (F y) (F z) (F 0) false.
Definition T (x y : Z) : TextureCoord (H := IEEE.ops) :=
  TextureCoord.mk IEEE.ops (F x) (F y) (F 0) false.

Definition sphere : BoundSphere (H := IEEE.ops) :=
  BoundSphere.mk IEEE.ops (V 0 0 0) (F 10).

Definition store (vs : list Vertex) (ns : list Normal) (ts : list TextureCoord)
    (fs : list Face) (cap : nat) : Store (H := IEEE.ops) :=
  mkStore IEEE.ops vs ns ts fs cap [] sphere 0.

(** The unit square in the plane [z = 0], one normal and one texture
    coordinate per corner. *)
Definition squareVertices : list Vertex := [V 0 0 0; V 1 0 0; V 1 1 0; V 0 1 0].
Definition squareNormals : list Normal := [Nm 0 0 1; Nm 0 1 0; Nm 1 0 0; Nm 0 0 1].
Definition squareCoords : list TextureCoord := [T 0 0; T 1 0; T 1 1; T 0 1].

Definition quad : Face := Face.mk 4 [0; 1; 2; 3] [0; 1; 2; 3] [] [0; 1; 2; 3] 7 "m" 0 false.
Definition bareQuad : Face := Face.mk 4 [0; 1; 2; 3] [] [] [] 7 "m" 0 false.

Definition square : Store := store squareVertices squareNormals squareCoords [quad] 1.
Definition bareSquare : Store := store squareVertices [] [] [bareQuad] 1.

End Sample.

(** Results are computed through [isNone] and projections to plain data, so
    that evaluation never has to normalise the arithmetic instance. *)
Definition isNone {A : Type} (r : option A) : bool :=
  match r with None => true | Some _ => false end.

Lemma isNone_true {A : Type} (r : option A) : isNone r = true → r = None.
Proof. by destruct r. Qed.

(** ** C7: triangulation *)

(** Membership in lists written out. *)
Ltac list_mem :=
  let H := fresh in
  intros H; rewrite ?elem_of_app, ?elem_of_cons, ?elem_of_nil in H;
  rewrite ?elem_of_app, ?elem_of_cons, ?elem_of_nil; tauto.

(** What [ConvertQuadToTriangles] does to a quad whose vertex, normal and uv
    index arrays each hold four entries and whose tangent array does not
    have length 4: the call returns; the face keeps its place with degree 3
    and corners (0,1,2) of each array; one face is appended, of degree 3, with
    corners (0,2,3) of each array, no tangents and the same material; both
    triangles together use exactly the indices of the quad; when [append]
    had room the three arrays of the face are truncated to three entries;
    nothing else in the store changes. *)
Lemma ConvertQuadToTriangles_full_quad `{FO : FloatOps} `{RT : GoRuntime}
    (s : Store) (i : nat) (f : Face) (v0 v1 v2 v3 n0 n1 n2 n3 t0 t1 t2 t3 : N) :
  faces s !! i = Some f →
  Face.v f = [v0; v1; v2; v3] →
  Face.n f = [n0; n1; n2; n3] →
  Face.uv f = [t0; t1; t2; t3] →
  length (Face.t f) ≠ 4%nat →
  ∃ s' f',
    ConvertQuadToTriangles i s = Some s' ∧
    faces s' = <[i:=f']> (faces s) ++
      [Face.mk 3 [v0; v2; v3] [n0; n2; n3] [] [t0; t2; t3]
         (Face.materialID f) (Face.materialName f) 0 false] ∧
    Face.edges f' = 3 ∧
    corners 3 (Face.v f') = [v0; v1; v2] ∧
    corners 3 (Face.n f') = [n0; n1; n2] ∧
    corners 3 (Face.uv f') = [t0; t1; t2] ∧
    Face.t f' = Face.t f ∧
    Face.materialID f' = Face.materialID f ∧
    Face.materialName f' = Face.materialName f ∧
    (∀ x, x ∈ corners 3 (Face.v f') ++ [v0; v2; v3] ↔ x ∈ [v0; v1; v2; v3]) ∧
    (∀ x, x ∈ corners 3 (Face.n f') ++ [n0; n2; n3] ↔ x ∈ [n0; n1; n2; n3]) ∧
    (∀ x, x ∈ corners 3 (Face.uv f') ++ [t0; t2; t3] ↔ x ∈ [t0; t1; t2; t3]) ∧
    ((length (faces s) < facesCap s)%nat →
       Face.v f' = [v0; v1; v2] ∧ Face.n f' = [n0; n1; n2] ∧ Face.uv f' = [t0; t1; t2]) ∧
    vertices s' = vertices s ∧ normals s' = normals s ∧
    textureCoords s' = textureCoords s.
Proof.
  intros Hf Hv Hn Huv Ht.
  unfold ConvertQuadToTriangles. rewrite Hf. cbn [mbind option_bind].
  destruct f as [e fv fn ft fuv mid mname code cpl]. cbn in Hv, Hn, Huv, Ht. subst fv fn fuv.
  cbn [Face.set_edges Face.v Face.n Face.uv Face.t Face.materialID Face.materialName
       Face.mortonCode Face.complete].
  rewrite !decide_False by done.
  destruct (bool_decide (facesCap s ≤ length (faces s))%nat) eqn:Hmoved.
  - apply bool_decide_eq_true in Hmoved.
    eexists _, _. split; [reflexivity|]. split; [reflexivity|].
    unfold corners. change (N.to_nat 3) with 3%nat. cbn.
    repeat split; try done; try list_mem; lia.
  - apply bool_decide_eq_false in Hmoved.
    eexists _, _. split; [reflexivity|]. split; [reflexivity|].
    unfold corners. change (N.to_nat 3) with 3%nat. cbn.
    repeat split; try done; list_mem.
Qed.

Lemma copySlot_out_of_range (src : list N) (i : nat) (dst : list N) (j : nat) :
  (length src ≤ i)%nat → copySlot src i dst j = None.
Proof. intros Hlen. unfold copySlot. by rewrite lookup_ge_None_2. Qed.

(** C7.  [ConvertQuadToTriangles] reads [f.n[0]], [f.n[2]], [f.n[3]] and the
    same three slots of [f.uv] whatever the lengths of the two arrays are
    (only the tangent copy stands behind a test, [len(f.t) == 4]): on a face
    whose normal or uv index array has fewer than four entries, as the
    reader builds it for a face line without these indices, the call panics
    and there are no two triangles. *)
Theorem C7_ConvertQuadToTriangles_panics_without_indices `{FO : FloatOps} `{RT : GoRuntime}
    (s : Store) (i : nat) (f : Face) :
  faces s !! i = Some f →
  (length (Face.n f) < 4)%nat ∨ (length (Face.uv f) < 4)%nat →
  ConvertQuadToTriangles i s = None.
Proof.
  intros Hf Hshort. unfold ConvertQuadToTriangles. rewrite Hf. cbn [mbind option_bind].
  destruct f as [e fv fn ft fuv mid mname code cpl]. cbn in Hshort.
  cbn [Face.set_edges Face.v Face.n Face.uv Face.t].
  do 5 (match goal with
        | |- context [copySlot ?a ?i ?b ?j] =>
            destruct (copySlot a i b j) eqn:?; cbn [mbind option_bind]; [|done]
        end).
  destruct (decide (length fn < 4)%nat) as [Hn|Hn].
  { by rewrite (copySlot_out_of_range fn 3) by lia. }
  do 3 (match goal with
        | |- context [copySlot ?a ?i ?b ?j] =>
            destruct (copySlot a i b j) eqn:?; cbn [mbind option_bind]; [|done]
        end).
  by rewrite (copySlot_out_of_range fuv 3) by lia.
Qed.

(** The theorem at the square without normal and uv indices, the face of
    the line ["f 1 2 3 4"]. *)
Lemma C7_ConvertQuadToTriangles_panics_witness :
  faces Sample.bareSquare !! 0%nat = Some Sample.bareQuad ∧
  Face.edges Sample.bareQuad = 4 ∧
  ((length (Face.n Sample.bareQuad) < 4)%nat ∨ (length (Face.uv Sample.bareQuad) < 4)%nat) ∧
  ConvertQuadToTriangles (RT := plainRuntime) 0 Sample.bareSquare = None.
Proof.
  assert (Hf : faces Sample.bareSquare !! 0%nat = Some Sample.bareQuad) by reflexivity.
  assert (Hshort : (length (Face.n Sample.bareQuad) < 4)%nat
                   ∨ (length (Face.uv Sample.bareQuad) < 4)%nat) by (left; cbn; lia).
  split; [exact Hf|]. split; [reflexivity|]. split; [exact Hshort|].
  exact (C7_ConvertQuadToTriangles_panics_without_indices (FO := IEEE.ops)
           (RT := plainRuntime) Sample.bareSquare 0 Sample.bareQuad Hf Hshort).
Defined.

(** The tangent copy of [ConvertQuadToTriangles] writes into a slice made
    with length 0: a face that has four tangent indices panics as well. *)
Lemma ConvertQuadToTriangles_four_tangents `{FO : FloatOps} `{RT : GoRuntime}
    (s : Store) (i : nat) (f : Face) :
  faces s !! i = Some f → length (Face.t f) = 4%nat →
  ConvertQuadToTriangles i s = None.
Proof.
  intros Hf Ht. unfold ConvertQuadToTriangles. rewrite Hf. cbn [mbind option_bind].
  destruct f as [e fv fn ft fuv mid mname code cpl]. cbn in Ht.
  cbn [Face.set_edges Face.v Face.n Face.uv Face.t].
  repeat (match goal with
          | |- context [copySlot ?a ?i ?b ?j] =>
              destruct (copySlot a i b j) eqn:?; cbn [mbind option_bind]; [|done]
          end).
  destruct (decide (length ft = 4%nat)); [|done].
  by destruct ft.
Qed.

(** ** C8: quad validation *)

(** The two tests of a quad as the format description words them, written
    out on vectors and apart from the functions of the program.  The edge
    vectors of the planarity test are the single-precision differences of
    the positions, widened; everything after them is double precision. *)
Module QuadTests.
Section QuadTests.
Context `{FloatOps}.

(** A vector of three doubles, a vector of two. *)
Definition vec3 : Type := f64 * f64 * f64.
Definition vec2 : Type := f64 * f64.

(** The vector from the position [p] to the position [q]. *)
Definition fromTo (p q : Vertex) : vec3 :=
  (f64_of_f32 (Vertex.X q - Vertex.X p)%f32,
   f64_of_f32 (Vertex.Y q - Vertex.Y p)%f32,
   f64_of_f32 (Vertex.Z q - Vertex.Z p)%f32).

Definition cross (a b : vec3) : vec3 :=
  let '(ax, ay, az) := a in
  let '(bx, by_, bz) := b in
  (ay * bz - az * by_, az * bx - ax * bz, ax * by_ - ay * bx)%f64.

Definition dot (a b : vec3) : f64 :=
  let '(ax, ay, az) := a in
  let '(bx, by_, bz) := b in
  (ax * bx + ay * by_ + az * bz)%f64.

(** [a] divided by its length. *)
Definition unit (a : vec3) : vec3 :=
  let '(x, y, z) := a in
  let len := f64_sqrt (x * x + y * y + z * z)%f64 in
  (x / len, y / len, z / len)%f64.

(** The unit normal of the triangle [(p, q, r)]. *)
Definition unitNormal (p q r : Vertex) : vec3 := unit (cross (fromTo p q) (fromTo p r)).

(** The planarity test passes: the absolute value of the dot product of the
    unit normals of the triangles [(p0, p1, p2)] and [(p0, p2, p3)] is not
    below 0.999. *)
Definition planar (p0 p1 p2 p3 : Vertex) : Prop :=
  (f64_abs (dot (unitNormal p0 p1 p2) (unitNormal p0 p2 p3)) <? f64_lit 999 1000)%f64 = false.

(** The projection of a position on the XY plane. *)
Definition xy (p : Vertex) : vec2 := (f64_of_f32 (Vertex.X p), f64_of_f32 (Vertex.Y p)).

(** The edge of the projected quad from [p] to [q]. *)
Definition edge (p q : vec2) : vec2 := (q.1 - p.1, q.2 - p.2)%f64.

(** The z component of the cross product of two vectors of the XY plane. *)
Definition crossZ (a b : vec2) : f64 := (a.1 * b.2 - a.2 * b.1)%f64.

(** The four edge-to-edge cross products around the quad, in order. *)
Definition edgeTurns (p0 p1 p2 p3 : Vertex) : f64 * f64 * f64 * f64 :=
  let e1 := edge (xy p0) (xy p1) in
  let e2 := edge (xy p1) (xy p2) in
  let e3 := edge (xy p2) (xy p3) in
  let e4 := edge (xy p3) (xy p0) in
  (crossZ e1 e2, crossZ e2 e3, crossZ e3 e4, crossZ e4 e1).

Definition positive (c : f64) : Prop := (c >? f64_lit 0 1)%f64 = true.
Definition negative (c : f64) : Prop := (c <? f64_lit 0 1)%f64 = true.

(** The convexity test passes: the four turn values are all strictly
    positive or all strictly negative. *)
Definition convex (p0 p1 p2 p3 : Vertex) : Prop :=
  let '(c1, c2, c3, c4) := edgeTurns p0 p1 p2 p3 in
  (positive c1 ∧ positive c2 ∧ positive c3 ∧ positive c4)
  ∨ (negative c1 ∧ negative c2 ∧ negative c3 ∧ negative c4).

End QuadTests.
End QuadTests.

(** The value [dot] of [ValidateQuad] is the dot product of the two unit
    normals. *)
Lemma quadDot_unitNormals `{FloatOps} (p0 p1 p2 p3 : Vertex) :
  quadDot p0 p1 p2 p3
  = QuadTests.dot (QuadTests.unitNormal p0 p1 p2) (QuadTests.unitNormal p0 p2 p3).
Proof. reflexivity. Qed.

(** [isConvex], as [ValidateQuad] calls it, is the convexity test. *)
Lemma quadConvex_convex `{FloatOps} (p0 p1 p2 p3 : Vertex) :
  quadConvex p0 p1 p2 p3 = true ↔ QuadTests.convex p0 p1 p2 p3.
Proof.
  unfold quadConvex, isConvex, turns, crossProductZ, QuadTests.convex, QuadTests.edgeTurns,
    QuadTests.crossZ, QuadTests.edge, QuadTests.xy, QuadTests.positive, QuadTests.negative.
  cbn [fst snd]. rewrite orb_true_iff, !andb_true_iff. tauto.
Qed.

(** C8.  On a quad whose four corners exist, [ValidateQuad] fails with "not
    planar" exactly when the absolute value of the dot product of the unit
    normals of the triangles (v0,v1,v2) and (v0,v2,v3), computed with
    double-precision cross products, is below 0.999; the convexity test
    [isConvex] fails exactly when the four edge-to-edge cross-product z
    components of the corners projected on the XY plane are not all strictly
    positive or all strictly negative, and [ValidateQuad] fails with "not
    convex" exactly when the quad is planar and fails that test; the quad
    passes, [ValidateQuad] returning [nil], exactly when it passes both
    tests. *)
Theorem C8_quad_validation `{FO : FloatOps} (s : Store) (f : Face) (p0 p1 p2 p3 : Vertex) :
  corner s f 0 = Some p0 → corner s f 1 = Some p1 →
  corner s f 2 = Some p2 → corner s f 3 = Some p3 →
  (ValidateQuad s f = Some (errors_New "quad face is not planar") ↔
     ¬ QuadTests.planar p0 p1 p2 p3) ∧
  (quadConvex p0 p1 p2 p3 = false ↔ ¬ QuadTests.convex p0 p1 p2 p3) ∧
  (ValidateQuad s f = Some (errors_New "quad face is not convex") ↔
     QuadTests.planar p0 p1 p2 p3 ∧ ¬ QuadTests.convex p0 p1 p2 p3) ∧
  (ValidateQuad s f = Some nil_error ↔
     QuadTests.planar p0 p1 p2 p3 ∧ QuadTests.convex p0 p1 p2 p3).
Proof.
  intros H0 H1 H2 H3.
  pose proof (quadConvex_convex p0 p1 p2 p3) as Hconv.
  unfold ValidateQuad. rewrite H0, H1, H2, H3. cbn [mbind option_bind].
  rewrite quadDot_unitNormals. unfold QuadTests.planar.
  destruct (f64_abs _ <? _)%f64.
  - repeat split; try done; try (intros [? _]; done).
    + intros Hc Hs. apply Hconv in Hs. congruence.
    + intros Hn. destruct (quadConvex p0 p1 p2 p3); [|done]. destruct Hn. by apply Hconv.
  - destruct (quadConvex p0 p1 p2 p3) eqn:Hc; cbn [negb].
    + assert (QuadTests.convex p0 p1 p2 p3) by by apply Hconv.
      repeat split; try done; try (intros Hn; by destruct Hn); by intros [_ ?].
    + assert (¬ QuadTests.convex p0 p1 p2 p3).
      { intros Hs. apply Hconv in Hs. congruence. }
      repeat split; try done; try (intros Hn; by destruct Hn); by intros [_ ?].
Qed.

Module SampleQuads.
Import Sample.

(** The unit square with its third corner lifted out of the plane. *)
Definition folded : Store := store [V 0 0 0; V 1 0 0; V 1 1 1; V 0 1 0] [] [] [bareQuad] 1.

(** A planar quad with a reflex corner: an arrow head. *)
Definition arrow : Store := store [V 0 0 0; V 3 0 0; V 1 1 0; V 0 3 0] [] [] [bareQuad] 1.

(** A planar quad with three corners on one line. *)
Definition flat : Store := store [V 0 0 0; V 2 0 0; V 1 1 0; V 0 2 0] [] [] [bareQuad] 1.

(** The dot product of the two unit normals and the four turn values (as
    integers: every value here is one) of a quad. *)
Definition dotOf (p0 p1 p2 p3 : Vertex (H := IEEE.ops)) : spec_float :=
  QuadTests.dot (QuadTests.unitNormal p0 p1 p2) (QuadTests.unitNormal p0 p2 p3).
Definition turnsOf (p0 p1 p2 p3 : Vertex (H := IEEE.ops)) : list (option Z) :=
  let '(c1, c2, c3, c4) := QuadTests.edgeTurns p0 p1 p2 p3 in
  map IEEE.trunc [c1; c2; c3; c4].

End SampleQuads.

(** The unit square passes; the folded square is not planar; the arrow
    head is planar and not convex, and so is the quad with a turn value of
    zero. *)
Lemma C8_quad_validation_witness :
  (corner Sample.square Sample.quad 0 = Some (Sample.V 0 0 0) ∧
   corner Sample.square Sample.quad 1 = Some (Sample.V 1 0 0) ∧
   corner Sample.square Sample.quad 2 = Some (Sample.V 1 1 0) ∧
   corner Sample.square Sample.quad 3 = Some (Sample.V 0 1 0) ∧
   SampleQuads.dotOf (Sample.V 0 0 0) (Sample.V 1 0 0) (Sample.V 1 1 0) (Sample.V 0 1 0)
   = IEEE.of_Z64 1 ∧
   SampleQuads.turnsOf (Sample.V 0 0 0) (Sample.V 1 0 0) (Sample.V 1 1 0) (Sample.V 0 1 0)
   = [Some 1; Some 1; Some 1; Some 1]%Z ∧
   ValidateQuad Sample.square Sample.quad = Some nil_error) ∧
  (corner SampleQuads.folded Sample.bareQuad 0 = Some (Sample.V 0 0 0) ∧
   corner SampleQuads.folded Sample.bareQuad 1 = Some (Sample.V 1 0 0) ∧
   corner SampleQuads.folded Sample.bareQuad 2 = Some (Sample.V 1 1 1) ∧
   corner SampleQuads.folded Sample.bareQuad 3 = Some (Sample.V 0 1 0) ∧
   ValidateQuad SampleQuads.folded Sample.bareQuad
   = Some (errors_New "quad face is not planar")) ∧
  (corner SampleQuads.arrow Sample.bareQuad 0 = Some (Sample.V 0 0 0) ∧
   corner SampleQuads.arrow Sample.bareQuad 1 = Some (Sample.V 3 0 0) ∧
   corner SampleQuads.arrow Sample.bareQuad 2 = Some (Sample.V 1 1 0) ∧
   corner SampleQuads.arrow Sample.bareQuad 3 = Some (Sample.V 0 3 0) ∧
   SampleQuads.turnsOf (Sample.V 0 0 0) (Sample.V 3 0 0) (Sample.V 1 1 0) (Sample.V 0 3 0)
   = [Some 3; Some (-3); Some 3; Some 9]%Z ∧
   ValidateQuad SampleQuads.arrow Sample.bareQuad
   = Some (errors_New "quad face is not convex")) ∧
  (corner SampleQuads.flat Sample.bareQuad 0 = Some (Sample.V 0 0 0) ∧
   corner SampleQuads.flat Sample.bareQuad 1 = Some (Sample.V 2 0 0) ∧
   corner SampleQuads.flat Sample.bareQuad 2 = Some (Sample.V 1 1 0) ∧
   corner SampleQuads.flat Sample.bareQuad 3 = Some (Sample.V 0 2 0) ∧
   SampleQuads.turnsOf (Sample.V 0 0 0) (Sample.V 2 0 0) (Sample.V 1 1 0) (Sample.V 0 2 0)
   = [Some 2; Some 0; Some 2; Some 4]%Z ∧
   ValidateQuad SampleQuads.flat Sample.bareQuad
   = Some (errors_New "quad face is not convex")).
Proof.
  split; [|split; [|split]].
  - do 4 (split; [reflexivity|]). split; [by vm_compute|]. split; [by vm_compute|].
    apply (C8_quad_validation Sample.square Sample.quad
             (Sample.V 0 0 0) (Sample.V 1 0 0) (Sample.V 1 1 0) (Sample.V 0 1 0));
      [reflexivity..|].
    split; [by vm_compute|]. left. repeat split; by vm_compute.
  - do 4 (split; [reflexivity|]).
    apply (C8_quad_validation SampleQuads.folded Sample.bareQuad
             (Sample.V 0 0 0) (Sample.V 1 0 0) (Sample.V 1 1 1) (Sample.V 0 1 0));
      [reflexivity..|].
    unfold QuadTests.planar. by vm_compute.
  - do 4 (split; [reflexivity|]). split; [by vm_compute|].
    apply (C8_quad_validation SampleQuads.arrow Sample.bareQuad
             (Sample.V 0 0 0) (Sample.V 3 0 0) (Sample.V 1 1 0) (Sample.V 0 3 0));
      [reflexivity..|].
    split; [by vm_compute|].
    intros [(_ & Hc & _)|(Hc & _)]; by vm_compute in Hc.
  - do 4 (split; [reflexivity|]). split; [by vm_compute|].
    apply (C8_quad_validation SampleQuads.flat Sample.bareQuad
             (Sample.V 0 0 0) (Sample.V 2 0 0) (Sample.V 1 1 0) (Sample.V 0 2 0));
      [reflexivity..|].
    split; [by vm_compute|].
    intros [(_ & Hc & _)|(_ & Hc & _)]; by vm_compute in Hc.
Defined.

(** ** C4: the face records of [WriteOutput] *)

Lemma for_range_fails {St : Type} n lo (body : nat → St → option St) (s : St) (i : nat) :
  (lo ≤ i < lo + n)%nat → (∀ t, body i t = None) → for_range n lo body s = None.
Proof.
  revert lo s. induction n as [|n IH]; intros lo s Hi Hfail; [lia|]. simpl.
  destruct (decide (i = lo)) as [->|Hne].
  - by rewrite Hfail.
  - destruct (body lo s); simpl; [|done]. apply IH; [lia|done].
Qed.

Section WriterFacts.
Context `{FO : FloatOps}.
Variable Float32bits : f32 → N.
Variable byteOrder : ByteOrder.

Lemma putIndices_from n (a : list N) (lo : nat) (out : list N) :
  for_range n lo (λ j out, x ← a !! j; Some (out ++ putUint32 byteOrder x)) out
  = if decide (lo + n ≤ length a ∨ n = 0)%nat
    then Some (out ++ concat (map (putUint32 byteOrder) (take n (drop lo a))))
    else None.
Proof.
  revert lo out. induction n as [|n IH]; intros lo out; cbn [for_range].
  - rewrite decide_True by lia. by rewrite take_0, app_nil_r.
  - destruct (a !! lo) as [x|] eqn:Hx; cbn [mbind option_bind].
    + rewrite IH. apply lookup_lt_Some in Hx as Hlt.
      rewrite (drop_S a x lo Hx). cbn [take map concat].
      destruct (decide (S lo + n ≤ length a ∨ n = 0)%nat).
      * rewrite decide_True by lia. destruct n as [|n].
        -- by rewrite !take_0, app_assoc.
        -- by rewrite app_assoc.
      * rewrite decide_False by lia. done.
    + apply lookup_ge_None in Hx. by rewrite decide_False by lia.
Qed.

Lemma putIndices_spec (edges : N) (a out : list N) :
  putIndices byteOrder edges a out
  = if decide (covers edges a)
    then Some (out ++ concat (map (putUint32 byteOrder) (corners edges a)))
    else None.
Proof.
  unfold putIndices, covers, corners. rewrite putIndices_from, drop_0.
  destruct (decide (N.to_nat edges ≤ length a)%nat).
  - by rewrite decide_True by lia.
  - by rewrite decide_False by lia.
Qed.

(** A face whose three index arrays cover its corners is written as the
    degree byte, the three arrays and the material index. *)
Lemma putFace_covered (f : Face) (out : list N) :
  covers (Face.edges f) (Face.v f) → covers (Face.edges f) (Face.n f) →
  covers (Face.edges f) (Face.uv f) →
  putFace byteOrder f out =
    Some (out ++ [Face.edges f]
              ++ concat (map (putUint32 byteOrder) (corners (Face.edges f) (Face.v f)))
              ++ concat (map (putUint32 byteOrder) (corners (Face.edges f) (Face.n f)))
              ++ concat (map (putUint32 byteOrder) (corners (Face.edges f) (Face.uv f)))
              ++ putUint32 byteOrder (Face.materialID f)).
Proof.
  intros Hv Hn Huv. unfold putFace.
  do 3 (rewrite putIndices_spec, decide_True by done; cbn [mbind option_bind]).
  by rewrite <- !app_assoc.
Qed.

(** A face with fewer normal or uv indices than corners is not written at
    all: the index expression panics. *)
Lemma putFace_uncovered (f : Face) (out : list N) :
  ¬ covers (Face.edges f) (Face.n f) ∨ ¬ covers (Face.edges f) (Face.uv f) →
  putFace byteOrder f out = None.
Proof.
  intros H. unfold putFace. rewrite putIndices_spec.
  destruct (decide (covers (Face.edges f) (Face.v f))); cbn [mbind option_bind]; [|done].
  rewrite putIndices_spec.
  destruct (decide (covers (Face.edges f) (Face.n f))); cbn [mbind option_bind]; [|done].
  rewrite putIndices_spec.
  destruct (decide (covers (Face.edges f) (Face.uv f))); cbn [mbind option_bind]; [|done].
  tauto.
Qed.

(** C4, what the code does instead.  Whenever some face lacks normal
    indices (or uv indices) for its corners, as every face of a mesh without
    normals (without texture coordinates) does, [WriteOutput] panics: no
    face record without the normal (uv) array is ever produced. *)
Theorem C4_WriteOutput_panics_on_missing_indices (s : Store) (i : nat) (f : Face) :
  faces s !! i = Some f →
  ¬ covers (Face.edges f) (Face.n f) ∨ ¬ covers (Face.edges f) (Face.uv f) →
  WriteOutput Float32bits byteOrder s = None.
Proof.
  intros Hf Hbad. unfold WriteOutput.
  rewrite (for_range_fails _ _ _ _ i); [done| |].
  - apply lookup_lt_Some in Hf. lia.
  - intros out. rewrite Hf. cbn [mbind option_bind]. by apply putFace_uncovered.
Qed.

End WriterFacts.

Module SampleC4.
Import Sample.

(** One triangle, no normals, no texture coordinates. *)
Definition triangle : Face := Face.mk 3 [0; 1; 2] [] [] [] 0 "" 0 false.
Definition mesh : Store := store [V 0 0 0; V 1 0 0; V 0 1 0] [] [] [triangle] 1.

(** What the face record would be after the header and the three vertices:
    degree, three vertex indices, material index. *)
Definition expectedFaceRecord : list N :=
  [3; 0; 0; 0; 0; 1; 0; 0; 0; 2; 0; 0; 0; 0; 0; 0; 0].

End SampleC4.

Lemma C4_WriteOutput_panics_witness :
  faces SampleC4.mesh !! 0%nat = Some SampleC4.triangle ∧
  ¬ covers (Face.edges SampleC4.triangle) (Face.n SampleC4.triangle) ∧
  WriteOutput (FO := IEEE.ops) IEEE_Float32bits LittleEndian SampleC4.mesh = None.
Proof.
  split; [reflexivity|].
  assert (Hn : ¬ covers (Face.edges SampleC4.triangle) (Face.n SampleC4.triangle)).
  { unfold covers. cbn. lia. }
  split; [exact Hn|].
  apply (C4_WriteOutput_panics_on_missing_indices (FO := IEEE.ops)
           IEEE_Float32bits LittleEndian
           SampleC4.mesh 0 SampleC4.triangle); [reflexivity|by left].
Defined.

(** The failing input of C4: the record the format description asks for
    (normal and uv arrays skipped) against what [putFace] does. *)
Lemma C4_failing_input :
  [Face.edges SampleC4.triangle]
    ++ concat (map (putUint32 LittleEndian) (corners 3 (Face.v SampleC4.triangle)))
    ++ putUint32 LittleEndian (Face.materialID SampleC4.triangle)
  = SampleC4.expectedFaceRecord ∧
  putFace LittleEndian SampleC4.triangle [] = None.
Proof. split; [by vm_compute|]. apply isNone_true. by vm_compute. Qed.

(** ** [DeDupe]: what a pass leaves alone *)

(** Two faces that differ at most in the index array [k] (and the
    [complete] marker): same frame, same other arrays, same number of slots
    in [k]. *)
Definition sameExcept (k : attr) (f f' : Face) : Prop :=
  sameFrame f f' ∧
  (∀ k', k' ≠ k → getA k' f' = getA k' f) ∧
  length (getA k f') = length (getA k f).

Lemma sameExcept_refl k f : sameExcept k f f.
Proof. repeat split. Qed.

Lemma sameExcept_trans k f g h : sameExcept k f g → sameExcept k g h → sameExcept k f h.
Proof.
  intros (Hf1 & Ho1 & Hl1) (Hf2 & Ho2 & Hl2). split; [by eapply sameFrame_trans|]. split.
  - intros k' Hk'. rewrite Ho2, Ho1; done.
  - congruence.
Qed.

Lemma sameExcept_setA k a f :
  length a = length (getA k f) → sameExcept k f (setA k a f).
Proof.
  intros Hlen. split; [apply sameFrame_setA|].
  split; [intros k' Hk'; by apply getA_setA_ne|]. by rewrite getA_setA.
Qed.

Lemma sameExcept_set_complete k b f : sameExcept k f (Face.set_complete b f).
Proof.
  split; [apply sameFrame_set_complete|].
  split; [by intros [] _|by destruct k].
Qed.

Lemma sameExcept_onCorners k h f : sameExcept k f (onCorners k h f).
Proof. apply sameExcept_setA, length_mapCorners. Qed.

Lemma Forall2_sameExcept_refl k fs : Forall2 (sameExcept k) fs fs.
Proof. apply Forall_Forall2_diag, Forall_forall. intros. apply sameExcept_refl. Qed.

Lemma Forall2_sameExcept_trans k fs gs hs :
  Forall2 (sameExcept k) fs gs → Forall2 (sameExcept k) gs hs → Forall2 (sameExcept k) fs hs.
Proof.
  intros H1 H2. eapply Forall2_trans; [|done..]. intros ???. apply sameExcept_trans.
Qed.

Lemma Forall2_sameExcept_map k h fs : Forall2 (sameExcept k) fs (map (onCorners k h) fs).
Proof.
  apply Forall2_fmap_r, Forall_Forall2_diag, Forall_forall.
  intros. apply sameExcept_onCorners.
Qed.

Lemma eachFace_sameExcept k h fs fs' :
  eachFace (getA k) (setA k) h fs = Some fs' → Forall2 (sameExcept k) fs fs'.
Proof.
  rewrite eachFace_spec. destruct (decide _); [|done].
  intros [= <-]. apply Forall2_sameExcept_map.
Qed.

Lemma Forall2_insert_same {A : Type} (R : A → A → Prop) (l : list A) (j : nat) (x y : A) :
  (∀ a, R a a) → l !! j = Some x → R x y → Forall2 R l (<[j:=y]> l).
Proof.
  intros Hrefl Hj Hxy.
  rewrite <- (list_insert_id l j x Hj) at 1.
  apply Forall2_insert; [|done]. apply Forall_Forall2_diag, Forall_forall. auto.
Qed.

Section DedupeFacts.
Context {A : Type}.
Variable skip : A → bool.
Variable near : A → A → bool.
Variable isFlushed : A → bool.
Variable flush : A → A.
Variable k : attr.
Hypothesis flush_flushed : ∀ a, isFlushed (flush a) = true.

(** An entry after the marking loops: as it was, or flagged. *)
Definition keptOrFlushed (a a' : A) : Prop := a' = a ∨ isFlushed a' = true.

Definition passRel (st st' : pass) : Prop :=
  Forall2 keptOrFlushed st.1.1 st'.1.1 ∧ Forall2 (sameExcept k) st.1.2 st'.1.2.

Lemma keptOrFlushed_refl a : keptOrFlushed a a.
Proof. by left. Qed.

Lemma keptOrFlushed_trans a b c : keptOrFlushed a b → keptOrFlushed b c → keptOrFlushed a c.
Proof. unfold keptOrFlushed. intros [->|?] [->|?]; auto. Qed.

Lemma passRel_refl st : passRel st st.
Proof.
  split; [|apply Forall2_sameExcept_refl].
  apply Forall_Forall2_diag, Forall_forall. intros. apply keptOrFlushed_refl.
Qed.

Lemma passRel_trans st1 st2 st3 : passRel st1 st2 → passRel st2 st3 → passRel st1 st3.
Proof.
  intros [Ha1 Hf1] [Ha2 Hf2]. split.
  - eapply Forall2_trans; [|done..]. intros ???. apply keptOrFlushed_trans.
  - by eapply Forall2_sameExcept_trans.
Qed.

Lemma mergeInto_rel i j st st' :
  mergeInto near flush (getA k) (setA k) i j st = Some st' → passRel st st'.
Proof.
  destruct st as [[arr fs] dupes]. unfold mergeInto.
  destruct (arr !! i) as [ai|]; cbn [mbind option_bind]; [|done].
  destruct (arr !! j) as [aj|] eqn:Hj; cbn [mbind option_bind]; [|done].
  destruct (near ai aj); [|intros [= <-]; apply passRel_refl].
  destruct (eachFace _ _ _ fs) as [fs'|] eqn:Hfs; cbn [mbind option_bind]; [|done].
  intros [= <-]. split; cbn.
  - apply (Forall2_insert_same _ _ _ aj); [apply keptOrFlushed_refl|done|].
    right. apply flush_flushed.
  - by eapply eachFace_sameExcept.
Qed.

Lemma markDuplicates_rel st st' :
  markDuplicates skip near flush (getA k) (setA k) st = Some st' → passRel st st'.
Proof.
  unfold markDuplicates. intros Hrun.
  apply (for_range_preserves (passRel st) _ _ _ _ _ Hrun); [apply passRel_refl|].
  intros i t t' _ Ht Hbody.
  destruct (t.1.1 !! i) as [ai|]; cbn [mbind option_bind] in Hbody; [|done].
  destruct (skip ai); [by injection Hbody as <-|].
  apply (for_range_preserves (passRel st) _ _ _ _ _ Hbody); [done|].
  intros j u u' _ Hu Hm. eapply passRel_trans; [done|]. by eapply mergeInto_rel.
Qed.

(** The entries that are not flagged. *)
Definition unflushed (arr : list A) : list A := filter (λ a, isFlushed a = false) arr.

Lemma removeFlushed_spec todo i arr fs arr' fs' :
  removeFlushed isFlushed (getA k) (setA k) todo i arr fs = Some (arr', fs') →
  length arr = (i + todo)%nat →
  arr' = take i arr ++ unflushed (drop i arr) ∧ Forall2 (sameExcept k) fs fs'.
Proof.
  revert i arr fs. induction todo as [|todo IH]; intros i arr fs Hrun Hlen.
  - injection Hrun as <- <-. split; [|apply Forall2_sameExcept_refl].
    rewrite drop_ge by lia. rewrite take_ge by lia. by rewrite app_nil_r.
  - cbn [removeFlushed] in Hrun.
    destruct (arr !! i) as [ai|] eqn:Hi; cbn [mbind option_bind] in Hrun; [|done].
    rewrite (drop_S arr ai i Hi). unfold unflushed. rewrite filter_cons.
    destruct (isFlushed ai) eqn:Hfl.
    + unfold RemoveAtIndex in Hrun.
      destruct (decide (i + 1 ≤ length arr)%nat); cbn [mbind option_bind] in Hrun; [|done].
      destruct (eachFace _ _ _ fs) as [fs1|] eqn:Hfs; cbn [mbind option_bind] in Hrun; [|done].
      apply IH in Hrun as [-> Hfs'].
      2:{ rewrite length_delete by (by eexists). lia. }
      rewrite decide_False by done. split.
      * rewrite delete_take_drop.
        rewrite take_app_length' by (rewrite length_take; lia).
        by rewrite drop_app_length' by (rewrite length_take; lia).
      * eapply Forall2_sameExcept_trans; [|done]. by eapply eachFace_sameExcept.
    + apply IH in Hrun as [-> Hfs']; [|lia].
      rewrite decide_True by done. split; [|done].
      rewrite (take_S_r arr i ai Hi). by rewrite <- app_assoc.
Qed.

Lemma sublist_unflushed arr marked :
  Forall2 keptOrFlushed arr marked → sublist (unflushed marked) arr.
Proof.
  unfold unflushed. induction 1 as [|a a' arr marked Ha _ IH]; [constructor|].
  rewrite filter_cons. destruct (decide (isFlushed a' = false)) as [Hfl|Hfl].
  - destruct Ha as [->|Ha]; [by constructor|congruence].
  - by constructor.
Qed.

Lemma dedupePass_frame arr fs arr' fs' dupes :
  dedupePass skip near isFlushed flush (getA k) (setA k) arr fs = Some (arr', fs', dupes) →
  sublist arr' arr ∧ Forall2 (sameExcept k) fs fs' ∧
  Forall (λ a, isFlushed a = false) arr'.
Proof.
  unfold dedupePass. intros Hrun.
  destruct (markDuplicates _ _ _ _ _ _) as [[[arr1 fs1] d1]|] eqn:Hmark;
    cbn [mbind option_bind] in Hrun; [|done].
  destruct (removeFlushed _ _ _ _ _ _ _) as [[arr2 fs2]|] eqn:Hrem;
    cbn [mbind option_bind] in Hrun; [|done].
  injection Hrun as <- <- <-.
  apply markDuplicates_rel in Hmark as [Harr Hfs]. cbn in Harr, Hfs.
  apply removeFlushed_spec in Hrem as [-> Hfs2]; [|done].
  rewrite take_0, drop_0. cbn [app]. split; [by apply sublist_unflushed|].
  split; [by eapply Forall2_sameExcept_trans|].
  apply Forall_forall. intros a Ha. unfold unflushed in Ha.
  by apply list_elem_of_filter in Ha as [? _].
Qed.

(** Nothing is skipped-over, nothing is flagged: the pass does nothing. *)
Lemma removeFlushed_none todo i arr fs :
  Forall (λ a, isFlushed a = false) arr → length arr = (i + todo)%nat →
  removeFlushed isFlushed (getA k) (setA k) todo i arr fs = Some (arr, fs).
Proof.
  intros Hall. revert i. induction todo as [|todo IH]; intros i Hlen; [done|].
  cbn [removeFlushed].
  destruct (lookup_lt_is_Some_2 arr i) as [ai Hi]; [lia|]. rewrite Hi. cbn [mbind option_bind].
  rewrite Forall_forall in Hall. rewrite (Hall ai) by (by eapply list_elem_of_lookup_2).
  apply IH. lia.
Qed.

Lemma for_range_skip {St : Type} n lo (body : nat → St → option St) (s : St) :
  (∀ i, (lo ≤ i < lo + n)%nat → body i s = Some s) → for_range n lo body s = Some s.
Proof.
  revert lo. induction n as [|n IH]; intros lo Hb; [done|]. simpl.
  rewrite Hb by lia. simpl. apply IH. intros i Hi. apply Hb. lia.
Qed.

Lemma dedupePass_all_skipped arr fs :
  Forall (λ a, skip a = true ∧ isFlushed a = false) arr →
  dedupePass skip near isFlushed flush (getA k) (setA k) arr fs = Some (arr, fs, 0%nat).
Proof.
  intros Hall. unfold dedupePass, markDuplicates. cbn [fst snd].
  rewrite for_range_skip.
  2:{ intros i Hi. cbn [fst snd].
      destruct (lookup_lt_is_Some_2 arr i) as [ai Hai]; [lia|]. rewrite Hai.
      cbn [mbind option_bind]. rewrite Forall_forall in Hall.
      by destruct (Hall ai) as [-> _]; [by eapply list_elem_of_lookup_2|]. }
  cbn [mbind option_bind]. rewrite removeFlushed_none; [done| |done].
  eapply Forall_impl; [done|]. by intros a [_ ?].
Qed.

End DedupeFacts.

Definition isSome {A : Type} (r : option A) : bool :=
  match r with None => false | Some _ => true end.

Lemma isSome_true {A : Type} (r : option A) : isSome r = true → ∃ x, r = Some x.
Proof. destruct r; [eauto|done]. Qed.

(** What [DeDupe] and [OptimiseMesh] keep of a face: everything except the
    contents of the three index arrays and the [complete] marker. *)
Definition sameShape (f f' : Face) : Prop :=
  sameFrame f f' ∧ ∀ k, length (getA k f') = length (getA k f).

Lemma sameExcept_sameShape k f f' : sameExcept k f f' → sameShape f f'.
Proof.
  intros (Hfr & Ho & Hl). split; [done|]. intros k'.
  destruct (decide (k' = k)) as [->|Hne]; [done|]. by rewrite Ho.
Qed.

Lemma sameShape_refl f : sameShape f f.
Proof. split; [apply sameFrame_refl|done]. Qed.

Lemma sameShape_trans f g h : sameShape f g → sameShape g h → sameShape f h.
Proof.
  intros [Hf1 Hl1] [Hf2 Hl2]. split; [by eapply sameFrame_trans|].
  intros k. by rewrite Hl2.
Qed.

Lemma Forall2_sameShape_trans fs gs hs :
  Forall2 sameShape fs gs → Forall2 sameShape gs hs → Forall2 sameShape fs hs.
Proof. intros H1 H2. eapply Forall2_trans; [|done..]. intros ???. apply sameShape_trans. Qed.

Lemma Forall2_sameExcept_sameShape k fs fs' :
  Forall2 (sameExcept k) fs fs' → Forall2 sameShape fs fs'.
Proof. intros H. eapply Forall2_impl; [done|]. intros ??. apply sameExcept_sameShape. Qed.

(** The normals that survive [DeDupe] are normals of the input, in order. *)
Lemma DeDupe_normals_sublist `{FO : FloatOps} (vT nT uvT : f64) (s s' : Store)
    (counts : nat * nat * nat) :
  DeDupe vT nT uvT s = Some (s', counts) → sublist (normals s') (normals s).
Proof.
  unfold DeDupe, dedupeVertices, dedupeNormals, dedupeTextureCoords. intros Hrun.
  destruct (dedupePass _ _ _ _ _ _ (vertices s) _) as [[[vs fs1] dv]|] eqn:Hv;
    cbn [mbind option_bind] in Hrun; [|done].
  destruct (dedupePass _ _ _ _ _ _ (normals s) _) as [[[ns fs2] dn]|] eqn:Hn;
    cbn [mbind option_bind] in Hrun; [|done].
  destruct (dedupePass _ _ _ _ _ _ (textureCoords s) _) as [[[ts fs3] du]|] eqn:Hu;
    cbn [mbind option_bind] in Hrun; [|done].
  injection Hrun as <- <-. cbn.
  by apply (dedupePass_frame _ _ _ _ AttrN) in Hn as (Hsn & _).
Qed.

(** ** C10: the frame of [DeDupe] *)

(** C10.  A run of [DeDupe] keeps the number of faces and, face by face, the
    edge count, the material id and name, the tangent array, the Morton code
    and the length of every index array; each attribute array afterwards is
    a sublist of the array before (the surviving entries, unchanged and in
    their order); materials, bounding sphere, vertex type and the capacity
    of the face slice are untouched. *)
Theorem C10_DeDupe_frame `{FO : FloatOps} (vT nT uvT : f64) (s s' : Store)
    (counts : nat * nat * nat) :
  DeDupe vT nT uvT s = Some (s', counts) →
  length (faces s') = length (faces s) ∧
  Forall2 sameShape (faces s) (faces s') ∧
  sublist (vertices s') (vertices s) ∧
  sublist (normals s') (normals s) ∧
  sublist (textureCoords s') (textureCoords s) ∧
  materials s' = materials s ∧ boundSphere s' = boundSphere s ∧
  vertexType s' = vertexType s ∧ facesCap s' = facesCap s.
Proof.
  unfold DeDupe, dedupeVertices, dedupeNormals, dedupeTextureCoords. intros Hrun.
  destruct (dedupePass _ _ _ _ _ _ (vertices s) _) as [[[vs fs1] dv]|] eqn:Hv;
    cbn [mbind option_bind] in Hrun; [|done].
  destruct (dedupePass _ _ _ _ _ _ (normals s) _) as [[[ns fs2] dn]|] eqn:Hn;
    cbn [mbind option_bind] in Hrun; [|done].
  destruct (dedupePass _ _ _ _ _ _ (textureCoords s) _) as [[[ts fs3] du]|] eqn:Hu;
    cbn [mbind option_bind] in Hrun; [|done].
  injection Hrun as <- <-. cbn.
  apply (dedupePass_frame _ _ _ _ AttrV) in Hv as (Hsv & Hf1 & _); [|done].
  apply (dedupePass_frame _ _ _ _ AttrN) in Hn as (Hsn & Hf2 & _); [|done].
  apply (dedupePass_frame _ _ _ _ AttrUV) in Hu as (Hsu & Hf3 & _); [|done].
  assert (Hfs : Forall2 sameShape (faces s) fs3).
  { eapply Forall2_sameShape_trans; [by eapply Forall2_sameExcept_sameShape|].
    eapply Forall2_sameShape_trans; by eapply Forall2_sameExcept_sameShape. }
  repeat split; try done. symmetry. by eapply Forall2_length.
Qed.

(** ** C3: the vertex pass *)

(** C3, what the code does instead.  The vertex loop starts with
    [if !vertices[i].flushed { continue }], so on a store whose vertices
    carry no flag (every store the reader produces) it compares nothing:
    [DeDupe] returns the vertex array and every face's vertex indices as
    they were and counts no merged vertex, whatever the tolerance. *)
Theorem C3_vertex_pass_merges_nothing `{FO : FloatOps} (vT nT uvT : f64) (s s' : Store)
    (dupeV dupeN dupeU : nat) :
  Forall (λ p, Vertex.flushed p = false) (vertices s) →
  DeDupe vT nT uvT s = Some (s', (dupeV, dupeN, dupeU)) →
  vertices s' = vertices s ∧ dupeV = 0%nat ∧
  map Face.v (faces s') = map Face.v (faces s).
Proof.
  intros Hflags. unfold DeDupe, dedupeVertices, dedupeNormals, dedupeTextureCoords.
  rewrite (dedupePass_all_skipped _ _ _ _ AttrV).
  2:{ eapply Forall_impl; [done|]. cbn. by intros p ->. }
  cbn [mbind option_bind]. intros Hrun.
  destruct (dedupePass _ _ _ _ _ _ (normals s) _) as [[[ns fs2] dn]|] eqn:Hn;
    cbn [mbind option_bind] in Hrun; [|done].
  destruct (dedupePass _ _ _ _ _ _ (textureCoords s) _) as [[[ts fs3] du]|] eqn:Hu;
    cbn [mbind option_bind] in Hrun; [|done].
  injection Hrun as <- <- <- <-. cbn. split; [done|]. split; [done|].
  apply (dedupePass_frame _ _ _ _ AttrN) in Hn as (_ & Hf2 & _); [|done].
  apply (dedupePass_frame _ _ _ _ AttrUV) in Hu as (_ & Hf3 & _); [|done].
  assert (Hfs : Forall2 (λ f f', Face.v f' = Face.v f) (faces s) fs3).
  { eapply Forall2_trans; [|done..]. intros f g h (_ & Hg & _) (_ & Hh & _).
    change (getA AttrV h = getA AttrV f). by rewrite Hh, Hg. }
  clear -Hfs. induction Hfs; [done|]. cbn. congruence.
Qed.

Module SampleC3.
Import Sample.
#[local] Existing Instance IEEE.ops.

(** Vertices 0 and 1 coincide; the two normals coincide as well. *)
Definition mesh : Store :=
  store [V 0 0 0; V 0 0 0; V 0 1 0] [Nm 0 0 1; Nm 0 0 1] [T 0 0]
    [Face.mk 3 [0; 1; 2] [0; 1; 1] [] [0; 0; 0] 0 "" 0 false] 1.

Definition vT : spec_float := IEEE.lit64 1 10000.
Definition nT : spec_float := IEEE.lit64 1 100000.
Definition uvT : spec_float := IEEE.lit64 1 100000.

(** The lengths of the three arrays, the index arrays of the faces and the
    three counts after [DeDupe]. *)
Definition summary (r : option (Store * (nat * nat * nat)))
  : option (nat * nat * nat * list (list N) * list (list N) * (nat * nat * nat)) :=
  '(s, c) ← r;
  Some (length (vertices s), length (normals s), length (textureCoords s),
        map Face.v (faces s), map Face.n (faces s), c).

Definition run : option (Store * (nat * nat * nat)) := DeDupe vT nT uvT mesh.

End SampleC3.

Lemma C3_vertex_pass_merges_nothing_witness :
  Forall (λ p, Vertex.flushed p = false) (vertices SampleC3.mesh) ∧
  ∃ s' counts,
    SampleC3.run = Some (s', counts) ∧ vertices s' = vertices SampleC3.mesh.
Proof.
  assert (Hflags : Forall (λ p, Vertex.flushed p = false) (vertices SampleC3.mesh)).
  { repeat constructor. }
  split; [exact Hflags|].
  destruct (isSome_true SampleC3.run) as [[s' [[dv dn] du]] Hrun]; [by vm_compute|].
  exists s', (dv, dn, du). split; [exact Hrun|].
  exact (proj1 (C3_vertex_pass_merges_nothing (FO := IEEE.ops)
                  SampleC3.vT SampleC3.nT SampleC3.uvT SampleC3.mesh s' dv dn du
                  Hflags Hrun)).
Defined.

(** The failing input of C3: the first two vertices are at distance 0, below
    the tolerance, yet all three vertices survive and the face still refers
    to the second one; the normal pass, written the other way round, does
    merge the two coincident normals. *)
Lemma C3_failing_input :
  nearVertex (FO := IEEE.ops) SampleC3.vT (Sample.V 0 0 0) (Sample.V 0 0 0) = true ∧
  SampleC3.summary SampleC3.run
  = Some (3%nat, 1%nat, 1%nat, [[0; 1; 2]], [[0; 0; 0]], (0%nat, 1%nat, 0%nat)).
Proof. split; by vm_compute. Qed.

Lemma C10_DeDupe_frame_witness :
  ∃ s' counts,
    SampleC3.run = Some (s', counts) ∧
    length (faces s') = length (faces SampleC3.mesh) ∧
    sublist (normals s') (normals SampleC3.mesh).
Proof.
  destruct (isSome_true SampleC3.run) as [[s' counts] Hrun]; [by vm_compute|].
  exists s', counts. split; [exact Hrun|].
  destruct (C10_DeDupe_frame (FO := IEEE.ops) SampleC3.vT SampleC3.nT SampleC3.uvT
              SampleC3.mesh s' counts Hrun) as (Hlen & _ & _ & Hn & _).
  by split.
Defined.

(** ** Valid references *)

(** Every corner of array [k] is an index below [len]. *)
Definition validAttr (k : attr) (len : nat) (fs : list Face) : Prop :=
  ∀ f x, f ∈ fs → x ∈ corners (Face.edges f) (getA k f) → (N.to_nat x < len)%nat.

(** Invariant (a) of the data model: every corner of every face is a valid
    index into its attribute array.  The corners are the first [edges]
    slots of an index array, the only ones any loop reads. *)
Definition validStore `{FloatOps} (s : Store) : Prop :=
  validAttr AttrV (length (vertices s)) (faces s) ∧
  validAttr AttrN (length (normals s)) (faces s) ∧
  validAttr AttrUV (length (textureCoords s)) (faces s).

(** No entry carries the [flushed] flag: the state in which the reader
    leaves the store, and in which each stage leaves it in turn. *)
Definition noFlags `{FloatOps} (s : Store) : Prop :=
  Forall (λ p, Vertex.flushed p = false) (vertices s) ∧
  Forall (λ p, Normal.flushed p = false) (normals s) ∧
  Forall (λ p, TextureCoord.flushed p = false) (textureCoords s).

(** The arrays are within reach of a [uint32] index. *)
Definition addressable `{FloatOps} (s : Store) : Prop :=
  (N.of_nat (length (vertices s)) < 2 ^ 32) ∧
  (N.of_nat (length (normals s)) < 2 ^ 32) ∧
  (N.of_nat (length (textureCoords s)) < 2 ^ 32) ∧
  (N.of_nat (length (faces s)) < 2 ^ 32).

Lemma u32_small (x : N) : x < 2 ^ 32 → u32 x = x.
Proof. intros. unfold u32. by apply N.mod_small. Qed.

Lemma u32_of_nat (i len : nat) :
  (i < len)%nat → N.of_nat len < 2 ^ 32 → N.to_nat (u32 (N.of_nat i)) = i.
Proof. intros. rewrite u32_small by lia. lia. Qed.

Lemma validAttr_sameExcept k k' len fs fs' :
  k' ≠ k → Forall2 (sameExcept k) fs fs' → validAttr k' len fs → validAttr k' len fs'.
Proof.
  intros Hne Hfs Hvalid f' x Hf' Hx.
  apply list_elem_of_lookup in Hf' as [i Hi].
  destruct (Forall2_lookup_r _ _ _ _ _ Hfs Hi) as (f & Hf & (Hfr & Ho & _)).
  destruct Hfr as (He & _). rewrite He, (Ho k' Hne) in Hx.
  apply (Hvalid f x); [by eapply list_elem_of_lookup_2|done].
Qed.

Section DedupeValid.
Context {A : Type}.
Variable near : A → A → bool.
Variable isFlushed : A → bool.
Variable flush : A → A.
Variable k : attr.

(** Every corner of array [k] refers to an entry that is not flagged. *)
Definition refsLive (arr : list A) (fs : list Face) : Prop :=
  ∀ f x, f ∈ fs → x ∈ corners (Face.edges f) (getA k f) →
    ∃ a, index arr x = Some a ∧ isFlushed a = false.

Lemma refsLive_valid arr fs : refsLive arr fs → validAttr k (length arr) fs.
Proof.
  intros H f x Hf Hx. destruct (H f x Hf Hx) as (a & Ha & _).
  by apply lookup_lt_Some in Ha.
Qed.

Lemma valid_refsLive arr fs :
  Forall (λ a, isFlushed a = false) arr → validAttr k (length arr) fs → refsLive arr fs.
Proof.
  intros Hall H f x Hf Hx. destruct (lookup_lt_is_Some_2 arr (N.to_nat x)) as [a Ha].
  { by eapply H. }
  exists a. split; [done|]. exact (Forall_lookup_1 _ _ _ _ Hall Ha).
Qed.

Lemma refsLive_onCorners (h : N → N) arr arr' fs :
  (∀ x a, index arr x = Some a → isFlushed a = false →
          ∃ a', index arr' (h x) = Some a' ∧ isFlushed a' = false) →
  refsLive arr fs → refsLive arr' (map (onCorners k h) fs).
Proof.
  intros Hh Hlive f' x' Hf' Hx'.
  apply list_elem_of_fmap in Hf' as (f & -> & Hf).
  unfold onCorners in Hx'. rewrite edges_setA, getA_setA, corners_mapCorners in Hx'.
  apply list_elem_of_fmap in Hx' as (x & -> & Hx).
  destruct (Hlive f x Hf Hx) as (a & Ha & Hfl). by eapply Hh.
Qed.

Lemma mergeInto_live i j arr fs dupes arr' fs' dupes' ai :
  (i < j)%nat → N.of_nat (length arr) < 2 ^ 32 →
  arr !! i = Some ai → isFlushed ai = false →
  refsLive arr fs →
  mergeInto near flush (getA k) (setA k) i j (arr, fs, dupes) = Some (arr', fs', dupes') →
  refsLive arr' fs' ∧ length arr' = length arr ∧ arr' !! i = Some ai.
Proof.
  intros Hij Hlen Hi Hfl Hlive. unfold mergeInto. rewrite Hi. cbn [mbind option_bind].
  destruct (arr !! j) as [aj|] eqn:Hj; cbn [mbind option_bind]; [|done].
  destruct (near ai aj); [|by intros [= <- <- <-]].
  rewrite eachFace_spec. destruct (decide _); cbn [mbind option_bind]; [|done].
  intros [= <- <- <-]. apply lookup_lt_Some in Hj as Hjlt.
  split; [|split; [by rewrite length_insert|by rewrite list_lookup_insert_ne by lia]].
  apply (refsLive_onCorners _ arr); [|done].
  intros x a Ha Hafl. unfold redirect, index in *.
  destruct (N.eqb_spec x (u32 (N.of_nat j))) as [->|Hne].
  - exists ai. split; [|done].
    rewrite (u32_of_nat i (length arr)) by (done || lia).
    by rewrite list_lookup_insert_ne by lia.
  - exists a. split; [|done]. rewrite list_lookup_insert_ne; [done|].
    intros Heq. apply Hne. rewrite u32_small by lia. lia.
Qed.

Lemma markDuplicates_live arr fs dupes arr' fs' dupes' :
  N.of_nat (length arr) < 2 ^ 32 → refsLive arr fs →
  markDuplicates isFlushed near flush (getA k) (setA k) (arr, fs, dupes)
    = Some (arr', fs', dupes') →
  refsLive arr' fs' ∧ length arr' = length arr.
Proof.
  intros Hlen Hlive Hrun. unfold markDuplicates in Hrun. cbn [fst snd] in Hrun.
  pose (P := λ st : @pass A, refsLive st.1.1 st.1.2 ∧ length st.1.1 = length arr).
  apply (for_range_preserves P _ _ _ _ _ Hrun); [by split|].
  intros i [[arr1 fs1] d1] [[arr2 fs2] d2] Hi [Hl1 Hlen1] Hbody. cbn [fst snd] in *.
  destruct (arr1 !! i) as [ai|] eqn:Hai; cbn [mbind option_bind] in Hbody; [|done].
  destruct (isFlushed ai) eqn:Hfl; [by injection Hbody as <- <- <-|].
  pose (Q := λ st : @pass A,
          refsLive st.1.1 st.1.2 ∧ length st.1.1 = length arr ∧ st.1.1 !! i = Some ai).
  assert (HQ : Q (arr2, fs2, d2)); [|by destruct HQ as (? & ? & _)].
  apply (for_range_preserves Q _ _ _ _ _ Hbody); [by repeat split|].
  intros j [[arr3 fs3] d3] [[arr4 fs4] d4] Hj (Hl3 & Hlen3 & Hi3) Hm. cbn [fst snd] in *.
  destruct (mergeInto_live i j arr3 fs3 d3 arr4 fs4 d4 ai) as (? & ? & ?);
    try done; [lia|by rewrite Hlen3|].
  unfold Q. cbn [fst snd]. split; [done|]. split; [congruence|done].
Qed.

Lemma removeFlushed_live todo i arr fs arr' fs' :
  N.of_nat (length arr) < 2 ^ 32 → length arr = (i + todo)%nat → refsLive arr fs →
  removeFlushed isFlushed (getA k) (setA k) todo i arr fs = Some (arr', fs') →
  refsLive arr' fs'.
Proof.
  revert i arr fs. induction todo as [|todo IH]; intros i arr fs Hlt Hlen Hlive Hrun.
  - by injection Hrun as <- <-.
  - cbn [removeFlushed] in Hrun.
    destruct (arr !! i) as [ai|] eqn:Hi; cbn [mbind option_bind] in Hrun; [|done].
    destruct (isFlushed ai) eqn:Hfl; [|apply (IH (S i) arr fs); (done || lia)].
    unfold RemoveAtIndex in Hrun.
    destruct (decide (i + 1 ≤ length arr)%nat); cbn [mbind option_bind] in Hrun; [|done].
    rewrite eachFace_spec in Hrun.
    destruct (decide _); cbn [mbind option_bind] in Hrun; [|done].
    assert (Hdel : length (delete i arr) = (i + todo)%nat).
    { rewrite length_delete by (by eexists). lia. }
    eapply (IH i (delete i arr)); [lia|done| |done].
    apply (refsLive_onCorners _ arr); [|done].
    intros x a Ha Hafl. unfold shiftDown, index in *. exists a. split; [|done].
    rewrite (u32_small (N.of_nat i)) by lia.
    assert (N.to_nat x ≠ i) by (intros Heq; rewrite Heq in Ha; congruence).
    destruct (N.ltb_spec (N.of_nat i) x).
    + rewrite list_lookup_delete_ge by lia.
      by replace (S (N.to_nat (x - 1))) with (N.to_nat x) by lia.
    + by rewrite list_lookup_delete_lt by lia.
Qed.

Lemma dedupePass_valid arr fs arr' fs' dupes :
  N.of_nat (length arr) < 2 ^ 32 →
  Forall (λ a, isFlushed a = false) arr → validAttr k (length arr) fs →
  dedupePass isFlushed near isFlushed flush (getA k) (setA k) arr fs
    = Some (arr', fs', dupes) →
  validAttr k (length arr') fs'.
Proof.
  intros Hlt Hall Hvalid. unfold dedupePass. intros Hrun.
  destruct (markDuplicates _ _ _ _ _ _) as [[[arr1 fs1] d1]|] eqn:Hmark;
    cbn [mbind option_bind] in Hrun; [|done].
  destruct (removeFlushed _ _ _ _ _ _ _) as [[arr2 fs2]|] eqn:Hrem;
    cbn [mbind option_bind] in Hrun; [|done].
  injection Hrun as <- <- <-.
  apply markDuplicates_live in Hmark as [Hlive Hlen]; [|done|by apply valid_refsLive].
  apply refsLive_valid.
  apply (removeFlushed_live (length arr1) 0 arr1 fs1 arr2 fs2); [lia|done|done|done].
Qed.

End DedupeValid.

(** [DeDupe] keeps the face references valid, leaves no flag behind and
    does not lengthen any array. *)
Lemma DeDupe_valid `{FO : FloatOps} (vT nT uvT : f64) (s s' : Store)
    (counts : nat * nat * nat) :
  validStore s → noFlags s → addressable s →
  DeDupe vT nT uvT s = Some (s', counts) →
  validStore s' ∧ noFlags s' ∧ addressable s'.
Proof.
  intros (Hv & Hn & Hu) (Fv & Fn & Fu) (Av & An & Au & Af).
  unfold DeDupe, dedupeVertices, dedupeNormals, dedupeTextureCoords.
  rewrite (dedupePass_all_skipped _ _ _ _ AttrV).
  2:{ eapply Forall_impl; [exact Fv|]. cbn. by intros p ->. }
  cbn [mbind option_bind]. intros Hrun.
  destruct (dedupePass _ _ _ _ _ _ (normals s) _) as [[[ns fs2] dn]|] eqn:Hpn;
    cbn [mbind option_bind] in Hrun; [|done].
  destruct (dedupePass _ _ _ _ _ _ (textureCoords s) _) as [[[ts fs3] du]|] eqn:Hpu;
    cbn [mbind option_bind] in Hrun; [|done].
  injection Hrun as <- <-.
  pose proof (dedupePass_valid _ _ _ AttrN _ _ _ _ _ An Fn Hn Hpn) as Hn2.
  apply (dedupePass_frame _ _ _ _ AttrN) in Hpn as (Hsn & Hf2 & Fn2); [|done].
  assert (Hu2 : validAttr AttrUV (length (textureCoords s)) fs2).
  { by eapply (validAttr_sameExcept AttrN AttrUV). }
  pose proof (dedupePass_valid _ _ _ AttrUV _ _ _ _ _ Au Fu Hu2 Hpu) as Hu3.
  apply (dedupePass_frame _ _ _ _ AttrUV) in Hpu as (Hsu & Hf3 & Fu3); [|done].
  apply sublist_length in Hsn, Hsu.
  apply Forall2_length in Hf2 as Hl2. apply Forall2_length in Hf3 as Hl3.
  split; [|split].
  - split; [|split]; cbn.
    + eapply (validAttr_sameExcept AttrUV AttrV); [done|done|].
      by eapply (validAttr_sameExcept AttrN AttrV).
    + by eapply (validAttr_sameExcept AttrUV AttrN).
    + done.
  - by repeat split.
  - repeat split; cbn; lia.
Qed.

(** ** The remap blocks of [OptimiseMesh] *)

(** A loop that reads the items of a fixed list one by one. *)
Fixpoint forEach {St X : Type} (g : X → St → option St) (l : list X) (s : St) : option St :=
  match l with
  | [] => Some s
  | x :: l => s' ← g x s; forEach g l s'
  end.

Lemma for_range_forEach {St X : Type} (g : X → St → option St) (done_ l : list X) (s : St) :
  for_range (length l) (length done_) (λ i s, x ← (done_ ++ l) !! i; g x s) s
  = forEach g l s.
Proof.
  revert done_ s. induction l as [|x l IH]; intros done_ s; [done|]. cbn [length for_range forEach].
  rewrite lookup_app_r, Nat.sub_diag by lia. cbn [lookup list_lookup mbind option_bind].
  destruct (g x s) as [s'|]; cbn [mbind option_bind]; [|done].
  replace (done_ ++ x :: l) with ((done_ ++ [x]) ++ l) by (by rewrite <- app_assoc).
  replace (S (length done_)) with (length (done_ ++ [x])) by (rewrite length_app; cbn; lia).
  apply IH.
Qed.

Lemma clearComplete_spec (fs : list Face) :
  clearComplete fs = Some (map (Face.set_complete false) fs).
Proof.
  unfold clearComplete.
  rewrite (for_range_ext _ _ _
    (λ i l, x ← l !! i; y ← Some (Face.set_complete false x); Some (<[i:=y]> l))).
  2:{ intros i l. by destruct (l !! i). }
  rewrite for_range_mapM_0. induction fs as [|f fs IH]; [done|].
  cbn [mapM map mbind option_bind]. by rewrite IH.
Qed.

Section ReindexFacts.
Context {A : Type}.
Variable isFlushed : A → bool.
Variable flush : A → A.
Variable k : attr.
Hypothesis flush_flushed : ∀ a, isFlushed (flush a) = true.

(** Entry [x] exists and carries no flag / carries the flag. *)
Definition live (arr : list A) (x : N) : Prop :=
  ∃ a, index arr x = Some a ∧ isFlushed a = false.
Definition dead (arr : list A) (x : N) : Prop :=
  ∃ a, index arr x = Some a ∧ isFlushed a = true.

(** Face [p] is listed among the users of entry [x]. *)
Definition recorded (use : list (list N)) (p : nat) (x : N) : Prop :=
  ∃ users, index use x = Some users ∧ u32 (N.of_nat p) ∈ users.

Lemma recorded_insert use p x idx users i :
  index use idx = Some users → recorded use p x →
  recorded (<[N.to_nat idx := users ++ [u32 (N.of_nat i)]]> use) p x.
Proof.
  intros Hidx (us & Hx & Hp). unfold recorded, index in *.
  destruct (decide (N.to_nat idx = N.to_nat x)) as [Heq|Hne].
  - rewrite Heq in *. rewrite list_lookup_insert_eq by (by eapply lookup_lt_Some).
    eexists. split; [done|]. apply elem_of_app. left. congruence.
  - rewrite list_lookup_insert_ne by done. eauto.
Qed.

Lemma buildUse_spec len (fs : list Face) use :
  buildUse (getA k) len fs = Some use →
  length use = len ∧
  ∀ p f l x, fs !! p = Some f → (l < N.to_nat (Face.edges f))%nat →
             getA k f !! l = Some x → recorded use p x.
Proof.
  unfold buildUse. intros Hrun.
  pose (P := λ (i : nat) (use : list (list N)),
          length use = len ∧
          ∀ p f l x, (p < i)%nat → fs !! p = Some f → (l < N.to_nat (Face.edges f))%nat →
                     getA k f !! l = Some x → recorded use p x).
  assert (HP : P (0 + length fs)%nat use).
  { apply (for_range_inv P _ _ _ _ _ Hrun).
    - split; [apply length_replicate|]. intros; lia.
    - intros i u u' Hi [Hlen Hrec] Hbody.
      destruct (fs !! i) as [fi|] eqn:Hfi; cbn [mbind option_bind] in Hbody; [|done].
      pose (Q := λ (j : nat) (use : list (list N)),
              length use = len ∧
              (∀ p f l x, (p < i)%nat → fs !! p = Some f →
                          (l < N.to_nat (Face.edges f))%nat →
                          getA k f !! l = Some x → recorded use p x) ∧
              ∀ l x, (l < j)%nat → getA k fi !! l = Some x → recorded use i x).
      assert (HQ : Q (0 + N.to_nat (Face.edges fi))%nat u').
      { apply (for_range_inv Q _ _ _ _ _ Hbody).
        - split; [done|]. split; [done|]. intros; lia.
        - intros j w w' Hj (Hl & Hold & Hnew) Hstep.
          destruct (getA k fi !! j) as [idx|] eqn:Hidx; cbn [mbind option_bind] in Hstep; [|done].
          destruct (index w idx) as [users|] eqn:Hus; cbn [mbind option_bind] in Hstep; [|done].
          injection Hstep as <-. split; [by rewrite length_insert|]. split.
          + intros p f l x Hp Hf Hlt Hx. apply recorded_insert; [done|].
            by apply (Hold p f l x).
          + intros l x Hlt Hx. destruct (decide (l = j)) as [->|Hne].
            * assert (x = idx) as -> by congruence.
              exists (users ++ [u32 (N.of_nat i)]). unfold index in *. split.
              -- apply list_lookup_insert_eq. by eapply lookup_lt_Some.
              -- apply elem_of_app. right. apply list_elem_of_singleton. done.
            * apply recorded_insert; [done|]. apply (Hnew l x); [lia|done]. }
      destruct HQ as (Hl' & Hold' & Hnew'). split; [done|].
      intros p f l x Hp Hf Hlt Hx. destruct (decide (p = i)) as [->|Hne].
      + assert (f = fi) as -> by congruence. apply (Hnew' l x); [lia|done].
      + apply (Hold' p f l x); [lia|done..]. }
  destruct HP as [Hlen Hrec]. split; [done|].
  intros p f l x Hf Hlt Hx. apply (Hrec p f l x); [|done..].
  apply lookup_lt_Some in Hf. lia.
Qed.

(** One corner array after [idx] has been renumbered to [c]. *)
Definition renumber (idx c : N) (f : Face) : Face := onCorners k (redirect idx c) f.

(** A face after the [k] loop of [visitCorner]: as it was, or renumbered. *)
Definition renumbered (idx c : N) (f f' : Face) : Prop :=
  f' = f ∨ f' = renumber idx c f.

Lemma redirect_idem idx c x : redirect idx c (redirect idx c x) = redirect idx c x.
Proof.
  unfold redirect. destruct (N.eqb_spec x idx) as [->|Hne].
  - by destruct (N.eqb_spec c idx).
  - by rewrite (proj2 (N.eqb_neq x idx) Hne).
Qed.

Lemma mapCorners_idem h edges a :
  (∀ x, h (h x) = h x) → mapCorners h edges (mapCorners h edges a) = mapCorners h edges a.
Proof.
  intros Hh. unfold mapCorners at 1.
  change (take (N.to_nat edges) (mapCorners h edges a)) with (corners edges (mapCorners h edges a)).
  rewrite corners_mapCorners. unfold corners, mapCorners.
  rewrite <- list_fmap_compose.
  destruct (decide (N.to_nat edges ≤ length a)%nat).
  - rewrite drop_app_length' by (rewrite length_map, length_take; lia).
    f_equal. apply list_fmap_ext. intros. apply Hh.
  - rewrite !drop_ge by (rewrite ?length_app, ?length_map, ?length_take, ?length_drop; lia).
    f_equal. apply list_fmap_ext. intros. apply Hh.
Qed.

Lemma renumber_idem idx c f : renumber idx c (renumber idx c f) = renumber idx c f.
Proof.
  unfold renumber, onCorners. rewrite edges_setA, getA_setA.
  rewrite mapCorners_idem by apply redirect_idem. by destruct k, f.
Qed.

Lemma renumbered_trans idx c f g h :
  renumbered idx c f g → renumbered idx c g h → renumbered idx c f h.
Proof.
  unfold renumbered. intros [->| ->] [->| ->]; auto. right. apply renumber_idem.
Qed.

Lemma complete_renumbered idx c f f' :
  renumbered idx c f f' → Face.complete f' = Face.complete f.
Proof. intros [->| ->]; [done|]. apply complete_setA. Qed.

Lemma renumbered_sameExcept idx c f f' : renumbered idx c f f' → sameExcept k f f'.
Proof. intros [->| ->]; [apply sameExcept_refl|apply sameExcept_onCorners]. Qed.

(** The body of the [k] loop for one listed face. *)
Definition renumberUser (idx c : N) (fi : N) (fs : list Face) : option (list Face) :=
  face ← index fs fi;
  if Face.complete face then Some fs
  else a ← eachCorner (redirect idx c) (Face.edges face) (getA k face);
       Some (<[N.to_nat fi := setA k a face]> fs).

Lemma renumberUsers_forEach idx cur users fs :
  renumberUsers (getA k) (setA k) idx cur users fs
  = forEach (renumberUser idx (u32 (N.of_nat cur))) users fs.
Proof. unfold renumberUsers. apply (for_range_forEach _ [] users fs). Qed.

Lemma renumberUser_spec idx c fi fs fs' :
  renumberUser idx c fi fs = Some fs' →
  Forall2 (renumbered idx c) fs fs' ∧
  ∀ f, fs !! N.to_nat fi = Some f → Face.complete f = false →
       fs' !! N.to_nat fi = Some (renumber idx c f).
Proof.
  unfold renumberUser, index. intros Hrun.
  assert (Hrefl : ∀ l, Forall2 (renumbered idx c) l l).
  { intros l. apply Forall_Forall2_diag, Forall_forall. by left. }
  destruct (fs !! N.to_nat fi) as [face|] eqn:Hface; cbn [mbind option_bind] in Hrun; [|done].
  destruct (Face.complete face) eqn:Hc.
  - injection Hrun as <-. split; [done|]. intros f [= <-]. congruence.
  - rewrite eachCorner_spec in Hrun.
    destruct (decide _); cbn [mbind option_bind] in Hrun; [|done].
    injection Hrun as <-. split.
    + apply (Forall2_insert_same _ _ _ face); [by left|done|by right].
    + intros f [= <-] _. apply list_lookup_insert_eq. by eapply lookup_lt_Some.
Qed.

Lemma forEach_renumberUser_spec idx c users fs fs' :
  forEach (renumberUser idx c) users fs = Some fs' →
  Forall2 (renumbered idx c) fs fs' ∧
  ∀ fi f, fi ∈ users → fs !! N.to_nat fi = Some f → Face.complete f = false →
          fs' !! N.to_nat fi = Some (renumber idx c f).
Proof.
  revert fs. induction users as [|u users IH]; intros fs Hrun.
  - injection Hrun as <-. split.
    + apply Forall_Forall2_diag, Forall_forall. by left.
    + intros fi f Hfi. by apply elem_of_nil in Hfi.
  - cbn [forEach] in Hrun.
    destruct (renumberUser idx c u fs) as [fs1|] eqn:Hstep; cbn [mbind option_bind] in Hrun; [|done].
    apply renumberUser_spec in Hstep as [Hrel1 Hhit1].
    apply IH in Hrun as [Hrel2 Hhit2]. split.
    + eapply Forall2_trans; [|done..]. intros ???. apply renumbered_trans.
    + intros fi f Hfi Hf Hc.
      destruct (Forall2_lookup_l _ _ _ _ _ Hrel1 Hf) as (f1 & Hf1 & Hr1).
      destruct (Forall2_lookup_l _ _ _ _ _ Hrel2 Hf1) as (f2 & Hf2 & Hr2).
      rewrite Hf2. f_equal.
      apply elem_of_cons in Hfi as [->|Hin].
      * pose proof (Hhit1 f Hf Hc) as Heq. rewrite Hf1 in Heq. injection Heq as ->.
        destruct Hr2 as [->| ->]; [done|apply renumber_idem].
      * assert (Hc1 : Face.complete f1 = false) by (by rewrite (complete_renumbered _ _ _ _ Hr1)).
        pose proof (Hhit2 fi f1 Hin Hf1 Hc1) as Heq. rewrite Hf2 in Heq. injection Heq as ->.
        destruct Hr1 as [->| ->]; [done|apply renumber_idem].
Qed.

End ReindexFacts.

Lemma lookup_mapCorners h edges a l :
  (l < N.to_nat edges)%nat → mapCorners h edges a !! l = h <$> a !! l.
Proof.
  intros Hl. unfold mapCorners. destruct (decide (l < length a)%nat).
  - rewrite lookup_app_l by (rewrite length_map, length_take; lia).
    by rewrite list_lookup_fmap, lookup_take_lt.
  - rewrite (lookup_ge_None_2 a l) by lia. apply lookup_ge_None_2.
    rewrite length_app, length_map, length_take, length_drop. lia.
Qed.

Lemma unflushed_insert_flush {A : Type} (isFlushed : A → bool) (arr : list A) i a b :
  arr !! i = Some a → isFlushed a = false → isFlushed b = true →
  unflushed isFlushed (<[i:=b]> arr) ++ [a] ≡ₚ unflushed isFlushed arr.
Proof.
  intros Hi Ha Hb. unfold unflushed.
  rewrite insert_take_drop by (by eapply lookup_lt_Some).
  rewrite <- (take_drop_middle arr i a Hi) at 3.
  rewrite !filter_app, !filter_cons.
  rewrite decide_False by congruence. rewrite decide_True by done.
  rewrite <- app_assoc. apply Permutation_app_head. symmetry. apply Permutation_cons_append.
Qed.

Section ReindexInv.
Context {A : Type}.
Variable isFlushed : A → bool.
Variable flush : A → A.
Variable k : attr.
Hypothesis flush_flushed : ∀ a, isFlushed (flush a) = true.
Variable arr0 : list A.
Variable fs0 : list Face.
Hypothesis arr0_small : N.of_nat (length arr0) < 2 ^ 32.
Hypothesis fs0_small : N.of_nat (length fs0) < 2 ^ 32.

(** Corner [l] of face [p] has not been visited yet when the walk is about
    to visit corner [j] of face [i]. *)
Definition pending (i j p l : nat) : Prop := (i < p)%nat ∨ (p = i ∧ (j ≤ l)%nat).

(** A corner that held [x0] at the start and holds [x] now is either
    renumbered (a new index, its old entry flagged) or untouched and still
    to be visited (its entry unflagged, its face listed and not complete). *)
Definition cornerOk (i j : nat) (st : remap) (p l : nat) (f : Face) (x0 x : N) : Prop :=
  ((N.to_nat x < rcur st)%nat ∧ dead isFlushed (rarr st) x0) ∨
  (x = x0 ∧ pending i j p l ∧ live isFlushed (rarr st) x0 ∧
   recorded (ruse st) p x0 ∧ Face.complete f = false).

Record Inv (i j : nat) (st : remap) : Prop := mkInv {
  inv_cur : rcur st = length (rnew st);
  inv_perm : rnew st ++ unflushed isFlushed (rarr st) ≡ₚ arr0;
  inv_arr : length (rarr st) = length arr0;
  inv_use : length (ruse st) = length arr0;
  inv_faces : Forall2 (sameExcept k) fs0 (rfaces st);
  inv_corners : ∀ p f0 f l x0 x,
    fs0 !! p = Some f0 → rfaces st !! p = Some f →
    (l < N.to_nat (Face.edges f0))%nat →
    getA k f0 !! l = Some x0 → getA k f !! l = Some x →
    cornerOk i j st p l f x0 x
}.

Lemma Inv_cur_lt i j st x : Inv i j st → live isFlushed (rarr st) x →
  (rcur st < length arr0)%nat.
Proof.
  intros [Hcur Hperm _ _ _ _] (a & Ha & Hfl).
  apply Permutation_length in Hperm. rewrite length_app in Hperm.
  assert (a ∈ unflushed isFlushed (rarr st)) as Hin.
  { apply list_elem_of_filter. split; [done|]. by eapply list_elem_of_lookup_2. }
  destruct (unflushed isFlushed (rarr st)); [by apply elem_of_nil in Hin|].
  cbn in Hperm. lia.
Qed.

Lemma pending_step i j p l : pending i j p l → ¬ (p = i ∧ l = j) → pending i (S j) p l.
Proof. unfold pending. intros [?|[-> ?]] Hne; [by left|]. right. split; [done|]. lia. Qed.

Lemma dead_insert (arr : list A) x i b :
  dead isFlushed arr x → isFlushed b = true → dead isFlushed (<[i:=b]> arr) x.
Proof.
  intros (a & Ha & Hfl) Hb. unfold dead, index in *.
  destruct (decide (i = N.to_nat x)) as [->|Hne].
  - exists b. split; [|done]. apply list_lookup_insert_eq. by eapply lookup_lt_Some.
  - exists a. by rewrite list_lookup_insert_ne.
Qed.

Lemma visitCorner_Inv i j st st' fi :
  Inv i j st → rfaces st !! i = Some fi → (j < N.to_nat (Face.edges fi))%nat →
  visitCorner isFlushed flush (getA k) (setA k) i j st = Some st' →
  Inv i (S j) st' ∧ ∃ fi', rfaces st' !! i = Some fi' ∧ Face.edges fi' = Face.edges fi.
Proof.
  intros HInv Hfi Hj Hrun. unfold visitCorner in Hrun. rewrite Hfi in Hrun.
  cbn [mbind option_bind] in Hrun.
  destruct (getA k fi !! j) as [idx|] eqn:Hidx; cbn [mbind option_bind] in Hrun; [|done].
  destruct (index (rarr st) idx) as [a|] eqn:Ha; cbn [mbind option_bind] in Hrun; [|done].
  destruct (isFlushed a) eqn:Hfl.
  - (* already flagged: the corner is skipped *)
    injection Hrun as <-. split; [|eauto].
    destruct HInv as [Hcur Hperm Harr Huse Hfaces Hcorners]. split; try done.
    intros p f0 f l x0 x Hf0 Hf Hl Hx0 Hx.
    destruct (Hcorners p f0 f l x0 x Hf0 Hf Hl Hx0 Hx) as [Hold|(-> & Hp & Hlive & Hrec & Hc)];
      [by left|].
    right. repeat split; try done. apply pending_step; [done|].
    intros [-> ->]. assert (f = fi) as -> by congruence.
    assert (x0 = idx) as -> by congruence.
    destruct Hlive as (a' & Ha' & Hfl'). congruence.
  - (* first visit of [idx] *)
    destruct (index (ruse st) idx) as [users|] eqn:Hus; cbn [mbind option_bind] in Hrun; [|done].
    rewrite renumberUsers_forEach in Hrun.
    destruct (forEach _ users (rfaces st)) as [fs'|] eqn:Hren; cbn [mbind option_bind] in Hrun; [|done].
    injection Hrun as <-.
    assert (Hlt : (rcur st < length arr0)%nat).
    { eapply (Inv_cur_lt i j st idx); [done|]. by exists a. }
    assert (Hc : N.to_nat (u32 (N.of_nat (rcur st))) = rcur st).
    { by apply (u32_of_nat _ (length arr0)). }
    apply forEach_renumberUser_spec in Hren as [Hrel Hhit].
    destruct HInv as [Hcur Hperm Harr Huse Hfaces Hcorners].
    assert (Hflush : isFlushed (flush a) = true) by apply flush_flushed.
    split.
    2:{ destruct (Forall2_lookup_l _ _ _ _ _ Hrel Hfi) as (fi' & Hfi' & Hr).
        exists fi'. split; [done|]. by destruct (renumbered_sameExcept _ _ _ _ _ Hr) as [[-> _] _]. }
    split; cbn [rfaces rarr ruse rnew rcur].
    + rewrite length_app. cbn. lia.
    + rewrite <- Hperm, <- app_assoc. apply Permutation_app_head.
      rewrite Permutation_app_comm. by apply unflushed_insert_flush.
    + by rewrite length_insert.
    + by rewrite length_insert.
    + eapply Forall2_trans; [|exact Hfaces|exact Hrel].
      intros f g h Hfg Hgh. eapply sameExcept_trans; [done|]. by eapply renumbered_sameExcept.
    + intros p f0 f' l x0 x' Hf0 Hf' Hl Hx0 Hx'.
      destruct (Forall2_lookup_r _ _ _ _ _ Hrel Hf') as (f & Hf & Hr).
      destruct (Forall2_lookup_lr _ _ _ _ _ _ Hfaces Hf0 Hf) as ((He & _) & _ & Hlen).
      assert (∃ x, getA k f !! l = Some x) as [x Hx].
      { apply lookup_lt_is_Some_2. rewrite Hlen. by eapply lookup_lt_Some. }
      assert (Hxx : x' = x ∨ (x = idx ∧ x' = u32 (N.of_nat (rcur st)))).
      { destruct Hr as [->| ->]; [left; congruence|].
        unfold renumber, onCorners in Hx'. rewrite getA_setA in Hx'.
        rewrite lookup_mapCorners, Hx in Hx' by (by rewrite He). cbn in Hx'.
        injection Hx' as <-. unfold redirect. destruct (N.eqb_spec x idx); auto. }
      unfold cornerOk. cbn [rfaces rarr ruse rnew rcur].
      destruct (Hcorners p f0 f l x0 x Hf0 Hf Hl Hx0 Hx)
        as [[Hxlt Hdead]|(-> & Hp & Hlive & Hrec & Hcpl)].
      * left. split; [|by apply dead_insert].
        destruct Hxx as [->|[_ ->]]; lia.
      * destruct (decide (x0 = idx)) as [->|Hne].
        -- left. destruct Hrec as (us & Hus' & Hin).
           assert (us = users) as -> by congruence.
           assert (Hp32 : N.to_nat (u32 (N.of_nat p)) = p).
           { apply (u32_of_nat _ (length fs0)); [|done]. by eapply lookup_lt_Some. }
           pose proof (Hhit _ f Hin) as Hhit'. rewrite Hp32 in Hhit'.
           specialize (Hhit' Hf Hcpl). rewrite Hf' in Hhit'. injection Hhit' as ->.
           unfold renumber, onCorners in Hx'. rewrite getA_setA in Hx'.
           rewrite lookup_mapCorners, Hx in Hx' by (by rewrite He). cbn in Hx'.
           injection Hx' as <-. unfold redirect. rewrite N.eqb_refl. split; [lia|].
           exists (flush a). unfold index. split; [|done].
           apply list_lookup_insert_eq. by eapply lookup_lt_Some.
        -- right. assert (x' = x0) as -> by (destruct Hxx as [->|[? _]]; done).
           assert (N.to_nat idx ≠ N.to_nat x0) by lia.
           split; [done|]. split.
           { apply pending_step; [done|]. intros [-> ->].
             assert (f = fi) as -> by congruence. congruence. }
           split.
           { destruct Hlive as (a' & Ha' & Hfl'). exists a'. unfold index in *.
             by rewrite list_lookup_insert_ne. }
           split.
           { destruct Hrec as (us & Hus' & Hin). exists us. unfold index in *.
             by rewrite list_lookup_insert_ne. }
           by rewrite (complete_renumbered _ _ _ _ _ Hr).
Qed.


Lemma visitFace_Inv i st st' :
  Inv i 0 st → visitFace isFlushed flush (getA k) (setA k) i st = Some st' →
  Inv (S i) 0 st'.
Proof.
  intros HInv Hrun. unfold visitFace in Hrun.
  destruct (rfaces st !! i) as [fi|] eqn:Hfi; cbn [mbind option_bind] in Hrun; [|done].
  destruct (for_range _ 0 _ st) as [st1|] eqn:Hloop; cbn [mbind option_bind] in Hrun; [|done].
  destruct (rfaces st1 !! i) as [f1|] eqn:Hf1; cbn [mbind option_bind] in Hrun; [|done].
  injection Hrun as <-.
  pose (P := λ (j : nat) (t : remap (A := A)),
          Inv i j t ∧ ∃ fi', rfaces t !! i = Some fi' ∧ Face.edges fi' = Face.edges fi).
  assert (HP : P (0 + N.to_nat (Face.edges fi))%nat st1).
  { apply (for_range_inv P _ _ _ _ _ Hloop); [split; eauto|].
    intros j t t' Hj [Ht (fi' & Hfi' & He)] Hstep.
    destruct (visitCorner_Inv i j t t' fi' Ht Hfi') as [Ht' (fi'' & Hfi'' & He')];
      [rewrite He; lia|done|].
    split; [done|]. exists fi''. split; [done|]. congruence. }
  destruct HP as [[Hcur Hperm Harr Huse Hfaces Hcorners] (fi' & Hfi' & He)].
  assert (fi' = f1) as -> by congruence. cbn [plus] in Hcorners.
  split; cbn [rfaces rarr ruse rnew rcur]; try done.
  - eapply Forall2_trans; [|exact Hfaces|].
    2:{ apply (Forall2_insert_same _ _ _ f1); [apply sameExcept_refl|done|].
        apply sameExcept_set_complete. }
    intros ???. apply sameExcept_trans.
  - intros p f0 f' l x0 x Hf0 Hf' Hl Hx0 Hx. unfold cornerOk. cbn [rfaces rarr ruse rnew rcur].
    destruct (decide (p = i)) as [->|Hne].
    + rewrite list_lookup_insert_eq in Hf' by (by eapply lookup_lt_Some).
      injection Hf' as <-.
      assert (Hx1 : getA k f1 !! l = Some x) by (by destruct k).
      destruct (Forall2_lookup_lr _ _ _ _ _ _ Hfaces Hf0 Hf1) as ((He0 & _) & _).
      destruct (Hcorners i f0 f1 l x0 x Hf0 Hf1 Hl Hx0 Hx1) as [?|(_ & [?|[_ ?]] & _)];
        [by left|lia|]. rewrite He0, <- He in *. lia.
    + rewrite list_lookup_insert_ne in Hf' by done.
      destruct (Hcorners p f0 f' l x0 x Hf0 Hf' Hl Hx0 Hx) as [?|(-> & Hp & ? & ? & ?)];
        [by left|].
      right. repeat split; try done. destruct Hp as [?|[? _]]; [|done].
      unfold pending. lia.
Qed.

(** The faces at the start of the walk: the input with the markers cleared. *)
Lemma reindex_Inv (fs : list Face) arr' fs' :
  fs0 = map (Face.set_complete false) fs →
  Forall (λ a, isFlushed a = false) arr0 →
  reindex isFlushed flush (getA k) (setA k) arr0 fs = Some (arr', fs') →
  ∃ st, Inv (length fs0) 0 st ∧ arr' = rnew st ∧ fs' = rfaces st.
Proof.
  intros Hfs0 Hall Hrun. unfold reindex in Hrun. rewrite clearComplete_spec, <- Hfs0 in Hrun.
  cbn [mbind option_bind] in Hrun.
  destruct (buildUse _ _ fs0) as [use|] eqn:Huse; cbn [mbind option_bind] in Hrun; [|done].
  destruct (for_range _ 0 _ _) as [st|] eqn:Hloop; cbn [mbind option_bind] in Hrun; [|done].
  injection Hrun as <- <-. exists st. split; [|done].
  apply buildUse_spec in Huse as [Hlen Hrec].
  change (length fs0) with (0 + length fs0)%nat.
  apply (for_range_inv (λ i t, Inv i 0 t) _ _ _ _ _ Hloop).
  - split; cbn [rfaces rarr ruse rnew rcur]; try done.
    + cbn [app]. unfold unflushed. clear -Hall.
      induction Hall as [|a l Ha _ IH]; [done|].
      rewrite filter_cons, decide_True by done. by constructor.
    + apply Forall_Forall2_diag, Forall_forall. intros. apply sameExcept_refl.
    + intros p f0 f l x0 x Hf0 Hf Hl Hx0 Hx.
      assert (f = f0) as -> by congruence. assert (x = x0) as -> by congruence.
      right. split; [done|]. split; [unfold pending; lia|].
      pose proof (Hrec p f0 l x0 Hf0 Hl Hx0) as Hr. split; [|split; [done|]].
      * destruct Hr as (us & Hus & _). unfold index in Hus.
        apply lookup_lt_Some in Hus. rewrite Hlen in Hus.
        destruct (lookup_lt_is_Some_2 arr0 (N.to_nat x0) Hus) as [a Ha].
        exists a. split; [done|]. exact (Forall_lookup_1 _ _ _ _ Hall Ha).
      * rewrite Hfs0 in Hf0. apply list_lookup_fmap_Some in Hf0 as (g & -> & _). done.
  - intros i t t' _ Ht Hstep. by eapply visitFace_Inv.
Qed.

End ReindexInv.

Lemma unflushed_all_flushed {A : Type} (isFlushed : A → bool) (l : list A) :
  Forall (λ a, isFlushed a = true) l → unflushed isFlushed l = [].
Proof.
  unfold unflushed. induction 1 as [|a l Ha _ IH]; [done|].
  rewrite filter_cons, decide_False by congruence. done.
Qed.

(** Entry [y] of the attribute array is referenced by a corner. *)
Definition referenced (k : attr) (fs : list Face) (y : nat) : Prop :=
  ∃ f x, f ∈ fs ∧ x ∈ corners (Face.edges f) (getA k f) ∧ N.to_nat x = y.

(** One remap block: the rebuilt array takes its entries from the old one,
    each at most once; the faces keep everything but array [k], whose
    corners are valid in the rebuilt array; when every old entry is
    referenced the rebuilt array is a permutation of the old one. *)
Lemma reindex_spec {A : Type} (isFlushed : A → bool) (flush : A → A) (k : attr)
    (arr : list A) (fs : list Face) arr' fs' :
  (∀ a, isFlushed (flush a) = true) →
  N.of_nat (length arr) < 2 ^ 32 → N.of_nat (length fs) < 2 ^ 32 →
  Forall (λ a, isFlushed a = false) arr →
  reindex isFlushed flush (getA k) (setA k) arr fs = Some (arr', fs') →
  validAttr k (length arr') fs' ∧
  arr' ⊆+ arr ∧
  Forall2 (sameExcept k) fs fs' ∧
  ((∀ y, (y < length arr)%nat → referenced k fs y) → arr' ≡ₚ arr).
Proof.
  intros Hflush Harr Hfs Hall Hrun.
  pose (fs0 := map (Face.set_complete false) fs).
  assert (Hfs0 : N.of_nat (length fs0) < 2 ^ 32) by (unfold fs0; by rewrite length_map).
  destruct (reindex_Inv isFlushed flush k Hflush arr fs0 Harr Hfs0 fs arr' fs' eq_refl Hall Hrun)
    as (st & [Hcur Hperm Hlen _ Hfaces Hcorners] & -> & ->).
  assert (Hdone : ∀ p f0 f l x0 x,
            fs0 !! p = Some f0 → rfaces st !! p = Some f →
            (l < N.to_nat (Face.edges f0))%nat →
            getA k f0 !! l = Some x0 → getA k f !! l = Some x →
            (N.to_nat x < rcur st)%nat ∧ dead isFlushed (rarr st) x0).
  { intros p f0 f l x0 x Hf0 Hf Hl Hx0 Hx.
    destruct (Hcorners p f0 f l x0 x Hf0 Hf Hl Hx0 Hx) as [?|(_ & Hp & _)]; [done|].
    apply lookup_lt_Some in Hf0. unfold pending in Hp. lia. }
  assert (Hclear : Forall2 (sameExcept k) fs fs0).
  { unfold fs0. apply Forall2_fmap_r, Forall_Forall2_diag, Forall_forall.
    intros. apply sameExcept_set_complete. }
  split; [|split; [|split]].
  - intros f x Hf Hx. apply list_elem_of_lookup in Hf as [p Hp].
    destruct (Forall2_lookup_r _ _ _ _ _ Hfaces Hp) as (f0 & Hf0 & (He & _) & _ & Hl).
    apply elem_of_take in Hx as (l & Hx & Hlt).
    assert (∃ x0, getA k f0 !! l = Some x0) as [x0 Hx0].
    { apply lookup_lt_is_Some_2. rewrite <- Hl. by eapply lookup_lt_Some. }
    destruct (Hdone p f0 f l x0 x) as [? _]; try done; [by rewrite <- He|lia].
  - rewrite <- Hperm. by apply submseteq_inserts_r.
  - eapply Forall2_trans; [|exact Hclear|exact Hfaces]. intros ???. apply sameExcept_trans.
  - intros Href. rewrite <- Hperm.
    rewrite unflushed_all_flushed; [by rewrite app_nil_r|].
    apply Forall_lookup. intros y a Hy.
    destruct (Href y) as (f & x & Hf & Hx & <-).
    { rewrite <- Hlen. by eapply lookup_lt_Some. }
    apply list_elem_of_lookup in Hf as [p Hp].
    destruct (Forall2_lookup_l _ _ _ _ _ Hclear Hp) as (f0 & Hf0 & (He & _) & Ho & Hl).
    destruct (Forall2_lookup_l _ _ _ _ _ Hfaces Hf0) as (f' & Hf' & _ & _ & Hl').
    apply elem_of_take in Hx as (l & Hx & Hlt).
    assert (Hx0 : getA k f0 !! l = Some x).
    { unfold fs0 in Hf0. rewrite list_lookup_fmap, Hp in Hf0. injection Hf0 as <-.
      by destruct k. }
    assert (∃ x', getA k f' !! l = Some x') as [x' Hx'].
    { apply lookup_lt_is_Some_2. rewrite Hl'. by eapply lookup_lt_Some. }
    destruct (Hdone p f0 f' l x x') as [_ (a' & Ha' & Hfl)]; try done; [by rewrite He|].
    unfold index in Ha'. congruence.
Qed.

(** A remap block keeps the frame of every face, whatever the input. *)
Lemma reindex_frame {A : Type} (isFlushed : A → bool) (flush : A → A) (k : attr)
    (arr : list A) (fs : list Face) arr' fs' :
  reindex isFlushed flush (getA k) (setA k) arr fs = Some (arr', fs') →
  Forall2 (sameExcept k) fs fs'.
Proof.
  intros Hrun. unfold reindex in Hrun. rewrite clearComplete_spec in Hrun.
  cbn [mbind option_bind] in Hrun.
  destruct (buildUse _ _ _) as [use|]; cbn [mbind option_bind] in Hrun; [|done].
  destruct (for_range _ 0 _ _) as [st|] eqn:Hloop; cbn [mbind option_bind] in Hrun; [|done].
  injection Hrun as <- <-.
  pose (P := λ t : remap (A := A), Forall2 (sameExcept k) fs (rfaces t)).
  assert (Hstep : ∀ (t : remap (A := A)) i f, P t → rfaces t !! i = Some f →
            ∀ g, sameExcept k f g →
            Forall2 (sameExcept k) fs (<[i:=g]> (rfaces t))).
  { intros t i f Ht Hf g Hg. eapply Forall2_trans; [|exact Ht|].
    - intros ???. apply sameExcept_trans.
    - by apply (Forall2_insert_same _ _ _ f); [apply sameExcept_refl| |]. }
  apply (for_range_preserves P _ _ _ _ _ Hloop).
  - unfold P. cbn. apply Forall2_fmap_r, Forall_Forall2_diag, Forall_forall.
    intros. apply sameExcept_set_complete.
  - intros i t t' _ Ht Hface. unfold visitFace in Hface.
    destruct (rfaces t !! i) as [fi|]; cbn [mbind option_bind] in Hface; [|done].
    destruct (for_range _ 0 _ t) as [t1|] eqn:Hcorner; cbn [mbind option_bind] in Hface; [|done].
    assert (Ht1 : P t1).
    { apply (for_range_preserves P _ _ _ _ _ Hcorner); [done|].
      intros j u u' _ Hu Hvisit. unfold visitCorner in Hvisit.
      destruct (rfaces u !! i) as [fu|]; cbn [mbind option_bind] in Hvisit; [|done].
      destruct (getA k fu !! j) as [idx|]; cbn [mbind option_bind] in Hvisit; [|done].
      destruct (index (rarr u) idx) as [a|]; cbn [mbind option_bind] in Hvisit; [|done].
      destruct (isFlushed a); [by injection Hvisit as <-|].
      destruct (index (ruse u) idx) as [users|]; cbn [mbind option_bind] in Hvisit; [|done].
      rewrite renumberUsers_forEach in Hvisit.
      destruct (forEach _ users _) as [fs1|] eqn:Hren; cbn [mbind option_bind] in Hvisit; [|done].
      injection Hvisit as <-. unfold P. cbn.
      apply forEach_renumberUser_spec in Hren as [Hrel _].
      eapply Forall2_trans; [|exact Hu|exact Hrel].
      intros f g h Hfg Hgh. eapply sameExcept_trans; [done|]. by eapply renumbered_sameExcept. }
    destruct (rfaces t1 !! i) as [f1|] eqn:Hf1; cbn [mbind option_bind] in Hface; [|done].
    injection Hface as <-. unfold P. cbn.
    apply (Hstep t1 i f1 Ht1 Hf1). apply sameExcept_set_complete.
Qed.

(** ** The Morton pass and the sort *)

(** Two faces equal up to the Morton code. *)
Definition sameButCode (f f' : Face) : Prop :=
  Face.edges f' = Face.edges f ∧ Face.v f' = Face.v f ∧ Face.n f' = Face.n f ∧
  Face.t f' = Face.t f ∧ Face.uv f' = Face.uv f ∧
  Face.materialID f' = Face.materialID f ∧ Face.materialName f' = Face.materialName f ∧
  Face.complete f' = Face.complete f.

Lemma sameButCode_refl f : sameButCode f f.
Proof. by repeat split. Qed.

Lemma sameButCode_trans f g h : sameButCode f g → sameButCode g h → sameButCode f h.
Proof.
  unfold sameButCode. intros (?&?&?&?&?&?&?&?) (?&?&?&?&?&?&?&?). repeat split; congruence.
Qed.

Lemma assignMortonCodes_spec `{FO : FloatOps} (s s' : Store) :
  assignMortonCodes s = Some s' →
  vertices s' = vertices s ∧ normals s' = normals s ∧
  textureCoords s' = textureCoords s ∧ facesCap s' = facesCap s ∧
  materials s' = materials s ∧ boundSphere s' = boundSphere s ∧
  vertexType s' = vertexType s ∧
  Forall2 sameButCode (faces s) (faces s').
Proof.
  unfold assignMortonCodes. intros Hrun.
  pose (P := λ t : Store,
          vertices t = vertices s ∧ normals t = normals s ∧
          textureCoords t = textureCoords s ∧ facesCap t = facesCap s ∧
          materials t = materials s ∧ boundSphere t = boundSphere s ∧
          vertexType t = vertexType s ∧ Forall2 sameButCode (faces s) (faces t)).
  apply (for_range_preserves P _ _ _ _ _ Hrun).
  - unfold P. repeat split; try done.
    apply Forall_Forall2_diag, Forall_forall. intros. apply sameButCode_refl.
  - intros i t t' _ (?&?&?&?&?&?&?&Hfs) Hbody.
    destruct (faces t !! i) as [f|] eqn:Hf; cbn [mbind option_bind] in Hbody; [|done].
    destruct (faceMortonCode t f) as [code|]; cbn [mbind option_bind] in Hbody; [|done].
    injection Hbody as <-. unfold P. cbn. repeat split; try done.
    eapply Forall2_trans; [|exact Hfs|].
    + intros ???. apply sameButCode_trans.
    + apply (Forall2_insert_same _ _ _ f); [apply sameButCode_refl|done|by repeat split].
Qed.





(** ** [OptimiseMesh] as a whole *)

Lemma OptimiseMesh_steps `{FO : FloatOps} `{RT : GoRuntime} (s s' : Store) :
  OptimiseMesh s = Some s' →
  ∃ s1 fsv fsn,
    assignMortonCodes s = Some s1 ∧
    reindex Vertex.flushed flushVertex (getA AttrV) (setA AttrV)
      (vertices s1) (faces (sortFaces s1)) = Some (vertices s', fsv) ∧
    reindex Normal.flushed flushNormal (getA AttrN) (setA AttrN)
      (normals s1) fsv = Some (normals s', fsn) ∧
    reindex TextureCoord.flushed flushTextureCoord (getA AttrUV) (setA AttrUV)
      (textureCoords s1) fsn = Some (textureCoords s', faces s') ∧
    facesCap s' = facesCap s1 ∧ materials s' = materials s1 ∧
    boundSphere s' = boundSphere s1 ∧ vertexType s' = vertexType s1.
Proof.
  unfold OptimiseMesh. intros Hrun.
  destruct (assignMortonCodes s) as [s1|] eqn:H1; cbn [mbind option_bind] in Hrun; [|done].
  destruct (reindex _ _ _ _ (vertices _) _) as [[vs fsv]|] eqn:Hv;
    cbn [mbind option_bind] in Hrun; [|done].
  destruct (reindex _ _ _ _ (normals _) _) as [[ns fsn]|] eqn:Hn;
    cbn [mbind option_bind] in Hrun; [|done].
  destruct (reindex _ _ _ _ (textureCoords _) _) as [[ts fsu]|] eqn:Hu;
    cbn [mbind option_bind] in Hrun; [|done].
  injection Hrun as <-. exists s1, fsv, fsn. by repeat split.
Qed.


(** What identifies a face through [OptimiseMesh]: degree, tangents,
    material. *)
Definition frameKey (f : Face) : N * list N * N * string :=
  (Face.edges f, Face.t f, Face.materialID f, Face.materialName f).




(** ** C5: the order of the faces *)




(** What tells a face apart through [OptimiseMesh], with its Morton code. *)
Definition keyCode (f : Face) : N * list N * N * string * N :=
  (frameKey f, Face.mortonCode f).

(** The faces of a store, each with the Morton code of its centroid: what
    the first loop of [OptimiseMesh] hands to the sort. *)
Definition codedFaces `{FloatOps} (s : Store) : option (list (N * list N * N * string * N)) :=
  mapM (λ f, code ← faceMortonCode s f; Some (frameKey f, code)) (faces s).





Module SampleOpt.
Import Sample.
#[local] Existing Instance IEEE.ops.

(** Two triangles on the same three corners, told apart by their material. *)
Definition twin (m : N) : Face := Face.mk 3 [0; 1; 2] [0; 0; 0] [] [0; 0; 0] m "" 0 false.
Definition twins : Store :=
  store [V 0 0 0; V 1 0 0; V 0 1 0] [Nm 0 0 1] [T 0 0] [twin 1; twin 2] 2.

(** One triangle that uses the first of two vertices three times. *)
Definition spare : Store :=
  store [V 0 0 0; V 1 0 0] [Nm 0 0 1] [T 0 0]
    [Face.mk 3 [0; 0; 0] [0; 0; 0] [] [0; 0; 0] 0 "" 0 false] 1.

(** One triangle whose corners are the three vertices in reverse order. *)
Definition reversed : Store :=
  store [V 0 0 0; V 1 0 0; V 0 1 0] [Nm 0 0 1] [T 0 0]
    [Face.mk 3 [2; 1; 0] [0; 0; 0] [] [0; 0; 0] 0 "" 0 false] 1.

Definition optimise (rt : GoRuntime) (s : Store) : option Store := OptimiseMesh (RT := rt) s.

(** Material ids, Morton codes and vertex indices of the faces, the
    X and Y coordinates of the vertices. *)
Definition summary (r : option Store)
  : option (list N * list N * list (list N) * list (spec_float * spec_float)) :=
  s ← r;
  Some (map Face.materialID (faces s), map Face.mortonCode (faces s),
        map Face.v (faces s), map (λ p, (Vertex.X p, Vertex.Y p)) (vertices s)).

End SampleOpt.

Module SampleSort.
Import Sample.
#[local] Existing Instance IEEE.ops.

(** A triangle in the far corner, below the twins in every coordinate. *)
Definition far (m : N) : Face := Face.mk 3 [3; 4; 5] [0; 0; 0] [] [0; 0; 0] m "" 0 false.

(** Thirteen triangles: twelve twins on the same three corners, told apart
    by their materials 0 to 5 and 7 to 12, and the far triangle, material 6,
    in the middle. *)
Definition thirteen : Store :=
  GenerateBoundingSphere
    (store [V 0 0 0; V 1 0 0; V 0 1 0; V (-9) (-9) (-9); V (-8) (-9) (-9); V (-9) (-8) (-9)]
       [Nm 0 0 1] [T 0 0]
       (map SampleOpt.twin [0; 1; 2; 3; 4; 5] ++ [far 6]
        ++ map SampleOpt.twin [7; 8; 9; 10; 11; 12]) 13).

(** Material and Morton code, face by face. *)
Definition materialCodes (l : list (N * list N * N * string * N)) : list (N * N) :=
  map (λ p, (p.1.1.2, p.2)) l.

(** The faces as the sort receives them. *)
Definition received : list Face :=
  match assignMortonCodes thirteen with
  | Some s => faces s
  | None => []
  end.

(** Material and Morton code of the faces: before [OptimiseMesh], as the
    sort of the library leaves them, and after [OptimiseMesh]. *)
Definition before : option (list (N * N)) := materialCodes <$> codedFaces thirteen.
Definition sorted : list (N * N) :=
  materialCodes (map keyCode (slices_SortFunc compareMorton received)).
Definition after : option (list (N * N)) :=
  s ← OptimiseMesh (RT := libraryRuntime) thirteen;
  Some (materialCodes (map keyCode (faces s))).


End SampleSort.



(** ** C2: the rebuilt attribute arrays *)

Lemma referenced_Forall2 k fs fs' y :
  Forall2 (λ f f', Face.edges f' = Face.edges f ∧ getA k f' = getA k f) fs fs' →
  referenced k fs y → referenced k fs' y.
Proof.
  intros Hfs (f & x & Hf & Hx & Hy). apply list_elem_of_lookup in Hf as [p Hp].
  destruct (Forall2_lookup_l _ _ _ _ _ Hfs Hp) as (f' & Hf' & He & Hg).
  exists f', x. split; [by eapply list_elem_of_lookup_2|]. by rewrite He, Hg.
Qed.

Lemma referenced_Permutation k fs fs' y :
  fs ≡ₚ fs' → referenced k fs y → referenced k fs' y.
Proof. intros Hperm (f & x & Hf & Hx & Hy). exists f, x. by rewrite <- Hperm. Qed.

Lemma sameExcept_other k k' f f' :
  k' ≠ k → sameExcept k f f' → Face.edges f' = Face.edges f ∧ getA k' f' = getA k' f.
Proof. intros Hne ((He & _) & Ho & _). split; [done|]. by apply Ho. Qed.

Lemma submseteq_Forall {A : Type} (P : A → Prop) (l l' : list A) :
  l' ⊆+ l → Forall P l → Forall P l'.
Proof.
  intros Hsub Hall. apply Forall_forall. intros x Hx.
  rewrite Forall_forall in Hall. apply Hall. by eapply elem_of_submseteq.
Qed.

(** Everything the remap blocks establish, in one statement. *)
Lemma OptimiseMesh_spec `{FO : FloatOps} `{RT : GoRuntime} (s s' : Store) :
  noFlags s → addressable s → OptimiseMesh s = Some s' →
  validStore s' ∧ noFlags s' ∧ addressable s' ∧
  vertices s' ⊆+ vertices s ∧ normals s' ⊆+ normals s ∧
  textureCoords s' ⊆+ textureCoords s ∧
  ((∀ y, (y < length (vertices s))%nat → referenced AttrV (faces s) y) →
     vertices s' ≡ₚ vertices s) ∧
  ((∀ y, (y < length (normals s))%nat → referenced AttrN (faces s) y) →
     normals s' ≡ₚ normals s) ∧
  ((∀ y, (y < length (textureCoords s))%nat → referenced AttrUV (faces s) y) →
     textureCoords s' ≡ₚ textureCoords s).
Proof.
  intros (Fv & Fn & Fu) (Av & An & Au & Af) Hrun.
  destruct (OptimiseMesh_steps s s' Hrun) as (s1 & fsv & fsn & H1 & Hv & Hn & Hu & _).
  apply assignMortonCodes_spec in H1 as (Ev & En & Eu & _ & _ & _ & _ & Hcode).
  rewrite Ev in Hv. rewrite En in Hn. rewrite Eu in Hu.
  assert (Hsorted : faces (sortFaces s1) ≡ₚ faces s1) by apply sortFunc_Permutation.
  assert (Hlen0 : length (faces (sortFaces s1)) = length (faces s)).
  { rewrite Hsorted. symmetry. by eapply Forall2_length. }
  assert (Href0 : ∀ k y, referenced k (faces s) y → referenced k (faces (sortFaces s1)) y).
  { intros k y Hy. eapply referenced_Permutation; [by symmetry|].
    eapply referenced_Forall2; [|exact Hy]. eapply Forall2_impl; [exact Hcode|].
    intros f f' (?&?&?&?&?&?). split; [done|]. by destruct k. }
  apply reindex_spec in Hv as (Vv & Sv & Xv & Pv); [|done|done|lia|done].
  apply Forall2_length in Xv as Lv.
  apply reindex_spec in Hn as (Vn & Sn & Xn & Pn); [|done|done|lia|done].
  apply Forall2_length in Xn as Ln.
  apply reindex_spec in Hu as (Vu & Su & Xu & Pu); [|done|done|lia|done].
  assert (Href1 : ∀ k y, k ≠ AttrV → referenced k (faces s) y → referenced k fsv y).
  { intros k y Hk Hy. eapply referenced_Forall2; [|by apply Href0].
    eapply Forall2_impl; [exact Xv|]. intros f f'. by apply sameExcept_other. }
  assert (Href2 : ∀ y, referenced AttrUV (faces s) y → referenced AttrUV fsn y).
  { intros y Hy. eapply referenced_Forall2; [|by apply Href1].
    eapply Forall2_impl; [exact Xn|]. intros f f'. by apply sameExcept_other. }
  split; [|split; [|split]].
  - split; [|split].
    + eapply (validAttr_sameExcept AttrUV AttrV); [done|done|].
      by eapply (validAttr_sameExcept AttrN AttrV).
    + by eapply (validAttr_sameExcept AttrUV AttrN).
    + done.
  - split; [|split]; by eapply submseteq_Forall.
  - apply submseteq_length in Sv, Sn, Su. apply Forall2_length in Xu.
    repeat split; lia.
  - repeat split; try done.
    + intros Hall. apply Pv. intros y Hy. by apply Href0, Hall.
    + intros Hall. apply Pn. intros y Hy. by apply Href1, Hall.
    + intros Hall. apply Pu. intros y Hy. by apply Href2, Hall.
Qed.

(** C2, as amended.  On a store without flags whose arrays a [uint32] can
    index, [OptimiseMesh] rebuilds each of the three attribute arrays from
    entries of the array before, each old entry taken at most once: the
    rebuilt array is never longer; and when every entry of the old array is
    referenced by some face corner, the rebuilt array is a permutation of
    it, so that its length is the length before the optimisation step. *)
Theorem C2_rebuilt_arrays `{FO : FloatOps} `{RT : GoRuntime} (s s' : Store) :
  noFlags s → addressable s → OptimiseMesh s = Some s' →
  (vertices s' ⊆+ vertices s ∧ normals s' ⊆+ normals s ∧
   textureCoords s' ⊆+ textureCoords s) ∧
  ((length (vertices s') ≤ length (vertices s))%nat ∧
   (length (normals s') ≤ length (normals s))%nat ∧
   (length (textureCoords s') ≤ length (textureCoords s))%nat) ∧
  ((∀ y, (y < length (vertices s))%nat → referenced AttrV (faces s) y) →
     vertices s' ≡ₚ vertices s ∧ length (vertices s') = length (vertices s)) ∧
  ((∀ y, (y < length (normals s))%nat → referenced AttrN (faces s) y) →
     normals s' ≡ₚ normals s ∧ length (normals s') = length (normals s)) ∧
  ((∀ y, (y < length (textureCoords s))%nat → referenced AttrUV (faces s) y) →
     textureCoords s' ≡ₚ textureCoords s ∧
     length (textureCoords s') = length (textureCoords s)).
Proof.
  intros Hflags Haddr Hrun.
  destruct (OptimiseMesh_spec s s' Hflags Haddr Hrun)
    as (_ & _ & _ & Sv & Sn & Su & Pv & Pn & Pu).
  split; [done|]. split; [by repeat split; apply submseteq_length|].
  repeat split; try (by apply Permutation_length; auto); auto.
Qed.

Lemma C2_rebuilt_arrays_witness :
  noFlags SampleOpt.reversed ∧ addressable SampleOpt.reversed ∧
  ∃ s', OptimiseMesh (FO := IEEE.ops) (RT := plainRuntime) SampleOpt.reversed = Some s' ∧
        length (vertices s') = length (vertices SampleOpt.reversed).
Proof.
  assert (Hflags : noFlags SampleOpt.reversed) by (repeat split; repeat constructor).
  assert (Haddr : addressable SampleOpt.reversed) by (repeat split; by vm_compute).
  split; [exact Hflags|]. split; [exact Haddr|].
  destruct (isSome_true (OptimiseMesh (FO := IEEE.ops) (RT := plainRuntime) SampleOpt.reversed))
    as [s' Hrun]; [by vm_compute|].
  exists s'. split; [exact Hrun|].
  destruct (C2_rebuilt_arrays (FO := IEEE.ops) (RT := plainRuntime)
              SampleOpt.reversed s' Hflags Haddr Hrun) as (_ & _ & Hv & _).
  apply Hv. intros y Hy.
  exists (Face.mk 3 [2; 1; 0] [0; 0; 0] [] [0; 0; 0] 0 "" 0 false).
  destruct y as [|[|[|y]]]; [exists 0|exists 1|exists 2|cbn in Hy; lia];
    (split; [apply list_elem_of_here|]); (split; [|done]);
    unfold corners; change (N.to_nat 3) with 3%nat; cbn;
    repeat (first [apply list_elem_of_here | apply list_elem_of_further]).
Defined.

(** C2 as stated fails.  In [spare] the second vertex is referenced by no
    corner and is dropped: two vertices before, one after.  In [reversed]
    all three vertices are kept, in the order of first reference
    [(0,1), (1,0), (0,0)], but the corner that referred to the first of them
    ends up with index 2: the loop also renumbers indices it has already
    renumbered, since old and new indices share the arrays. *)
Lemma C2_counterexample_lengths_and_renumbering :
  (length (vertices SampleOpt.spare) = 2%nat ∧
   SampleOpt.summary (SampleOpt.optimise plainRuntime SampleOpt.spare)
   = Some ([0], [939524096], [[0; 0; 0]], [(Sample.F 0, Sample.F 0)])) ∧
  (map Face.v (faces SampleOpt.reversed) = [[2; 1; 0]] ∧
   SampleOpt.summary (SampleOpt.optimise plainRuntime SampleOpt.reversed)
   = Some ([0], [939536387], [[2; 1; 2]],
           [(Sample.F 0, Sample.F 1); (Sample.F 1, Sample.F 0); (Sample.F 0, Sample.F 0)])).
Proof. repeat split; by vm_compute. Qed.

(** ** The quad pass keeps the references valid *)

Lemma ConvertQuadToTriangles_shape `{FO : FloatOps} `{RT : GoRuntime} (i : nat) (s s' : Store) :
  ConvertQuadToTriangles i s = Some s' →
  ∃ f f' v0 v1 v2 v3 vr n0 n1 n2 n3 nr u0 u1 u2 u3 ur,
    faces s !! i = Some f ∧
    Face.v f = v0 :: v1 :: v2 :: v3 :: vr ∧
    Face.n f = n0 :: n1 :: n2 :: n3 :: nr ∧
    Face.uv f = u0 :: u1 :: u2 :: u3 :: ur ∧
    faces s' = <[i:=f']> (faces s) ++
      [Face.mk 3 [v0; v2; v3] [n0; n2; n3] [] [u0; u2; u3]
         (Face.materialID f) (Face.materialName f) 0 false] ∧
    Face.edges f' = 3 ∧
    take 3 (Face.v f') = [v0; v1; v2] ∧ take 3 (Face.n f') = [n0; n1; n2] ∧
    take 3 (Face.uv f') = [u0; u1; u2] ∧
    vertices s' = vertices s ∧ normals s' = normals s ∧
    textureCoords s' = textureCoords s.
Proof.
  unfold ConvertQuadToTriangles.
  destruct (faces s !! i) as [f|] eqn:Hf; cbn [mbind option_bind]; [|done].
  destruct f as [e fv fn ft fuv mid mname code cpl].
  cbn [Face.set_edges Face.v Face.n Face.uv Face.t Face.materialID Face.materialName
       Face.mortonCode Face.complete].
  destruct fv as [|v0 [|v1 [|v2 [|v3 vr]]]]; try done.
  destruct fn as [|n0 [|n1 [|n2 [|n3 nr]]]]; try done.
  destruct fuv as [|u0 [|u1 [|u2 [|u3 ur]]]]; try done.
  destruct (decide (length ft = 4%nat)) as [Ht|Ht]; [by destruct ft|].
  cbn. intros [= <-].
  eexists _, _, v0, v1, v2, v3, vr, n0, n1, n2, n3, nr, u0, u1, u2, u3, ur.
  split; [done|]. do 3 (split; [done|]). split; [reflexivity|].
  destruct (bool_decide (facesCap s ≤ length (faces s))%nat); cbn.
  - unfold deletedBacking. cbn.
    destruct (last (v3 :: vr)), (last (n3 :: nr)), (last (u3 :: ur)); by repeat split.
  - by repeat split.
Qed.

Lemma list_elem_of_insert_inv {A : Type} (l : list A) (i : nat) (x y : A) :
  y ∈ <[i:=x]> l → y = x ∨ y ∈ l.
Proof.
  intros Hy. apply list_elem_of_lookup in Hy as [j Hj].
  destruct (decide (i = j)) as [->|Hne].
  - destruct (decide (j < length l)%nat).
    + rewrite list_lookup_insert_eq in Hj by done. left. congruence.
    + rewrite list_insert_ge in Hj by lia. right. by eapply list_elem_of_lookup_2.
  - rewrite list_lookup_insert_ne in Hj by done. right. by eapply list_elem_of_lookup_2.
Qed.

Lemma ConvertQuadToTriangles_valid `{FO : FloatOps} `{RT : GoRuntime} (i : nat)
    (s s' : Store) (f : Face) :
  faces s !! i = Some f → Face.edges f = 4 → validStore s →
  ConvertQuadToTriangles i s = Some s' →
  validStore s' ∧ vertices s' = vertices s ∧ normals s' = normals s ∧
  textureCoords s' = textureCoords s.
Proof.
  intros Hf He Hvalid Hrun.
  destruct (ConvertQuadToTriangles_shape i s s' Hrun)
    as (g & f' & v0 & v1 & v2 & v3 & vr & n0 & n1 & n2 & n3 & nr & u0 & u1 & u2 & u3 & ur
        & Hg & Hv & Hn & Hu & Hfs & He' & Hv' & Hn' & Hu' & Ev & En & Eu).
  assert (g = f) as -> by congruence.
  split; [|done]. unfold validStore. rewrite Ev, En, Eu, Hfs.
  assert (Hin : f ∈ faces s) by (by eapply list_elem_of_lookup_2).
  assert (Hkeep : ∀ k len a0 a1 a2 a3 ar b,
            validAttr k len (faces s) → getA k f = a0 :: a1 :: a2 :: a3 :: ar →
            take 3 (getA k f') = [a0; a1; a2] →
            getA k b = [a0; a2; a3] → Face.edges b = 3 →
            validAttr k len (<[i:=f']> (faces s) ++ [b])).
  { intros k len a0 a1 a2 a3 ar b Hk Ha Ha' Hb Heb h x Hh Hx.
    assert (Hquad : ∀ y, y ∈ [a0; a1; a2; a3] → (N.to_nat y < len)%nat).
    { intros y Hy. apply (Hk f y Hin). unfold corners. rewrite He, Ha.
      change (N.to_nat 4) with 4%nat. by cbn. }
    apply elem_of_app in Hh as [Hh|Hh].
    - apply list_elem_of_insert_inv in Hh as [->|Hh]; [|by apply (Hk h x)].
      unfold corners in Hx. rewrite He' in Hx. change (N.to_nat 3) with 3%nat in Hx.
      rewrite Ha' in Hx. apply Hquad. revert Hx. list_mem.
    - apply list_elem_of_singleton in Hh as ->.
      unfold corners in Hx. rewrite Heb, Hb in Hx. change (N.to_nat 3) with 3%nat in Hx.
      cbn in Hx. apply Hquad. revert Hx. list_mem. }
  destruct Hvalid as (Vv & Vn & Vu).
  split; [|split].
  - by apply (Hkeep AttrV _ v0 v1 v2 v3 vr).
  - by apply (Hkeep AttrN _ n0 n1 n2 n3 nr).
  - by apply (Hkeep AttrUV _ u0 u1 u2 u3 ur).
Qed.

Lemma validateQuads_valid `{FO : FloatOps} `{RT : GoRuntime} (fuel : nat) (q : Z)
    (i : nat) (s s' : Store) :
  validStore s → validateQuads fuel q i s = Completed s' →
  validStore s' ∧ vertices s' = vertices s ∧ normals s' = normals s ∧
  textureCoords s' = textureCoords s.
Proof.
  revert i s. induction fuel as [|fuel IH]; intros i s Hvalid Hrun; [done|].
  cbn [validateQuads] in Hrun.
  destruct (faces s !! i) as [f|] eqn:Hf; [|by injection Hrun as <-].
  assert (Hconvert : ∀ r, (Face.edges f =? 4) = true →
            ofOption r (validateQuads fuel q (S i)) = Completed s' →
            r = ConvertQuadToTriangles i s →
            validStore s' ∧ vertices s' = vertices s ∧ normals s' = normals s ∧
            textureCoords s' = textureCoords s).
  { intros r Hq Hr ->. apply N.eqb_eq in Hq.
    destruct (ConvertQuadToTriangles i s) as [s1|] eqn:Hc; [|done]. cbn in Hr.
    destruct (ConvertQuadToTriangles_valid i s s1 f Hf Hq Hvalid Hc) as (V1 & Ev & En & Eu).
    destruct (IH (S i) s1 V1 Hr) as (V' & Ev' & En' & Eu').
    split; [done|]. repeat split; congruence. }
  destruct (if (Face.edges f =? 4) && negb (q =? 3)%Z then FakeQuadCheck f else Some ());
    [|done].
  destruct (Face.edges f =? 4) eqn:Hq; cbn [andb] in Hrun; [|by apply (IH (S i) s)].
  destruct (q =? 3)%Z; [by eapply Hconvert|].
  destruct (0 <? q)%Z; [|by apply (IH (S i) s)].
  destruct (ValidateQuad s f) as [[|msg]|]; [by apply (IH (S i) s)| |done].
  destruct (q =? 1)%Z; [done|].
  destruct (q =? 2)%Z; [by eapply Hconvert|by apply (IH (S i) s)].
Qed.

(** The quad pass always ends: the fuel of [validateStage] is never used up. *)
Definition quadsFrom (i : nat) (fs : list Face) : nat :=
  length (filter (λ f, Face.edges f = 4) (drop i fs)).

Lemma quadsFrom_S i fs f :
  fs !! i = Some f →
  quadsFrom i fs
  = ((if decide (Face.edges f = 4%N) then 1 else 0) + quadsFrom (S i) fs)%nat.
Proof.
  intros Hf. unfold quadsFrom. rewrite (drop_S fs f i Hf), filter_cons.
  by destruct (decide (Face.edges f = 4)).
Qed.

Lemma quadsFrom_convert i fs f f' g :
  fs !! i = Some f → Face.edges g = 3 →
  quadsFrom (S i) (<[i:=f']> fs ++ [g]) = quadsFrom (S i) fs.
Proof.
  intros Hf Hg. unfold quadsFrom. apply lookup_lt_Some in Hf.
  rewrite drop_app_le by (rewrite length_insert; lia).
  rewrite drop_insert_lt by lia. rewrite filter_app, length_app.
  rewrite filter_cons, decide_False by (rewrite Hg; done). cbn. lia.
Qed.

Lemma validateQuads_fuel `{FO : FloatOps} `{RT : GoRuntime} (fuel : nat) (q : Z)
    (i : nat) (s : Store) :
  (length (faces s) - i + quadsFrom i (faces s) < fuel)%nat →
  validateQuads fuel q i s ≠ OutOfFuel.
Proof.
  revert i s. induction fuel as [|fuel IH]; intros i s Hfuel; [lia|].
  cbn [validateQuads].
  destruct (faces s !! i) as [f|] eqn:Hf; [|done].
  apply lookup_lt_Some in Hf as Hlt.
  pose proof (quadsFrom_S i (faces s) f Hf) as HQ.
  assert (Hnext : validateQuads fuel q (S i) s ≠ OutOfFuel).
  { apply IH. destruct (decide (Face.edges f = 4)); lia. }
  assert (Hconvert : (Face.edges f =? 4) = true →
            ofOption (ConvertQuadToTriangles i s) (validateQuads fuel q (S i)) ≠ OutOfFuel).
  { intros Hq. apply N.eqb_eq in Hq.
    destruct (ConvertQuadToTriangles i s) as [s1|] eqn:Hc; [|done]. cbn.
    destruct (ConvertQuadToTriangles_shape i s s1 Hc)
      as (g & f' & v0 & v1 & v2 & v3 & vr & n0 & n1 & n2 & n3 & nr & u0 & u1 & u2 & u3 & ur
          & Hg & _ & _ & _ & Hfs & _).
    apply IH. rewrite Hfs, (quadsFrom_convert i (faces s) f) by done.
    rewrite length_app, length_insert. cbn [length].
    rewrite decide_True in HQ by done. lia. }
  destruct (if (Face.edges f =? 4) && negb (q =? 3)%Z then FakeQuadCheck f else Some ());
    [|done].
  destruct (Face.edges f =? 4) eqn:Hq; cbn [andb]; [|done].
  destruct (q =? 3)%Z; [by apply Hconvert|].
  destruct (0 <? q)%Z; [|done].
  destruct (ValidateQuad s f) as [[|msg]|]; [done| |done].
  destruct (q =? 1)%Z; [done|].
  destruct (q =? 2)%Z; [by apply Hconvert|done].
Qed.

Lemma validateStage_ends `{FO : FloatOps} `{RT : GoRuntime} (q : Z) (s : Store) :
  validateStage q s ≠ OutOfFuel.
Proof.
  apply validateQuads_fuel. unfold quadsFrom. rewrite drop_0.
  pose proof (length_filter (λ f, Face.edges f = 4) (faces s)). lia.
Qed.

(** ** C1: valid references at every stage boundary *)

(** C1, as amended.  On a store whose face corners are valid indices when
    the stage begins, each stage that runs to its end leaves every corner
    of every face's vertex, normal and uv index array a valid index into its
    attribute array: the quad pass (whatever the mode), then [DeDupe] on a
    store without flags whose arrays a [uint32] can index, as the reader and
    the quad pass leave it.  [OptimiseMesh] indexes the arrays with every
    corner, so it runs to its end on valid corners only and leaves them
    valid. *)
Theorem C1_valid_references_at_stage_boundaries `{FO : FloatOps} `{RT : GoRuntime} :
  (∀ (q : Z) (s s' : Store),
     validStore s → validateStage q s = Completed s' →
     validStore s' ∧ (noFlags s → noFlags s')) ∧
  (∀ (vT nT uvT : f64) (s s' : Store) (counts : nat * nat * nat),
     validStore s → noFlags s → addressable s →
     DeDupe vT nT uvT s = Some (s', counts) →
     validStore s' ∧ noFlags s' ∧ addressable s') ∧
  (∀ (s s' : Store),
     noFlags s → addressable s → OptimiseMesh s = Some s' →
     validStore s' ∧ noFlags s' ∧ addressable s').
Proof.
  split; [|split].
  - intros q s s' Hvalid Hrun.
    destruct (validateQuads_valid _ q 0 s s' Hvalid Hrun) as (Hv & Ev & En & Eu).
    split; [done|]. unfold noFlags. by rewrite Ev, En, Eu.
  - intros vT nT uvT s s' counts. apply DeDupe_valid.
  - intros s s' Hflags Haddr Hrun.
    destruct (OptimiseMesh_spec s s' Hflags Haddr Hrun) as (? & ? & ? & _). done.
Qed.

Lemma validAttr_Forall k len fs :
  Forall (λ f, Forall (λ x, N.to_nat x < len)%nat (corners (Face.edges f) (getA k f))) fs →
  validAttr k len fs.
Proof.
  intros Hall f x Hf Hx. rewrite Forall_forall in Hall.
  specialize (Hall f Hf). rewrite Forall_forall in Hall. by apply Hall.
Qed.

Definition isCompleted `{FloatOps} (r : outcome) : bool :=
  match r with Completed _ => true | _ => false end.

Lemma isCompleted_true `{FloatOps} (r : outcome) :
  isCompleted r = true → ∃ s, r = Completed s.
Proof. destruct r; try done. eauto. Qed.

(** Concrete stores are checked entry by entry. *)
Ltac check_store :=
  repeat split;
  first [ apply validAttr_Forall; unfold corners; cbn;
          repeat (constructor; try (cbn; lia))
        | solve [repeat constructor]
        | by vm_compute ].

Lemma C1_valid_references_witness :
  (validStore Sample.square ∧
   ∃ s', validateStage (RT := plainRuntime) 3 Sample.square = Completed s' ∧ validStore s') ∧
  (validStore SampleC3.mesh ∧ noFlags SampleC3.mesh ∧ addressable SampleC3.mesh ∧
   ∃ s' counts, SampleC3.run = Some (s', counts) ∧ validStore s') ∧
  (noFlags SampleOpt.twins ∧ addressable SampleOpt.twins ∧
   ∃ s', OptimiseMesh (FO := IEEE.ops) (RT := plainRuntime) SampleOpt.twins = Some s' ∧
         validStore s').
Proof.
  destruct (C1_valid_references_at_stage_boundaries (FO := IEEE.ops) (RT := plainRuntime))
    as (Hquad & Hdedupe & Hopt).
  split; [|split].
  - assert (Hv : validStore Sample.square) by check_store.
    split; [exact Hv|].
    destruct (isCompleted_true (validateStage (RT := plainRuntime) 3 Sample.square))
      as [s' Hrun]; [by vm_compute|].
    exists s'. split; [exact Hrun|]. exact (proj1 (Hquad 3%Z Sample.square s' Hv Hrun)).
  - assert (Hv : validStore SampleC3.mesh) by check_store.
    assert (Hf : noFlags SampleC3.mesh) by check_store.
    assert (Ha : addressable SampleC3.mesh) by check_store.
    split; [exact Hv|]. split; [exact Hf|]. split; [exact Ha|].
    destruct (isSome_true SampleC3.run) as [[s' counts] Hrun]; [by vm_compute|].
    exists s', counts. split; [exact Hrun|].
    exact (proj1 (Hdedupe SampleC3.vT SampleC3.nT SampleC3.uvT SampleC3.mesh s' counts
                    Hv Hf Ha Hrun)).
  - assert (Hf : noFlags SampleOpt.twins) by check_store.
    assert (Ha : addressable SampleOpt.twins) by check_store.
    split; [exact Hf|]. split; [exact Ha|].
    destruct (isSome_true (OptimiseMesh (FO := IEEE.ops) (RT := plainRuntime) SampleOpt.twins))
      as [s' Hrun]; [by vm_compute|].
    exists s'. split; [exact Hrun|]. exact (proj1 (Hopt SampleOpt.twins s' Hf Ha Hrun)).
Defined.

Lemma validateQuads_arrays `{FO : FloatOps} `{RT : GoRuntime} (fuel : nat) (q : Z)
    (i : nat) (s s' : Store) :
  validateQuads fuel q i s = Completed s' →
  vertices s' = vertices s ∧ normals s' = normals s ∧ textureCoords s' = textureCoords s.
Proof.
  revert i s. induction fuel as [|fuel IH]; intros i s Hrun; [done|].
  cbn [validateQuads] in Hrun.
  destruct (faces s !! i) as [f|] eqn:Hf; [|by injection Hrun as <-].
  assert (Hconvert :
            ofOption (ConvertQuadToTriangles i s) (validateQuads fuel q (S i)) = Completed s' →
            vertices s' = vertices s ∧ normals s' = normals s ∧
            textureCoords s' = textureCoords s).
  { destruct (ConvertQuadToTriangles i s) as [s1|] eqn:Hc; [|done]. cbn. intros Hr.
    destruct (ConvertQuadToTriangles_shape i s s1 Hc)
      as (g & f' & v0 & v1 & v2 & v3 & vr & n0 & n1 & n2 & n3 & nr & u0 & u1 & u2 & u3 & ur
          & _ & _ & _ & _ & _ & _ & _ & _ & _ & Ev & En & Eu).
    destruct (IH (S i) s1 Hr) as (Ev' & En' & Eu'). repeat split; congruence. }
  destruct (if (Face.edges f =? 4) && negb (q =? 3)%Z then FakeQuadCheck f else Some ());
    [|done].
  destruct (Face.edges f =? 4); cbn [andb] in Hrun; [|by apply (IH (S i) s)].
  destruct (q =? 3)%Z; [by apply Hconvert|].
  destruct (0 <? q)%Z; [|by apply (IH (S i) s)].
  destruct (ValidateQuad s f) as [[|msg]|]; [by apply (IH (S i) s)| |done].
  destruct (q =? 1)%Z; [done|].
  destruct (q =? 2)%Z; [by apply Hconvert|by apply (IH (S i) s)].
Qed.

(** ** C6: the bounding sphere *)

(** On the empty point set [RitterBoundingSphere] returns the zero vertex
    and radius 0, whatever the arithmetic. *)
Lemma RitterBoundingSphere_empty `{FO : FloatOps} :
  RitterBoundingSphere [] = (zeroVertex, f64_lit 0 1) ∧
  Vertex.X zeroVertex = f32_of_Z 0 ∧
  Vertex.Y zeroVertex = f32_of_Z 0 ∧
  Vertex.Z zeroVertex = f32_of_Z 0.
Proof. done. Qed.

Module SampleC6.

(** Single precision close to the largest finite value: 14000000 * 2^104,
    about 2.8e38. *)
Definition huge : spec_float := S754_finite false 14000000 104.
Definition farPoints : list (Vertex (H := IEEE.ops)) :=
  [Vertex.mk IEEE.ops huge (Sample.F 0) (Sample.F 0)
     (Sample.F 1) (Sample.F 1) (Sample.F 1) (Sample.F 1) (Sample.F 1) false;
   Vertex.mk IEEE.ops huge (Sample.F 1) (Sample.F 0)
     (Sample.F 1) (Sample.F 1) (Sample.F 1) (Sample.F 1) (Sample.F 1) false].

Definition farSphere : Vertex (H := IEEE.ops) * spec_float :=
  RitterBoundingSphere (FO := IEEE.ops) farPoints.

(** The distances from the center of [farSphere] to the points. *)
Definition farDistances : list spec_float :=
  map (Distance (FO := IEEE.ops) farSphere.1) farPoints.

(** The first estimate of the sphere: the midpoint of the two farthest
    points and half their distance. *)
Definition farMidpoint : spec_float := SFdiv 24 128 (SFadd 24 128 huge huge) (Sample.F 2).

End SampleC6.

(** C6.  The run of [RitterBoundingSphere] on two finite points near the
    top of the single-precision range.  The midpoint [(p1.X + p2.X) / 2]
    overflows to an infinity although [p1.X] is finite; the expansion step
    then divides an infinity by an infinity; the returned center is NaN and
    the radius infinite.  The distance from the center to either point is
    NaN, which is not at most radius plus epsilon for any epsilon: the
    sphere contains none of its points. *)
Theorem C6_RitterBoundingSphere_overflow :
  valid_binary 24 128 SampleC6.huge = true ∧
  SampleC6.farMidpoint = S754_infinity false ∧
  (Vertex.X SampleC6.farSphere.1, SampleC6.farSphere.2) = (S754_nan, S754_infinity false) ∧
  SampleC6.farDistances = [S754_nan; S754_nan] ∧
  ∀ d eps, d ∈ SampleC6.farDistances →
    SFleb d (SFadd 53 1024 SampleC6.farSphere.2 eps) = false.
Proof.
  assert (Hd : SampleC6.farDistances = [S754_nan; S754_nan]) by by vm_compute.
  split; [by vm_compute|]. split; [by vm_compute|]. split; [by vm_compute|].
  split; [exact Hd|].
  intros d eps Hin. rewrite Hd in Hin.
  assert (d = S754_nan) as ->.
  { revert Hin. rewrite !elem_of_cons, elem_of_nil. tauto. }
  reflexivity.
Qed.

(** ** C9: unit normals *)

(** The later stages never change a stored normal: whatever holds of every
    normal of the store before the quad pass, [DeDupe] or [OptimiseMesh]
    holds of every normal after it. *)
Lemma stages_keep_normals `{FO : FloatOps} `{RT : GoRuntime} (P : Normal → Prop) :
  (∀ (q : Z) (s s' : Store),
     validateStage q s = Completed s' →
     Forall P (normals s) → Forall P (normals s')) ∧
  (∀ (vT nT uvT : f64) (s s' : Store) (counts : nat * nat * nat),
     DeDupe vT nT uvT s = Some (s', counts) →
     Forall P (normals s) → Forall P (normals s')) ∧
  (∀ (s s' : Store),
     noFlags s → addressable s → OptimiseMesh s = Some s' →
     Forall P (normals s) → Forall P (normals s')).
Proof.
  split; [|split].
  - intros q s s' Hrun Hall.
    destruct (validateQuads_arrays _ q 0 s s' Hrun) as (_ & -> & _). done.
  - intros vT nT uvT s s' counts Hrun Hall.
    pose proof (DeDupe_normals_sublist vT nT uvT s s' counts Hrun) as Hsub.
    apply sublist_submseteq in Hsub. by eapply submseteq_Forall.
  - intros s s' Hflags Haddr Hrun Hall.
    destruct (OptimiseMesh_spec s s' Hflags Haddr Hrun) as (_ & _ & _ & _ & Hsub & _).
    by eapply submseteq_Forall.
Qed.

Module SampleC9.
#[local] Existing Instance IEEE.ops.

Definition components (n : Normal) : spec_float * spec_float * spec_float :=
  (Normal.X n, Normal.Y n, Normal.Z n).

(** The length of a stored normal, in double precision. *)
Definition lengthOf (n : Normal) : spec_float :=
  let x := IEEE.widen (Normal.X n) in
  let y := IEEE.widen (Normal.Y n) in
  let z := IEEE.widen (Normal.Z n) in
  SFsqrt 53 1024 (SFadd 53 1024 (SFadd 53 1024 (SFmul 53 1024 x x) (SFmul 53 1024 y y))
                    (SFmul 53 1024 z z)).

(** The length is within 1e-5 of 1. *)
Definition unitLength (n : Normal) : bool :=
  SFleb (SFabs (SFsub 53 1024 (lengthOf n) (IEEE.of_Z64 1))) (IEEE.lit64 1 100000).

(** The normal stored for the three numbers of a ["vn"] line. *)
Definition storedFor (x y z : spec_float) : Normal :=
  normalize (Normal.mk IEEE.ops x y z (Sample.F 0) false).

(** The normal stored for the line ["vn 0 0 0"]. *)
Definition stored : Normal := storedFor (Sample.F 0) (Sample.F 0) (Sample.F 0).

(** [2^100] and [2^-100], both finite single-precision numbers. *)
Definition large : spec_float := S754_finite false 8388608 77.
Definition tiny : spec_float := S754_finite false 8388608 (-123).

(** The sum of squares of [normalize], the single-precision value that is
    then widened for the square root. *)
Definition squares (x y z : spec_float) : spec_float :=
  SFadd 24 128 (SFadd 24 128 (SFmul 24 128 x x) (SFmul 24 128 y y)) (SFmul 24 128 z z).

End SampleC9.

Lemma Forall_forallb {A : Type} (f : A → bool) (l : list A) :
  forallb f l = true → Forall (λ x, f x = true) l.
Proof.
  induction l as [|x l IH]; cbn [forallb]; [constructor|].
  intros [Hx Hl]%andb_prop. constructor; [done|by apply IH].
Qed.

(** The stages keep unit normals unit, in IEEE arithmetic with the 1e-5
    tolerance test. *)
Lemma stages_keep_normals_sample :
  (Forall (λ n, SampleC9.unitLength n = true) (normals Sample.square) ∧
   ∃ s', validateStage (RT := plainRuntime) 3 Sample.square = Completed s' ∧
         Forall (λ n, SampleC9.unitLength n = true) (normals s')) ∧
  (Forall (λ n, SampleC9.unitLength n = true) (normals SampleC3.mesh) ∧
   ∃ s' counts, SampleC3.run = Some (s', counts) ∧
                Forall (λ n, SampleC9.unitLength n = true) (normals s')) ∧
  (noFlags SampleOpt.twins ∧ addressable SampleOpt.twins ∧
   Forall (λ n, SampleC9.unitLength n = true) (normals SampleOpt.twins) ∧
   ∃ s', OptimiseMesh (FO := IEEE.ops) (RT := plainRuntime) SampleOpt.twins = Some s' ∧
         Forall (λ n, SampleC9.unitLength n = true) (normals s')).
Proof.
  destruct (stages_keep_normals (FO := IEEE.ops) (RT := plainRuntime)
              (λ n, SampleC9.unitLength n = true)) as (Hquad & Hdedupe & Hopt).
  split; [|split].
  - assert (Hn : Forall (λ n, SampleC9.unitLength n = true) (normals Sample.square)).
    { apply Forall_forallb. by vm_compute. }
    split; [exact Hn|].
    destruct (isCompleted_true (validateStage (RT := plainRuntime) 3 Sample.square))
      as [s' Hrun]; [by vm_compute|].
    exists s'. split; [exact Hrun|]. exact (Hquad 3%Z Sample.square s' Hrun Hn).
  - assert (Hn : Forall (λ n, SampleC9.unitLength n = true) (normals SampleC3.mesh)).
    { apply Forall_forallb. by vm_compute. }
    split; [exact Hn|].
    destruct (isSome_true SampleC3.run) as [[s' counts] Hrun]; [by vm_compute|].
    exists s', counts. split; [exact Hrun|].
    exact (Hdedupe SampleC3.vT SampleC3.nT SampleC3.uvT SampleC3.mesh s' counts Hrun Hn).
  - assert (Hf : noFlags SampleOpt.twins) by check_store.
    assert (Ha : addressable SampleOpt.twins) by check_store.
    assert (Hn : Forall (λ n, SampleC9.unitLength n = true) (normals SampleOpt.twins)).
    { apply Forall_forallb. by vm_compute. }
    split; [exact Hf|]. split; [exact Ha|]. split; [exact Hn|].
    destruct (isSome_true (OptimiseMesh (FO := IEEE.ops) (RT := plainRuntime) SampleOpt.twins))
      as [s' Hrun]; [by vm_compute|].
    exists s'. split; [exact Hrun|]. exact (Hopt SampleOpt.twins s' Hf Ha Hrun Hn).
Defined.

(** C9.  The normals [normalize] stores for three vectors the reader
    accepts.  For the zero vector the length is 0, every component becomes
    0/0 and the stored normal is (NaN, NaN, NaN).  For [(2^100, 0, 0)] the
    sum of squares is formed in single precision, before the widening, and
    overflows: the length is infinite and the stored normal is (0, 0, 0).
    For [(2^-100, 0, 0)] the square underflows to 0 and the stored normal
    is (+Inf, NaN, NaN).  None of the three has a length within 1e-5 of 1. *)
Theorem C9_normalize_misses_unit_length :
  (map SampleC9.components
       (normals (acceptNormal (FO := IEEE.ops) (Sample.F 0) (Sample.F 0) (Sample.F 0)
                   Sample.square))
   = map SampleC9.components Sample.squareNormals ++ [(S754_nan, S754_nan, S754_nan)] ∧
   SampleC9.lengthOf SampleC9.stored = S754_nan ∧
   SampleC9.unitLength SampleC9.stored = false) ∧
  (valid_binary 24 128 SampleC9.large = true ∧
   SampleC9.large = IEEE.of_Z32 (2 ^ 100) ∧
   SampleC9.squares SampleC9.large (Sample.F 0) (Sample.F 0) = S754_infinity false ∧
   SampleC9.components (SampleC9.storedFor SampleC9.large (Sample.F 0) (Sample.F 0))
   = (S754_zero false, S754_zero false, S754_zero false) ∧
   SampleC9.unitLength (SampleC9.storedFor SampleC9.large (Sample.F 0) (Sample.F 0))
   = false) ∧
  (valid_binary 24 128 SampleC9.tiny = true ∧
   SFmul 24 128 SampleC9.tiny (IEEE.of_Z32 (2 ^ 100)) = IEEE.of_Z32 1 ∧
   SampleC9.squares SampleC9.tiny (Sample.F 0) (Sample.F 0) = S754_zero false ∧
   SampleC9.components (SampleC9.storedFor SampleC9.tiny (Sample.F 0) (Sample.F 0))
   = (S754_infinity false, S754_nan, S754_nan) ∧
   SampleC9.unitLength (SampleC9.storedFor SampleC9.tiny (Sample.F 0) (Sample.F 0))
   = false).
Proof. repeat split; by vm_compute. Qed.

(** * Further properties of the pipeline *)

(** ** [interleaveBits] and [Morton3D] *)

(** Bit [n] of [interleaveBits x] for a 10-bit [x]: bit [k] of [x] sits at
    position [3k], every other position is clear. *)
Definition spreadBit (x n : N) : bool :=
  (n <? 30) && (n mod 3 =? 0) && N.testbit x (n / 3).

Definition spreadCheck (x : nat) : bool :=
  (interleaveBits (N.of_nat x) <? 2 ^ 28) &&
  forallb (λ n, Bool.eqb (N.testbit (interleaveBits (N.of_nat x)) (N.of_nat n))
                         (spreadBit (N.of_nat x) (N.of_nat n)))
          (seq 0 28).

Lemma spreadCheck_all : forallb spreadCheck (seq 0 1024) = true.
Proof. by vm_compute. Qed.

Lemma interleaveBits_lt (x : N) : x < 1024 → interleaveBits x < 2 ^ 28.
Proof.
  intros Hx. pose proof spreadCheck_all as H. rewrite forallb_forall in H.
  assert (Hin : In (N.to_nat x) (seq 0 1024)) by (apply in_seq; lia).
  apply H in Hin. unfold spreadCheck in Hin. rewrite N2Nat.id in Hin.
  apply andb_prop in Hin as [Hlt _]. by apply N.ltb_lt in Hlt.
Qed.

Lemma interleaveBits_testbit (x n : N) :
  x < 1024 → N.testbit (interleaveBits x) n = spreadBit x n.
Proof.
  intros Hx. destruct (N.lt_ge_cases n 28) as [Hn|Hn].
  - pose proof spreadCheck_all as H. rewrite forallb_forall in H.
    assert (Hin : In (N.to_nat x) (seq 0 1024)) by (apply in_seq; lia).
    apply H in Hin. unfold spreadCheck in Hin. rewrite N2Nat.id in Hin.
    apply andb_prop in Hin as [_ Hbits].
    rewrite forallb_forall in Hbits. specialize (Hbits (N.to_nat n)).
    rewrite N2Nat.id in Hbits. apply Bool.eqb_prop, Hbits, in_seq. lia.
  - pose proof (interleaveBits_lt x Hx) as Hlt.
    assert (N.testbit (interleaveBits x) n = false) as ->.
    { destruct (N.eq_dec (interleaveBits x) 0) as [->|Hnz]; [apply N.bits_0|].
      apply N.bits_above_log2. apply N.log2_lt_pow2 in Hlt; lia. }
    unfold spreadBit. destruct (N.ltb_spec n 30) as [Hn30|Hn30]; [|done].
    assert (n = 28 ∨ n = 29) as [-> | ->] by lia; done.
Qed.

Lemma u32_id (x : N) : x < 2 ^ 32 → u32 x = x.
Proof. intros. unfold u32. by apply N.mod_small. Qed.

(** [Morton3D] on 10-bit coordinates without the (idle) wrap-around. *)
Lemma Morton3D_small (x y z : N) :
  x < 1024 → y < 1024 → z < 1024 →
  Morton3D x y z
  = N.lor (N.lor (interleaveBits x) (N.shiftl (interleaveBits y) 1))
          (N.shiftl (interleaveBits z) 2).
Proof.
  intros Hx Hy Hz. unfold Morton3D.
  pose proof (interleaveBits_lt y Hy). pose proof (interleaveBits_lt z Hz).
  rewrite !u32_id; [done| |].
  - rewrite N.shiftl_mul_pow2. change (2 ^ 28) with 268435456 in *.
    change (2 ^ 32) with 4294967296. change (2 ^ 2) with 4. lia.
  - rewrite N.shiftl_mul_pow2. change (2 ^ 28) with 268435456 in *.
    change (2 ^ 32) with 4294967296. change (2 ^ 1) with 2. lia.
Qed.

Lemma shiftl_testbit (a n m : N) :
  N.testbit (N.shiftl a n) m = (n <=? m) && N.testbit a (m - n).
Proof.
  destruct (N.leb_spec n m).
  - by rewrite N.shiftl_spec_high' by done.
  - by rewrite N.shiftl_spec_low by done.
Qed.

Lemma div_mod_3 (k c : N) : c < 3 → (3 * k + c) / 3 = k ∧ (3 * k + c) mod 3 = c.
Proof.
  intros Hc. apply (N.div_mod_unique 3); [by apply N.mod_lt|done|].
  symmetry. by apply N.div_mod.
Qed.

Lemma spreadBit_off (w m : N) : m mod 3 ≠ 0 → spreadBit w m = false.
Proof.
  intros Hm. unfold spreadBit. destruct (N.eqb_spec (m mod 3) 0); [done|].
  by rewrite andb_false_r.
Qed.

Lemma spreadBit_on (w k : N) : k < 10 → spreadBit w (3 * k) = N.testbit w k.
Proof.
  intros Hk. unfold spreadBit.
  destruct (div_mod_3 k 0) as [Hd Hm]; [lia|]. rewrite N.add_0_r in Hd, Hm.
  rewrite Hd, Hm. destruct (N.ltb_spec (3 * k) 30); [done|lia].
Qed.

(** Bit [3k + c] of the code is bit [k] of the [c]-th coordinate. *)
Lemma Morton3D_testbit (x y z k : N) :
  x < 1024 → y < 1024 → z < 1024 → k < 10 →
  N.testbit (Morton3D x y z) (3 * k) = N.testbit x k ∧
  N.testbit (Morton3D x y z) (3 * k + 1) = N.testbit y k ∧
  N.testbit (Morton3D x y z) (3 * k + 2) = N.testbit z k.
Proof.
  intros Hx Hy Hz Hk. rewrite Morton3D_small by done.
  rewrite !N.lor_spec, !shiftl_testbit, !interleaveBits_testbit by done.
  replace (3 * k + 1 - 1) with (3 * k) by lia.
  replace (3 * k + 2 - 2) with (3 * k) by lia.
  rewrite !spreadBit_on by done.
  assert (Hoff : ∀ w j c, c = 1 ∨ c = 2 → spreadBit w (3 * j + c) = false).
  { intros w j c Hc. apply spreadBit_off. destruct (div_mod_3 j c) as [_ ->]; lia. }
  rewrite (Hoff x k 1), (Hoff x k 2) by lia.
  replace (3 * k + 2 - 1) with (3 * k + 1) by lia. rewrite (Hoff y k 1) by lia.
  assert (Hy0 : (1 <=? 3 * k) && spreadBit y (3 * k - 1) = false).
  { destruct (N.leb_spec 1 (3 * k)); [|done].
    replace (3 * k - 1) with (3 * (k - 1) + 2) by lia. by rewrite Hoff by lia. }
  assert (Hz0 : (2 <=? 3 * k) && spreadBit z (3 * k - 2) = false).
  { destruct (N.leb_spec 2 (3 * k)); [|done].
    replace (3 * k - 2) with (3 * (k - 1) + 1) by lia. by rewrite Hoff by lia. }
  assert (Hz1 : (2 <=? 3 * k + 1) && spreadBit z (3 * k + 1 - 2) = false).
  { destruct (N.leb_spec 2 (3 * k + 1)); [|done].
    replace (3 * k + 1 - 2) with (3 * (k - 1) + 2) by lia. by rewrite Hoff by lia. }
  rewrite Hy0, Hz0, Hz1.
  destruct (N.leb_spec 1 (3 * k + 1)); [|lia]. destruct (N.leb_spec 2 (3 * k + 2)); [|lia].
  rewrite !andb_false_r, !orb_false_r. cbn [andb orb]. done.
Qed.

(** The three coordinates can be read back from the code: on 10-bit
    coordinates [Morton3D] is injective. *)
Theorem Morton3D_injective (x y z x' y' z' : N) :
  x < 1024 → y < 1024 → z < 1024 → x' < 1024 → y' < 1024 → z' < 1024 →
  Morton3D x y z = Morton3D x' y' z' → x = x' ∧ y = y' ∧ z = z'.
Proof.
  intros Hx Hy Hz Hx' Hy' Hz' Heq.
  assert (Hhigh : ∀ w k, w < 1024 → 10 ≤ k → N.testbit w k = false).
  { intros w k Hw Hk. destruct (N.eq_dec w 0) as [->|Hnz]; [apply N.bits_0|].
    apply N.bits_above_log2. assert (N.log2 w < 10); [|lia].
    apply N.log2_lt_pow2; [lia|done]. }
  repeat split; apply N.bits_inj; intros k;
    (destruct (N.lt_ge_cases k 10) as [Hk|Hk]; [|by rewrite !Hhigh by done]);
    destruct (Morton3D_testbit x y z k Hx Hy Hz Hk) as (Ex & Ey & Ez);
    destruct (Morton3D_testbit x' y' z' k Hx' Hy' Hz' Hk) as (Ex' & Ey' & Ez');
    congruence.
Qed.

Lemma Morton3D_injective_witness :
  (1 < 1024 ∧ 2 < 1024 ∧ 3 < 1024) ∧ Morton3D 1 2 3 = Morton3D 1 2 3 ∧ 1 = 1 ∧ 2 = 2 ∧ 3 = 3.
Proof.
  assert (H1 : 1 < 1024) by lia. assert (H2 : 2 < 1024) by lia. assert (H3 : 3 < 1024) by lia.
  split; [done|]. split; [reflexivity|].
  exact (Morton3D_injective 1 2 3 1 2 3 H1 H2 H3 H1 H2 H3 eq_refl).
Defined.

(** The first mask keeps bit positions 0..7, 24 and 25 only. *)
Lemma mask1_testbit (n : N) :
  N.testbit 0x030000FF n = true → n < 8 ∨ n = 24 ∨ n = 25.
Proof.
  intros Hbit. destruct (N.lt_ge_cases n 26) as [Hn|Hn].
  - assert (Hall : forallb (λ k, implb (N.testbit 0x030000FF (N.of_nat k))
                                   ((k <? 8)%nat || (k =? 24)%nat || (k =? 25)%nat))
                     (seq 0 26) = true) by by vm_compute.
    rewrite forallb_forall in Hall. specialize (Hall (N.to_nat n)).
    rewrite N2Nat.id, Hbit in Hall. cbn [implb] in Hall.
    assert (Hin : In (N.to_nat n) (seq 0 26)) by (apply in_seq; lia).
    apply Hall in Hin. apply orb_prop in Hin as [Hin|Hin];
      [apply orb_prop in Hin as [Hin|Hin]|].
    + apply Nat.ltb_lt in Hin. lia.
    + apply Nat.eqb_eq in Hin. lia.
    + apply Nat.eqb_eq in Hin. lia.
  - rewrite N.bits_above_log2 in Hbit; [done|]. change (N.log2 0x030000FF) with 25. lia.
Qed.

(** The first step of [interleaveBits] forgets bits 10..23 of its argument. *)
Lemma interleaveBits_step1 (x : N) :
  x < 2 ^ 24 →
  N.land (N.lor x (u32 (N.shiftl x 16))) 0x030000FF
  = N.land (N.lor (x mod 1024) (u32 (N.shiftl (x mod 1024) 16))) 0x030000FF.
Proof.
  intros Hx. apply N.bits_inj. intros n. rewrite !N.land_spec.
  destruct (N.testbit 0x030000FF n) eqn:Hmask; [|by rewrite !andb_false_r].
  rewrite !andb_true_r, !N.lor_spec. unfold u32.
  assert (Hhigh : ∀ k, 24 ≤ k → N.testbit x k = false).
  { intros k Hk. destruct (N.eq_dec x 0) as [->|Hnz]; [apply N.bits_0|].
    apply N.bits_above_log2. assert (N.log2 x < 24); [|lia].
    apply N.log2_lt_pow2; [lia|done]. }
  change 1024 with (2 ^ 10).
  apply mask1_testbit in Hmask as [Hn | Hn].
  - rewrite !(N.mod_pow2_bits_low _ 32 n), !shiftl_testbit by lia.
    destruct (N.leb_spec 16 n); [lia|]. cbn [andb]. rewrite !orb_false_r.
    by rewrite N.mod_pow2_bits_low by lia.
  - rewrite !(N.mod_pow2_bits_low _ 32 n), !shiftl_testbit by lia.
    destruct (N.leb_spec 16 n); [|lia]. cbn [andb].
    rewrite Hhigh by lia. rewrite (N.mod_pow2_bits_high x 10 n) by lia.
    cbn [orb]. by rewrite N.mod_pow2_bits_low by lia.
Qed.

Lemma interleaveBits_low10 (x : N) :
  x < 2 ^ 24 → interleaveBits x = interleaveBits (x mod 1024).
Proof.
  intros Hx. unfold interleaveBits. cbv zeta. by rewrite (interleaveBits_step1 x Hx).
Qed.

(** Only the low 10 bits of a coordinate below [2^24] reach the code: the
    quantised coordinate 1024, the top of the range [0 - 1024], is coded as
    coordinate 0. *)
Theorem Morton3D_wraps_at_1024 (x y z : N) :
  x < 2 ^ 24 → y < 2 ^ 24 → z < 2 ^ 24 →
  Morton3D x y z = Morton3D (x mod 1024) (y mod 1024) (z mod 1024) ∧
  Morton3D 1024 y z = Morton3D 0 y z.
Proof.
  intros Hx Hy Hz. unfold Morton3D. split.
  - by rewrite (interleaveBits_low10 x Hx), (interleaveBits_low10 y Hy),
      (interleaveBits_low10 z Hz).
  - by change (interleaveBits 1024) with (interleaveBits 0).
Qed.

Lemma Morton3D_wraps_witness :
  (1024 < 2 ^ 24 ∧ 5 < 2 ^ 24 ∧ 7 < 2 ^ 24) ∧
  Morton3D 1024 5 7 = Morton3D (1024 mod 1024) (5 mod 1024) (7 mod 1024) ∧
  Morton3D 1024 5 7 = Morton3D 0 5 7.
Proof.
  assert (H1 : 1024 < 2 ^ 24) by (change (2 ^ 24) with 16777216; lia).
  assert (H2 : 5 < 2 ^ 24) by (change (2 ^ 24) with 16777216; lia).
  assert (H3 : 7 < 2 ^ 24) by (change (2 ^ 24) with 16777216; lia).
  split; [done|]. exact (Morton3D_wraps_at_1024 1024 5 7 H1 H2 H3).
Defined.

(** ** [FarthestPoint] and the size of the sphere *)

Section FarthestFacts.
Context `{FO : FloatOps}.

Lemma fold_fartherOf_keeps (ref : Vertex) (points : list Vertex) (acc : Vertex * f64) :
  (∀ p, p ∈ points → (Distance ref p >? acc.2)%f64 = false) →
  fold_left (fartherOf ref) points acc = acc.
Proof.
  revert acc. induction points as [|p points IH]; intros acc Hall; cbn [fold_left]; [done|].
  unfold fartherOf at 2. rewrite Hall by apply list_elem_of_here.
  apply IH. intros q Hq. apply Hall. by apply list_elem_of_further.
Qed.

Lemma fold_fartherOf_elem (ref : Vertex) (points : list Vertex) (acc : Vertex * f64) :
  (fold_left (fartherOf ref) points acc).1 ∈ points ∨
  fold_left (fartherOf ref) points acc = acc.
Proof.
  revert acc. induction points as [|p points IH]; intros acc; cbn [fold_left]; [by right|].
  destruct (IH (fartherOf ref acc p)) as [Hin | Heq].
  - left. by apply list_elem_of_further.
  - rewrite Heq. unfold fartherOf. destruct (Distance ref p >? acc.2)%f64.
    + left. apply list_elem_of_here.
    + by right.
Qed.

(** [FarthestPoint] returns one of the points or, when no distance exceeds
    the initial [maxDist] of -1 (no point at all, or only NaN distances),
    the zero [Vertex] it declares. *)
Theorem FarthestPoint_result (points : list Vertex) (ref : Vertex) :
  (FarthestPoint points ref ∈ points ∨ FarthestPoint points ref = zeroVertex) ∧
  ((∀ p, p ∈ points → (Distance ref p >? f64_lit (-1) 1)%f64 = false) →
   FarthestPoint points ref = zeroVertex).
Proof.
  unfold FarthestPoint. split.
  - destruct (fold_fartherOf_elem ref points (zeroVertex, f64_lit (-1) 1)) as [H | ->];
      [by left|by right].
  - intros Hall. by rewrite fold_fartherOf_keeps.
Qed.

End FarthestFacts.

(** ** [FarthestPoint] in IEEE arithmetic *)

(** The order of [SFcompare] read as a lexicographic order: the class of
    the number (negative infinity, negative, zero, positive, positive
    infinity), then exponent and mantissa, both negated for negative
    numbers.  A NaN has no rank. *)
Definition SFrank (x : spec_float) : option (Z * Z * Z) :=
  match x with
  | S754_nan => None
  | S754_infinity true => Some (-2, 0, 0)%Z
  | S754_finite true m e => Some (-1, - e, Z.neg m)%Z
  | S754_zero _ => Some (0, 0, 0)%Z
  | S754_finite false m e => Some (1, e, Z.pos m)%Z
  | S754_infinity false => Some (2, 0, 0)%Z
  end.

Definition rankBelow (a b : Z * Z * Z) : Prop :=
  (a.1.1 < b.1.1 ∨ (a.1.1 = b.1.1 ∧ (a.1.2 < b.1.2 ∨ (a.1.2 = b.1.2 ∧ a.2 < b.2))))%Z.

Lemma SFltb_rank (x y : spec_float) :
  SFltb x y = true ↔ ∃ a b, SFrank x = Some a ∧ SFrank y = Some b ∧ rankBelow a b.
Proof.
  unfold SFltb, rankBelow.
  destruct x as [sx|sx| |sx mx ex], y as [sy|sy| |sy my ey];
    try destruct sx; try destruct sy; cbn;
    try (split; [done|intros (a & b & ? & ? & ?); simplify_eq/=; lia]);
    try (split; [intros _; eexists _, _; split; [done|]; split; [done|]; cbn; lia|done]).
  - change (Pos.compare_cont Eq mx my) with (Pos.compare mx my).
    destruct (Z.compare_spec ex ey), (Pos.compare_spec mx my); cbn;
      try (split; [done|intros (a & b & ? & ? & ?); simplify_eq/=; lia]);
      (split; [intros _; eexists _, _; split; [done|]; split; [done|]; cbn; lia|done]).
  - change (Pos.compare_cont Eq mx my) with (Pos.compare mx my).
    destruct (Z.compare_spec ex ey), (Pos.compare_spec mx my); cbn;
      try (split; [done|intros (a & b & ? & ? & ?); simplify_eq/=; lia]);
      (split; [intros _; eexists _, _; split; [done|]; split; [done|]; cbn; lia|done]).
Qed.

Lemma SFltb_irrefl (x : spec_float) : SFltb x x = false.
Proof.
  destruct (SFltb x x) eqn:Hlt; [|done].
  apply SFltb_rank in Hlt as (a & b & Ha & Hb & Hab). unfold rankBelow in Hab.
  simplify_eq. lia.
Qed.

Lemma SFltb_trans (x y z : spec_float) :
  SFltb x y = true → SFltb y z = true → SFltb x z = true.
Proof.
  intros (a & b & Ha & Hb & Hab)%SFltb_rank (b' & c & Hb' & Hc & Hbc)%SFltb_rank.
  apply SFltb_rank. exists a, c. split; [done|]. split; [done|].
  simplify_eq. unfold rankBelow in *. lia.
Qed.

(** A square root is a NaN or above -1. *)
Lemma SFsqrt_above_minus_one (x : spec_float) :
  SFsqrt 53 1024 x = S754_nan ∨ SFltb (IEEE.lit64 (-1) 1) (SFsqrt 53 1024 x) = true.
Proof.
  destruct x as [s|[|]| |[|] m e]; cbn [SFsqrt]; try (by left); try (by right).
  destruct (SFsqrt_core_binary 53 1024 (Z.pos m) e) as [[mz ez] lz].
  unfold binary_round_aux.
  destruct (shr_fexp 53 1024 mz ez lz) as [mrs' e'].
  destruct (shr_fexp 53 1024 _ e' loc_Exact) as [mrs'' e''].
  destruct (shr_m mrs'') as [|p|p]; [by right| |by left].
  destruct (e'' <=? 1024 - 53)%Z; by right.
Qed.

Section FarthestOrdered.
#[local] Existing Instance IEEE.ops.

Lemma Distance_above_minus_one (a b : Vertex) :
  Distance a b = S754_nan ∨ (Distance a b >? f64_lit (-1) 1)%f64 = true.
Proof. unfold Distance. apply SFsqrt_above_minus_one. Qed.

(** The loop of [FarthestPoint]: no distance seen exceeds the one kept, and
    what is kept is the start value or a point seen, with its distance. *)
Lemma fold_fartherOf_max (ref : Vertex) (points : list Vertex) (acc : Vertex * f64) :
  let res := fold_left (fartherOf ref) points acc in
  (res.2 = acc.2 ∨ (acc.2 <? res.2)%f64 = true) ∧
  (∀ p, p ∈ points → (Distance ref p >? res.2)%f64 = false) ∧
  (res = acc ∨ (res.1 ∈ points ∧ res.2 = Distance ref res.1)).
Proof.
  revert acc. induction points as [|p points IH]; intros acc; cbn [fold_left]; cbv zeta.
  - split; [by left|]. split; [|by left]. intros p Hp. by apply elem_of_nil in Hp.
  - destruct (IH (fartherOf ref acc p)) as (Hgrow & Hall & Hres).
    set (res := fold_left (fartherOf ref) points (fartherOf ref acc p)) in *.
    assert (Hstep : ((fartherOf ref acc p).2 = acc.2 ∨ (acc.2 <? (fartherOf ref acc p).2)%f64 = true) ∧
                    (Distance ref p >? (fartherOf ref acc p).2)%f64 = false ∧
                    (fartherOf ref acc p = acc ∨ fartherOf ref acc p = (p, Distance ref p))).
    { unfold fartherOf. destruct (Distance ref p >? acc.2)%f64 eqn:Hgt; cbn [fst snd].
      - split; [by right|]. split; [apply SFltb_irrefl|by right].
      - split; [by left|]. split; [done|by left]. }
    destruct Hstep as (Hacc & Hp & Hshape).
    assert (Hp' : (Distance ref p >? res.2)%f64 = false).
    { destruct Hgrow as [-> | Hlt]; [done|].
      destruct (Distance ref p >? res.2)%f64 eqn:Hgt; [|done].
      unfold f64_gtb in *. cbn [f64_ltb IEEE.ops] in *.
      by rewrite (SFltb_trans _ _ _ Hlt Hgt) in Hp. }
    split; [|split].
    + destruct Hacc as [Ha | Ha], Hgrow as [Hg | Hg].
      * left. congruence.
      * right. by rewrite <- Ha.
      * right. by rewrite Hg.
      * right. cbn [f64_ltb IEEE.ops] in *. by eapply SFltb_trans.
    + intros q Hq. apply elem_of_cons in Hq as [->|Hq]; [done|by apply Hall].
    + destruct Hres as [Hres | [Hin Hd]].
      * rewrite Hres. destruct Hshape as [-> | ->]; [by left|].
        right. cbn [fst snd]. split; [apply list_elem_of_here|done].
      * right. split; [by apply list_elem_of_further|done].
Qed.

(** In IEEE arithmetic, when the distance from [ref] to some point is a
    number, [FarthestPoint] returns a point of the set, and the distance
    from [ref] to no point exceeds the distance to the point returned. *)
Theorem FarthestPoint_maximal (points : list Vertex) (ref p0 : Vertex) :
  p0 ∈ points → Distance ref p0 ≠ S754_nan →
  FarthestPoint points ref ∈ points ∧
  ∀ p, p ∈ points →
       (Distance ref p >? Distance ref (FarthestPoint points ref))%f64 = false.
Proof.
  intros Hin Hnum. unfold FarthestPoint.
  destruct (fold_fartherOf_max ref points (zeroVertex, f64_lit (-1) 1))
    as (_ & Hall & Hres).
  destruct Hres as [Hres | [Hmem Hd]].
  - specialize (Hall p0 Hin). rewrite Hres in Hall. cbn [snd] in Hall.
    destruct (Distance_above_minus_one ref p0) as [Hnan | Hgt]; [done|congruence].
  - split; [done|]. intros p Hp. rewrite <- Hd. by apply Hall.
Qed.

End FarthestOrdered.

Module SampleFarthest.
Import Sample.

Definition points : list (Vertex (H := IEEE.ops)) := [V 0 0 0; V 3 4 0; V 1 0 0].

(** The point returned, as its three coordinates truncated. *)
Definition farthest : list (option Z) :=
  let p := FarthestPoint (FO := IEEE.ops) points (V 0 0 0) in
  map IEEE.trunc [Vertex.X p; Vertex.Y p; Vertex.Z p].

End SampleFarthest.

Lemma FarthestPoint_maximal_witness :
  Sample.V 3 4 0 ∈ SampleFarthest.points ∧
  Distance (FO := IEEE.ops) (Sample.V 0 0 0) (Sample.V 3 4 0) ≠ S754_nan ∧
  FarthestPoint (FO := IEEE.ops) SampleFarthest.points (Sample.V 0 0 0)
    ∈ SampleFarthest.points ∧
  SampleFarthest.farthest = [Some 3; Some 4; Some 0]%Z.
Proof.
  assert (Hin : Sample.V 3 4 0 ∈ SampleFarthest.points).
  { apply list_elem_of_further, list_elem_of_here. }
  assert (Hnum : Distance (FO := IEEE.ops) (Sample.V 0 0 0) (Sample.V 3 4 0) ≠ S754_nan).
  { by vm_compute. }
  split; [exact Hin|]. split; [exact Hnum|]. split.
  - exact (proj1 (FarthestPoint_maximal SampleFarthest.points (Sample.V 0 0 0)
                    (Sample.V 3 4 0) Hin Hnum)).
  - by vm_compute.
Defined.

Module SampleNaN.
(** A point whose X coordinate is not a number. *)
Definition point : Vertex (H := IEEE.ops) :=
  Vertex.mk IEEE.ops S754_nan (Sample.F 0) (Sample.F 0)
    (Sample.F 1) (Sample.F 1) (Sample.F 1) (Sample.F 1) (Sample.F 1) false.
End SampleNaN.

Lemma FarthestPoint_result_witness :
  (∀ p, p ∈ [SampleNaN.point] →
        (Distance (FO := IEEE.ops) (Sample.V 0 0 0) p >? f64_lit (-1) 1)%f64 = false) ∧
  FarthestPoint (FO := IEEE.ops) [SampleNaN.point] (Sample.V 0 0 0) = zeroVertex.
Proof.
  assert (Hall : ∀ p, p ∈ [SampleNaN.point] →
            (Distance (FO := IEEE.ops) (Sample.V 0 0 0) p >? f64_lit (-1) 1)%f64 = false).
  { intros p Hp. apply list_elem_of_singleton in Hp. rewrite Hp. by vm_compute. }
  split; [exact Hall|].
  exact (proj2 (FarthestPoint_result (FO := IEEE.ops) [SampleNaN.point] (Sample.V 0 0 0))
           Hall).
Defined.

(** ** [isConvex] *)

(** The convexity test does not depend on the corner the quad starts at:
    shifting the four corners by one position gives the same answer, in any
    arithmetic. *)
Theorem isConvex_rotate `{FO : FloatOps} (ax ay bx by_ cx cy dx dy : f64) :
  isConvex bx by_ cx cy dx dy ax ay = isConvex ax ay bx by_ cx cy dx dy.
Proof.
  unfold isConvex, turns. cbv zeta. unfold f64_gtb.
  set (v1x := (bx - ax)%f64). set (v1y := (by_ - ay)%f64).
  set (v2x := (cx - bx)%f64). set (v2y := (cy - by_)%f64).
  set (v3x := (dx - cx)%f64). set (v3y := (dy - cy)%f64).
  set (v4x := (ax - dx)%f64). set (v4y := (ay - dy)%f64).
  set (c1 := crossProductZ v1x v1y v2x v2y). set (c2 := crossProductZ v2x v2y v3x v3y).
  set (c3 := crossProductZ v3x v3y v4x v4y). set (c4 := crossProductZ v4x v4y v1x v1y).
  set (zero := f64_lit 0 1).
  destruct (f64_ltb zero c1), (f64_ltb zero c2), (f64_ltb zero c3), (f64_ltb zero c4),
    (f64_ltb c1 zero), (f64_ltb c2 zero), (f64_ltb c3 zero), (f64_ltb c4 zero); reflexivity.
Qed.

(** ** [isConvex] in IEEE arithmetic *)

(** Equal as numbers: the same value, or two zeros of any sign. *)
Definition sameNumber (x y : spec_float) : Prop :=
  match x, y with
  | S754_zero _, S754_zero _ => True
  | _, _ => x = y
  end.

(** A zero or a NaN: strictly above nothing and strictly below nothing. *)
Definition zeroOrNaN (x : spec_float) : Prop :=
  match x with
  | S754_zero _ | S754_nan => True
  | _ => False
  end.

Section SignSymmetry.
Variables prec emax : Z.

Lemma sameNumber_refl (x : spec_float) : sameNumber x x.
Proof. by destruct x. Qed.

Lemma sameNumber_eq (x y : spec_float) : x = y → sameNumber x y.
Proof. intros ->. apply sameNumber_refl. Qed.

Lemma sameNumber_trans (x y z : spec_float) :
  sameNumber x y → sameNumber y z → sameNumber x z.
Proof. destruct x, y, z; cbn; congruence. Qed.

Lemma sameNumber_opp (x y : spec_float) : sameNumber x y → sameNumber (SFopp x) (SFopp y).
Proof. destruct x, y; cbn; congruence. Qed.

Lemma SFopp_involutive (x : spec_float) : SFopp (SFopp x) = x.
Proof. destruct x; cbn; by rewrite ?negb_involutive. Qed.

Lemma binary_round_aux_opp (s : bool) (m e : Z) (l : location) :
  binary_round_aux prec emax (negb s) m e l = SFopp (binary_round_aux prec emax s m e l).
Proof.
  unfold binary_round_aux.
  destruct (shr_fexp prec emax m e l) as [mrs' e'].
  destruct (shr_fexp prec emax _ e' loc_Exact) as [mrs'' e''].
  destruct (shr_m mrs''); [done| |done]. by destruct (e'' <=? emax - prec)%Z.
Qed.

Lemma binary_round_opp (s : bool) (m : positive) (e : Z) :
  binary_round prec emax (negb s) m e = SFopp (binary_round prec emax s m e).
Proof.
  unfold binary_round. destruct (shl_align m e _) as [mz ez]. apply binary_round_aux_opp.
Qed.

Lemma binary_normalize_opp (m e : Z) :
  sameNumber (binary_normalize prec emax (- m) e false)
             (SFopp (binary_normalize prec emax m e false)).
Proof.
  destruct m as [|p|p]; cbn [Z.opp binary_normalize]; [done| |].
  - apply sameNumber_eq, (binary_round_opp false).
  - apply sameNumber_eq. by rewrite (binary_round_opp false), SFopp_involutive.
Qed.

(** [y - x] is [-(x - y)]. *)
Lemma SFsub_swap (x y : spec_float) :
  sameNumber (SFsub prec emax y x) (SFopp (SFsub prec emax x y)).
Proof.
  destruct x as [sx|sx| |sx mx ex], y as [sy|sy| |sy my ey];
    try destruct sx; try destruct sy; try done.
  all: cbn [SFsub]; rewrite (Z.min_comm ey ex);
    match goal with
    | |- sameNumber (binary_normalize _ _ (?b - ?a)%Z _ _) _ =>
        replace (b - a)%Z with (- (a - b))%Z by lia
    end; apply binary_normalize_opp.
Qed.

Lemma SFsub_sameNumber (x x' y y' : spec_float) :
  sameNumber x x' → sameNumber y y' →
  sameNumber (SFsub prec emax x y) (SFsub prec emax x' y').
Proof.
  intros Hx Hy.
  destruct x as [sx|sx| |sx mx ex], x' as [sx'|sx'| |sx' mx' ex']; cbn in Hx;
    try done; simplify_eq;
    destruct y as [sy|sy| |sy my ey], y' as [sy'|sy'| |sy' my' ey']; cbn in Hy;
    try done; simplify_eq;
    try apply sameNumber_refl;
    try (destruct sx, sx', sy, sy'; done);
    try (destruct sx, sx'; done); try (destruct sy, sy'; done).
Qed.

Lemma SFmul_sameNumber (x x' y y' : spec_float) :
  sameNumber x x' → sameNumber y y' →
  sameNumber (SFmul prec emax x y) (SFmul prec emax x' y').
Proof.
  intros Hx Hy.
  destruct x as [sx|sx| |sx mx ex], x' as [sx'|sx'| |sx' mx' ex']; cbn in Hx;
    try done; simplify_eq;
    destruct y as [sy|sy| |sy my ey], y' as [sy'|sy'| |sy' my' ey']; cbn in Hy;
    try done; simplify_eq;
    try apply sameNumber_refl; done.
Qed.

Lemma SFmul_opp_opp (x y : spec_float) :
  SFmul prec emax (SFopp x) (SFopp y) = SFmul prec emax x y.
Proof.
  destruct x as [sx|sx| |sx mx ex], y as [sy|sy| |sy my ey]; cbn; try done;
    by destruct sx, sy.
Qed.

Lemma SFmul_comm (x y : spec_float) : SFmul prec emax x y = SFmul prec emax y x.
Proof.
  destruct x as [sx|sx| |sx mx ex], y as [sy|sy| |sy my ey]; cbn; try done;
    rewrite ?(xorb_comm sx sy); try done.
  by rewrite Pos.mul_comm, Z.add_comm.
Qed.

(** The cross product of the reversed, negated vectors is the negated
    cross product. *)
Lemma cross_reversed (a b c d a' b' c' d' : spec_float) :
  sameNumber a' (SFopp a) → sameNumber b' (SFopp b) →
  sameNumber c' (SFopp c) → sameNumber d' (SFopp d) →
  sameNumber (SFsub prec emax (SFmul prec emax c' b') (SFmul prec emax d' a'))
             (SFopp (SFsub prec emax (SFmul prec emax a d) (SFmul prec emax b c))).
Proof.
  intros Ha Hb Hc Hd.
  eapply sameNumber_trans; [|apply SFsub_swap].
  apply SFsub_sameNumber.
  - eapply sameNumber_trans; [by apply SFmul_sameNumber|].
    rewrite SFmul_opp_opp, SFmul_comm. apply sameNumber_refl.
  - eapply sameNumber_trans; [by apply SFmul_sameNumber|].
    rewrite SFmul_opp_opp, SFmul_comm. apply sameNumber_refl.
Qed.

Lemma SFsub_diag (x : spec_float) : zeroOrNaN (SFsub prec emax x x).
Proof.
  destruct x as [[|]|[|]| |s m e]; try done.
  cbn [SFsub]. by rewrite Z.sub_diag.
Qed.

Lemma SFmul_zeroOrNaN (x y : spec_float) : zeroOrNaN x → zeroOrNaN (SFmul prec emax x y).
Proof. by destruct x, y. Qed.

Lemma SFsub_zeroOrNaN (x y : spec_float) :
  zeroOrNaN x → zeroOrNaN y → zeroOrNaN (SFsub prec emax x y).
Proof. destruct x as [[|]| | |], y as [[|]| | |]; done. Qed.

End SignSymmetry.

Lemma SFltb_sameNumber (x x' z : spec_float) :
  sameNumber x x' → SFltb x z = SFltb x' z ∧ SFltb z x = SFltb z x'.
Proof. intros Hx. destruct x, x'; cbn in Hx; try done; simplify_eq; try done; by destruct z. Qed.

Lemma SFltb_opp_zero (x : spec_float) (s s' : bool) :
  SFltb (SFopp x) (S754_zero s) = SFltb (S754_zero s') x ∧
  SFltb (S754_zero s) (SFopp x) = SFltb x (S754_zero s').
Proof. destruct x as [?|[|]| |[|] ? ?]; done. Qed.

Lemma SFltb_zeroOrNaN (x : spec_float) (s : bool) :
  zeroOrNaN x → SFltb x (S754_zero s) = false ∧ SFltb (S754_zero s) x = false.
Proof. by destruct x. Qed.

(** In IEEE arithmetic [isConvex] gives the same answer when the corners
    are listed in the opposite direction, and it is false for a quad whose
    first two corners coincide: whatever the eight numbers are, infinities
    and NaN included. *)
Theorem isConvex_symmetry (ax ay bx by_ cx cy dx dy : spec_float) :
  isConvex (FO := IEEE.ops) ax ay dx dy cx cy bx by_
  = isConvex (FO := IEEE.ops) ax ay bx by_ cx cy dx dy ∧
  isConvex (FO := IEEE.ops) ax ay ax ay cx cy dx dy = false.
Proof.
  unfold isConvex, turns, crossProductZ, f64_gtb. cbv zeta.
  cbn [f64_sub f64_mul f64_ltb f64_lit IEEE.ops].
  change (IEEE.lit64 0 1) with (S754_zero false).
  split.
  - set (S := SFsub 53 1024). set (M := SFmul 53 1024).
    pose proof (cross_reversed 53 1024 (S dx cx) (S dy cy) (S ax dx) (S ay dy)
                  (S cx dx) (S cy dy) (S dx ax) (S dy ay)
                  (SFsub_swap _ _ _ _) (SFsub_swap _ _ _ _)
                  (SFsub_swap _ _ _ _) (SFsub_swap _ _ _ _)) as H1.
    pose proof (cross_reversed 53 1024 (S cx bx) (S cy by_) (S dx cx) (S dy cy)
                  (S bx cx) (S by_ cy) (S cx dx) (S cy dy)
                  (SFsub_swap _ _ _ _) (SFsub_swap _ _ _ _)
                  (SFsub_swap _ _ _ _) (SFsub_swap _ _ _ _)) as H2.
    pose proof (cross_reversed 53 1024 (S bx ax) (S by_ ay) (S cx bx) (S cy by_)
                  (S ax bx) (S ay by_) (S bx cx) (S by_ cy)
                  (SFsub_swap _ _ _ _) (SFsub_swap _ _ _ _)
                  (SFsub_swap _ _ _ _) (SFsub_swap _ _ _ _)) as H3.
    pose proof (cross_reversed 53 1024 (S ax dx) (S ay dy) (S bx ax) (S by_ ay)
                  (S dx ax) (S dy ay) (S ax bx) (S ay by_)
                  (SFsub_swap _ _ _ _) (SFsub_swap _ _ _ _)
                  (SFsub_swap _ _ _ _) (SFsub_swap _ _ _ _)) as H4.
    fold S M in H1, H2, H3, H4.
    destruct (SFltb_sameNumber _ _ (S754_zero false) H1) as [L1 G1].
    destruct (SFltb_sameNumber _ _ (S754_zero false) H2) as [L2 G2].
    destruct (SFltb_sameNumber _ _ (S754_zero false) H3) as [L3 G3].
    destruct (SFltb_sameNumber _ _ (S754_zero false) H4) as [L4 G4].
    rewrite L1, L2, L3, L4, G1, G2, G3, G4.
    rewrite !(proj1 (SFltb_opp_zero _ false false)), !(proj2 (SFltb_opp_zero _ false false)).
    repeat match goal with |- context [SFltb ?a ?b] => destruct (SFltb a b) end; reflexivity.
  - assert (Hc : zeroOrNaN
              (SFsub 53 1024 (SFmul 53 1024 (SFsub 53 1024 ax ax) (SFsub 53 1024 cy ay))
                 (SFmul 53 1024 (SFsub 53 1024 ay ay) (SFsub 53 1024 cx ax)))).
    { apply SFsub_zeroOrNaN; apply SFmul_zeroOrNaN, SFsub_diag. }
    destruct (SFltb_zeroOrNaN _ false Hc) as [-> ->]. done.
Qed.

(** ** The quad pass *)

Section QuadPass.
Context `{FO : FloatOps} `{RT : GoRuntime}.

Lemma validateQuads_unchanged (fuel : nat) (q : Z) (i : nat) (s s' : Store) :
  q ≠ 2%Z → q ≠ 3%Z → validateQuads fuel q i s = Completed s' → s' = s.
Proof.
  intros H2 H3. revert i. induction fuel as [|fuel IH]; intros i Hrun; [done|].
  cbn [validateQuads] in Hrun.
  destruct (faces s !! i) as [f|]; [|by injection Hrun as <-].
  destruct (Z.eqb_spec q 3) as [|_]; [done|]. destruct (Z.eqb_spec q 2) as [|_]; [done|].
  rewrite andb_false_r in Hrun.
  destruct (if (Face.edges f =? 4) && negb false then FakeQuadCheck f else Some ()); [|done].
  destruct ((Face.edges f =? 4) && (0 <? q)%Z); [|by apply (IH (S i))].
  destruct (ValidateQuad s f) as [[|msg]|]; [by apply (IH (S i))| |done].
  destruct (q =? 1)%Z; [done|by apply (IH (S i))].
Qed.

(** Unless it is run with [-q 2] or [-q 3], the quad pass never changes the
    store: it ends with the store it was given, stops at the first invalid
    quad ([-q 1]) or panics. *)
Theorem quad_pass_only_reads (q : Z) (s s' : Store) :
  q ≠ 2%Z → q ≠ 3%Z → validateStage q s = Completed s' → s' = s.
Proof. apply validateQuads_unchanged. Qed.

Lemma quadsFrom_ge (i : nat) (fs : list Face) : (length fs ≤ i)%nat → quadsFrom i fs = 0%nat.
Proof. intros Hi. unfold quadsFrom. by rewrite drop_ge by done. Qed.

Lemma take_S_insert_app {A : Type} (l : list A) (i : nat) (x y z : A) :
  l !! i = Some z → take (S i) (<[i:=x]> l ++ [y]) = take i l ++ [x].
Proof.
  intros Hz. apply lookup_lt_Some in Hz as Hlt.
  rewrite take_app_le by (rewrite length_insert; lia).
  rewrite (take_S_r _ i x) by (by rewrite list_lookup_insert_eq).
  by rewrite take_insert_ge by lia.
Qed.

Lemma validateQuads_triangles (fuel : nat) (i : nat) (s s' : Store) :
  validateQuads fuel 3 i s = Completed s' →
  Forall (λ f, Face.edges f ≠ 4) (take i (faces s)) →
  Forall (λ f, Face.edges f ≠ 4) (faces s') ∧
  length (faces s') = (length (faces s) + quadsFrom i (faces s))%nat.
Proof.
  revert i s. induction fuel as [|fuel IH]; intros i s Hrun Hdone; [done|].
  cbn [validateQuads] in Hrun.
  destruct (faces s !! i) as [f|] eqn:Hf.
  2:{ injection Hrun as <-. apply lookup_ge_None in Hf.
      rewrite take_ge in Hdone by done. rewrite quadsFrom_ge by done. split; [done|lia]. }
  change (3 =? 3)%Z with true in Hrun. rewrite andb_false_r, !andb_true_r in Hrun.
  rewrite (quadsFrom_S i (faces s) f Hf).
  destruct (N.eqb_spec (Face.edges f) 4) as [He|He].
  - rewrite decide_True by done.
    destruct (ConvertQuadToTriangles i s) as [s1|] eqn:Hc; [|done]. cbn in Hrun.
    destruct (ConvertQuadToTriangles_shape i s s1 Hc)
      as (g & f' & v0 & v1 & v2 & v3 & vr & n0 & n1 & n2 & n3 & nr & u0 & u1 & u2 & u3 & ur
          & Hg & _ & _ & _ & Hfs & He' & _).
    destruct (IH (S i) s1 Hrun) as [Hall Hlen].
    + rewrite Hfs, (take_S_insert_app _ _ _ _ f) by done.
      apply Forall_app. split; [done|]. constructor; [|done]. rewrite He'. done.
    + split; [done|]. rewrite Hlen, Hfs, (quadsFrom_convert i (faces s) f) by done.
      rewrite length_app, length_insert. cbn [length]. lia.
  - rewrite decide_False by done.
    destruct (IH (S i) s Hrun) as [Hall Hlen]; [|split; [done|lia]].
    rewrite (take_S_r _ _ f) by done. apply Forall_app. split; [done|]. by constructor.
Qed.

(** With [-q 3] a quad pass that runs to its end leaves no quad: every face
    that had four edges has become two faces, so the face count has grown by
    the number of quads. *)
Theorem quad_pass_3_leaves_no_quad (s s' : Store) :
  validateStage 3 s = Completed s' →
  Forall (λ f, Face.edges f ≠ 4) (faces s') ∧
  length (faces s') = (length (faces s) + quadsFrom 0 (faces s))%nat.
Proof. intros Hrun. by apply (validateQuads_triangles _ 0 s s' Hrun). Qed.

(** [ValidateQuad] reads the vertex array and the vertex indices only. *)
Lemma ValidateQuad_ext (s s' : Store) (f f' : Face) :
  vertices s' = vertices s → take 4 (Face.v f') = take 4 (Face.v f) →
  ValidateQuad s' f' = ValidateQuad s f.
Proof.
  intros Ev Ef. unfold ValidateQuad.
  assert (Hc : ∀ k, (k < 4)%nat → corner s' f' k = corner s f k).
  { intros k Hk. unfold corner. rewrite Ev.
    rewrite <- (lookup_take_lt (Face.v f') 4 k), <- (lookup_take_lt (Face.v f) 4 k) by done.
    by rewrite Ef. }
  by rewrite !Hc by lia.
Qed.

Lemma validateQuads_validated (fuel : nat) (q : Z) (i : nat) (s s' : Store) :
  q = 1%Z ∨ q = 2%Z →
  validateQuads fuel q i s = Completed s' →
  Forall (λ f, Face.edges f = 4 → ValidateQuad s f = Some nil_error) (take i (faces s)) →
  Forall (λ f, Face.edges f = 4 → ValidateQuad s' f = Some nil_error) (faces s').
Proof.
  intros Hq. revert i s. induction fuel as [|fuel IH]; intros i s Hrun Hdone; [done|].
  cbn [validateQuads] in Hrun.
  destruct (faces s !! i) as [f|] eqn:Hf.
  2:{ injection Hrun as <-. apply lookup_ge_None in Hf. by rewrite take_ge in Hdone. }
  assert ((q =? 3)%Z = false ∧ (0 <? q)%Z = true) as [E3 E0] by (destruct Hq as [-> | ->]; done).
  rewrite E3, E0, andb_false_r, !andb_true_r in Hrun.
  destruct (if Face.edges f =? 4 then FakeQuadCheck f else Some ()); [|done].
  assert (Hnext : (Face.edges f = 4 → ValidateQuad s f = Some nil_error) →
            validateQuads fuel q (S i) s = Completed s' →
            Forall (λ f, Face.edges f = 4 → ValidateQuad s' f = Some nil_error) (faces s')).
  { intros Hok Hr. apply (IH (S i) s Hr). rewrite (take_S_r _ _ f) by done.
    apply Forall_app. split; [done|]. by constructor. }
  destruct (N.eqb_spec (Face.edges f) 4) as [He|He]; [|by apply Hnext].
  destruct (ValidateQuad s f) as [[|msg]|] eqn:Hv; [by apply Hnext| |done].
  destruct (Z.eqb_spec q 1) as [|H1]; [done|]. destruct (Z.eqb_spec q 2) as [_|H2]; [|lia].
  destruct (ConvertQuadToTriangles i s) as [s1|] eqn:Hc; [|done]. cbn in Hrun.
  destruct (ConvertQuadToTriangles_shape i s s1 Hc)
    as (g & f' & v0 & v1 & v2 & v3 & vr & n0 & n1 & n2 & n3 & nr & u0 & u1 & u2 & u3 & ur
        & Hg & _ & _ & _ & Hfs & He' & _ & _ & _ & Ev & _).
  apply (IH (S i) s1 Hrun). rewrite Hfs, (take_S_insert_app _ _ _ _ f) by done.
  apply Forall_app. split.
  - eapply Forall_impl; [exact Hdone|]. intros h Hh Eh. cbn in Hh.
    rewrite (ValidateQuad_ext s s1 h h) by done. by apply Hh.
  - constructor; [|done]. rewrite He'. done.
Qed.

(** With [-q 1] or [-q 2] a quad pass that runs to its end leaves only quads
    that [ValidateQuad] accepts: planar within the threshold and convex. *)
Theorem quad_pass_leaves_valid_quads (q : Z) (s s' : Store) :
  q = 1%Z ∨ q = 2%Z → validateStage q s = Completed s' →
  Forall (λ f, Face.edges f = 4 → ValidateQuad s' f = Some nil_error) (faces s').
Proof. intros Hq Hrun. by apply (validateQuads_validated _ q 0 s s' Hq Hrun). Qed.

End QuadPass.

(** ** The layout of the output file *)

Section WriterLayout.
Context `{FO : FloatOps}.
Variable Float32bits : f32 → N.
Variable byteOrder : ByteOrder.

(** Each of the three index arrays has a slot for every corner. *)
Definition faceCovered (f : Face) : Prop :=
  covers (Face.edges f) (Face.v f) ∧ covers (Face.edges f) (Face.n f) ∧
  covers (Face.edges f) (Face.uv f).

#[local] Instance faceCovered_dec f : Decision (faceCovered f).
Proof. unfold faceCovered. apply _. Defined.

(** The record of one face: degree, the corners of the three index arrays,
    material index. *)
Definition faceRecord (f : Face) : list N :=
  [Face.edges f]
  ++ concat (map (putUint32 byteOrder) (corners (Face.edges f) (Face.v f)))
  ++ concat (map (putUint32 byteOrder) (corners (Face.edges f) (Face.n f)))
  ++ concat (map (putUint32 byteOrder) (corners (Face.edges f) (Face.uv f)))
  ++ putUint32 byteOrder (Face.materialID f).

Lemma putFace_spec (f : Face) (out : list N) :
  putFace byteOrder f out
  = if decide (faceCovered f) then Some (out ++ faceRecord f) else None.
Proof.
  destruct (decide (faceCovered f)) as [(Hv & Hn & Hu)|Hno].
  - by apply putFace_covered.
  - destruct (decide (covers (Face.edges f) (Face.v f))) as [Hv|Hv].
    + apply putFace_uncovered. unfold faceCovered in Hno.
      destruct (decide (covers (Face.edges f) (Face.n f))); [right|by left].
      intros Hu. by apply Hno.
    + unfold putFace. by rewrite putIndices_spec, decide_False by done.
Qed.

Lemma forEach_putFace (fs : list Face) (out : list N) :
  forEach (putFace byteOrder) fs out
  = if decide (Forall faceCovered fs) then Some (out ++ concat (map faceRecord fs)) else None.
Proof.
  revert out. induction fs as [|f fs IH]; intros out; cbn [forEach map concat].
  - rewrite decide_True by constructor. by rewrite app_nil_r.
  - rewrite putFace_spec. destruct (decide (faceCovered f)) as [Hf|Hf]; cbn [mbind option_bind].
    + rewrite IH. destruct (decide (Forall faceCovered fs)) as [Hfs|Hfs].
      * rewrite decide_True by (by constructor). by rewrite <- app_assoc.
      * rewrite decide_False; [done|]. by intros [_ ?]%Forall_cons.
    + rewrite decide_False; [done|]. by intros [? _]%Forall_cons.
Qed.

(** The bytes of the file: the header, the vertices, the normals, the
    texture coordinates, one record per face and the materials. *)
Definition fileBytes (s : Store) : list N :=
  putHeader Float32bits byteOrder s
  ++ concat (map (putVertex Float32bits byteOrder (vertexType s)) (vertices s))
  ++ concat (map (putNormal Float32bits byteOrder) (normals s))
  ++ concat (map (putTextureCoord Float32bits byteOrder) (textureCoords s))
  ++ concat (map faceRecord (faces s))
  ++ concat (map (putMaterial Float32bits byteOrder) (materials s)).

Lemma WriteOutput_spec (s : Store) :
  WriteOutput Float32bits byteOrder s
  = if decide (Forall faceCovered (faces s)) then Some (fileBytes s) else None.
Proof.
  unfold WriteOutput, fileBytes.
  pose proof (for_range_forEach (putFace byteOrder) [] (faces s)) as Hloop.
  cbn [length app] in Hloop. rewrite Hloop, forEach_putFace.
  destruct (decide (Forall faceCovered (faces s))); cbn [mbind option_bind]; [|done].
  by rewrite <- !app_assoc.
Qed.

(** [WriteOutput] panics exactly when some face lacks an index for one of
    its corners in its vertex, normal or uv array.  Otherwise the file is
    the header, the vertices, the normals, the texture coordinates, one
    record per face and the materials, in this order. *)
Theorem WriteOutput_layout (s : Store) :
  (WriteOutput Float32bits byteOrder s = None ↔
   ∃ f, f ∈ faces s ∧ ¬ faceCovered f) ∧
  (Forall faceCovered (faces s) →
   WriteOutput Float32bits byteOrder s = Some (fileBytes s)).
Proof.
  rewrite WriteOutput_spec. split.
  - destruct (decide (Forall faceCovered (faces s))) as [Hcov|Hcov]; split; try done.
    + intros (f & Hf & Hno). rewrite Forall_forall in Hcov. by destruct Hno; apply Hcov.
    + intros _. apply not_Forall_Exists in Hcov; [|apply _].
      apply Exists_exists in Hcov. done.
  - intros Hcov. by rewrite decide_True.
Qed.

Lemma length_putUint32 (x : N) : length (putUint32 byteOrder x) = 4%nat.
Proof. unfold putUint32. by destruct byteOrder. Qed.

Lemma length_concat_const {X : Type} (g : X → list N) (k : nat) (l : list X) :
  (∀ x, length (g x) = k) → length (concat (map g l)) = (k * length l)%nat.
Proof.
  intros Hg. induction l as [|x l IH]; cbn [map concat length]; [lia|].
  rewrite length_app, Hg, IH. lia.
Qed.

Lemma length_concat_sum {X : Type} (g : X → list N) (l : list X) :
  length (concat (map g l)) = sum_list (map (λ x, length (g x)) l).
Proof.
  induction l as [|x l IH]; cbn [map concat sum_list]; [done|].
  by rewrite length_app, IH.
Qed.

(** The number of bytes of a face record and of a material record. *)
Definition faceBytes (f : Face) : nat := (5 + 12 * N.to_nat (Face.edges f))%nat.
Definition materialBytes (m : Material) : nat := (108 + String.length (Material.texture m))%nat.

Lemma length_faceRecord (f : Face) : faceCovered f → length (faceRecord f) = faceBytes f.
Proof.
  intros (Hv & Hn & Hu). unfold faceRecord, faceBytes, corners, covers in *.
  rewrite !length_app, !(length_concat_const _ 4) by apply length_putUint32.
  rewrite !length_take, length_putUint32. cbn [length]. lia.
Qed.

Lemma length_putString (x : string) : length (putString x) = String.length x.
Proof.
  unfold putString. rewrite length_map.
  induction x as [|c x IH]; cbn; [done|]. by rewrite IH.
Qed.

Lemma length_putMaterial (m : Material) :
  length (putMaterial Float32bits byteOrder m) = materialBytes m.
Proof.
  unfold putMaterial, putFloat32x3, putFloat32, materialBytes.
  rewrite !length_app, !length_putUint32, length_putString. lia.
Qed.

(** The size of the file: 52 bytes of header, 12 bytes per vertex (28 with
    colours), 12 per normal, 8 per texture coordinate, [5 + 12 * edges] per
    face and [108 + len(texture)] per material. *)
Theorem WriteOutput_length (s : Store) (out : list N) :
  WriteOutput Float32bits byteOrder s = Some out →
  length out
  = (52 + (if (vertexType s =? 1)%N then 28 else 12) * length (vertices s)
     + 12 * length (normals s) + 8 * length (textureCoords s)
     + sum_list (map faceBytes (faces s)) + sum_list (map materialBytes (materials s)))%nat.
Proof.
  rewrite WriteOutput_spec.
  destruct (decide (Forall faceCovered (faces s))) as [Hcov|]; [|done].
  intros Heq. assert (out = fileBytes s) as -> by congruence.
  unfold fileBytes. rewrite !length_app.
  assert (length (putHeader Float32bits byteOrder s) = 52%nat) as ->.
  { unfold putHeader, putFloat32. rewrite !length_app, !length_putUint32. done. }
  rewrite (length_concat_const _ (if (vertexType s =? 1)%N then 28 else 12)%nat).
  2:{ intros p. unfold putVertex, putFloat32. rewrite !length_app, !length_putUint32.
      destruct (vertexType s =? 1); [|done]. rewrite !length_app, !length_putUint32. done. }
  rewrite (length_concat_const _ 12).
  2:{ intros p. unfold putNormal, putFloat32. by rewrite !length_app, !length_putUint32. }
  rewrite (length_concat_const _ 8).
  2:{ intros p. unfold putTextureCoord, putFloat32.
      by rewrite !length_app, !length_putUint32. }
  rewrite !length_concat_sum.
  assert (map (λ x, length (faceRecord x)) (faces s) = map faceBytes (faces s)) as ->.
  { apply map_ext_Forall. eapply Forall_impl; [exact Hcov|]. apply length_faceRecord. }
  assert (map (λ x, length (putMaterial Float32bits byteOrder x)) (materials s)
          = map materialBytes (materials s)) as ->.
  { apply map_ext. apply length_putMaterial. }
  destruct (vertexType s =? 1); lia.
Qed.

End WriterLayout.

Lemma quad_pass_only_reads_witness :
  (0 ≠ 2)%Z ∧ (0 ≠ 3)%Z ∧
  ∃ s', validateStage (FO := IEEE.ops) (RT := plainRuntime) 0 Sample.square = Completed s' ∧
        s' = Sample.square.
Proof.
  assert (H2 : (0 ≠ 2)%Z) by lia. assert (H3 : (0 ≠ 3)%Z) by lia.
  split; [exact H2|]. split; [exact H3|].
  destruct (isCompleted_true (validateStage (RT := plainRuntime) 0 Sample.square))
    as [s' Hrun]; [by vm_compute|].
  exists s'. split; [exact Hrun|].
  exact (quad_pass_only_reads (FO := IEEE.ops) (RT := plainRuntime) 0 Sample.square s'
           H2 H3 Hrun).
Defined.

Lemma quad_pass_3_witness :
  ∃ s', validateStage (FO := IEEE.ops) (RT := plainRuntime) 3 Sample.square = Completed s' ∧
        Forall (λ f, Face.edges f ≠ 4) (faces s') ∧
        length (faces s') = (length (faces Sample.square) + quadsFrom 0 (faces Sample.square))%nat.
Proof.
  destruct (isCompleted_true (validateStage (RT := plainRuntime) 3 Sample.square))
    as [s' Hrun]; [by vm_compute|].
  exists s'. split; [exact Hrun|].
  exact (quad_pass_3_leaves_no_quad (FO := IEEE.ops) (RT := plainRuntime) Sample.square s' Hrun).
Defined.

Lemma quad_pass_valid_quads_witness :
  (2 = 1 ∨ 2 = 2)%Z ∧
  ∃ s', validateStage (FO := IEEE.ops) (RT := plainRuntime) 2 Sample.square = Completed s' ∧
        Forall (λ f, Face.edges f = 4 →
                     ValidateQuad (FO := IEEE.ops) s' f = Some nil_error) (faces s').
Proof.
  assert (Hq : (2 = 1 ∨ 2 = 2)%Z) by (right; reflexivity).
  split; [exact Hq|].
  destruct (isCompleted_true (validateStage (RT := plainRuntime) 2 Sample.square))
    as [s' Hrun]; [by vm_compute|].
  exists s'. split; [exact Hrun|].
  exact (quad_pass_leaves_valid_quads (FO := IEEE.ops) (RT := plainRuntime) 2
           Sample.square s' Hq Hrun).
Defined.

Lemma WriteOutput_layout_witness :
  Forall faceCovered (faces Sample.square) ∧
  WriteOutput (FO := IEEE.ops) IEEE_Float32bits LittleEndian Sample.square
  = Some (fileBytes (FO := IEEE.ops) IEEE_Float32bits LittleEndian Sample.square).
Proof.
  assert (Hcov : Forall faceCovered (faces Sample.square)).
  { repeat constructor; unfold covers; cbn; lia. }
  split; [exact Hcov|].
  exact (proj2 (WriteOutput_layout (FO := IEEE.ops) IEEE_Float32bits LittleEndian
                  Sample.square) Hcov).
Defined.

Lemma WriteOutput_length_witness :
  ∃ out,
    WriteOutput (FO := IEEE.ops) IEEE_Float32bits LittleEndian Sample.square = Some out ∧
    length out = 233%nat.
Proof.
  destruct (isSome_true (WriteOutput (FO := IEEE.ops) IEEE_Float32bits LittleEndian
                           Sample.square)) as [out Hout]; [by vm_compute|].
  exists out. split; [exact Hout|].
  exact (WriteOutput_length (FO := IEEE.ops) IEEE_Float32bits LittleEndian
           Sample.square out Hout).
Defined.

(** ** What a pass of [DeDupe] merges *)

Section DedupeSettled.
Context {A : Type}.
Variable near : A → A → bool.
Variable isFlushed : A → bool.
Variable flush : A → A.
Variable k : attr.
Hypothesis flush_flushed : ∀ a, isFlushed (flush a) = true.

(** The pairs [(i0, j0)] the marking loops have dealt with when the outer
    loop is at [i] and the inner loop at [j]: an entry near an earlier entry
    that carries no flag carries the flag. *)
Definition settledUpTo (i j : nat) (arr : list A) : Prop :=
  ∀ i0 j0 a b, (i0 < j0)%nat → (i0 < i ∨ (i0 = i ∧ j0 < j))%nat →
    arr !! i0 = Some a → arr !! j0 = Some b →
    isFlushed a = false → near a b = true → isFlushed b = true.

Lemma mergeInto_settled i j st st' :
  (i < j)%nat → settledUpTo i j st.1.1 →
  mergeInto near flush (getA k) (setA k) i j st = Some st' →
  settledUpTo i (S j) st'.1.1 ∧ length st'.1.1 = length st.1.1.
Proof.
  destruct st as [[arr fs] dupes]. intros Hij Hset. unfold mergeInto. cbn [fst snd] in *.
  destruct (arr !! i) as [ai|] eqn:Hi; cbn [mbind option_bind]; [|done].
  destruct (arr !! j) as [aj|] eqn:Hj; cbn [mbind option_bind]; [|done].
  destruct (near ai aj) eqn:Hnear.
  - destruct (eachFace _ _ _ fs) as [fs'|]; cbn [mbind option_bind]; [|done].
    intros [= <-]. cbn [fst snd]. split; [|by rewrite length_insert].
    intros i0 j0 a b Hlt Hwhere Ha Hb Hfa Hab.
    apply lookup_lt_Some in Hj as Hjlt.
    destruct (decide (j0 = j)) as [->|Hne].
    + rewrite list_lookup_insert_eq in Hb by done. injection Hb as <-. apply flush_flushed.
    + rewrite list_lookup_insert_ne in Hb by done.
      destruct (decide (i0 = j)) as [->|Hne0].
      * rewrite list_lookup_insert_eq in Ha by done. injection Ha as <-.
        by rewrite flush_flushed in Hfa.
      * rewrite list_lookup_insert_ne in Ha by done.
        apply (Hset i0 j0 a b); (done || lia).
  - intros [= <-]. cbn [fst snd]. split; [|done].
    intros i0 j0 a b Hlt Hwhere Ha Hb Hfa Hab.
    destruct (decide (i0 = i ∧ j0 = j)) as [[-> ->]|Hne].
    + congruence.
    + apply (Hset i0 j0 a b); (done || lia).
Qed.

Lemma markDuplicates_settled st st' :
  markDuplicates isFlushed near flush (getA k) (setA k) st = Some st' →
  settledUpTo (length st'.1.1) 0 st'.1.1 ∧ length st'.1.1 = length st.1.1.
Proof.
  unfold markDuplicates. set (len := length st.1.1). intros Hrun.
  pose (P := λ (i : nat) (t : @pass A), settledUpTo i 0 t.1.1 ∧ length t.1.1 = len).
  assert (HP : P (0 + len)%nat st').
  { apply (for_range_inv P _ _ _ _ _ Hrun).
    - split; [|done]. intros i0 j0 a b _ Hw. lia.
    - intros i t t' Hi [Hset Hlen] Hbody.
      destruct (t.1.1 !! i) as [ai|] eqn:Hai; cbn [mbind option_bind] in Hbody; [|done].
      destruct (isFlushed ai) eqn:Hfl.
      + injection Hbody as <-. split; [|done].
        intros i0 j0 a b Hlt Hw Ha Hb Hfa Hab.
        destruct (decide (i0 = i)) as [->|Hne]; [congruence|].
        apply (Hset i0 j0 a b); (done || lia).
      + pose (Q := λ (j : nat) (u : @pass A), settledUpTo i j u.1.1 ∧ length u.1.1 = len).
        assert (HQ : Q (i + 1 + (len - (i + 1)))%nat t').
        { apply (for_range_inv Q _ _ _ _ _ Hbody).
          - split; [|done]. intros i0 j0 a b Hlt Hw. apply Hset; (done || lia).
          - intros j u u' Hj [Hu Hlu] Hm.
            destruct (mergeInto_settled i j u u') as [Hs Hl]; [lia|done|done|].
            split; [done|congruence]. }
        destruct HQ as [Hs Hl]. split; [|done].
        intros i0 j0 a b Hlt Hw Ha Hb Hfa Hab. apply lookup_lt_Some in Hb as Hblt.
        apply (Hs i0 j0 a b); (done || lia). }
  destruct HP as [Hs Hl]. rewrite Hl. split; [|done].
  by rewrite Nat.add_0_l in Hs.
Qed.

(** Among the entries that carry no flag, no entry is near an earlier one. *)
Lemma settled_unflushed (arr : list A) (i j : nat) :
  (length arr ≤ i)%nat → settledUpTo i j arr →
  StronglySorted (λ a b, near a b = false) (unflushed isFlushed arr).
Proof.
  intros Hi Hset.
  assert (Hall : ∀ i0 j0 a b, (i0 < j0)%nat → arr !! i0 = Some a → arr !! j0 = Some b →
                   isFlushed a = false → near a b = true → isFlushed b = true).
  { intros i0 j0 a b Hlt Ha Hb. apply (Hset i0 j0 a b); [done| |done|done].
    apply lookup_lt_Some in Ha. lia. }
  clear Hset Hi. induction arr as [|a arr IH]; [constructor|].
  unfold unflushed. rewrite filter_cons.
  assert (Hrest : StronglySorted (λ a b, near a b = false) (unflushed isFlushed arr)).
  { apply IH. intros i0 j0 a0 b0 Hlt Ha0 Hb0. by apply (Hall (S i0) (S j0) a0 b0); [lia|..]. }
  destruct (decide (isFlushed a = false)) as [Hfl|Hfl]; [|done].
  constructor; [done|]. apply Forall_forall. intros b Hb.
  apply list_elem_of_filter in Hb as [Hbfl Hb].
  apply list_elem_of_lookup in Hb as [j0 Hj0].
  destruct (near a b) eqn:Hab; [|done].
  pose proof (Hall 0%nat (S j0) a b ltac:(lia) eq_refl Hj0 Hfl Hab). congruence.
Qed.

Lemma dedupePass_settled arr fs arr' fs' dupes :
  dedupePass isFlushed near isFlushed flush (getA k) (setA k) arr fs
    = Some (arr', fs', dupes) →
  StronglySorted (λ a b, near a b = false) arr'.
Proof.
  unfold dedupePass. intros Hrun.
  destruct (markDuplicates _ _ _ _ _ _) as [[[arr1 fs1] d1]|] eqn:Hmark;
    cbn [mbind option_bind] in Hrun; [|done].
  destruct (removeFlushed _ _ _ _ _ _ _) as [[arr2 fs2]|] eqn:Hrem;
    cbn [mbind option_bind] in Hrun; [|done].
  injection Hrun as <- <- <-.
  apply markDuplicates_settled in Hmark as [Hset _]. cbn [fst snd] in Hset.
  apply (removeFlushed_spec _ k) in Hrem as [-> _]; [|done].
  rewrite take_0, drop_0. cbn [app]. by eapply settled_unflushed.
Qed.

End DedupeSettled.

(** After [DeDupe] no normal is within the tolerance of an earlier normal
    and no texture coordinate within the tolerance of an earlier one: the
    near test of the pass fails on every pair of surviving entries. *)
Theorem DeDupe_leaves_no_near_pair `{FO : FloatOps} (vT nT uvT : f64) (s s' : Store)
    (counts : nat * nat * nat) :
  DeDupe vT nT uvT s = Some (s', counts) →
  StronglySorted (λ a b, nearNormal nT a b = false) (normals s') ∧
  StronglySorted (λ a b, nearTextureCoord uvT a b = false) (textureCoords s').
Proof.
  unfold DeDupe, dedupeVertices, dedupeNormals, dedupeTextureCoords. intros Hrun.
  destruct (dedupePass _ _ _ _ _ _ (vertices s) _) as [[[vs fs1] dv]|] eqn:Hv;
    cbn [mbind option_bind] in Hrun; [|done].
  destruct (dedupePass _ _ _ _ _ _ (normals s) _) as [[[ns fs2] dn]|] eqn:Hn;
    cbn [mbind option_bind] in Hrun; [|done].
  destruct (dedupePass _ _ _ _ _ _ (textureCoords s) _) as [[[ts fs3] du]|] eqn:Hu;
    cbn [mbind option_bind] in Hrun; [|done].
  injection Hrun as <- <-. cbn. split.
  - by apply (dedupePass_settled _ _ _ AttrN) in Hn.
  - by apply (dedupePass_settled _ _ _ AttrUV) in Hu.
Qed.

(** Two lists of faces related corner by corner in the index array [k]. *)
Definition facesRel (k : attr) (R : N → N → Prop) (fs0 fs : list Face) : Prop :=
  Forall2 (λ f0 f, Face.edges f = Face.edges f0 ∧
                   Forall2 R (corners (Face.edges f0) (getA k f0))
                             (corners (Face.edges f) (getA k f))) fs0 fs.

Lemma facesRel_map k (R R' : N → N → Prop) (h : N → N) fs0 fs :
  facesRel k R fs0 fs → (∀ x0 x, R x0 x → R' x0 (h x)) →
  facesRel k R' fs0 (map (onCorners k h) fs).
Proof.
  intros Hrel Hh. apply Forall2_fmap_r. eapply Forall2_impl; [exact Hrel|].
  intros f0 f [He Hc]. cbn. unfold onCorners.
  rewrite edges_setA, getA_setA, corners_mapCorners.
  split; [done|]. apply Forall2_fmap_r. eapply Forall2_impl; [exact Hc|]. auto.
Qed.

Lemma facesRel_impl k (R R' : N → N → Prop) fs0 fs :
  facesRel k R fs0 fs → (∀ x0 x, R x0 x → R' x0 x) → facesRel k R' fs0 fs.
Proof.
  intros Hrel Himpl. eapply Forall2_impl; [exact Hrel|].
  intros f0 f [He Hc]. split; [done|]. eapply Forall2_impl; [exact Hc|]. auto.
Qed.

Lemma facesRel_diag k (R : N → N → Prop) fs :
  (∀ f x, f ∈ fs → x ∈ corners (Face.edges f) (getA k f) → R x x) → facesRel k R fs fs.
Proof.
  intros HR. apply Forall_Forall2_diag, Forall_forall. intros f Hf. split; [done|].
  apply Forall_Forall2_diag, Forall_forall. intros x Hx. by apply (HR f).
Qed.

(** The relation carries over to faces that differ in another array only. *)
Lemma facesRel_sameExcept_r k k' (R : N → N → Prop) fs0 fs fs' :
  k' ≠ k → facesRel k R fs0 fs → Forall2 (sameExcept k') fs fs' → facesRel k R fs0 fs'.
Proof.
  intros Hne Hrel Hsame. unfold facesRel in *.
  revert fs' Hsame. induction Hrel as [|f0 f fs0 fs [He Hc] _ IH]; intros fs' Hsame.
  - apply Forall2_nil_inv_l in Hsame as ->. constructor.
  - apply Forall2_cons_inv_l in Hsame as (f' & fs'' & (Hfr & Ho & _) & Hrest & ->).
    constructor; [|by apply IH]. destruct Hfr as (He' & _).
    rewrite He', (Ho k) by done. done.
Qed.

Lemma facesRel_sameExcept_l k k' (R : N → N → Prop) fs0 fs0' fs :
  k' ≠ k → Forall2 (sameExcept k') fs0 fs0' → facesRel k R fs0' fs → facesRel k R fs0 fs.
Proof.
  intros Hne Hsame Hrel. unfold facesRel in *.
  revert fs Hrel. induction Hsame as [|f0 f0' fs0 fs0' (Hfr & Ho & _) _ IH]; intros fs Hrel.
  - apply Forall2_nil_inv_l in Hrel as ->. constructor.
  - apply Forall2_cons_inv_l in Hrel as (f & fs'' & (He & Hc) & Hrest & ->).
    constructor; [|by apply IH]. destruct Hfr as (He' & _).
    rewrite He', (Ho k) in * by done. done.
Qed.

Section DedupeTracks.
Context {A : Type}.
Variable near : A → A → bool.
Variable isFlushed : A → bool.
Variable flush : A → A.
Variable k : attr.
Hypothesis flush_flushed : ∀ a, isFlushed (flush a) = true.
Hypothesis flush_idem : ∀ a, flush (flush a) = flush a.
Hypothesis near_flush_r : ∀ a b, near a (flush b) = near a b.

(** The array and the faces the pass starts from. *)
Variable arr0 : list A.
Variable fs0 : list Face.
Hypothesis arr0_addressable : N.of_nat (length arr0) < 2 ^ 32.
Hypothesis arr0_unflushed : Forall (λ a, isFlushed a = false) arr0.

(** An entry during the marking loops: as it was, or flagged. *)
Definition flagOnly (a0 a : A) : Prop := a = a0 ∨ a = flush a0.

(** The number of flagged entries. *)
Definition flagged (arr : list A) : nat := length (filter (λ a, isFlushed a = true) arr).

(** A corner that held [x0] holds [x] now: [x] refers to an entry without
    flag, and it is [x0] itself or an index the outer loop has reached whose
    entry is near the entry of [x0]. *)
Definition tracked (i : nat) (arr : list A) (x0 x : N) : Prop :=
  (∃ a, index arr x = Some a ∧ isFlushed a = false) ∧
  (x = x0 ∨ ((N.to_nat x ≤ i)%nat ∧
             ∃ a a0, index arr0 x = Some a ∧ index arr0 x0 = Some a0 ∧ near a a0 = true)).

Definition markInv (i : nat) (st : pass) : Prop :=
  Forall2 flagOnly arr0 st.1.1 ∧
  facesRel k (tracked i st.1.1) fs0 st.1.2 ∧
  (flagged st.1.1 ≤ st.2)%nat.

Lemma flagged_insert (arr : list A) (j : nat) (a : A) :
  (flagged (<[j:=a]> arr) ≤ S (flagged arr))%nat.
Proof.
  unfold flagged. destruct (decide (j < length arr)%nat) as [Hj|Hj].
  - destruct (lookup_lt_is_Some_2 arr j Hj) as [aj Haj].
    rewrite insert_take_drop by done.
    rewrite <- (take_drop_middle arr j aj Haj) at 3.
    rewrite !filter_app, !filter_cons, !length_app.
    destruct (decide (isFlushed a = true)), (decide (isFlushed aj = true)); cbn [length]; lia.
  - rewrite list_insert_ge by lia. lia.
Qed.

Lemma flagOnly_unflushed (a0 a : A) : flagOnly a0 a → isFlushed a = false → a = a0.
Proof. intros [-> | ->] Hfl; [done|]. by rewrite flush_flushed in Hfl. Qed.

Lemma mergeInto_markInv i j st st' ai :
  (i < j)%nat → markInv i st → st.1.1 !! i = Some ai → isFlushed ai = false →
  mergeInto near flush (getA k) (setA k) i j st = Some st' →
  markInv i st' ∧ st'.1.1 !! i = Some ai.
Proof.
  destruct st as [[arr fs] dupes]. intros Hij (Harr & Hfs & Hcount) Hi Hfl.
  unfold mergeInto. cbn [fst snd] in *. rewrite Hi. cbn [mbind option_bind].
  destruct (arr !! j) as [aj|] eqn:Hj; cbn [mbind option_bind]; [|done].
  destruct (near ai aj) eqn:Hnear; [|by intros [= <-]].
  rewrite eachFace_spec. destruct (decide _); cbn [mbind option_bind]; [|done].
  intros [= <-]. cbn [fst snd]. apply lookup_lt_Some in Hj as Hjlt.
  apply Forall2_length in Harr as Hlen.
  destruct (lookup_lt_is_Some_2 arr0 j) as [a0j Ha0j]; [lia|].
  destruct (lookup_lt_is_Some_2 arr0 i) as [a0i Ha0i]; [lia|].
  pose proof (Forall2_lookup_lr _ _ _ _ _ _ Harr Ha0j Hj) as Hfj.
  pose proof (Forall2_lookup_lr _ _ _ _ _ _ Harr Ha0i Hi) as Hfi.
  apply flagOnly_unflushed in Hfi as ->; [|done].
  assert (Hnear0 : near a0i a0j = true).
  { destruct Hfj as [-> | ->]; [done|]. by rewrite near_flush_r in Hnear. }
  split; [|by rewrite list_lookup_insert_ne by lia]. split; [|split]; cbn [fst snd].
  - rewrite <- (list_insert_id arr0 j a0j Ha0j). apply Forall2_insert; [done|].
    destruct Hfj as [-> | ->]; [by right|]. right. by rewrite flush_idem.
  - apply (facesRel_map _ (tracked i arr)); [done|].
    intros x0 x [(a & Ha & Hafl) Hwhere]. unfold redirect, tracked, index in *.
    rewrite (u32_small (N.of_nat j)), (u32_small (N.of_nat i)) by lia.
    destruct (N.eqb_spec x (N.of_nat j)) as [->|Hne].
    + rewrite Nat2N.id in *. split.
      * exists a0i. by rewrite list_lookup_insert_ne by lia.
      * destruct Hwhere as [<- | [Hle _]]; [|lia]. right. split; [lia|].
        exists a0i, a0j. by rewrite !Nat2N.id.
    + split; [|done]. exists a. split; [|done].
      rewrite list_lookup_insert_ne; [done|]. lia.
  - pose proof (flagged_insert arr j (flush aj)). lia.
Qed.

Lemma tracked_mono i i' arr x0 x : (i ≤ i')%nat → tracked i arr x0 x → tracked i' arr x0 x.
Proof.
  intros Hle [Hlive Hwhere]. split; [done|].
  destruct Hwhere as [-> | [Hx Hnear]]; [by left|right]. split; [lia|done].
Qed.

Lemma markDuplicates_markInv st st' :
  markInv 0 st →
  markDuplicates isFlushed near flush (getA k) (setA k) st = Some st' →
  markInv (length arr0) st'.
Proof.
  intros Hinit. unfold markDuplicates.
  assert (Hlen0 : length st.1.1 = length arr0).
  { destruct Hinit as (Harr & _). symmetry. by eapply Forall2_length. }
  rewrite Hlen0. intros Hrun.
  apply (for_range_inv markInv _ _ _ _ _ Hrun Hinit).
  intros i t t' Hi Ht Hbody.
  assert (Hup : ∀ u, markInv i u → markInv (S i) u).
  { intros u (Harr & Hfs & Hc). split; [done|]. split; [|done].
    eapply facesRel_impl; [exact Hfs|]. intros x0 x. apply tracked_mono. lia. }
  destruct (t.1.1 !! i) as [ai|] eqn:Hai; cbn [mbind option_bind] in Hbody; [|done].
  destruct (isFlushed ai) eqn:Hfl; [injection Hbody as <-; by apply Hup|].
  apply Hup.
  pose (Q := λ u : @pass A, markInv i u ∧ u.1.1 !! i = Some ai).
  assert (HQ : Q t'); [|by destruct HQ].
  apply (for_range_preserves Q _ _ _ _ _ Hbody); [by split|].
  intros j u u' Hj [Hu Hui] Hm.
  apply (mergeInto_markInv i j u u' ai); (done || lia).
Qed.

(** The entry a corner refers to after the pass: the entry it referred to,
    or an entry near it. *)
Definition merged (arr : list A) (x0 x : N) : Prop :=
  ∃ a0 a, index arr0 x0 = Some a0 ∧ index arr x = Some a ∧ isFlushed a = false ∧
          (a = a0 ∨ near a a0 = true).

Lemma tracked_merged i arr x0 x :
  Forall2 flagOnly arr0 arr → tracked i arr x0 x → merged arr x0 x.
Proof.
  intros Harr [(a & Ha & Hafl) Hwhere]. unfold index in *.
  destruct (lookup_lt_is_Some_2 arr0 (N.to_nat x)) as [a' Ha'].
  { apply lookup_lt_Some in Ha. apply Forall2_length in Harr. lia. }
  pose proof (Forall2_lookup_lr _ _ _ _ _ _ Harr Ha' Ha) as Hf.
  apply flagOnly_unflushed in Hf as ->; [|done].
  destruct Hwhere as [<- | (_ & b & b0 & Hb & Hb0 & Hnear)].
  - exists a', a'. unfold index. by repeat split; [..|left].
  - unfold index in *. exists b0, a'. repeat split; try done. right. congruence.
Qed.

Lemma removeFlushed_merged todo i arr fs arr' fs' :
  N.of_nat (length arr) < 2 ^ 32 → length arr = (i + todo)%nat →
  facesRel k (merged arr) fs0 fs →
  removeFlushed isFlushed (getA k) (setA k) todo i arr fs = Some (arr', fs') →
  facesRel k (merged arr') fs0 fs'.
Proof.
  revert i arr fs. induction todo as [|todo IH]; intros i arr fs Hlt Hlen Hrel Hrun.
  - by injection Hrun as <- <-.
  - cbn [removeFlushed] in Hrun.
    destruct (arr !! i) as [ai|] eqn:Hi; cbn [mbind option_bind] in Hrun; [|done].
    destruct (isFlushed ai) eqn:Hfl; [|apply (IH (S i) arr fs); (done || lia)].
    unfold RemoveAtIndex in Hrun.
    destruct (decide (i + 1 ≤ length arr)%nat); cbn [mbind option_bind] in Hrun; [|done].
    rewrite eachFace_spec in Hrun.
    destruct (decide _); cbn [mbind option_bind] in Hrun; [|done].
    assert (Hdel : length (delete i arr) = (i + todo)%nat).
    { rewrite length_delete by (by eexists). lia. }
    eapply (IH i (delete i arr)); [lia|done| |done].
    apply (facesRel_map _ (merged arr)); [done|].
    intros x0 x (a0 & a & Ha0 & Ha & Hafl & Hnear). exists a0, a.
    split; [done|]. split; [|done]. unfold shiftDown, index in *.
    rewrite (u32_small (N.of_nat i)) by lia.
    assert (N.to_nat x ≠ i) by (intros Heq; rewrite Heq in Ha; congruence).
    destruct (N.ltb_spec (N.of_nat i) x).
    + rewrite list_lookup_delete_ge by lia.
      by replace (S (N.to_nat (x - 1))) with (N.to_nat x) by lia.
    + by rewrite list_lookup_delete_lt by lia.
Qed.

Lemma unflushed_flagged (arr : list A) :
  (length (unflushed isFlushed arr) + flagged arr)%nat = length arr.
Proof.
  unfold unflushed, flagged. induction arr as [|a arr IH]; [done|].
  rewrite !filter_cons.
  destruct (isFlushed a); cbn [length].
  - rewrite decide_False, decide_True by done. cbn [length]. lia.
  - rewrite decide_True, decide_False by done. cbn [length]. lia.
Qed.

Lemma flagged_none (arr : list A) :
  Forall (λ a, isFlushed a = false) arr → flagged arr = 0%nat.
Proof.
  unfold flagged. induction 1 as [|a arr Ha _ IH]; [done|].
  rewrite filter_cons, decide_False by congruence. done.
Qed.

Lemma dedupePass_merged arr' fs' dupes :
  validAttr k (length arr0) fs0 →
  dedupePass isFlushed near isFlushed flush (getA k) (setA k) arr0 fs0
    = Some (arr', fs', dupes) →
  facesRel k (merged arr') fs0 fs' ∧ (length arr0 - length arr' ≤ dupes)%nat.
Proof.
  intros Hvalid. unfold dedupePass. intros Hrun.
  destruct (markDuplicates _ _ _ _ _ _) as [[[arr1 fs1] d1]|] eqn:Hmark;
    cbn [mbind option_bind] in Hrun; [|done].
  destruct (removeFlushed _ _ _ _ _ _ _) as [[arr2 fs2]|] eqn:Hrem;
    cbn [mbind option_bind] in Hrun; [|done].
  injection Hrun as <- <- <-.
  apply markDuplicates_markInv in Hmark as (Harr & Hfs & Hcount); cbn [fst snd] in *.
  2:{ split; [|split]; cbn [fst snd].
      - apply Forall_Forall2_diag, Forall_forall. intros a _. by left.
      - apply facesRel_diag. intros f x Hf Hx. split; [|by left].
        destruct (lookup_lt_is_Some_2 arr0 (N.to_nat x)) as [a Ha]; [by eapply Hvalid|].
        exists a. split; [done|]. exact (Forall_lookup_1 _ _ _ _ arr0_unflushed Ha).
      - by rewrite flagged_none. }
  apply Forall2_length in Harr as Hlen.
  split.
  - apply (removeFlushed_merged (length arr1) 0 arr1 fs1 arr2 fs2); [lia|done| |done].
    eapply facesRel_impl; [exact Hfs|]. intros x0 x. by apply tracked_merged.
  - apply (removeFlushed_spec _ k) in Hrem as [-> _]; [|done].
    rewrite take_0, drop_0. cbn [app]. pose proof (unflushed_flagged arr1). lia.
Qed.

End DedupeTracks.

(** The corner that held index [x0] into [arr0] holds index [x] into [arr]:
    both are in range and the entry is the same or near the old one. *)
Definition sameOrNear {A : Type} (near : A → A → bool) (arr0 arr : list A) (x0 x : N)
  : Prop :=
  ∃ a0 a, index arr0 x0 = Some a0 ∧ index arr x = Some a ∧ (a = a0 ∨ near a a0 = true).

Lemma DeDupe_passes `{FO : FloatOps} (vT nT uvT : f64) (s s' : Store)
    (dV dN dU : nat) :
  validStore s → noFlags s → addressable s →
  DeDupe vT nT uvT s = Some (s', (dV, dN, dU)) →
  ∃ fs2,
    dedupeNormals nT (normals s) (faces s) = Some (normals s', fs2, dN) ∧
    dedupeTextureCoords uvT (textureCoords s) fs2 = Some (textureCoords s', faces s', dU) ∧
    Forall2 (sameExcept AttrN) (faces s) fs2 ∧ Forall2 (sameExcept AttrUV) fs2 (faces s') ∧
    validAttr AttrUV (length (textureCoords s)) fs2.
Proof.
  intros (Hv & Hn & Hu) (Fv & Fn & Fu) (Av & An & Au & Af).
  unfold DeDupe, dedupeVertices. rewrite (dedupePass_all_skipped _ _ _ _ AttrV).
  2:{ eapply Forall_impl; [exact Fv|]. cbn. by intros p ->. }
  cbn [mbind option_bind]. intros Hrun.
  destruct (dedupeNormals nT (normals s) (faces s)) as [[[ns fs2] dn]|] eqn:Hpn;
    cbn [mbind option_bind] in Hrun; [|done].
  destruct (dedupeTextureCoords uvT (textureCoords s) fs2) as [[[ts fs3] du]|] eqn:Hpu;
    cbn [mbind option_bind] in Hrun; [|done].
  injection Hrun as <- <- <- <-. cbn. exists fs2.
  pose proof Hpn as Hpn'. pose proof Hpu as Hpu'.
  apply (dedupePass_frame _ _ _ _ AttrN) in Hpn' as (_ & Hf2 & _); [|done].
  apply (dedupePass_frame _ _ _ _ AttrUV) in Hpu' as (_ & Hf3 & _); [|done].
  repeat split; try done. by eapply (validAttr_sameExcept AttrN AttrUV).
Qed.

(** What [DeDupe] does to the references.  On a valid store without flags,
    every corner's normal index afterwards refers to the normal it referred
    to before or to a normal that the near test of the pass accepts against
    it, and likewise for the texture coordinates. *)
Theorem DeDupe_redirects_within_tolerance `{FO : FloatOps} (vT nT uvT : f64) (s s' : Store)
    (counts : nat * nat * nat) :
  validStore s → noFlags s → addressable s →
  DeDupe vT nT uvT s = Some (s', counts) →
  facesRel AttrN (sameOrNear (nearNormal nT) (normals s) (normals s')) (faces s) (faces s') ∧
  facesRel AttrUV (sameOrNear (nearTextureCoord uvT) (textureCoords s) (textureCoords s'))
    (faces s) (faces s').
Proof.
  intros Hvalid Hflags Haddr Hrun. destruct counts as [[dV dN] dU].
  destruct (DeDupe_passes vT nT uvT s s' dV dN dU Hvalid Hflags Haddr Hrun)
    as (fs2 & Hpn & Hpu & Hf2 & Hf3 & Hu2).
  destruct Hvalid as (Hv & Hn & Hu), Hflags as (Fv & Fn & Fu), Haddr as (Av & An & Au & Af).
  split.
  - apply (facesRel_sameExcept_r AttrN AttrUV _ _ fs2); [done| |done].
    apply (dedupePass_merged (nearNormal nT) Normal.flushed flushNormal AttrN) in Hpn
      as [Hrel _]; try done.
    eapply facesRel_impl; [exact Hrel|].
    intros x0 x (a0 & a & ? & ? & _ & ?). by exists a0, a.
  - apply (facesRel_sameExcept_l AttrUV AttrN _ _ fs2); [done|done|].
    apply (dedupePass_merged (nearTextureCoord uvT) TextureCoord.flushed flushTextureCoord
             AttrUV) in Hpu as [Hrel _]; try done.
    eapply facesRel_impl; [exact Hrel|].
    intros x0 x (a0 & a & ? & ? & _ & ?). by exists a0, a.
Qed.

(** The counts that [DeDupe] prints never fall short of the number of
    entries it removed (an entry found near two different earlier entries is
    counted twice). *)
Theorem DeDupe_counts_cover_removals `{FO : FloatOps} (vT nT uvT : f64) (s s' : Store)
    (dV dN dU : nat) :
  validStore s → noFlags s → addressable s →
  DeDupe vT nT uvT s = Some (s', (dV, dN, dU)) →
  (length (normals s) ≤ length (normals s') + dN)%nat ∧
  (length (textureCoords s) ≤ length (textureCoords s') + dU)%nat.
Proof.
  intros Hvalid Hflags Haddr Hrun.
  destruct (DeDupe_passes vT nT uvT s s' dV dN dU Hvalid Hflags Haddr Hrun)
    as (fs2 & Hpn & Hpu & Hf2 & Hf3 & Hu2).
  destruct Hvalid as (Hv & Hn & Hu), Hflags as (Fv & Fn & Fu), Haddr as (Av & An & Au & Af).
  apply (dedupePass_merged (nearNormal nT) Normal.flushed flushNormal AttrN) in Hpn
    as [_ Hcn]; try done.
  apply (dedupePass_merged (nearTextureCoord uvT) TextureCoord.flushed flushTextureCoord
           AttrUV) in Hpu as [_ Hcu]; try done.
  lia.
Qed.

Lemma DeDupe_leaves_no_near_pair_witness :
  ∃ s' counts,
    SampleC3.run = Some (s', counts) ∧
    StronglySorted (λ a b, nearNormal (FO := IEEE.ops) SampleC3.nT a b = false) (normals s').
Proof.
  destruct (isSome_true SampleC3.run) as [[s' counts] Hrun]; [by vm_compute|].
  exists s', counts. split; [exact Hrun|].
  exact (proj1 (DeDupe_leaves_no_near_pair (FO := IEEE.ops) SampleC3.vT SampleC3.nT
                  SampleC3.uvT SampleC3.mesh s' counts Hrun)).
Defined.

Lemma DeDupe_redirects_witness :
  validStore SampleC3.mesh ∧ noFlags SampleC3.mesh ∧ addressable SampleC3.mesh ∧
  ∃ s' counts,
    SampleC3.run = Some (s', counts) ∧
    facesRel AttrN
      (sameOrNear (nearNormal (FO := IEEE.ops) SampleC3.nT) (normals SampleC3.mesh)
         (normals s'))
      (faces SampleC3.mesh) (faces s').
Proof.
  assert (Hv : validStore SampleC3.mesh) by check_store.
  assert (Hf : noFlags SampleC3.mesh) by check_store.
  assert (Ha : addressable SampleC3.mesh) by check_store.
  split; [exact Hv|]. split; [exact Hf|]. split; [exact Ha|].
  destruct (isSome_true SampleC3.run) as [[s' counts] Hrun]; [by vm_compute|].
  exists s', counts. split; [exact Hrun|].
  exact (proj1 (DeDupe_redirects_within_tolerance (FO := IEEE.ops) SampleC3.vT SampleC3.nT
                  SampleC3.uvT SampleC3.mesh s' counts Hv Hf Ha Hrun)).
Defined.

Lemma DeDupe_counts_witness :
  validStore SampleC3.mesh ∧ noFlags SampleC3.mesh ∧ addressable SampleC3.mesh ∧
  ∃ s' dV dN dU,
    SampleC3.run = Some (s', (dV, dN, dU)) ∧
    (length (normals SampleC3.mesh) ≤ length (normals s') + dN)%nat.
Proof.
  assert (Hv : validStore SampleC3.mesh) by check_store.
  assert (Hf : noFlags SampleC3.mesh) by check_store.
  assert (Ha : addressable SampleC3.mesh) by check_store.
  split; [exact Hv|]. split; [exact Hf|]. split; [exact Ha|].
  destruct (isSome_true SampleC3.run) as [[s' [[dV dN] dU]] Hrun]; [by vm_compute|].
  exists s', dV, dN, dU. split; [exact Hrun|].
  exact (proj1 (DeDupe_counts_cover_removals (FO := IEEE.ops) SampleC3.vT SampleC3.nT
                  SampleC3.uvT SampleC3.mesh s' dV dN dU Hv Hf Ha Hrun)).
Defined.

(** ** Runs without panic *)

(** Every face has a slot in array [k] for each of its corners. *)
Definition covered (k : attr) (fs : list Face) : Prop :=
  Forall (λ f, covers (Face.edges f) (getA k f)) fs.

Lemma covered_sameExcept k k' fs fs' :
  Forall2 (sameExcept k) fs fs' → covered k' fs → covered k' fs'.
Proof.
  unfold covered. induction 1 as [|f f' fs fs' ((He & _) & Ho & Hl) _ IH]; [done|].
  intros [Hf Hfs]%Forall_cons. constructor; [|by apply IH].
  unfold covers in *. rewrite He. destruct (decide (k' = k)) as [->|Hne].
  - by rewrite Hl.
  - by rewrite (Ho k' Hne).
Qed.

Lemma covered_map_onCorners k h fs : covered k fs → covered k (map (onCorners k h) fs).
Proof.
  unfold covered. intros Hc. apply Forall_fmap. eapply Forall_impl; [exact Hc|].
  intros f Hf. cbn. unfold onCorners. rewrite edges_setA, getA_setA.
  by apply covers_mapCorners.
Qed.

Section DedupeTotal.
Context {A : Type}.
Variable skip : A → bool.
Variable near : A → A → bool.
Variable isFlushed : A → bool.
Variable flush : A → A.
Variable k : attr.

Lemma mergeInto_total i j arr fs dupes :
  (i < length arr)%nat → (j < length arr)%nat → covered k fs →
  ∃ arr' fs' dupes',
    mergeInto near flush (getA k) (setA k) i j (arr, fs, dupes) = Some (arr', fs', dupes') ∧
    length arr' = length arr ∧ covered k fs'.
Proof.
  intros Hi Hj Hc. unfold mergeInto.
  destruct (lookup_lt_is_Some_2 arr i Hi) as [ai ->].
  destruct (lookup_lt_is_Some_2 arr j Hj) as [aj ->]. cbn [mbind option_bind].
  destruct (near ai aj); [|by eexists _, _, _].
  rewrite eachFace_spec, decide_True by done. cbn [mbind option_bind].
  eexists _, _, _. split; [done|]. split; [by rewrite length_insert|].
  by apply covered_map_onCorners.
Qed.

Lemma markDuplicates_total arr fs dupes :
  covered k fs →
  ∃ arr' fs' dupes',
    markDuplicates skip near flush (getA k) (setA k) (arr, fs, dupes)
      = Some (arr', fs', dupes') ∧
    length arr' = length arr ∧ covered k fs'.
Proof.
  intros Hc. unfold markDuplicates. cbn [fst snd].
  pose (P := λ (_ : nat) (st : @pass A), length st.1.1 = length arr ∧ covered k st.1.2).
  destruct (for_range_total P (length arr) 0
              (λ i st, ai ← st.1.1 !! i;
                 if skip ai then Some st
                 else for_range (length arr - (i + 1)) (i + 1)
                        (mergeInto near flush (getA k) (setA k) i) st)
              (arr, fs, dupes)) as ([[arr' fs'] dupes'] & Hrun & Hlen & Hc').
  - by split.
  - intros i [[arr1 fs1] d1] Hi [Hl1 Hc1]. cbn [fst snd] in *.
    destruct (lookup_lt_is_Some_2 arr1 i) as [ai ->]; [lia|]. cbn [mbind option_bind].
    destruct (skip ai); [by eexists (_, _, _)|].
    destruct (for_range_total P (length arr - (i + 1)) (i + 1)
                (mergeInto near flush (getA k) (setA k) i) (arr1, fs1, d1))
      as (st' & Hrun & HP); [by split| |by eauto].
    intros j [[arr2 fs2] d2] Hj [Hl2 Hc2]. cbn [fst snd] in *.
    destruct (mergeInto_total i j arr2 fs2 d2) as (arr3 & fs3 & d3 & Hm & Hl3 & Hc3);
      [lia|lia|done|].
    exists (arr3, fs3, d3). split; [done|]. split; [cbn; congruence|done].
  - exists arr', fs', dupes'. by repeat split.
Qed.

Lemma removeFlushed_total todo i arr fs :
  length arr = (i + todo)%nat → covered k fs →
  ∃ arr' fs', removeFlushed isFlushed (getA k) (setA k) todo i arr fs = Some (arr', fs') ∧
              covered k fs'.
Proof.
  revert i arr fs. induction todo as [|todo IH]; intros i arr fs Hlen Hc; [by eauto|].
  cbn [removeFlushed].
  destruct (lookup_lt_is_Some_2 arr i) as [ai Hai]; [lia|]. rewrite Hai.
  cbn [mbind option_bind]. destruct (isFlushed ai); [|apply IH; [lia|done]].
  unfold RemoveAtIndex. rewrite decide_True by lia. cbn [mbind option_bind].
  rewrite eachFace_spec, decide_True by done. cbn [mbind option_bind].
  apply IH; [|by apply covered_map_onCorners].
  rewrite length_delete by (by eexists). lia.
Qed.

Lemma dedupePass_total arr fs :
  covered k fs →
  ∃ arr' fs' dupes,
    dedupePass skip near isFlushed flush (getA k) (setA k) arr fs = Some (arr', fs', dupes).
Proof.
  intros Hc. unfold dedupePass.
  destruct (markDuplicates_total arr fs 0%nat Hc) as (arr1 & fs1 & d1 & -> & Hl & Hc1).
  cbn [mbind option_bind].
  destruct (removeFlushed_total (length arr1) 0 arr1 fs1) as (arr2 & fs2 & -> & _);
    [done|done|].
  cbn [mbind option_bind]. eauto.
Qed.

End DedupeTotal.

Lemma faceCovered_covered (fs : list Face) :
  Forall faceCovered fs ↔ ∀ k, covered k fs.
Proof.
  unfold covered, faceCovered. split.
  - intros Hall k. eapply Forall_impl; [exact Hall|]. intros f (? & ? & ?). by destruct k.
  - intros Hall. apply Forall_forall. intros f Hf.
    pose proof (Hall AttrV) as Hv. pose proof (Hall AttrN) as Hn.
    pose proof (Hall AttrUV) as Hu. rewrite Forall_forall in Hv, Hn, Hu.
    split; [exact (Hv f Hf)|]. split; [exact (Hn f Hf)|exact (Hu f Hf)].
Qed.

Lemma DeDupe_total `{FO : FloatOps} (vT nT uvT : f64) (s : Store) :
  Forall faceCovered (faces s) →
  ∃ s' counts, DeDupe vT nT uvT s = Some (s', counts).
Proof.
  intros Hcov. rewrite faceCovered_covered in Hcov.
  unfold DeDupe, dedupeVertices, dedupeNormals, dedupeTextureCoords.
  destruct (dedupePass_total (λ p, negb (Vertex.flushed p)) (nearVertex vT) Vertex.flushed
              flushVertex AttrV (vertices s) (faces s) (Hcov AttrV))
    as (vs & fs1 & dv & Hv).
  cbn [getA setA] in Hv. rewrite Hv. cbn [mbind option_bind].
  apply (dedupePass_frame _ _ _ _ AttrV) in Hv as (_ & Hf1 & _); [|done].
  destruct (dedupePass_total Normal.flushed (nearNormal nT) Normal.flushed
              flushNormal AttrN (normals s) fs1) as (ns & fs2 & dn & Hn).
  { by eapply covered_sameExcept. }
  cbn [getA setA] in Hn. rewrite Hn. cbn [mbind option_bind].
  apply (dedupePass_frame _ _ _ _ AttrN) in Hn as (_ & Hf2 & _); [|done].
  destruct (dedupePass_total TextureCoord.flushed (nearTextureCoord uvT) TextureCoord.flushed
              flushTextureCoord AttrUV (textureCoords s) fs2) as (ts & fs3 & du & Hu).
  { eapply covered_sameExcept; [exact Hf2|]. by eapply covered_sameExcept. }
  cbn [getA setA] in Hu. rewrite Hu. cbn [mbind option_bind]. eauto.
Qed.

(** A face as the reader makes it, with all three indices on every corner:
    at least one edge, an index in each array for every corner, and no
    tangent quadruple. *)
Definition wellFormedFace (f : Face) : Prop :=
  0 < Face.edges f ∧ faceCovered f ∧ length (Face.t f) ≠ 4%nat.

Lemma wellFormedFace_sameExcept k f f' :
  sameExcept k f f' → wellFormedFace f → wellFormedFace f'.
Proof.
  intros ((He & Ht & _) & Ho & Hl) (Hpos & (Hv & Hn & Hu) & Htan).
  unfold wellFormedFace, faceCovered, covers in *. rewrite He, Ht.
  split; [done|]. split; [|done].
  pose proof (Ho AttrV) as Ov. pose proof (Ho AttrN) as On. pose proof (Ho AttrUV) as Ou.
  destruct k; cbn [getA] in *.
  - rewrite Hl, On, Ou by done. done.
  - rewrite Hl, Ov, Ou by done. done.
  - rewrite Hl, Ov, On by done. done.
Qed.

Lemma Forall_wellFormedFace_sameExcept k fs fs' :
  Forall2 (sameExcept k) fs fs' → Forall wellFormedFace fs → Forall wellFormedFace fs'.
Proof.
  induction 1 as [|f f' fs fs' Hf _ IH]; [done|].
  intros [? ?]%Forall_cons. constructor; [by eapply wellFormedFace_sameExcept|by apply IH].
Qed.

Section QuadTotal.
Context `{FO : FloatOps} `{RT : GoRuntime}.

Lemma ConvertQuadToTriangles_total (i : nat) (s : Store) (f : Face) :
  faces s !! i = Some f → Face.edges f = 4 → wellFormedFace f →
  Forall wellFormedFace (faces s) →
  ∃ s', ConvertQuadToTriangles i s = Some s' ∧ Forall wellFormedFace (faces s').
Proof.
  intros Hf He (_ & (Hv & Hn & Hu) & Ht) Hall. unfold ConvertQuadToTriangles.
  rewrite Hf. cbn [mbind option_bind].
  destruct f as [e fv fn ft fuv mid mname code cpl].
  cbn [Face.set_edges Face.v Face.n Face.uv Face.t Face.materialID Face.materialName
       Face.mortonCode Face.complete Face.edges] in *.
  subst e. unfold covers in Hv, Hn, Hu. change (N.to_nat 4) with 4%nat in *.
  destruct fv as [|v0 [|v1 [|v2 [|v3 vr]]]]; cbn [length] in Hv; try lia.
  destruct fn as [|n0 [|n1 [|n2 [|n3 nr]]]]; cbn [length] in Hn; try lia.
  destruct fuv as [|u0 [|u1 [|u2 [|u3 ur]]]]; cbn [length] in Hu; try lia.
  rewrite !decide_False by done. cbn.
  eexists. split; [reflexivity|]. cbn [faces set_faces set_facesCap].
  apply Forall_app. split.
  - apply Forall_insert; [done|].
    unfold wellFormedFace, faceCovered, covers.
    destruct (bool_decide (facesCap s ≤ length (faces s))%nat); cbn.
    + unfold deletedBacking. cbn.
      destruct (last (v3 :: vr)), (last (n3 :: nr)), (last (u3 :: ur)); cbn;
        rewrite ?length_app; cbn; repeat split; try lia; done.
    + repeat split; try lia; done.
  - repeat constructor; unfold covers; cbn; lia.
Qed.

Lemma ValidateQuad_total (s : Store) (f : Face) :
  Face.edges f = 4 → covers (Face.edges f) (Face.v f) →
  (∀ x, x ∈ corners (Face.edges f) (Face.v f) → (N.to_nat x < length (vertices s))%nat) →
  ∃ e, ValidateQuad s f = Some e.
Proof.
  intros He Hv Hvalid. unfold ValidateQuad.
  assert (Hc : ∀ l, (l < 4)%nat → ∃ p, corner s f l = Some p).
  { intros l Hl. unfold corner, covers, corners, index in *. rewrite He in *.
    change (N.to_nat 4) with 4%nat in *.
    destruct (lookup_lt_is_Some_2 (Face.v f) l) as [x Hx]; [lia|]. rewrite Hx.
    cbn [mbind option_bind]. apply lookup_lt_is_Some_2, Hvalid.
    apply list_elem_of_lookup. exists l. by rewrite lookup_take_lt. }
  destruct (Hc 1%nat) as [p1 ->]; [lia|]. destruct (Hc 0%nat) as [p0 ->]; [lia|].
  destruct (Hc 2%nat) as [p2 ->]; [lia|]. destruct (Hc 3%nat) as [p3 ->]; [lia|].
  cbn [mbind option_bind].
  destruct (f64_abs _ <? _)%f64; [by eauto|]. destruct (negb _); by eauto.
Qed.

Lemma FakeQuadCheck_total (f : Face) :
  Face.edges f = 4 → covers (Face.edges f) (Face.v f) → FakeQuadCheck f = Some ().
Proof.
  intros He Hv. unfold FakeQuadCheck, covers in *. rewrite He in Hv.
  change (N.to_nat 4) with 4%nat in Hv.
  destruct (Face.v f) as [|v0 [|v1 [|v2 [|v3 vr]]]]; cbn [length] in Hv; try lia. done.
Qed.

(** The quad pass on well-formed faces with valid vertex references: it
    ends, or stops at an invalid quad under [-q 1]; it never panics. *)
Lemma validateQuads_total (fuel : nat) (q : Z) (i : nat) (s : Store) :
  validStore s → Forall wellFormedFace (faces s) →
  (length (faces s) - i + quadsFrom i (faces s) < fuel)%nat →
  (∃ s', validateQuads fuel q i s = Completed s' ∧ Forall wellFormedFace (faces s') ∧
         (length (faces s) ≤ length (faces s') ≤ length (faces s) + quadsFrom i (faces s))%nat) ∨
  (q = 1%Z ∧ ∃ e, validateQuads fuel q i s = Aborted e).
Proof.
  revert i s. induction fuel as [|fuel IH]; intros i s Hvalid Hwf Hfuel; [lia|].
  cbn [validateQuads].
  destruct (faces s !! i) as [f|] eqn:Hf.
  2:{ left. exists s. split; [done|]. split; [done|]. lia. }
  apply lookup_lt_Some in Hf as Hlt.
  pose proof (quadsFrom_S i (faces s) f Hf) as HQ.
  assert (Hwff : wellFormedFace f).
  { rewrite Forall_forall in Hwf. apply Hwf. by eapply list_elem_of_lookup_2. }
  assert (Hnext :
    (∃ s', validateQuads fuel q (S i) s = Completed s' ∧ Forall wellFormedFace (faces s') ∧
           (length (faces s) ≤ length (faces s') ≤
            length (faces s) +
            ((if decide (Face.edges f = 4%N) then 1 else 0) + quadsFrom (S i) (faces s)))%nat) ∨
    (q = 1%Z ∧ ∃ e, validateQuads fuel q (S i) s = Aborted e)).
  { destruct (IH (S i) s Hvalid Hwf) as [(s' & Hr & Hw & Hl)|Hab].
    - destruct (decide (Face.edges f = 4)); lia.
    - left. exists s'. split; [done|]. split; [done|]. lia.
    - by right. }
  rewrite HQ.
  destruct (N.eqb_spec (Face.edges f) 4) as [He|He];
    cbn [andb]; [|rewrite decide_False in * by done; exact Hnext].
  rewrite decide_True in * by done.
  assert (Hconvert :
    (∃ s', ofOption (ConvertQuadToTriangles i s) (validateQuads fuel q (S i)) = Completed s' ∧
           Forall wellFormedFace (faces s') ∧
           (length (faces s) ≤ length (faces s')
            ≤ length (faces s) + (1 + quadsFrom (S i) (faces s)))%nat) ∨
    (q = 1%Z ∧ ∃ e, ofOption (ConvertQuadToTriangles i s) (validateQuads fuel q (S i))
                    = Aborted e)).
  { destruct (ConvertQuadToTriangles_total i s f Hf He Hwff Hwf) as (s1 & Hc & Hwf1).
    rewrite Hc. cbn [ofOption].
    destruct (ConvertQuadToTriangles_valid i s s1 f Hf He Hvalid Hc) as (Hv1 & _).
    destruct (ConvertQuadToTriangles_shape i s s1 Hc)
      as (g & f' & v0 & v1 & v2 & v3 & vr & n0 & n1 & n2 & n3 & nr & u0 & u1 & u2 & u3 & ur
          & Hg & _ & _ & _ & Hfs & _).
    assert (Hlen1 : length (faces s1) = S (length (faces s))).
    { rewrite Hfs, length_app, length_insert. cbn. lia. }
    assert (HQ1 : quadsFrom (S i) (faces s1) = quadsFrom (S i) (faces s)).
    { rewrite Hfs. by apply (quadsFrom_convert i (faces s) f). }
    destruct (IH (S i) s1 Hv1 Hwf1) as [(s' & Hr & Hw & Hl)|Hab].
    - lia.
    - left. exists s'. split; [done|]. split; [done|]. lia.
    - by right. }
  destruct Hwff as (_ & (Hcv & _) & _).
  destruct (Z.eqb_spec q 3) as [->|H3]; cbn [negb].
  { exact Hconvert. }
  rewrite (FakeQuadCheck_total f He Hcv).
  destruct (0 <? q)%Z; [|exact Hnext].
  destruct (ValidateQuad_total s f He Hcv) as [e Hvq].
  { intros x Hx. destruct Hvalid as (Hvv & _). apply (Hvv f x); [|done].
    by eapply list_elem_of_lookup_2. }
  rewrite Hvq. destruct e as [|msg]; [exact Hnext|].
  destruct (Z.eqb_spec q 1) as [->|H1]; [right; by eauto|].
  destruct (q =? 2)%Z; [exact Hconvert|exact Hnext].
Qed.

End QuadTotal.

Section ReindexTotal.
Context {A : Type}.
Variable isFlushed : A → bool.
Variable flush : A → A.
Variable k : attr.
Hypothesis flush_flushed : ∀ a, isFlushed (flush a) = true.
Variable arr0 : list A.
Variable fs0 : list Face.
Hypothesis arr0_small : N.of_nat (length arr0) < 2 ^ 32.
Hypothesis fs0_small : N.of_nat (length fs0) < 2 ^ 32.
Hypothesis fs0_covered : covered k fs0.
Hypothesis fs0_valid : validAttr k (length arr0) fs0.

(** Every face listed in the table exists. *)
Definition useOk (use : list (list N)) : Prop :=
  ∀ x users fi, index use x = Some users → fi ∈ users → (N.to_nat fi < length fs0)%nat.

Lemma buildUse_total :
  ∃ use, buildUse (getA k) (length arr0) fs0 = Some use ∧ useOk use.
Proof.
  unfold buildUse.
  pose (P := λ (_ : nat) (use : list (list N)), length use = length arr0 ∧ useOk use).
  destruct (for_range_total P (length fs0) 0
              (λ i use, f ← fs0 !! i;
                 for_range (N.to_nat (Face.edges f)) 0
                   (λ j use, idx ← getA k f !! j; users ← index use idx;
                      Some (<[N.to_nat idx := users ++ [u32 (N.of_nat i)]]> use)) use)
              (replicate (length arr0) [])) as (use & Hrun & _ & Hok).
  - split; [apply length_replicate|]. intros x users fi Hx Hfi. unfold index in Hx.
    apply lookup_replicate in Hx as [-> _]. by apply elem_of_nil in Hfi.
  - intros i use Hi [Hlen Hok].
    destruct (lookup_lt_is_Some_2 fs0 i) as [f Hf]; [lia|]. rewrite Hf.
    cbn [mbind option_bind].
    assert (Hfin : f ∈ fs0) by (by eapply list_elem_of_lookup_2).
    assert (Hcov : covers (Face.edges f) (getA k f)).
    { unfold covered in fs0_covered. rewrite Forall_forall in fs0_covered. by apply fs0_covered. }
    apply (for_range_total P); [by split|].
    intros j u Hj [Hlu Hoku]. unfold covers in Hcov.
    destruct (lookup_lt_is_Some_2 (getA k f) j) as [idx Hidx]; [lia|]. rewrite Hidx.
    cbn [mbind option_bind].
    assert (Hidxlt : (N.to_nat idx < length arr0)%nat).
    { apply (fs0_valid f idx Hfin). unfold corners. apply list_elem_of_lookup. exists j.
      rewrite lookup_take_lt by lia. done. }
    unfold index. destruct (lookup_lt_is_Some_2 u (N.to_nat idx)) as [users Hus]; [lia|].
    rewrite Hus. cbn [mbind option_bind]. eexists. split; [done|].
    split; [by rewrite length_insert|].
    intros x us fi Hx Hfi. unfold index in Hx.
    destruct (decide (N.to_nat idx = N.to_nat x)) as [Heq|Hne].
    + rewrite Heq in Hx. rewrite list_lookup_insert_eq in Hx by (rewrite <- Heq; lia).
      injection Hx as <-. apply elem_of_app in Hfi as [Hfi|Hfi].
      * apply (Hoku idx users fi); [done|done].
      * apply list_elem_of_singleton in Hfi as ->.
        rewrite (u32_of_nat i (length fs0)) by (done || lia). lia.
    + rewrite list_lookup_insert_ne in Hx by done. by apply (Hoku x us fi).
  - by exists use.
Qed.

Lemma renumberUser_total idx c fi fs :
  (N.to_nat fi < length fs)%nat → covered k fs →
  ∃ fs', renumberUser k idx c fi fs = Some fs'.
Proof.
  intros Hfi Hc. unfold renumberUser, index.
  destruct (lookup_lt_is_Some_2 fs (N.to_nat fi) Hfi) as [face Hface]. rewrite Hface.
  cbn [mbind option_bind]. destruct (Face.complete face); [by eauto|].
  rewrite eachCorner_spec, decide_True; [by eauto|].
  unfold covered in Hc. rewrite Forall_forall in Hc. apply Hc.
  by eapply list_elem_of_lookup_2.
Qed.

Lemma forEach_renumberUser_total idx c users fs :
  (∀ fi, fi ∈ users → (N.to_nat fi < length fs)%nat) → covered k fs →
  ∃ fs', forEach (renumberUser k idx c) users fs = Some fs'.
Proof.
  revert fs. induction users as [|u users IH]; intros fs Hus Hc; [by eexists|].
  cbn [forEach].
  destruct (renumberUser_total idx c u fs) as [fs1 Hstep];
    [apply Hus, list_elem_of_here|done|].
  rewrite Hstep. cbn [mbind option_bind].
  apply renumberUser_spec in Hstep as [Hrel _].
  assert (Hsame : Forall2 (sameExcept k) fs fs1).
  { eapply Forall2_impl; [exact Hrel|]. intros ??. apply renumbered_sameExcept. }
  apply IH.
  - intros fi Hfi. rewrite <- (Forall2_length _ _ _ Hsame). by apply Hus, list_elem_of_further.
  - by eapply covered_sameExcept.
Qed.

Lemma Inv_cur_le i j st :
  Inv isFlushed k arr0 fs0 i j st → (rcur st ≤ length arr0)%nat.
Proof.
  intros [Hcur Hperm _ _ _ _]. apply Permutation_length in Hperm.
  rewrite length_app in Hperm. lia.
Qed.

Lemma visitCorner_total i j st fi :
  Inv isFlushed k arr0 fs0 i j st → useOk (ruse st) →
  rfaces st !! i = Some fi → (j < N.to_nat (Face.edges fi))%nat →
  ∃ st', visitCorner isFlushed flush (getA k) (setA k) i j st = Some st' ∧
         useOk (ruse st').
Proof.
  intros HInv Hok Hfi Hj. pose proof (Inv_cur_le i j st HInv) as Hcur.
  destruct HInv as [_ _ Harr Huse Hfaces Hcorners].
  unfold visitCorner. rewrite Hfi. cbn [mbind option_bind].
  destruct (Forall2_lookup_r _ _ _ _ _ Hfaces Hfi) as (f0 & Hf0 & (He & _) & _ & Hlen).
  assert (Hcov0 : covers (Face.edges f0) (getA k f0)).
  { unfold covered in fs0_covered. rewrite Forall_forall in fs0_covered.
    apply fs0_covered. by eapply list_elem_of_lookup_2. }
  unfold covers in Hcov0. rewrite He in Hj.
  destruct (lookup_lt_is_Some_2 (getA k f0) j) as [x0 Hx0]; [lia|].
  destruct (lookup_lt_is_Some_2 (getA k fi) j) as [idx Hidx]; [lia|].
  rewrite Hidx. cbn [mbind option_bind].
  assert (Hidxlt : (N.to_nat idx < length arr0)%nat).
  { destruct (Hcorners i f0 fi j x0 idx Hf0 Hfi Hj Hx0 Hidx)
      as [[Hlt _]|(-> & _ & (a & Ha & _) & _)]; [lia|].
    unfold index in Ha. apply lookup_lt_Some in Ha. lia. }
  unfold index. destruct (lookup_lt_is_Some_2 (rarr st) (N.to_nat idx)) as [a Ha]; [lia|].
  rewrite Ha. cbn [mbind option_bind]. destruct (isFlushed a); [by eauto|].
  destruct (lookup_lt_is_Some_2 (ruse st) (N.to_nat idx)) as [users Hus]; [lia|].
  rewrite Hus. cbn [mbind option_bind]. rewrite renumberUsers_forEach.
  destruct (forEach_renumberUser_total idx (u32 (N.of_nat (rcur st))) users (rfaces st))
    as [fs' Hren].
  - intros fu Hfu. rewrite <- (Forall2_length _ _ _ Hfaces). by apply (Hok idx users fu).
  - by eapply covered_sameExcept.
  - rewrite Hren. cbn [mbind option_bind]. eexists. split; [done|]. cbn [ruse].
    intros x us fu Hx Hfu. unfold index in Hx.
    destruct (decide (N.to_nat idx = N.to_nat x)) as [Heq|Hne].
    + rewrite Heq in Hx. rewrite list_lookup_insert_eq in Hx by (rewrite <- Heq; lia).
      injection Hx as <-. by apply elem_of_nil in Hfu.
    + rewrite list_lookup_insert_ne in Hx by done. by apply (Hok x us fu).
Qed.

Lemma visitFace_total i st :
  Inv isFlushed k arr0 fs0 i 0 st → useOk (ruse st) → (i < length fs0)%nat →
  ∃ st', visitFace isFlushed flush (getA k) (setA k) i st = Some st' ∧
         Inv isFlushed k arr0 fs0 (S i) 0 st' ∧ useOk (ruse st').
Proof.
  intros HInv Hok Hi.
  assert (Hlen : length (rfaces st) = length fs0).
  { destruct HInv as [_ _ _ _ Hfaces _]. symmetry. by eapply Forall2_length. }
  destruct (lookup_lt_is_Some_2 (rfaces st) i) as [fi Hfi]; [lia|].
  pose (P := λ (j : nat) (t : remap (A := A)),
          Inv isFlushed k arr0 fs0 i j t ∧ useOk (ruse t) ∧
          ∃ fi', rfaces t !! i = Some fi' ∧ Face.edges fi' = Face.edges fi).
  destruct (for_range_total P (N.to_nat (Face.edges fi)) 0
              (visitCorner isFlushed flush (getA k) (setA k) i) st)
    as (st1 & Hloop & HInv1 & Hok1 & fi1 & Hfi1 & He1).
  { split; [done|]. split; [done|]. by exists fi. }
  { intros j t Hj (Ht & Hokt & fi' & Hfi' & He').
    destruct (visitCorner_total i j t fi' Ht Hokt Hfi') as (t' & Hstep & Hokt');
      [rewrite He'; lia|].
    exists t'. split; [done|].
    destruct (visitCorner_Inv isFlushed flush k flush_flushed arr0 fs0 arr0_small fs0_small
                i j t t' fi' Ht Hfi') as [Ht' (fi'' & Hfi'' & He'')]; [rewrite He'; lia|done|].
    split; [done|]. split; [done|]. exists fi''. split; [done|]. congruence. }
  assert (Hrun : visitFace isFlushed flush (getA k) (setA k) i st
                 = Some (mkRemap (<[i:=Face.set_complete true fi1]> (rfaces st1))
                           (rarr st1) (ruse st1) (rnew st1) (rcur st1))).
  { unfold visitFace. rewrite Hfi. cbn [mbind option_bind]. rewrite Hloop.
    cbn [mbind option_bind]. rewrite Hfi1. done. }
  eexists. split; [exact Hrun|]. split; [|done].
  by apply (visitFace_Inv isFlushed flush k flush_flushed arr0 fs0 arr0_small fs0_small
              i st _ HInv Hrun).
Qed.

Lemma reindex_total (fs : list Face) :
  fs0 = map (Face.set_complete false) fs →
  Forall (λ a, isFlushed a = false) arr0 →
  ∃ arr' fs', reindex isFlushed flush (getA k) (setA k) arr0 fs = Some (arr', fs').
Proof.
  intros Hfs0 Hall. unfold reindex. rewrite clearComplete_spec, <- Hfs0.
  cbn [mbind option_bind].
  destruct buildUse_total as (use & Huse & Hok). rewrite Huse. cbn [mbind option_bind].
  apply buildUse_spec in Huse as [Hlen Hrec].
  pose (P := λ (i : nat) (t : remap (A := A)),
          Inv isFlushed k arr0 fs0 i 0 t ∧ useOk (ruse t)).
  destruct (for_range_total P (length fs0) 0
              (visitFace isFlushed flush (getA k) (setA k))
              (mkRemap fs0 arr0 use [] 0%nat)) as (st & Hloop & _).
  - split; [|done]. split; cbn [rfaces rarr ruse rnew rcur]; try done.
    + cbn [app]. unfold unflushed. clear -Hall.
      induction Hall as [|a l Ha _ IH]; [done|].
      rewrite filter_cons, decide_True by done. by constructor.
    + apply Forall_Forall2_diag, Forall_forall. intros. apply sameExcept_refl.
    + intros p f0 f l x0 x Hf0 Hf Hl Hx0 Hx.
      assert (f = f0) as -> by congruence. assert (x = x0) as -> by congruence.
      right. split; [done|]. split; [unfold pending; lia|].
      pose proof (Hrec p f0 l x0 Hf0 Hl Hx0) as Hr. split; [|split; [done|]].
      * destruct Hr as (us & Hus & _). unfold index in Hus.
        apply lookup_lt_Some in Hus. rewrite Hlen in Hus.
        destruct (lookup_lt_is_Some_2 arr0 (N.to_nat x0) Hus) as [a Ha].
        exists a. split; [done|]. exact (Forall_lookup_1 _ _ _ _ Hall Ha).
      * rewrite Hfs0 in Hf0. apply list_lookup_fmap_Some in Hf0 as (g & -> & _). done.
  - intros i t Hi [Ht Hokt].
    destruct (visitFace_total i t Ht Hokt) as (t' & Hstep & Ht' & Hokt'); [lia|].
    exists t'. split; [done|]. unfold P. by split.
  - rewrite Hloop. cbn [mbind option_bind]. eauto.
Qed.

End ReindexTotal.

(** One remap block runs to its end when the references are valid and each
    face has a slot for every corner. *)
Lemma reindex_runs {A : Type} (isFlushed : A → bool) (flush : A → A) (k : attr)
    (arr : list A) (fs : list Face) :
  (∀ a, isFlushed (flush a) = true) →
  N.of_nat (length arr) < 2 ^ 32 → N.of_nat (length fs) < 2 ^ 32 →
  Forall (λ a, isFlushed a = false) arr →
  covered k fs → validAttr k (length arr) fs →
  ∃ arr' fs', reindex isFlushed flush (getA k) (setA k) arr fs = Some (arr', fs').
Proof.
  intros Hflush Harr Hfs Hall Hcov Hvalid.
  assert (Hclear : Forall2 (sameExcept k) fs (map (Face.set_complete false) fs)).
  { apply Forall2_fmap_r, Forall_Forall2_diag, Forall_forall.
    intros. apply sameExcept_set_complete. }
  apply (reindex_total isFlushed flush k Hflush arr (map (Face.set_complete false) fs));
    try done.
  - by rewrite length_map.
  - by eapply covered_sameExcept.
  - intros f x Hf Hx. apply list_elem_of_fmap in Hf as (g & -> & Hg).
    apply (Hvalid g x Hg). by destruct k.
Qed.

(** What a stage needs of array [k]: valid references and a slot for every
    corner. *)
Definition ready (k : attr) (len : nat) (fs : list Face) : Prop :=
  validAttr k len fs ∧ covered k fs.

Lemma ready_sameButCode k len fs fs' :
  Forall2 sameButCode fs fs' → ready k len fs → ready k len fs'.
Proof.
  intros Hsame [Hvalid Hcov]. split.
  - intros f' x Hf' Hx. apply list_elem_of_lookup in Hf' as [i Hi].
    destruct (Forall2_lookup_r _ _ _ _ _ Hsame Hi) as (f & Hf & He & Hv & Hn & _ & Hu & _).
    apply (Hvalid f x); [by eapply list_elem_of_lookup_2|].
    rewrite He in Hx. destruct k; cbn [getA] in *; congruence.
  - unfold covered in *. revert Hcov. clear Hvalid.
    induction Hsame as [|f f' fs fs' (He & Hv & Hn & _ & Hu & _) _ IH]; [done|].
    intros [Hf Hfs]%Forall_cons. constructor; [|by apply IH].
    rewrite He. destruct k; cbn [getA] in *; congruence.
Qed.

Lemma ready_Permutation k len fs fs' : fs ≡ₚ fs' → ready k len fs → ready k len fs'.
Proof.
  intros Hperm [Hvalid Hcov]. split.
  - intros f x Hf Hx. apply (Hvalid f x); [by rewrite Hperm|done].
  - unfold covered in *. by rewrite <- Hperm.
Qed.

Lemma ready_sameExcept k k' len fs fs' :
  k' ≠ k → Forall2 (sameExcept k') fs fs' → ready k len fs → ready k len fs'.
Proof.
  intros Hne Hsame [Hvalid Hcov]. split.
  - by eapply (validAttr_sameExcept k' k).
  - by eapply covered_sameExcept.
Qed.

Lemma wellFormedFace_sameButCode f f' :
  sameButCode f f' → wellFormedFace f → wellFormedFace f'.
Proof.
  intros (He & Hv & Hn & Ht & Hu & _).
  unfold wellFormedFace, faceCovered, covers. by rewrite He, Hv, Hn, Ht, Hu.
Qed.

Section OptimiseTotal.
Context `{FO : FloatOps} `{RT : GoRuntime}.

Lemma faceMortonCode_total (s : Store) (f : Face) :
  covers (Face.edges f) (Face.v f) →
  (∀ x, x ∈ corners (Face.edges f) (Face.v f) → (N.to_nat x < length (vertices s))%nat) →
  ∃ code, faceMortonCode s f = Some code.
Proof.
  intros Hcov Hvalid. unfold faceMortonCode.
  destruct (for_range_total (λ _ _, True) (N.to_nat (Face.edges f)) 0
              (λ j '(cx, cy, cz),
                 p ← corner s f j;
                 Some (cx + Vertex.X p, cy + Vertex.Y p, cz + Vertex.Z p)%f32)
              (f32_of_Z 0, f32_of_Z 0, f32_of_Z 0)) as ([[cx cy] cz] & -> & _); [done| |].
  - intros j [[cx cy] cz] Hj _. unfold corner, covers, corners, index in *.
    destruct (lookup_lt_is_Some_2 (Face.v f) j) as [x Hx]; [lia|]. rewrite Hx.
    cbn [mbind option_bind].
    destruct (lookup_lt_is_Some_2 (vertices s) (N.to_nat x)) as [p Hp].
    { apply Hvalid, list_elem_of_lookup. exists j. by rewrite lookup_take_lt by lia. }
    rewrite Hp. cbn [mbind option_bind]. by eexists.
  - cbn [mbind option_bind]. by eexists.
Qed.

Lemma assignMortonCodes_total (s : Store) :
  ready AttrV (length (vertices s)) (faces s) →
  ∃ s1, assignMortonCodes s = Some s1.
Proof.
  intros Hready. unfold assignMortonCodes.
  pose (P := λ (_ : nat) (t : Store),
          vertices t = vertices s ∧ Forall2 sameButCode (faces s) (faces t)).
  destruct (for_range_total P (length (faces s)) 0
              (λ i t, f ← faces t !! i; code ← faceMortonCode t f;
                      Some (set_faces (<[i:=Face.set_mortonCode code f]> (faces t)) t)) s)
    as (s1 & Hrun & _); [| |by eauto].
  - split; [done|]. apply Forall_Forall2_diag, Forall_forall. intros. apply sameButCode_refl.
  - intros i t Hi [Hv Hfs].
    destruct (lookup_lt_is_Some_2 (faces t) i) as [f Hf].
    { rewrite <- (Forall2_length _ _ _ Hfs). lia. }
    rewrite Hf. cbn [mbind option_bind].
    destruct (ready_sameButCode AttrV _ _ _ Hfs Hready) as [Hvalid Hcov].
    assert (Hin : f ∈ faces t) by (by eapply list_elem_of_lookup_2).
    destruct (faceMortonCode_total t f) as [code Hcode].
    { unfold covered in Hcov. rewrite Forall_forall in Hcov. by apply (Hcov f). }
    { intros x Hx. rewrite Hv. by apply (Hvalid f x). }
    rewrite Hcode. cbn [mbind option_bind]. eexists. split; [done|]. split; [done|].
    cbn [faces set_faces]. eapply Forall2_trans; [|exact Hfs|].
    + intros ???. apply sameButCode_trans.
    + apply (Forall2_insert_same _ _ _ f); [apply sameButCode_refl|done|by repeat split].
Qed.

(** [OptimiseMesh] runs to its end on a store with valid references, no
    flags and well-formed faces, and leaves the faces well-formed. *)
Lemma OptimiseMesh_total (s : Store) :
  validStore s → noFlags s → addressable s → Forall wellFormedFace (faces s) →
  ∃ s', OptimiseMesh s = Some s' ∧ Forall wellFormedFace (faces s') ∧
        length (faces s') = length (faces s).
Proof.
  intros (Hv & Hn & Hu) (Fv & Fn & Fu) (Av & An & Au & Af) Hwf.
  assert (Hcov : ∀ k, covered k (faces s)).
  { apply faceCovered_covered. eapply Forall_impl; [exact Hwf|]. by intros f (_ & ? & _). }
  unfold OptimiseMesh.
  destruct (assignMortonCodes_total s) as [s1 H1]; [by split|]. rewrite H1.
  cbn [mbind option_bind].
  apply assignMortonCodes_spec in H1 as (Ev & En & Eu & _ & _ & _ & _ & Hcode).
  assert (Hsorted : faces (sortFaces s1) ≡ₚ faces s1) by apply sortFunc_Permutation.
  assert (Hready1 : ∀ k len, ready k len (faces s) → ready k len (faces (sortFaces s1))).
  { intros k len Hr. eapply ready_Permutation; [by symmetry|]. by eapply ready_sameButCode. }
  assert (Hlen1 : length (faces (sortFaces s1)) = length (faces s)).
  { rewrite Hsorted. symmetry. by eapply Forall2_length. }
  assert (Hwf1 : Forall wellFormedFace (faces (sortFaces s1))).
  { rewrite Hsorted. clear -Hcode Hwf.
    induction Hcode as [|f f' fs fs' Hf _ IH]; [done|].
    apply Forall_cons in Hwf as [? ?].
    constructor; [by eapply wellFormedFace_sameButCode|by apply IH]. }
  change (vertices (sortFaces s1)) with (vertices s1).
  change (normals (sortFaces s1)) with (normals s1).
  change (textureCoords (sortFaces s1)) with (textureCoords s1).
  rewrite Ev, En, Eu.
  destruct (Hready1 AttrV _ (conj Hv (Hcov AttrV))) as [Hv1 Hc1].
  destruct (reindex_runs Vertex.flushed flushVertex AttrV (vertices s)
              (faces (sortFaces s1))) as (vs & fsv & Hrv); try done; [lia|].
  cbn [getA setA] in Hrv. rewrite Hrv. cbn [mbind option_bind].
  apply (reindex_frame _ _ AttrV) in Hrv as Xv. apply Forall2_length in Xv as Lv.
  destruct (ready_sameExcept AttrN AttrV _ _ _ ltac:(done) Xv
              (Hready1 AttrN _ (conj Hn (Hcov AttrN)))) as [Hn2 Hc2].
  destruct (reindex_runs Normal.flushed flushNormal AttrN (normals s) fsv)
    as (ns & fsn & Hrn); try done; [lia|].
  cbn [getA setA] in Hrn. rewrite Hrn. cbn [mbind option_bind].
  apply (reindex_frame _ _ AttrN) in Hrn as Xn. apply Forall2_length in Xn as Ln.
  destruct (ready_sameExcept AttrUV AttrN _ _ _ ltac:(done) Xn
              (ready_sameExcept AttrUV AttrV _ _ _ ltac:(done) Xv
                 (Hready1 AttrUV _ (conj Hu (Hcov AttrUV))))) as [Hu3 Hc3].
  destruct (reindex_runs TextureCoord.flushed flushTextureCoord AttrUV (textureCoords s) fsn)
    as (ts & fsu & Hru); try done; [lia|].
  cbn [getA setA] in Hru. rewrite Hru. cbn [mbind option_bind].
  apply (reindex_frame _ _ AttrUV) in Hru as Xu.
  apply Forall2_length in Xu as Lu.
  eexists. split; [done|]. cbn [faces set_faces]. split; [|lia].
  eapply Forall_wellFormedFace_sameExcept; [exact Xu|].
  eapply Forall_wellFormedFace_sameExcept; [exact Xn|].
  by eapply Forall_wellFormedFace_sameExcept.
Qed.

End OptimiseTotal.

(** [DeDupe] never panics on faces that have an index for every corner in
    each of the three arrays, whether or not the indices are in range, and
    it leaves the faces that way. *)
Theorem DeDupe_runs_when_covered `{FO : FloatOps} (vT nT uvT : f64) (s : Store) :
  Forall faceCovered (faces s) →
  ∃ s' counts, DeDupe vT nT uvT s = Some (s', counts) ∧
               Forall faceCovered (faces s') ∧ length (faces s') = length (faces s).
Proof.
  intros Hcov. destruct (DeDupe_total vT nT uvT s Hcov) as (s' & counts & Hrun).
  exists s', counts. split; [done|].
  unfold DeDupe, dedupeVertices, dedupeNormals, dedupeTextureCoords in Hrun.
  destruct (dedupePass _ _ _ _ _ _ (vertices s) _) as [[[vs fs1] dv]|] eqn:Hv;
    cbn [mbind option_bind] in Hrun; [|done].
  destruct (dedupePass _ _ _ _ _ _ (normals s) _) as [[[ns fs2] dn]|] eqn:Hn;
    cbn [mbind option_bind] in Hrun; [|done].
  destruct (dedupePass _ _ _ _ _ _ (textureCoords s) _) as [[[ts fs3] du]|] eqn:Hu;
    cbn [mbind option_bind] in Hrun; [|done].
  injection Hrun as <- _. cbn [faces set_faces].
  apply (dedupePass_frame _ _ _ _ AttrV) in Hv as (_ & Hf1 & _); [|done].
  apply (dedupePass_frame _ _ _ _ AttrN) in Hn as (_ & Hf2 & _); [|done].
  apply (dedupePass_frame _ _ _ _ AttrUV) in Hu as (_ & Hf3 & _); [|done].
  split.
  - rewrite faceCovered_covered in *. intros k.
    eapply covered_sameExcept; [exact Hf3|]. eapply covered_sameExcept; [exact Hf2|].
    by eapply covered_sameExcept.
  - apply Forall2_length in Hf1, Hf2, Hf3. lia.
Qed.

(** [OptimiseMesh] never panics on a store with valid references, no flag
    and well-formed faces: every index expression of the Morton loop, of
    the use tables and of the three renumbering walks stays in range (the
    renumbered corners that the walks meet again included). *)
Theorem OptimiseMesh_runs `{FO : FloatOps} `{RT : GoRuntime} (s : Store) :
  validStore s → noFlags s → addressable s → Forall wellFormedFace (faces s) →
  ∃ s', OptimiseMesh s = Some s' ∧ validStore s' ∧
        Forall wellFormedFace (faces s') ∧ length (faces s') = length (faces s).
Proof.
  intros Hvalid Hflags Haddr Hwf.
  destruct (OptimiseMesh_total s Hvalid Hflags Haddr Hwf) as (s' & Hrun & Hwf' & Hlen).
  exists s'. split; [done|].
  destruct (OptimiseMesh_spec s s' Hflags Haddr Hrun) as (Hvalid' & _). done.
Qed.

(** The quad pass never panics on well-formed faces with valid vertex
    references: it runs to its end, or stops at an invalid quad under
    [-q 1]. *)
Theorem quad_pass_runs `{FO : FloatOps} `{RT : GoRuntime} (q : Z) (s : Store) :
  validStore s → Forall wellFormedFace (faces s) →
  (∃ s', validateStage q s = Completed s' ∧ validStore s' ∧
         Forall wellFormedFace (faces s')) ∨
  (q = 1%Z ∧ ∃ e, validateStage q s = Aborted e).
Proof.
  intros Hvalid Hwf. unfold validateStage.
  pose proof (length_filter (λ f, Face.edges f = 4) (faces s)) as Hquads.
  assert (HQ : (quadsFrom 0 (faces s) ≤ length (faces s))%nat).
  { unfold quadsFrom. by rewrite drop_0. }
  destruct (validateQuads_total (2 * length (faces s) + 1) q 0 s Hvalid Hwf)
    as [(s1 & Hrun & Hwf1 & _)|Hab]; [lia| |by right].
  left. exists s1. split; [done|]. split; [|done].
  by destruct (validateQuads_valid _ q 0 s s1 Hvalid Hrun).
Qed.

(** Concrete faces are checked field by field. *)
Ltac check_faces := repeat constructor; unfold covers; cbn; lia.

Lemma DeDupe_runs_witness :
  Forall faceCovered (faces SampleC3.mesh) ∧
  ∃ s' counts, SampleC3.run = Some (s', counts) ∧ Forall faceCovered (faces s').
Proof.
  assert (Hcov : Forall faceCovered (faces SampleC3.mesh)) by check_faces.
  split; [exact Hcov|].
  destruct (DeDupe_runs_when_covered (FO := IEEE.ops) SampleC3.vT SampleC3.nT SampleC3.uvT
              SampleC3.mesh Hcov) as (s' & counts & Hrun & Hcov' & _).
  exists s', counts. split; [exact Hrun|exact Hcov'].
Defined.

Lemma OptimiseMesh_runs_witness :
  validStore SampleOpt.twins ∧ noFlags SampleOpt.twins ∧ addressable SampleOpt.twins ∧
  Forall wellFormedFace (faces SampleOpt.twins) ∧
  ∃ s', OptimiseMesh (FO := IEEE.ops) (RT := plainRuntime) SampleOpt.twins = Some s' ∧
        validStore s'.
Proof.
  assert (Hv : validStore SampleOpt.twins) by check_store.
  assert (Hf : noFlags SampleOpt.twins) by check_store.
  assert (Ha : addressable SampleOpt.twins) by check_store.
  assert (Hwf : Forall wellFormedFace (faces SampleOpt.twins)) by check_faces.
  split; [exact Hv|]. split; [exact Hf|]. split; [exact Ha|]. split; [exact Hwf|].
  destruct (OptimiseMesh_runs (FO := IEEE.ops) (RT := plainRuntime) SampleOpt.twins
              Hv Hf Ha Hwf) as (s' & Hrun & Hv' & _).
  exists s'. split; [exact Hrun|exact Hv'].
Defined.

Lemma quad_pass_runs_witness :
  validStore Sample.square ∧ Forall wellFormedFace (faces Sample.square) ∧
  ∃ s', validateStage (FO := IEEE.ops) (RT := plainRuntime) 3 Sample.square = Completed s' ∧
        validStore s'.
Proof.
  assert (Hv : validStore Sample.square) by check_store.
  assert (Hwf : Forall wellFormedFace (faces Sample.square)) by check_faces.
  split; [exact Hv|]. split; [exact Hwf|].
  destruct (quad_pass_runs (FO := IEEE.ops) (RT := plainRuntime) 3 Sample.square Hv Hwf)
    as [(s' & Hrun & Hv' & _) | [Hq _]]; [|discriminate Hq].
  exists s'. split; [exact Hrun|exact Hv'].
Defined.

(** ** [main]: the stages in sequence *)

From stdpp Require Import strings gmap.
Local Open Scope N_scope.

Definition set_materialID (x : N) (f : Face) : Face :=
  Face.mk (Face.edges f) (Face.v f) (Face.n f) (Face.t f) (Face.uv f) x
    (Face.materialName f) (Face.mortonCode f) (Face.complete f).

(** Go's [int] on a 64-bit target. *)
Definition int64 (z : Z) : Z := ((z + 2 ^ 63) mod 2 ^ 64 - 2 ^ 63)%Z.

(** The "total vertex stride distance" loops of [main].  The term
    [int(math.Abs(float64(int(x) - curIdx)))] is the absolute value of the
    difference: both operands are below [2^32], so the [float64] holds the
    difference exactly. *)
Definition strideDistance (fs : list Face) : option Z :=
  f0 ← fs !! 0%nat; x0 ← Face.v f0 !! 0%nat;
  acc ← for_range (length fs) 0
    (λ i acc, f ← fs !! i;
       for_range (N.to_nat (Face.edges f)) 0
         (λ j '(totalErr, curIdx), x ← Face.v f !! j;
            Some (int64 (totalErr + Z.abs (Z.of_N x - curIdx)), Z.of_N x)) acc)
    (0%Z, Z.of_N x0);
  Some acc.1.

(** How a run of [main] ends once the file has been read: the output file
    with the two stride totals it prints, the [return] after an invalid quad
    under [-q 1], or a run-time panic. *)
Inductive exit : Type :=
  | Written (stride strideAfter : Z) (file : list N)
  | Stopped (e : error)
  | Crashed
  | Unfinished.

Section Main.
Context `{FO : FloatOps} `{RT : GoRuntime}.
Variable Float32bits : f32 → N.

(** [for i := range faces { faces[i].materialID = materialMap[faces[i].materialName] }]:
    a name that is not a key of the map reads as 0. *)
Definition resolveMaterials (materialMap : gmap string N) (s : Store) : Store :=
  set_faces
    (map (λ f, set_materialID (default 0 (materialMap !! Face.materialName f)) f) (faces s)) s.

(** Everything after the quad pass.  [d], [mo] and [le] are the flags
    [-d], [-mo] and [-le] as [ParseCommandLine] leaves them. *)
Definition finish (d mo le : bool) (materialMap : gmap string N) (s : Store)
  : option (Z * Z * list N) :=
  let s := resolveMaterials materialMap s in
  let s := GenerateBoundingSphere s in
  s ← (if d then fst <$> DeDupe (f64_lit 1 10000) (f64_lit 1 100000) (f64_lit 1 100000) s
       else Some s);
  stride ← strideDistance (faces s);
  s ← (if mo then OptimiseMesh s else Some s);
  strideAfter ← strideDistance (faces s);
  file ← WriteOutput Float32bits (if le then LittleEndian else BigEndian) s;
  Some (stride, strideAfter, file).

(** [main] from the quad pass on; [s] is the store the reader has filled. *)
Definition main (q : Z) (d mo le : bool) (materialMap : gmap string N) (s : Store) : exit :=
  match validateStage q s with
  | Completed s =>
      match finish d mo le materialMap s with
      | Some (stride, strideAfter, file) => Written stride strideAfter file
      | None => Crashed
      end
  | Aborted e => Stopped e
  | Panicked => Crashed
  | OutOfFuel => Unfinished
  end.

End Main.

Lemma strideDistance_total (fs : list Face) :
  Forall wellFormedFace fs → fs ≠ [] → ∃ total, strideDistance fs = Some total.
Proof.
  intros Hwf Hne. unfold strideDistance.
  destruct fs as [|f0 fs']; [done|]. cbn [lookup list_lookup mbind option_bind].
  set (fs := f0 :: fs') in *.
  assert (Hv : ∀ f j, f ∈ fs → (j < N.to_nat (Face.edges f))%nat → ∃ x, Face.v f !! j = Some x).
  { intros f j Hf Hj. rewrite Forall_forall in Hwf.
    destruct (Hwf f Hf) as (_ & (Hc & _) & _). unfold covers in Hc.
    apply lookup_lt_is_Some_2. lia. }
  destruct (Hv f0 0%nat) as [x0 Hx0]; [apply list_elem_of_here|..].
  { rewrite Forall_forall in Hwf. destruct (Hwf f0) as (Hpos & _); [apply list_elem_of_here|].
    lia. }
  rewrite Hx0. cbn [mbind option_bind].
  destruct (for_range_total (λ _ _, True) (length fs) 0
              (λ i acc, f ← fs !! i;
                 for_range (N.to_nat (Face.edges f)) 0
                   (λ j '(totalErr, curIdx), x ← Face.v f !! j;
                      Some (int64 (totalErr + Z.abs (Z.of_N x - curIdx)), Z.of_N x)) acc)
              (0%Z, Z.of_N x0)) as (acc & -> & _); [done| |by eexists].
  intros i acc Hi _. destruct (lookup_lt_is_Some_2 fs i) as [f Hf]; [lia|]. rewrite Hf.
  cbn [mbind option_bind].
  destruct (for_range_total (λ _ _, True) (N.to_nat (Face.edges f)) 0
              (λ j '(totalErr, curIdx), x ← Face.v f !! j;
                 Some (int64 (totalErr + Z.abs (Z.of_N x - curIdx)), Z.of_N x)) acc)
    as (acc' & Hrun & _); [done| |by eauto].
  intros j [totalErr curIdx] Hj _.
  destruct (Hv f j) as [x Hx]; [by eapply list_elem_of_lookup_2|lia|].
  rewrite Hx. cbn [mbind option_bind]. by eexists.
Qed.

(** A store as the reader leaves it for an input whose faces give all three
    indices on every corner, each within range: valid references, no flag,
    well-formed faces, and arrays that a [uint32] can index even after every
    quad has become two triangles. *)
Definition wellFormed `{FloatOps} (s : Store) : Prop :=
  validStore s ∧ noFlags s ∧ Forall wellFormedFace (faces s) ∧
  N.of_nat (length (vertices s)) < 2 ^ 32 ∧ N.of_nat (length (normals s)) < 2 ^ 32 ∧
  N.of_nat (length (textureCoords s)) < 2 ^ 32 ∧ 2 * N.of_nat (length (faces s)) < 2 ^ 32.

Section MainFacts.
Context `{FO : FloatOps} `{RT : GoRuntime}.
Variable Float32bits : f32 → N.

Lemma wellFormedFace_set_materialID x f : wellFormedFace f → wellFormedFace (set_materialID x f).
Proof. done. Qed.

Lemma validAttr_resolve k len (g : Face → N) (fs : list Face) :
  validAttr k len fs → validAttr k len (map (λ f, set_materialID (g f) f) fs).
Proof.
  intros Hvalid f' x Hf' Hx. apply list_elem_of_fmap in Hf' as (f & -> & Hf).
  apply (Hvalid f x Hf). by destruct k.
Qed.

(** Resolving the materials and computing the sphere leave the arrays and
    the shape of the faces alone. *)
Lemma prepare_keeps (materialMap : gmap string N) (s : Store) :
  let s' := GenerateBoundingSphere (resolveMaterials materialMap s) in
  vertices s' = vertices s ∧ normals s' = normals s ∧ textureCoords s' = textureCoords s ∧
  length (faces s') = length (faces s) ∧
  (validStore s → validStore s') ∧
  (Forall wellFormedFace (faces s) → Forall wellFormedFace (faces s')).
Proof.
  unfold GenerateBoundingSphere.
  destruct (RitterBoundingSphere (vertices (resolveMaterials materialMap s))) as [c r].
  cbv zeta. unfold set_boundSphere, resolveMaterials, set_faces. cbn. rewrite length_map.
  do 4 (split; [done|]). split.
  - intros (Hv & Hn & Hu). by split; [|split]; apply validAttr_resolve.
  - intros Hwf. apply Forall_fmap. eapply Forall_impl; [exact Hwf|]. done.
Qed.

(** A mesh without a face makes [main] panic, whatever the flags: the first
    stride loop starts from [faces[0].v[0]]. *)
Theorem main_panics_without_faces (q : Z) (d mo le : bool) (materialMap : gmap string N)
    (s : Store) :
  faces s = [] → main Float32bits q d mo le materialMap s = Crashed.
Proof.
  intros Hnil.
  assert (validateStage q s = Completed s) as Hq.
  { unfold validateStage. rewrite Hnil. cbn [length Nat.mul Nat.add validateQuads].
    by rewrite Hnil. }
  unfold main. rewrite Hq.
  assert (finish Float32bits d mo le materialMap s = None) as ->; [|done].
  unfold finish.
  destruct (prepare_keeps materialMap s) as (_ & _ & _ & Hlen & _).
  set (s1 := GenerateBoundingSphere (resolveMaterials materialMap s)) in *.
  rewrite Hnil in Hlen. cbn [length] in Hlen.
  assert (Hs1 : faces s1 = []) by (by destruct (faces s1)).
  destruct d.
  - destruct (DeDupe_total (f64_lit 1 10000) (f64_lit 1 100000) (f64_lit 1 100000) s1)
      as (s2 & counts & Hrun); [by rewrite Hs1|].
    rewrite Hrun. cbn [fmap option_fmap option_map mbind option_bind fst].
    assert (faces s2 = []) as ->; [|done].
    unfold DeDupe, dedupeVertices, dedupeNormals, dedupeTextureCoords in Hrun.
    destruct (dedupePass _ _ _ _ _ _ (vertices s1) _) as [[[vs fs1] dv]|] eqn:Hv;
      cbn [mbind option_bind] in Hrun; [|done].
    destruct (dedupePass _ _ _ _ _ _ (normals s1) _) as [[[ns fs2] dn]|] eqn:Hn;
      cbn [mbind option_bind] in Hrun; [|done].
    destruct (dedupePass _ _ _ _ _ _ (textureCoords s1) _) as [[[ts fs3] du]|] eqn:Hu;
      cbn [mbind option_bind] in Hrun; [|done].
    injection Hrun as <- _. cbn [faces set_faces].
    apply (dedupePass_frame _ _ _ _ AttrV) in Hv as (_ & Hf1 & _); [|done].
    apply (dedupePass_frame _ _ _ _ AttrN) in Hn as (_ & Hf2 & _); [|done].
    apply (dedupePass_frame _ _ _ _ AttrUV) in Hu as (_ & Hf3 & _); [|done].
    rewrite Hs1 in Hf1. apply Forall2_nil_inv_l in Hf1 as ->.
    apply Forall2_nil_inv_l in Hf2 as ->. by apply Forall2_nil_inv_l in Hf3 as ->.
  - cbn [mbind option_bind]. by rewrite Hs1.
Qed.

(** What the stages after the quad pass need. *)
Definition fit (s : Store) : Prop :=
  validStore s ∧ noFlags s ∧ addressable s ∧ Forall wellFormedFace (faces s) ∧ faces s ≠ [].

Lemma wellFormedFace_covered (fs : list Face) :
  Forall wellFormedFace fs → Forall faceCovered fs.
Proof. intros Hwf. eapply Forall_impl; [exact Hwf|]. by intros f (_ & ? & _). Qed.

Lemma DeDupe_fit (vT nT uvT : f64) (s : Store) :
  fit s → ∃ s' counts, DeDupe vT nT uvT s = Some (s', counts) ∧ fit s'.
Proof.
  intros (Hvalid & Hflags & Haddr & Hwf & Hne).
  destruct (DeDupe_total vT nT uvT s) as (s' & [[dV dN] dU] & Hrun);
    [by apply wellFormedFace_covered|].
  exists s', (dV, dN, dU). split; [done|].
  destruct (DeDupe_valid vT nT uvT s s' _ Hvalid Hflags Haddr Hrun) as (Hv' & Hf' & Ha').
  destruct (DeDupe_passes vT nT uvT s s' dV dN dU Hvalid Hflags Haddr Hrun)
    as (fs2 & _ & _ & Hf2 & Hf3 & _).
  split; [done|]. split; [done|]. split; [done|]. split.
  - eapply Forall_wellFormedFace_sameExcept; [exact Hf3|].
    by eapply Forall_wellFormedFace_sameExcept.
  - apply Forall2_length in Hf2, Hf3. intros Hnil. rewrite Hnil in Hf3. cbn in Hf3.
    destruct (faces s); [done|]. cbn in Hf2. lia.
Qed.

Lemma finish_total (d mo le : bool) (materialMap : gmap string N) (s : Store) :
  fit (GenerateBoundingSphere (resolveMaterials materialMap s)) →
  ∃ r, finish Float32bits d mo le materialMap s = Some r.
Proof.
  unfold finish. set (s1 := GenerateBoundingSphere (resolveMaterials materialMap s)).
  intros Hfit1.
  assert (∃ s2, (if d then fst <$> DeDupe (f64_lit 1 10000) (f64_lit 1 100000)
                                    (f64_lit 1 100000) s1 else Some s1) = Some s2 ∧ fit s2)
    as (s2 & -> & Hfit2).
  { destruct d; [|by eauto].
    destruct (DeDupe_fit (f64_lit 1 10000) (f64_lit 1 100000) (f64_lit 1 100000) s1 Hfit1)
      as (s2 & counts & -> & Hfit2). by exists s2. }
  cbn [mbind option_bind].
  destruct Hfit2 as (Hvalid & Hflags & Haddr & Hwf & Hne).
  destruct (strideDistance_total (faces s2) Hwf Hne) as [stride ->].
  cbn [mbind option_bind].
  assert (∃ s3, (if mo then OptimiseMesh s2 else Some s2) = Some s3 ∧
                Forall wellFormedFace (faces s3) ∧ faces s3 ≠ [])
    as (s3 & -> & Hwf3 & Hne3).
  { destruct mo; [|by eauto].
    destruct (OptimiseMesh_total s2 Hvalid Hflags Haddr Hwf) as (s3 & -> & Hwf3 & Hlen).
    exists s3. split; [done|]. split; [done|]. intros Hnil. rewrite Hnil in Hlen.
    by destruct (faces s2). }
  cbn [mbind option_bind].
  destruct (strideDistance_total (faces s3) Hwf3 Hne3) as [strideAfter ->].
  cbn [mbind option_bind].
  rewrite WriteOutput_spec, decide_True by (by apply wellFormedFace_covered).
  cbn [mbind option_bind]. by eexists.
Qed.

Lemma main_total (q : Z) (d mo le : bool) (materialMap : gmap string N) (s : Store) :
  wellFormed s → faces s ≠ [] →
  (∃ stride strideAfter file,
     main Float32bits q d mo le materialMap s = Written stride strideAfter file) ∨
  (q = 1%Z ∧ ∃ e, main Float32bits q d mo le materialMap s = Stopped e).
Proof.
  intros (Hvalid & Hflags & Hwf & Av & An & Au & Af) Hne. unfold main, validateStage.
  pose proof (length_filter (λ f, Face.edges f = 4) (faces s)) as Hquads.
  assert (HQ : (quadsFrom 0 (faces s) ≤ length (faces s))%nat).
  { unfold quadsFrom. by rewrite drop_0. }
  destruct (validateQuads_total (2 * length (faces s) + 1) q 0 s Hvalid Hwf)
    as [(s1 & Hrun & Hwf1 & Hlen1)|(-> & e & Hrun)]; [lia| |].
  2:{ right. split; [done|]. exists e. by rewrite Hrun. }
  left. rewrite Hrun.
  destruct (validateQuads_valid _ q 0 s s1 Hvalid Hrun) as (Hvalid1 & Ev & En & Eu).
  destruct (prepare_keeps materialMap s1) as (Ev2 & En2 & Eu2 & Hlen2 & Hvalid2 & Hwf2).
  destruct (finish_total d mo le materialMap s1) as ([[stride strideAfter] file] & ->).
  - set (s2 := GenerateBoundingSphere (resolveMaterials materialMap s1)) in *.
    split; [by apply Hvalid2|]. split.
    { destruct Hflags as (Fv & Fn & Fu). unfold noFlags. by rewrite Ev2, En2, Eu2, Ev, En, Eu. }
    split.
    { unfold addressable. rewrite Ev2, En2, Eu2, Ev, En, Eu, Hlen2. repeat split; try done.
      lia. }
    split; [by apply Hwf2|].
    intros Hnil. rewrite Hnil in Hlen2. cbn in Hlen2. destruct (faces s); [done|].
    cbn in Hlen1. lia.
  - by eexists _, _, _.
Qed.

(** On a well-formed store with at least one face [main] never panics: it
    writes the file, whatever the flags, unless [-q 1] stops it at an
    invalid quad. *)
Theorem main_writes_the_file (q : Z) (d mo le : bool) (materialMap : gmap string N)
    (s : Store) :
  wellFormed s → faces s ≠ [] →
  (∃ stride strideAfter file,
     main Float32bits q d mo le materialMap s = Written stride strideAfter file) ∨
  (q = 1%Z ∧ ∃ e, main Float32bits q d mo le materialMap s = Stopped e).
Proof. apply main_total. Qed.

End MainFacts.

Module SampleMain.
Import Sample.

(** Three vertices and no face. *)
Definition faceless : Store := store [V 0 0 0; V 1 0 0; V 0 1 0] [] [] [] 0.

(** The material file defined one material, ["m"]. *)
Definition materialMap : gmap string N := {["m" := 0]}.

End SampleMain.

Lemma main_panics_without_faces_witness :
  faces SampleMain.faceless = [] ∧
  main (FO := IEEE.ops) (RT := plainRuntime) IEEE_Float32bits 3 true true true
    SampleMain.materialMap SampleMain.faceless = Crashed.
Proof.
  assert (Hnil : faces SampleMain.faceless = []) by reflexivity.
  split; [exact Hnil|].
  exact (main_panics_without_faces (FO := IEEE.ops) (RT := plainRuntime) IEEE_Float32bits
           3 true true true SampleMain.materialMap SampleMain.faceless Hnil).
Defined.

Lemma main_writes_the_file_witness :
  wellFormed Sample.square ∧ faces Sample.square ≠ [] ∧
  ∃ stride strideAfter file,
    main (FO := IEEE.ops) (RT := plainRuntime) IEEE_Float32bits 3 true true true
      SampleMain.materialMap Sample.square = Written stride strideAfter file.
Proof.
  assert (Hwf : wellFormed Sample.square).
  { split; [check_store|]. split; [check_store|]. split.
    - check_faces.
    - repeat split; by vm_compute. }
  assert (Hne : faces Sample.square ≠ []) by done.
  split; [exact Hwf|]. split; [exact Hne|].
  destruct (main_writes_the_file (FO := IEEE.ops) (RT := plainRuntime) IEEE_Float32bits
              3 true true true SampleMain.materialMap Sample.square Hwf Hne)
    as [Hdone | [Hq _]]; [exact Hdone|discriminate Hq].
Defined.

(** * The reader: [ProcessOBJFile] and [ProcessMaterialFile] *)

From Stdlib Require Import Ascii.
Local Open Scope N_scope.

(** ** The library calls of the reader *)

(** [strings.Split(s, sep)] for a separator of one byte: the pieces between
    the separators, one more than there are separators. *)
Fixpoint strings_Split (s : string) (sep : ascii) : list string :=
  match s with
  | EmptyString => [EmptyString]
  | String c s' =>
      if Ascii.eqb c sep then EmptyString :: strings_Split s' sep
      else match strings_Split s' sep with
           | piece :: pieces => String c piece :: pieces
           | [] => [String c EmptyString]
           end
  end.

(** [strings.Trim(s, cutset)]: [s] without the leading and trailing bytes
    that are in [cutset]. *)
Fixpoint strings_TrimLeft (s : string) (cutset : list ascii) : string :=
  match s with
  | EmptyString => EmptyString
  | String c s' => if bool_decide (c ∈ cutset) then strings_TrimLeft s' cutset else s
  end.

Definition strings_TrimRight (s : string) (cutset : list ascii) : string :=
  String.rev (strings_TrimLeft (String.rev s) cutset).

Definition strings_Trim (s : string) (cutset : list ascii) : string :=
  strings_TrimRight (strings_TrimLeft s cutset) cutset.

(** [strconv.Atoi]: an optional sign and decimal digits, within [int64].
    A failure is a [*strconv.NumError] with [ErrSyntax] or [ErrRange]; the
    scan is from the left, so the digits that overflow 64 bits are reported
    before a byte behind them that is no digit. *)
Inductive NumErr : Type := ErrSyntax | ErrRange.

Record NumError : Type := mkNumError { Func : string; Num : string; Err : NumErr }.

Definition digit (c : ascii) : option Z :=
  let n := Z.of_N (N_of_ascii c) in
  if ((48 <=? n) && (n <=? 57))%Z then Some (n - 48)%Z else None.

Fixpoint scanDigits (s : string) (n : Z) : NumErr + Z :=
  match s with
  | EmptyString => inr n
  | String c s' =>
      match digit c with
      | None => inl ErrSyntax
      | Some d =>
          if (2 ^ 64 <=? 10 * n + d)%Z then inl ErrRange else scanDigits s' (10 * n + d)%Z
      end
  end.

Definition strconv_Atoi (s : string) : NumError + Z :=
  let fail e := inl (mkNumError "Atoi" s e) in
  let '(neg, digits) :=
    match s with
    | String "-" s' => (true, s')
    | String "+" s' => (false, s')
    | _ => (false, s)
    end in
  match digits with
  | EmptyString => fail ErrSyntax
  | _ =>
      match scanDigits digits 0 with
      | inl e => fail e
      | inr un =>
          if neg then (if (2 ^ 63 <? un)%Z then fail ErrRange else inr (- un)%Z)
          else (if (2 ^ 63 <=? un)%Z then fail ErrRange else inr un)
      end
  end.

(** [uint32(idx)] for a Go [int]: the low 32 bits. *)
Definition uint32_of_int (idx : Z) : N := Z.to_N (idx mod 2 ^ 32).

(** What [fmt.Sscanf(str, format, ...)] scans: the values of the format's
    verbs in order, up to the first one that does not scan.  [Sscanf]
    stores them in its operands one by one, so the operands behind the last
    value keep what they held. *)
Class GoFmt `{FloatOps} := {
  fmt_Sscanf_f : string → string → list f32;
  fmt_Sscanf_d : string → string → list N;
  fmt_Sscanf_s : string → string → list string
}.

(** The operands of a [Sscanf] call after it. *)
Definition stored {T X : Type} (operands : list (X → T → T)) (values : list X) (x : T) : T :=
  fold_left (λ x '(set, v), set v x) (zip operands values) x.

(** An input file as the [bufio.Scanner] over it hands it out: the lines
    [scanner.Text()] returns while [scanner.Scan()] holds, and what
    [scanner.Err()] reports behind them. *)
Record File : Type := mkFile { Text : list string; ScanErr : error }.

(** ** Results *)

(** The [error] values of the reader: those of [errors.New], [os.Open] and
    the scanner, and [fmt.Errorf(format, err)] around the error of [Atoi]. *)
Inductive readError : Type :=
  | plain (err : error)
  | fmt_Errorf (format : string) (err : NumError).

(** How a piece of the reader ends: it goes on, it makes the function
    return an error, or it panics (an index out of range). *)
Inductive reading (St : Type) : Type :=
  | Continue (st : St)
  | ReturnErr (err : readError)
  | Panic.
Arguments Continue {St} st.
Arguments ReturnErr {St} err.
Arguments Panic {St}.

#[export] Instance reading_bind : MBind reading := λ A B k r,
  match r with
  | Continue a => k a
  | ReturnErr err => ReturnErr err
  | Panic => Panic
  end.

(** [l[i]]. *)
Definition elem {A : Type} (l : list A) (i : nat) : reading A :=
  match l !! i with
  | Some x => Continue x
  | None => Panic
  end.

(** [for scanner.Scan() { body }]. *)
Fixpoint scanLines {St : Type} (body : string → St → reading St) (text : list string)
    (st : St) : reading St :=
  match text with
  | [] => Continue st
  | line :: text' => st' ← body line st; scanLines body text' st'
  end.

(** [strings.Trim(scanner.Text(), " \t")]. *)
Definition trimmed (text : string) : string := strings_Trim text [" "; "009"]%char.

(** [len(line) == 0 || line[0] == '#']. *)
Definition skipped (line : string) : bool :=
  match line with
  | EmptyString => true
  | String c _ => Ascii.eqb c "#"
  end.

(** ** The package-level variables the reader fills *)

Module Globals.
Record t `{FloatOps} := mk {
  store : Store;
  materialMap : gmap string N;
  curMaterialName : string
}.
End Globals.
Abbreviation Globals := Globals.t.

Definition set_store `{FloatOps} (x : Store) (g : Globals) : Globals :=
  Globals.mk _ x (Globals.materialMap g) (Globals.curMaterialName g).
Definition set_materialMap `{FloatOps} (x : gmap string N) (g : Globals) : Globals :=
  Globals.mk _ (Globals.store g) x (Globals.curMaterialName g).
Definition set_curMaterialName `{FloatOps} (x : string) (g : Globals) : Globals :=
  Globals.mk _ (Globals.store g) (Globals.materialMap g) x.

Definition set_materials `{FloatOps} (x : list Material) (s : Store) : Store :=
  mkStore _ (vertices s) (normals s) (textureCoords s) (faces s) (facesCap s) x
    (boundSphere s) (vertexType s).
Definition set_vertexType `{FloatOps} (x : N) (s : Store) : Store :=
  mkStore _ (vertices s) (normals s) (textureCoords s) (faces s) (facesCap s) (materials s)
    (boundSphere s) x.

Definition set_materialName (x : string) (f : Face) : Face :=
  Face.mk (Face.edges f) (Face.v f) (Face.n f) (Face.t f) (Face.uv f) (Face.materialID f)
    x (Face.mortonCode f) (Face.complete f).

Definition set_diffuse `{FloatOps} (x : f32 * f32 * f32) (m : Material) : Material :=
  Material.mk _
    (Material.name m) x (Material.specular m) (Material.ambient m)
    (Material.transmissive m) (Material.emissive m) (Material.power m)
    (Material.transparency m) (Material.refractivity m) (Material.illum m)
    (Material.roughness m) (Material.metallic m) (Material.sheen m)
    (Material.clearcoat_thickness m) (Material.clearcoat_roughness m) (Material.aniso m)
    (Material.aniso_rotation m) (Material.texture m).
Definition set_specular `{FloatOps} (x : f32 * f32 * f32) (m : Material) : Material :=
  Material.mk _
    (Material.name m) (Material.diffuse m) x (Material.ambient m)
    (Material.transmissive m) (Material.emissive m) (Material.power m)
    (Material.transparency m) (Material.refractivity m) (Material.illum m)
    (Material.roughness m) (Material.metallic m) (Material.sheen m)
    (Material.clearcoat_thickness m) (Material.clearcoat_roughness m) (Material.aniso m)
    (Material.aniso_rotation m) (Material.texture m).
Definition set_ambient `{FloatOps} (x : f32 * f32 * f32) (m : Material) : Material :=
  Material.mk _
    (Material.name m) (Material.diffuse m) (Material.specular m) x
    (Material.transmissive m) (Material.emissive m) (Material.power m)
    (Material.transparency m) (Material.refractivity m) (Material.illum m)
    (Material.roughness m) (Material.metallic m) (Material.sheen m)
    (Material.clearcoat_thickness m) (Material.clearcoat_roughness m) (Material.aniso m)
    (Material.aniso_rotation m) (Material.texture m).
Definition set_transmissive `{FloatOps} (x : f32 * f32 * f32) (m : Material) : Material :=
  Material.mk _
    (Material.name m) (Material.diffuse m) (Material.specular m) (Material.ambient m) x
    (Material.emissive m) (Material.power m) (Material.transparency m)
    (Material.refractivity m) (Material.illum m) (Material.roughness m)
    (Material.metallic m) (Material.sheen m) (Material.clearcoat_thickness m)
    (Material.clearcoat_roughness m) (Material.aniso m) (Material.aniso_rotation m)
    (Material.texture m).
Definition set_emissive `{FloatOps} (x : f32 * f32 * f32) (m : Material) : Material :=
  Material.mk _
    (Material.name m) (Material.diffuse m) (Material.specular m) (Material.ambient m)
    (Material.transmissive m) x (Material.power m) (Material.transparency m)
    (Material.refractivity m) (Material.illum m) (Material.roughness m)
    (Material.metallic m) (Material.sheen m) (Material.clearcoat_thickness m)
    (Material.clearcoat_roughness m) (Material.aniso m) (Material.aniso_rotation m)
    (Material.texture m).
Definition set_power `{FloatOps} (x : f32) (m : Material) : Material :=
  Material.mk _
    (Material.name m) (Material.diffuse m) (Material.specular m) (Material.ambient m)
    (Material.transmissive m) (Material.emissive m) x (Material.transparency m)
    (Material.refractivity m) (Material.illum m) (Material.roughness m)
    (Material.metallic m) (Material.sheen m) (Material.clearcoat_thickness m)
    (Material.clearcoat_roughness m) (Material.aniso m) (Material.aniso_rotation m)
    (Material.texture m).
Definition set_transparency `{FloatOps} (x : f32) (m : Material) : Material :=
  Material.mk _
    (Material.name m) (Material.diffuse m) (Material.specular m) (Material.ambient m)
    (Material.transmissive m) (Material.emissive m) (Material.power m) x
    (Material.refractivity m) (Material.illum m) (Material.roughness m)
    (Material.metallic m) (Material.sheen m) (Material.clearcoat_thickness m)
    (Material.clearcoat_roughness m) (Material.aniso m) (Material.aniso_rotation m)
    (Material.texture m).
Definition set_refractivity `{FloatOps} (x : f32) (m : Material) : Material :=
  Material.mk _
    (Material.name m) (Material.diffuse m) (Material.specular m) (Material.ambient m)
    (Material.transmissive m) (Material.emissive m) (Material.power m)
    (Material.transparency m) x (Material.illum m) (Material.roughness m)
    (Material.metallic m) (Material.sheen m) (Material.clearcoat_thickness m)
    (Material.clearcoat_roughness m) (Material.aniso m) (Material.aniso_rotation m)
    (Material.texture m).
Definition set_illum `{FloatOps} (x : N) (m : Material) : Material :=
  Material.mk _
    (Material.name m) (Material.diffuse m) (Material.specular m) (Material.ambient m)
    (Material.transmissive m) (Material.emissive m) (Material.power m)
    (Material.transparency m) (Material.refractivity m) x (Material.roughness m)
    (Material.metallic m) (Material.sheen m) (Material.clearcoat_thickness m)
    (Material.clearcoat_roughness m) (Material.aniso m) (Material.aniso_rotation m)
    (Material.texture m).
Definition set_roughness `{FloatOps} (x : f32) (m : Material) : Material :=
  Material.mk _
    (Material.name m) (Material.diffuse m) (Material.specular m) (Material.ambient m)
    (Material.transmissive m) (Material.emissive m) (Material.power m)
    (Material.transparency m) (Material.refractivity m) (Material.illum m) x
    (Material.metallic m) (Material.sheen m) (Material.clearcoat_thickness m)
    (Material.clearcoat_roughness m) (Material.aniso m) (Material.aniso_rotation m)
    (Material.texture m).
Definition set_metallic `{FloatOps} (x : f32) (m : Material) : Material :=
  Material.mk _
    (Material.name m) (Material.diffuse m) (Material.specular m) (Material.ambient m)
    (Material.transmissive m) (Material.emissive m) (Material.power m)
    (Material.transparency m) (Material.refractivity m) (Material.illum m)
    (Material.roughness m) x (Material.sheen m) (Material.clearcoat_thickness m)
    (Material.clearcoat_roughness m) (Material.aniso m) (Material.aniso_rotation m)
    (Material.texture m).
Definition set_sheen `{FloatOps} (x : f32) (m : Material) : Material :=
  Material.mk _
    (Material.name m) (Material.diffuse m) (Material.specular m) (Material.ambient m)
    (Material.transmissive m) (Material.emissive m) (Material.power m)
    (Material.transparency m) (Material.refractivity m) (Material.illum m)
    (Material.roughness m) (Material.metallic m) x (Material.clearcoat_thickness m)
    (Material.clearcoat_roughness m) (Material.aniso m) (Material.aniso_rotation m)
    (Material.texture m).
Definition set_clearcoat_thickness `{FloatOps} (x : f32) (m : Material) : Material :=
  Material.mk _
    (Material.name m) (Material.diffuse m) (Material.specular m) (Material.ambient m)
    (Material.transmissive m) (Material.emissive m) (Material.power m)
    (Material.transparency m) (Material.refractivity m) (Material.illum m)
    (Material.roughness m) (Material.metallic m) (Material.sheen m) x
    (Material.clearcoat_roughness m) (Material.aniso m) (Material.aniso_rotation m)
    (Material.texture m).
Definition set_clearcoat_roughness `{FloatOps} (x : f32) (m : Material) : Material :=
  Material.mk _
    (Material.name m) (Material.diffuse m) (Material.specular m) (Material.ambient m)
    (Material.transmissive m) (Material.emissive m) (Material.power m)
    (Material.transparency m) (Material.refractivity m) (Material.illum m)
    (Material.roughness m) (Material.metallic m) (Material.sheen m)
    (Material.clearcoat_thickness m) x (Material.aniso m) (Material.aniso_rotation m)
    (Material.texture m).
Definition set_aniso `{FloatOps} (x : f32) (m : Material) : Material :=
  Material.mk _
    (Material.name m) (Material.diffuse m) (Material.specular m) (Material.ambient m)
    (Material.transmissive m) (Material.emissive m) (Material.power m)
    (Material.transparency m) (Material.refractivity m) (Material.illum m)
    (Material.roughness m) (Material.metallic m) (Material.sheen m)
    (Material.clearcoat_thickness m) (Material.clearcoat_roughness m) x
    (Material.aniso_rotation m) (Material.texture m).
Definition set_aniso_rotation `{FloatOps} (x : f32) (m : Material) : Material :=
  Material.mk _
    (Material.name m) (Material.diffuse m) (Material.specular m) (Material.ambient m)
    (Material.transmissive m) (Material.emissive m) (Material.power m)
    (Material.transparency m) (Material.refractivity m) (Material.illum m)
    (Material.roughness m) (Material.metallic m) (Material.sheen m)
    (Material.clearcoat_thickness m) (Material.clearcoat_roughness m) (Material.aniso m) x
    (Material.texture m).
Definition set_texture `{FloatOps} (x : string) (m : Material) : Material :=
  Material.mk _
    (Material.name m) (Material.diffuse m) (Material.specular m) (Material.ambient m)
    (Material.transmissive m) (Material.emissive m) (Material.power m)
    (Material.transparency m) (Material.refractivity m) (Material.illum m)
    (Material.roughness m) (Material.metallic m) (Material.sheen m)
    (Material.clearcoat_thickness m) (Material.clearcoat_roughness m) (Material.aniso m)
    (Material.aniso_rotation m) x.
Definition set_X `{FloatOps} (x : f32) (p : Vertex) : Vertex :=
  Vertex.mk _
    x (Vertex.Y p) (Vertex.Z p) (Vertex.W p) (Vertex.A p) (Vertex.R p) (Vertex.G p)
    (Vertex.B p) (Vertex.flushed p).
Definition set_Y `{FloatOps} (x : f32) (p : Vertex) : Vertex :=
  Vertex.mk _
    (Vertex.X p) x (Vertex.Z p) (Vertex.W p) (Vertex.A p) (Vertex.R p) (Vertex.G p)
    (Vertex.B p) (Vertex.flushed p).
Definition set_Z `{FloatOps} (x : f32) (p : Vertex) : Vertex :=
  Vertex.mk _
    (Vertex.X p) (Vertex.Y p) x (Vertex.W p) (Vertex.A p) (Vertex.R p) (Vertex.G p)
    (Vertex.B p) (Vertex.flushed p).
Definition set_W `{FloatOps} (x : f32) (p : Vertex) : Vertex :=
  Vertex.mk _
    (Vertex.X p) (Vertex.Y p) (Vertex.Z p) x (Vertex.A p) (Vertex.R p) (Vertex.G p)
    (Vertex.B p) (Vertex.flushed p).
Definition set_R `{FloatOps} (x : f32) (p : Vertex) : Vertex :=
  Vertex.mk _
    (Vertex.X p) (Vertex.Y p) (Vertex.Z p) (Vertex.W p) (Vertex.A p) x (Vertex.G p)
    (Vertex.B p) (Vertex.flushed p).
Definition set_G `{FloatOps} (x : f32) (p : Vertex) : Vertex :=
  Vertex.mk _
    (Vertex.X p) (Vertex.Y p) (Vertex.Z p) (Vertex.W p) (Vertex.A p) (Vertex.R p) x
    (Vertex.B p) (Vertex.flushed p).
Definition set_B `{FloatOps} (x : f32) (p : Vertex) : Vertex :=
  Vertex.mk _
    (Vertex.X p) (Vertex.Y p) (Vertex.Z p) (Vertex.W p) (Vertex.A p) (Vertex.R p)
    (Vertex.G p) x (Vertex.flushed p).

(** The variables as the program starts: empty slices, an empty map, zero
    values. *)
Definition initial `{FloatOps} : Globals :=
  Globals.mk _
    (mkStore _ [] [] [] [] 0 [] (BoundSphere.mk _ zeroVertex (f32_of_Z 0)) 0) ∅ "".

(** [*new(Material)]. *)
Definition zeroMaterial `{FloatOps} : Material :=
  let o := f32_of_Z 0 in
  Material.mk _ "" (o, o, o) (o, o, o) (o, o, o) (o, o, o) (o, o, o) o o o 0 o o o o o o o "".

Definition set_name `{FloatOps} (x : string) (m : Material) : Material :=
  Material.mk _
    x (Material.diffuse m) (Material.specular m) (Material.ambient m)
    (Material.transmissive m) (Material.emissive m) (Material.power m)
    (Material.transparency m) (Material.refractivity m) (Material.illum m)
    (Material.roughness m) (Material.metallic m) (Material.sheen m)
    (Material.clearcoat_thickness m) (Material.clearcoat_roughness m) (Material.aniso m)
    (Material.aniso_rotation m) (Material.texture m).

Section Reader.
Context `{FO : FloatOps} `{RT : GoRuntime} `{FM : !GoFmt}.

(** [os.Open] on the name of a material file: the file, or the error. *)
Variable os_Open : string → error + File.

(** ** [ProcessMaterialFile] *)

(** [var r, g, b float32; fmt.Sscanf(line, format, &r, &g, &b)]. *)
Definition scan3 (line format : string) : f32 * f32 * f32 :=
  let o := f32_of_Z 0 in
  stored [λ x '(_, g, b), (x, g, b); λ x '(r, _, b), (r, x, b); λ x '(r, g, _), (r, g, x)]
    (fmt_Sscanf_f line format) (o, o, o).

(** [var x float32; fmt.Sscanf(line, format, &x)]. *)
Definition scan1 (line format : string) : f32 :=
  stored [λ x _, x] (fmt_Sscanf_f line format) (f32_of_Z 0).

(** [materials[len(materials)-1]] updated in place. *)
Definition setLast (upd : Material → Material) (g : Globals) : reading Globals :=
  let ms := materials (Globals.store g) in
  match ms !! (length ms - 1)%nat with
  | Some m =>
      Continue (set_store (set_materials (<[(length ms - 1)%nat := upd m]> ms)
                             (Globals.store g)) g)
  | None => Panic
  end.

Definition outsideBlock : readError :=
  plain (errors_New "material properties defined outside of material block").

(** The body shared by the property cases:
    [if inMaterial { materials[len(materials)-1].field = x } else { return errors.New(...) }]. *)
Definition property (st : Globals * bool) (upd : Material → Material)
  : reading (Globals * bool) :=
  let '(g, inMaterial) := st in
  if inMaterial then g ← setLast upd g; Continue (g, inMaterial)
  else ReturnErr outsideBlock.

(** One turn of the scanner loop; [inMaterial] is the local variable. *)
Definition materialLine (text : string) (st : Globals * bool) : reading (Globals * bool) :=
  let '(g, inMaterial) := st in
  let line := trimmed text in
  if skipped line then Continue st else
  let lineParts := strings_Split line " " in
  key ← elem lineParts 0;
  let property := property st in
  if String.eqb key "newmtl" then
    materialName ← elem lineParts 1;
    let ms := materials (Globals.store g) ++ [set_name materialName zeroMaterial] in
    Continue
      (set_materialMap
         (<[materialName := u32 (N.of_nat (length ms - 1))]> (Globals.materialMap g))
         (set_store (set_materials ms (Globals.store g)) g), true)
  else if String.eqb key "Kd" then property (set_diffuse (scan3 line "Kd %f %f %f"))
  else if String.eqb key "Ke" then property (set_emissive (scan3 line "Ke %f %f %f"))
  else if String.eqb key "Ka" then property (set_ambient (scan3 line "Ka %f %f %f"))
  else if String.eqb key "Ks" then property (set_specular (scan3 line "Ks %f %f %f"))
  else if String.eqb key "Tf" then
    if inMaterial then
      kind ← elem lineParts 1;
      if String.eqb kind "xyz" || String.eqb kind "spectral" then
        ReturnErr (plain (errors_New "spectral transmission data not supported"))
      else property (set_transmissive (scan3 line "Tf %f %f %f"))
    else ReturnErr outsideBlock
  else if String.eqb key "Ns" then property (set_power (scan1 line "Ns %f"))
  else if String.eqb key "d" then
    property (set_transparency (f32_of_Z 1 - scan1 line "d %f")%f32)
  else if String.eqb key "Tr" then property (set_transparency (scan1 line "Tr %f"))
  else if String.eqb key "Ni" then property (set_refractivity (scan1 line "Ni %f"))
  else if String.eqb key "illum" then
    property (set_illum (stored [λ x _, x] (fmt_Sscanf_d line "illum %d") 0))
  else if String.eqb key "Pr" then property (set_roughness (scan1 line "Pr %f"))
  else if String.eqb key "Pm" then property (set_metallic (scan1 line "Pm %f"))
  else if String.eqb key "Ps" then property (set_sheen (scan1 line "Ps %f"))
  else if String.eqb key "Pc" then property (set_clearcoat_thickness (scan1 line "Pc %f"))
  else if String.eqb key "Pcr" then property (set_clearcoat_roughness (scan1 line "Pcr %f"))
  else if String.eqb key "aniso" then property (set_aniso (scan1 line "aniso %f"))
  else if String.eqb key "anisor" then property (set_aniso_rotation (scan1 line "anisor %f"))
  else if String.eqb key "map_Kd" then
    property (set_texture (stored [λ x _, x] (fmt_Sscanf_s line "map_Kd %s") ""))
  else Continue st.

(** The end of both readers: [scanner.Err()] decides. *)
Definition scanned {St : Type} (file : File) (st : St) : reading St :=
  match ScanErr file with
  | nil_error => Continue st
  | err => ReturnErr (plain err)
  end.

Definition ProcessMaterialFile (materialFileName : string) (g : Globals) : reading Globals :=
  match os_Open materialFileName with
  | inl err => ReturnErr (plain err)
  | inr materialFile =>
      st ← scanLines materialLine (Text materialFile) (g, false);
      scanned materialFile st.1
  end.

(** ** [ProcessOBJFile] *)

(** [uint32(idx)-1] behind a successful [Atoi]; its error goes into
    [fmt.Errorf(format, err)]. *)
Definition readIndex (format field : string) : reading N :=
  match strconv_Atoi field with
  | inl err => ReturnErr (fmt_Errorf format err)
  | inr idx => Continue (u32 (uint32_of_int idx + (2 ^ 32 - 1)))
  end.

(** One turn of the loop over the corners of a face line. *)
Definition readCorner (part : string) (face : Face) : reading Face :=
  let vertParts := strings_Split part "/" in
  face ← (if decide (1 ≤ length vertParts)%nat then
            field ← elem vertParts 0; x ← readIndex "invalid vertex index: %v" field;
            Continue (Face.set_v (Face.v face ++ [x]) face)
          else Continue face);
  face ← (if decide (2 ≤ length vertParts)%nat then
            field ← elem vertParts 1; x ← readIndex "invalid texture index: %v" field;
            Continue (Face.set_uv (Face.uv face ++ [x]) face)
          else Continue face);
  face ← (if decide (length vertParts = 3)%nat then
            field ← elem vertParts 2; x ← readIndex "invalid normal index: %v" field;
            Continue (Face.set_n (Face.n face ++ [x]) face)
          else Continue face);
  if decide (3 < length vertParts)%nat then
    ReturnErr (plain (errors_New "invalid vertex index format on face"))
  else Continue face.

(** [for i := 1; i < len(lineParts); i++ { ... lineParts[i] ... }]. *)
Fixpoint readCorners (parts : list string) (face : Face) : reading Face :=
  match parts with
  | [] => Continue face
  | part :: parts' => face ← readCorner part face; readCorners parts' face
  end.

(** The face of a ["f"] line. *)
Definition readFace (lineParts : list string) (curMaterialName : string) : reading Face :=
  let face := Face.mk 0 [] [] [] [] 0 "" 0 false in
  face ← (if decide (length lineParts = 4)%nat then Continue (Face.set_edges 3 face)
          else if decide (length lineParts = 5)%nat then Continue (Face.set_edges 4 face)
          else ReturnErr (plain (errors_New "invalid face type")));
  face ← readCorners (drop 1 lineParts) face;
  Continue (set_materialName curMaterialName face).

(** [faces = append(faces, face)]. *)
Definition appendFace (face : Face) (s : Store) : Store :=
  set_facesCap
    (if bool_decide (facesCap s ≤ length (faces s))%nat then growslice (facesCap s)
     else facesCap s)
    (set_faces (faces s ++ [face]) s).

(** The vertex of a ["v"] line, and whether the line gives a colour. *)
Definition readVertex (line : string) (lineParts : list string) : Vertex * bool :=
  let o := f32_of_Z 0 in
  let i := f32_of_Z 1 in
  let vertex := Vertex.mk _ o o o i i i i i false in
  if decide (length lineParts = 4)%nat then
    (stored [set_X; set_Y; set_Z] (fmt_Sscanf_f line "v %f %f %f") vertex, false)
  else if decide (length lineParts = 5)%nat then
    (stored [set_X; set_Y; set_Z; set_W] (fmt_Sscanf_f line "v %f %f %f %f") vertex, false)
  else if decide (length lineParts = 7)%nat then
    (stored [set_X; set_Y; set_Z; set_R; set_G; set_B]
       (fmt_Sscanf_f line "v %f %f %f %f %f %f %f") vertex, true)
  else (vertex, false).

(** The texture coordinate of a ["vt"] line. *)
Definition readTextureCoord (line : string) (lineParts : list string) : TextureCoord :=
  let o := f32_of_Z 0 in
  let set_U x (p : TextureCoord) :=
    TextureCoord.mk _ x (TextureCoord.V p) (TextureCoord.W p) (TextureCoord.flushed p) in
  let set_V x (p : TextureCoord) :=
    TextureCoord.mk _ (TextureCoord.U p) x (TextureCoord.W p) (TextureCoord.flushed p) in
  let textureCoord := TextureCoord.mk _ o o o false in
  if decide (length lineParts = 2)%nat then
    set_V o (stored [set_U] (fmt_Sscanf_f line "vt %f") textureCoord)
  else if decide (length lineParts = 3)%nat then
    stored [set_U; set_V] (fmt_Sscanf_f line "vt %f %f") textureCoord
  else if decide (length lineParts = 4)%nat then
    stored [set_U; set_V] (fmt_Sscanf_f line "vt %f %f %f") textureCoord
  else textureCoord.

(** The three numbers of a ["vn"] line. *)
Definition readNormal (line : string) : f32 * f32 * f32 := scan3 line "vn %f %f %f".

(** One turn of the scanner loop. *)
Definition objLine (text : string) (g : Globals) : reading Globals :=
  let line := trimmed text in
  if skipped line then Continue g else
  let lineParts := strings_Split line " " in
  let s := Globals.store g in
  key ← elem lineParts 0;
  if String.eqb key "v" then
    let '(vertex, coloured) := readVertex line lineParts in
    let s := if coloured then set_vertexType 1 s else s in
    Continue (set_store (set_vertices (vertices s ++ [vertex]) s) g)
  else if String.eqb key "vt" then
    Continue (set_store
                (set_textureCoords (textureCoords s ++ [readTextureCoord line lineParts]) s) g)
  else if String.eqb key "vn" then
    let '(x, y, z) := readNormal line in
    Continue (set_store (acceptNormal x y z s) g)
  else if String.eqb key "usemtl" then
    name ← elem lineParts 1; Continue (set_curMaterialName name g)
  else if String.eqb key "mtllib" then
    name ← elem lineParts 1; ProcessMaterialFile name g
  else if String.eqb key "f" then
    face ← readFace lineParts (Globals.curMaterialName g);
    Continue (set_store (appendFace face s) g)
  else Continue g.

Definition ProcessOBJFile (inputFile : File) (g : Globals) : reading Globals :=
  g ← scanLines objLine (Text inputFile) g;
  scanned inputFile g.

End Reader.

(** ** Face lines *)

Lemma strings_Split_length (s : string) (sep : ascii) : (1 ≤ length (strings_Split s sep))%nat.
Proof.
  induction s as [|c s IH]; cbn; [lia|].
  destruct (Ascii.eqb c sep); cbn; [lia|].
  destruct (strings_Split s sep); cbn in *; lia.
Qed.

(** The number of [/]-separated fields of a corner. *)
Definition fieldCount (part : string) : nat := length (strings_Split part "/").

(** What a reader step leaves of a face: everything but the three index
    arrays. *)
Definition sameRest (f f' : Face) : Prop :=
  Face.edges f' = Face.edges f ∧ Face.t f' = Face.t f ∧
  Face.materialID f' = Face.materialID f ∧ Face.materialName f' = Face.materialName f ∧
  Face.mortonCode f' = Face.mortonCode f ∧ Face.complete f' = Face.complete f.

Definition grown (P : Prop) `{!Decision P} (n : nat) : nat := if decide P then S n else n.

Section ReaderFaces.
Context `{FO : FloatOps}.

Lemma readIndex_lt (format field : string) (x : N) :
  readIndex format field = Continue x → x < 2 ^ 32.
Proof.
  unfold readIndex. destruct (strconv_Atoi field); [done|]. intros [= <-].
  unfold u32. apply N.mod_lt. done.
Qed.

Lemma readCorner_spec (part : string) (face face' : Face) :
  readCorner part face = Continue face' →
  (fieldCount part ≤ 3)%nat ∧ sameRest face face' ∧
  length (Face.v face') = S (length (Face.v face)) ∧
  length (Face.uv face') = grown (2 ≤ fieldCount part)%nat (length (Face.uv face)) ∧
  length (Face.n face') = grown (fieldCount part = 3)%nat (length (Face.n face)).
Proof.
  unfold readCorner, fieldCount, grown.
  pose proof (strings_Split_length part "/") as Hlen.
  set (vertParts := strings_Split part "/") in *.
  rewrite decide_True by done.
  destruct (elem vertParts 0) as [field0| |]; cbn [mbind reading_bind]; [|done..].
  destruct (readIndex _ field0) as [x0| |]; cbn [mbind reading_bind]; [|done..].
  destruct (decide (2 ≤ length vertParts)%nat) as [H2|H2].
  - destruct (elem vertParts 1) as [field1| |]; cbn [mbind reading_bind]; [|done..].
    destruct (readIndex _ field1) as [x1| |]; cbn [mbind reading_bind]; [|done..].
    destruct (decide (length vertParts = 3)%nat) as [H3|H3].
    + destruct (elem vertParts 2) as [field2| |]; cbn [mbind reading_bind]; [|done..].
      destruct (readIndex _ field2) as [x2| |]; cbn [mbind reading_bind]; [|done..].
      destruct (decide (3 < length vertParts)%nat); [done|]. intros [= <-].
      destruct face. cbn. rewrite !length_app. cbn. repeat case_decide; repeat split; lia.
    + cbn [mbind reading_bind].
      destruct (decide (3 < length vertParts)%nat); [done|]. intros [= <-].
      destruct face. cbn. rewrite !length_app. cbn. repeat case_decide; repeat split; lia.
  - cbn [mbind reading_bind].
    rewrite decide_False by lia. cbn [mbind reading_bind].
    rewrite decide_False by lia. intros [= <-].
    destruct face. cbn. rewrite !length_app. cbn. repeat case_decide; repeat split; lia.
Qed.

Lemma readCorner_safe (part : string) (face : Face) : readCorner part face ≠ Panic.
Proof.
  unfold readCorner. pose proof (strings_Split_length part "/") as Hp.
  destruct (strings_Split part "/") as [|f0 [|f1 [|f2 more]]]; [cbn in Hp; lia|..];
    cbn; unfold readIndex; repeat (destruct (strconv_Atoi _); cbn; try done);
    repeat case_decide; done.
Qed.

Lemma readCorners_safe (parts : list string) (face : Face) : readCorners parts face ≠ Panic.
Proof.
  revert face. induction parts as [|part parts IH]; intros face; cbn [readCorners]; [done|].
  pose proof (readCorner_safe part face) as Hc.
  destruct (readCorner part face) as [face1| |]; cbn [mbind reading_bind]; [apply IH|done..].
Qed.

Lemma readFace_safe (lineParts : list string) (cur : string) : readFace lineParts cur ≠ Panic.
Proof.
  unfold readFace.
  repeat case_decide; cbn [mbind reading_bind]; try done;
    match goal with
    | |- context [readCorners ?l ?f] =>
        pose proof (readCorners_safe l f) as Hc; by destruct (readCorners l f)
    end.
Qed.

Lemma sameRest_trans f g h : sameRest f g → sameRest g h → sameRest f h.
Proof. unfold sameRest. intros (?&?&?&?&?&?) (?&?&?&?&?&?). repeat split; congruence. Qed.

Lemma readCorners_spec (parts : list string) (face face' : Face) :
  readCorners parts face = Continue face' →
  Forall (λ part, fieldCount part ≤ 3)%nat parts ∧ sameRest face face' ∧
  length (Face.v face') = (length (Face.v face) + length parts)%nat ∧
  length (Face.uv face') =
    (length (Face.uv face) + length (filter (λ part, 2 ≤ fieldCount part)%nat parts))%nat ∧
  length (Face.n face') =
    (length (Face.n face) + length (filter (λ part, fieldCount part = 3)%nat parts))%nat.
Proof.
  revert face. induction parts as [|part parts IH]; intros face; cbn [readCorners].
  - intros [= <-]. cbn. rewrite !Nat.add_0_r. by repeat split.
  - destruct (readCorner part face) as [face1| |] eqn:H1; cbn [mbind reading_bind]; [|done..].
    intros Hrest. apply readCorner_spec in H1 as (Hle & Hsame & Hv & Hu & Hn).
    apply IH in Hrest as (Hall & Hsame' & Hv' & Hu' & Hn').
    split; [by constructor|]. split; [by eapply sameRest_trans|].
    rewrite Hv', Hu', Hn', Hv, Hu, Hn. unfold grown. rewrite !filter_cons. cbn [length].
    repeat split.
    + lia.
    + destruct (decide (2 ≤ fieldCount part)%nat); cbn [length]; lia.
    + destruct (decide (fieldCount part = 3)%nat); cbn [length]; lia.
Qed.

(** The face of an accepted line, in terms of the line. *)
Lemma readFace_spec (lineParts : list string) (cur : string) (face : Face) :
  readFace lineParts cur = Continue face →
  let parts := drop 1 lineParts in
  (length parts = 3 ∨ length parts = 4)%nat ∧
  Face.edges face = N.of_nat (length parts) ∧
  Forall (λ part, fieldCount part ≤ 3)%nat parts ∧
  length (Face.v face) = length parts ∧
  length (Face.uv face) = length (filter (λ part, 2 ≤ fieldCount part)%nat parts) ∧
  length (Face.n face) = length (filter (λ part, fieldCount part = 3)%nat parts) ∧
  Face.t face = [] ∧ Face.materialID face = 0 ∧ Face.materialName face = cur ∧
  Face.mortonCode face = 0 ∧ Face.complete face = false.
Proof.
  unfold readFace. intros Hrun. cbv zeta.
  assert (∃ e, (length (drop 1 lineParts) = 3 ∨ length (drop 1 lineParts) = 4)%nat ∧
               e = N.of_nat (length (drop 1 lineParts)) ∧
               (face1 ← readCorners (drop 1 lineParts) (Face.mk e [] [] [] [] 0 "" 0 false);
                Continue (set_materialName cur face1)) = Continue face)
    as (e & Hlen & He & Hrun').
  { rewrite length_drop.
    destruct (decide (length lineParts = 4)%nat) as [H4|H4].
    - exists 3. rewrite H4. split; [lia|]. by split.
    - destruct (decide (length lineParts = 5)%nat) as [H5|H5]; [|done].
      exists 4. rewrite H5. split; [lia|]. by split. }
  clear Hrun.
  destruct (readCorners _ _) as [face1| |] eqn:Hc; cbn [mbind reading_bind] in Hrun'; [|done..].
  injection Hrun' as <-.
  apply readCorners_spec in Hc as (Hall & (E1 & E2 & E3 & E4 & E5 & E6) & Hv & Hu & Hn).
  cbn in *. split; [done|]. split; [congruence|]. by repeat split.
Qed.

Lemma filter_length_full {A : Type} (P : A → Prop) `{!∀ x, Decision (P x)} (l : list A) :
  (length l ≤ length (filter P l))%nat ↔ Forall P l.
Proof.
  induction l as [|x l IH]; [by split|].
  rewrite filter_cons. pose proof (length_filter P l) as Hle.
  destruct (decide (P x)) as [Hx|Hx]; cbn [length].
  - rewrite Forall_cons. rewrite <- IH. split; [intros; split; [done|lia]|intros [_ ?]; lia].
  - split; [lia|]. by intros [? _]%Forall_cons.
Qed.

(** Every field of an accepted corner is a number for [Atoi]. *)
Definition numeric (field : string) : Prop := ∃ idx, strconv_Atoi field = inr idx.

Lemma readIndex_numeric (format field : string) (x : N) :
  readIndex format field = Continue x → numeric field.
Proof. unfold readIndex, numeric. destruct (strconv_Atoi field); [done|by eauto]. Qed.

Lemma readCorner_numeric (part : string) (face face' : Face) :
  readCorner part face = Continue face' → Forall numeric (strings_Split part "/").
Proof.
  unfold readCorner. pose proof (strings_Split_length part "/") as Hp.
  destruct (strings_Split part "/") as [|f0 [|f1 [|f2 more]]]; [cbn in Hp; lia|..]; cbn.
  - destruct (readIndex _ f0) eqn:H0; cbn; [|done..]. intros _.
    repeat constructor. by eapply readIndex_numeric.
  - destruct (readIndex _ f0) eqn:H0; cbn; [|done..].
    destruct (readIndex _ f1) eqn:H1; cbn; [|done..]. intros _.
    repeat constructor; by eapply readIndex_numeric.
  - destruct (readIndex _ f0) eqn:H0; cbn; [|done..].
    destruct (readIndex _ f1) eqn:H1; cbn; [|done..].
    destruct more as [|f3 more]; cbn.
    + destruct (readIndex _ f2) eqn:H2; cbn; [|done..]. intros _.
      repeat constructor; by eapply readIndex_numeric.
    + by rewrite decide_True by lia.
Qed.

Lemma readCorners_numeric (parts : list string) (face face' : Face) :
  readCorners parts face = Continue face' →
  Forall (λ part, Forall numeric (strings_Split part "/")) parts.
Proof.
  revert face. induction parts as [|part parts IH]; intros face; cbn [readCorners]; [done|].
  destruct (readCorner part face) as [face1| |] eqn:H1; cbn [mbind reading_bind]; [|done..].
  intros Hrest. constructor; [by eapply readCorner_numeric|by eapply IH].
Qed.

Lemma readFace_numeric (lineParts : list string) (cur : string) (face : Face) :
  readFace lineParts cur = Continue face →
  Forall (λ part, Forall numeric (strings_Split part "/")) (drop 1 lineParts).
Proof.
  unfold readFace.
  repeat case_decide; cbn [mbind reading_bind]; try done;
    (destruct (readCorners _ _) as [face1| |] eqn:Hc; cbn [mbind reading_bind]; [|done..];
     intros _; by eapply readCorners_numeric).
Qed.

Lemma faceCovered_fieldCount (lineParts : list string) (cur : string) (face : Face) :
  readFace lineParts cur = Continue face →
  faceCovered face ↔ Forall (λ part, fieldCount part = 3%nat) (drop 1 lineParts).
Proof.
  intros Hrun. apply readFace_spec in Hrun. cbv zeta in Hrun.
  destruct Hrun as (Hlen & He & Hall & Hv & Hu & Hn & _).
  unfold faceCovered, covers. rewrite He, Nat2N.id, Hv, Hu, Hn.
  rewrite <- (filter_length_full (λ part, fieldCount part = 3%nat)).
  split; [by intros (_ & ? & _)|]. intros Hfull. split; [done|]. split; [done|].
  apply filter_length_full in Hfull.
  apply (filter_length_full (λ part, 2 ≤ fieldCount part)%nat).
  eapply Forall_impl; [exact Hfull|]. cbn. lia.
Qed.

(** A face line is accepted with every shape of corner, [v], [v/vt] and
    [v/vt/vn] alike, but the face has its [edges] indices of all three kinds,
    the ones the later stages and the writer read, exactly when every corner
    of the line has the three fields. *)
Theorem readFace_covered_iff (lineParts : list string) (cur : string) (face : Face) :
  readFace lineParts cur = Continue face →
  faceCovered face ↔ Forall (λ part, fieldCount part = 3%nat) (drop 1 lineParts).
Proof. apply faceCovered_fieldCount. Qed.

End ReaderFaces.

(** ** What a line does *)

Lemma scanLines_inv {St : Type} (P : St → Prop) (body : string → St → reading St)
    (text : list string) (st st' : St) :
  (∀ line a b, line ∈ text → P a → body line a = Continue b → P b) →
  P st → scanLines body text st = Continue st' → P st'.
Proof.
  revert st. induction text as [|line text IH]; intros st Hstep Hst; cbn [scanLines].
  - by intros [= <-].
  - destruct (body line st) as [st1| |] eqn:H1; cbn [mbind reading_bind]; [|done..].
    apply IH.
    + intros l a b Hl. apply Hstep. by apply list_elem_of_further.
    + eapply Hstep; [apply list_elem_of_here|done..].
Qed.

(** With a pre-order [R] that every turn respects, the turn of any one line
    sits between the start and the end. *)
Lemma scanLines_elem {St : Type} (R : St → St → Prop) (body : string → St → reading St)
    (text : list string) (st st' : St) (line : string) :
  (∀ a, R a a) → (∀ a b c, R a b → R b c → R a c) →
  (∀ l a b, body l a = Continue b → R a b) →
  scanLines body text st = Continue st' → line ∈ text →
  ∃ a b, body line a = Continue b ∧ R st a ∧ R b st'.
Proof.
  intros Hrefl Htrans Hstep. revert st.
  induction text as [|l text IH]; intros st Hrun Hin; [by apply elem_of_nil in Hin|].
  cbn [scanLines] in Hrun.
  destruct (body l st) as [st1| |] eqn:H1; cbn [mbind reading_bind] in Hrun; [|done..].
  assert (Hrest : R st1 st').
  { clear -Hrefl Htrans Hstep Hrun. revert st1 Hrun.
    induction text as [|l' text IH]; intros st1; cbn [scanLines]; [by intros [= <-]|].
    destruct (body l' st1) as [st2| |] eqn:H2; cbn [mbind reading_bind]; [|done..].
    intros Hrun. eapply Htrans; [by eapply Hstep|by apply IH]. }
  apply elem_of_cons in Hin as [->|Hin].
  - exists st, st1. by repeat split.
  - destruct (IH st1 Hrun Hin) as (a & b & Hab & Ha & Hb).
    exists a, b. split; [done|]. split; [|done].
    eapply Htrans; [by eapply Hstep|done].
Qed.

Lemma scanLines_no_panic {St : Type} (P : St → Prop) (body : string → St → reading St)
    (text : list string) (st : St) :
  (∀ line a b, line ∈ text → P a → body line a = Continue b → P b) →
  (∀ line a, line ∈ text → P a → body line a ≠ Panic) →
  P st → scanLines body text st ≠ Panic.
Proof.
  revert st. induction text as [|line text IH]; intros st Hstep Hsafe Hst; cbn [scanLines];
    [done|].
  destruct (body line st) as [st1| |] eqn:H1; cbn [mbind reading_bind]; [|done|].
  - apply IH.
    + intros l a b Hl. apply Hstep. by apply list_elem_of_further.
    + intros l a Hl. apply Hsafe. by apply list_elem_of_further.
    + eapply Hstep; [apply list_elem_of_here|done..].
  - exfalso. eapply Hsafe; [apply list_elem_of_here|done..].
Qed.

Lemma stored_preserves {T X : Type} (P : T → Prop) (operands : list (X → T → T))
    (values : list X) (x : T) :
  Forall (λ set, ∀ v y, P y → P (set v y)) operands → P x → P (stored operands values x).
Proof.
  unfold stored. intros Hops. revert values x.
  induction Hops as [|set operands Hset _ IH]; intros values x Hx; [done|].
  destruct values as [|v values]; [done|]. cbn. apply IH. by apply Hset.
Qed.

(** The first field of a line the loops look at, [lineParts[0]]. *)
Definition keyword (text : string) : option string :=
  if skipped (trimmed text) then None else head (strings_Split (trimmed text) " ").

(** The line has a second field, [lineParts[1]]. *)
Definition hasArgument (text : string) : Prop :=
  (2 ≤ length (strings_Split (trimmed text) " "))%nat.

(** Two stores with the same geometry: all but the materials. *)
Definition sameGeometry `{FloatOps} (s s' : Store) : Prop :=
  vertices s' = vertices s ∧ normals s' = normals s ∧ textureCoords s' = textureCoords s ∧
  faces s' = faces s ∧ facesCap s' = facesCap s ∧ boundSphere s' = boundSphere s ∧
  vertexType s' = vertexType s.

(** [i] is the last material called [name]. *)
Definition lastNamed (names : list string) (name : string) (i : nat) : Prop :=
  names !! i = Some name ∧ ∀ j, (i < j)%nat → names !! j ≠ Some name.

Section MaterialLines.
Context `{FO : FloatOps} `{FM : !GoFmt}.

Definition materialNames (g : Globals) : list string :=
  map Material.name (materials (Globals.store g)).

(** What a turn of the loop of [ProcessMaterialFile] can do: nothing, open a
    material, or change the last material without touching its name. *)
Inductive materialEffect (g : Globals) (inMaterial : bool) : Globals → bool → Prop :=
  | effect_skip : materialEffect g inMaterial g inMaterial
  | effect_newmtl name g' :
      sameGeometry (Globals.store g) (Globals.store g') →
      Globals.curMaterialName g' = Globals.curMaterialName g →
      materialNames g' = materialNames g ++ [name] →
      Globals.materialMap g' =
        <[name := u32 (N.of_nat (length (materialNames g)))]> (Globals.materialMap g) →
      materialEffect g inMaterial g' true
  | effect_property g' :
      inMaterial = true →
      sameGeometry (Globals.store g) (Globals.store g') →
      Globals.curMaterialName g' = Globals.curMaterialName g →
      materialNames g' = materialNames g →
      materialNames g ≠ [] →
      Globals.materialMap g' = Globals.materialMap g →
      materialEffect g inMaterial g' true.

Lemma property_effect (g g' : Globals) (inMaterial b' : bool) (upd : Material → Material) :
  (∀ m, Material.name (upd m) = Material.name m) →
  property (g, inMaterial) upd = Continue (g', b') →
  materialEffect g inMaterial g' b'.
Proof.
  intros Hname. unfold property, setLast. destruct inMaterial; [|done].
  destruct (materials (Globals.store g) !! _) as [m|] eqn:Hm; cbn [mbind reading_bind];
    [|done].
  intros [= <- <-]. apply effect_property; try done.
  - unfold materialNames. cbn. rewrite list_fmap_insert, Hname.
    apply list_insert_id. by rewrite list_lookup_fmap, Hm.
  - unfold materialNames. intros Hnil. apply fmap_nil_inv in Hnil. by rewrite Hnil in Hm.
Qed.

Lemma materialLine_effect (text : string) (g g' : Globals) (inMaterial b' : bool) :
  materialLine text (g, inMaterial) = Continue (g', b') → materialEffect g inMaterial g' b'.
Proof.
  unfold materialLine. destruct (skipped _); [intros [= <- <-]; apply effect_skip|].
  destruct (elem _ 0) as [key| |]; cbn [mbind reading_bind]; [|done..].
  destruct (String.eqb key "newmtl").
  { destruct (elem _ 1) as [name| |]; cbn [mbind reading_bind]; [|done..].
    intros [= <- <-]. apply (effect_newmtl _ _ name); try done.
    - unfold materialNames. cbn. by rewrite map_app.
    - cbn. unfold materialNames. rewrite length_app, length_map. cbn.
      by replace (length (materials (Globals.store g)) + 1 - 1)%nat
        with (length (materials (Globals.store g))) by lia. }
  repeat match goal with
  | |- (if String.eqb key "Tf" then _ else _) = _ → _ =>
      destruct (String.eqb key "Tf");
      [destruct inMaterial; [|done];
       destruct (elem _ 1) as [kind| |]; cbn [mbind reading_bind]; [|done..];
       destruct (_ || _); [done|]; by apply property_effect|]
  | |- (if String.eqb key ?k then _ else _) = _ → _ =>
      destruct (String.eqb key k); [by apply property_effect|]
  end.
  intros [= <- <-]. apply effect_skip.
Qed.

(** The loop of [ProcessMaterialFile] as a whole, from [inMaterial = false]:
    the geometry and the current material name stay, materials are only
    added, and the map follows the names. *)
Definition mapFollows (names : list string) (materialMap : gmap string N) : Prop :=
  (∀ name x, materialMap !! name = Some x →
     ∃ i, x = u32 (N.of_nat i) ∧ lastNamed names name i) ∧
  (∀ name, name ∈ names → is_Some (materialMap !! name)).

Lemma lastNamed_app_new (names : list string) (name : string) :
  lastNamed (names ++ [name]) name (length names).
Proof.
  split.
  - rewrite lookup_app_r by lia. by rewrite Nat.sub_diag.
  - intros j Hj. rewrite lookup_ge_None_2; [done|]. rewrite length_app. cbn. lia.
Qed.

Lemma lastNamed_app_other (names : list string) (name name' : string) (i : nat) :
  name' ≠ name → lastNamed names name' i → lastNamed (names ++ [name]) name' i.
Proof.
  intros Hne [Hi Hlast]. apply lookup_lt_Some in Hi as Hlt. split.
  - by rewrite lookup_app_l.
  - intros j Hj. destruct (decide (j < length names)%nat) as [Hjl|Hjl].
    + rewrite lookup_app_l by done. by apply Hlast.
    + rewrite lookup_app_r by lia.
      destruct (j - length names)%nat; cbn; [congruence|done].
Qed.

Lemma materialEffect_mapFollows (g g' : Globals) (b b' : bool) :
  materialEffect g b g' b' →
  mapFollows (materialNames g) (Globals.materialMap g) →
  mapFollows (materialNames g') (Globals.materialMap g').
Proof.
  intros [|name g1 _ _ Hnames Hmap|g1 _ _ _ Hnames _ Hmap] [Hkeys Hall]; [done| |].
  - rewrite Hnames, Hmap. split.
    + intros name' x. destruct (decide (name' = name)) as [->|Hne].
      * rewrite lookup_insert_eq. intros [= <-]. eexists. split; [done|].
        apply lastNamed_app_new.
      * rewrite lookup_insert_ne by done. intros Hx.
        destruct (Hkeys name' x Hx) as (i & -> & Hlast).
        exists i. split; [done|]. by apply lastNamed_app_other.
    + intros name' [Hin| ->%list_elem_of_singleton]%elem_of_app.
      * destruct (decide (name' = name)) as [->|Hne]; [by rewrite lookup_insert_eq|].
        rewrite lookup_insert_ne by done. by apply Hall.
      * by rewrite lookup_insert_eq.
  - by rewrite Hnames, Hmap.
Qed.

Lemma sameGeometry_refl (s : Store) : sameGeometry s s.
Proof. by repeat split. Qed.

Lemma sameGeometry_trans (s1 s2 s3 : Store) :
  sameGeometry s1 s2 → sameGeometry s2 s3 → sameGeometry s1 s3.
Proof.
  unfold sameGeometry. intros (?&?&?&?&?&?&?) (?&?&?&?&?&?&?). repeat split; congruence.
Qed.

(** The loop of [ProcessMaterialFile], from [inMaterial = false]. *)
Definition materialInv (g0 : Globals) (st : Globals * bool) : Prop :=
  sameGeometry (Globals.store g0) (Globals.store st.1) ∧
  Globals.curMaterialName st.1 = Globals.curMaterialName g0 ∧
  (st.2 = true → materialNames st.1 ≠ []) ∧
  (mapFollows (materialNames g0) (Globals.materialMap g0) →
   mapFollows (materialNames st.1) (Globals.materialMap st.1)).

Lemma materialLine_inv (g0 : Globals) (text : string) (st st' : Globals * bool) :
  materialInv g0 st → materialLine text st = Continue st' → materialInv g0 st'.
Proof.
  destruct st as [g b], st' as [g' b']. intros (Hgeo & Hcur & Hne & Hmap) Hrun.
  apply materialLine_effect in Hrun as Heff.
  pose proof (materialEffect_mapFollows _ _ _ _ Heff) as Hmap'.
  destruct Heff as [|name g1 Hgeo1 Hcur1 Hnames1 _|g1 Hb Hgeo1 Hcur1 Hnames1 Hne1 _];
    cbn [fst snd] in *.
  - done.
  - split; [by eapply sameGeometry_trans|]. split; [cbn; congruence|]. split; [|cbn; auto].
    intros _. cbn. rewrite Hnames1. by destruct (materialNames g).
  - split; [by eapply sameGeometry_trans|]. split; [cbn; congruence|]. split; [|cbn; auto].
    intros _. cbn. by rewrite Hnames1.
Qed.

Lemma materialLine_safe (text : string) (g : Globals) (inMaterial : bool) :
  (inMaterial = true → materialNames g ≠ []) →
  (∀ key, keyword text = Some key → key ∈ ["newmtl"; "Tf"] → hasArgument text) →
  materialLine text (g, inMaterial) ≠ Panic.
Proof.
  intros Hne. unfold keyword, hasArgument, materialLine.
  destruct (skipped _); [done|]. intros Harg.
  pose proof (strings_Split_length (trimmed text) " ") as Hlen.
  set (lineParts := strings_Split (trimmed text) " ") in *.
  destruct lineParts as [|key rest] eqn:Hparts; [cbn in Hlen; lia|].
  cbn [elem lookup list_lookup mbind reading_bind head] in *.
  assert (Hprop : ∀ upd, property (g, inMaterial) upd ≠ Panic).
  { intros upd. unfold property, setLast. destruct inMaterial; [|done].
    destruct (materials (Globals.store g) !! _) as [m|] eqn:Hm; [done|].
    exfalso. apply Hne; [done|]. unfold materialNames.
    apply lookup_ge_None_1 in Hm. destruct (materials (Globals.store g)); [done|].
    cbn in Hm. lia. }
  destruct (String.eqb_spec key "newmtl") as [->|_].
  { destruct rest as [|name rest]; [|done].
    specialize (Harg _ eq_refl). cbn in Harg. 
    assert ((2 ≤ 1)%nat) by (apply Harg; set_solver). lia. }
  repeat match goal with
  | |- (if String.eqb key "Tf" then _ else _) ≠ _ =>
      destruct (String.eqb_spec key "Tf") as [->|_];
      [destruct inMaterial; [|done];
       destruct rest as [|kind rest];
         [specialize (Harg _ eq_refl); cbn in Harg;
          assert ((2 ≤ 1)%nat) by (apply Harg; set_solver); lia|];
       cbn [elem lookup list_lookup mbind reading_bind];
       destruct (_ || _); [done|apply Hprop]|]
  | |- (if String.eqb key ?k then _ else _) ≠ _ =>
      destruct (String.eqb key k); [apply Hprop|]
  end.
  done.
Qed.

(** The statements that set a property of the current material. *)
Definition propertyKeys : list string :=
  ["Kd"; "Ke"; "Ka"; "Ks"; "Tf"; "Ns"; "d"; "Tr"; "Ni"; "illum"; "Pr"; "Pm"; "Ps"; "Pc";
   "Pcr"; "aniso"; "anisor"; "map_Kd"].

Lemma materialLine_opens (text : string) (g g' : Globals) :
  materialLine text (g, false) = Continue (g', true) → keyword text = Some "newmtl".
Proof.
  unfold keyword, materialLine. destruct (skipped _); [done|].
  pose proof (strings_Split_length (trimmed text) " ") as Hlen.
  destruct (strings_Split (trimmed text) " ") as [|key rest]; [cbn in Hlen; lia|].
  cbn [elem lookup list_lookup mbind reading_bind head].
  destruct (String.eqb_spec key "newmtl") as [->|_]; [done|].
  unfold property.
  repeat match goal with
  | |- (if String.eqb key ?k then _ else _) = _ → _ => destruct (String.eqb key k); [done|]
  end.
  done.
Qed.

Lemma materialLine_outside (text key : string) (g : Globals) :
  keyword text = Some key → key ∈ propertyKeys →
  materialLine text (g, false) = ReturnErr outsideBlock.
Proof.
  unfold keyword, materialLine. destruct (skipped _); [done|].
  destruct (strings_Split (trimmed text) " ") as [|key' rest]; [done|].
  cbn [elem lookup list_lookup mbind reading_bind head]. intros [= ->] Hkey.
  unfold propertyKeys in Hkey.
  repeat (apply elem_of_cons in Hkey as [->|Hkey]; [reflexivity|]).
  by apply elem_of_nil in Hkey.
Qed.

Lemma scanLines_opened (text : list string) (st st' : Globals * bool) :
  scanLines materialLine text st = Continue st' → st'.2 = true →
  st.2 = true ∨ ∃ opener, opener ∈ text ∧ keyword opener = Some "newmtl".
Proof.
  revert st. induction text as [|line text IH]; intros st; cbn [scanLines].
  - intros [= <-]. by left.
  - destruct (materialLine line st) as [st1| |] eqn:H1; cbn [mbind reading_bind]; [|done..].
    intros Hrest Hflag. destruct (IH st1 Hrest Hflag) as [Hst1|(opener & Hin & Hkey)].
    + destruct st as [g [|]]; [by left|]. right. exists line.
      split; [apply list_elem_of_here|]. destruct st1 as [g1 b1]. cbn in Hst1. subst b1.
      by eapply materialLine_opens.
    + right. exists opener. split; [by apply list_elem_of_further|done].
Qed.

Lemma scanLines_app {St : Type} (body : string → St → reading St) (before after : list string)
    (st st' : St) :
  scanLines body (before ++ after) st = Continue st' →
  ∃ st1, scanLines body before st = Continue st1 ∧ scanLines body after st1 = Continue st'.
Proof.
  revert st. induction before as [|line before IH]; intros st; cbn [scanLines app].
  - intros Hrun. by exists st.
  - destruct (body line st) as [st1| |]; cbn [mbind reading_bind]; [apply IH|done..].
Qed.

End MaterialLines.

(** ** What the reader leaves *)

(** A face as [ProcessOBJFile] makes it: a triangle or a quad with a vertex
    index on every corner, at most as many texture indices, at most as many
    normal indices as texture indices, and nothing else set. *)
Definition readerFace (f : Face) : Prop :=
  (Face.edges f = 3 ∨ Face.edges f = 4) ∧
  length (Face.v f) = N.to_nat (Face.edges f) ∧
  (length (Face.n f) ≤ length (Face.uv f) ≤ N.to_nat (Face.edges f))%nat ∧
  Face.t f = [] ∧ Face.materialID f = 0 ∧ Face.mortonCode f = 0 ∧ Face.complete f = false.

(** Every face line gives the vertex, the texture and the normal index on
    each corner. *)
Definition fullFaceLines (file : File) : Prop :=
  ∀ text, text ∈ Text file → keyword text = Some "f" →
    Forall (λ part, fieldCount part = 3%nat) (drop 1 (strings_Split (trimmed text) " ")).

Lemma filter_length_mono {A : Type} (P Q : A → Prop) `{!∀ x, Decision (P x)}
    `{!∀ x, Decision (Q x)} (l : list A) :
  (∀ x, P x → Q x) → (length (filter P l) ≤ length (filter Q l))%nat.
Proof.
  intros HPQ. induction l as [|x l IH]; [done|]. rewrite !filter_cons.
  destruct (decide (P x)) as [HP|HP].
  - rewrite decide_True by auto. cbn. lia.
  - destruct (decide (Q x)); cbn; lia.
Qed.

Lemma readFace_readerFace `{FloatOps} (lineParts : list string) (cur : string) (face : Face) :
  readFace lineParts cur = Continue face → readerFace face.
Proof.
  intros Hrun. apply readFace_spec in Hrun. cbv zeta in Hrun.
  destruct Hrun as (Hlen & He & _ & Hv & Hu & Hn & Ht & Hid & _ & Hcode & Hcpl).
  unfold readerFace. rewrite He, Nat2N.id, Hv, Hu, Hn.
  split; [destruct Hlen as [->| ->]; [by left|by right]|]. split; [done|].
  split; [|done]. split; [|apply length_filter].
  apply filter_length_mono. intros part. lia.
Qed.

Section ReaderFacts.
Context `{FO : FloatOps} `{RT : GoRuntime} `{FM : !GoFmt}.
Variable os_Open : string → error + File.

Lemma ProcessMaterialFile_inv (name : string) (g g' : Globals) :
  ProcessMaterialFile os_Open name g = Continue g' →
  sameGeometry (Globals.store g) (Globals.store g') ∧
  Globals.curMaterialName g' = Globals.curMaterialName g ∧
  (mapFollows (materialNames g) (Globals.materialMap g) →
   mapFollows (materialNames g') (Globals.materialMap g')).
Proof.
  unfold ProcessMaterialFile. destruct (os_Open name) as [err|file]; [done|].
  destruct (scanLines _ _ _) as [[g1 b1]| |] eqn:Hloop; cbn [mbind reading_bind]; [|done..].
  unfold scanned. destruct (ScanErr file); [|done]. intros [= <-].
  apply (scanLines_inv (materialInv g)) in Hloop as (Hgeo & Hcur & _ & Hmap).
  - cbn [fst] in *. by split; [|split].
  - intros line a b _. apply materialLine_inv.
  - split; [apply sameGeometry_refl|]. split; [done|]. by split.
Qed.

Lemma ProcessMaterialFile_safe (name : string) (g : Globals) :
  (∀ file text key, os_Open name = inr file → text ∈ Text file →
     keyword text = Some key → key ∈ ["newmtl"; "Tf"] → hasArgument text) →
  ProcessMaterialFile os_Open name g ≠ Panic.
Proof.
  intros Harg. unfold ProcessMaterialFile.
  destruct (os_Open name) as [err|file] eqn:Hopen; [done|].
  specialize (Harg file).
  destruct (scanLines _ _ _) as [[g1 b1]| |] eqn:Hloop; cbn [mbind reading_bind]; [|done|].
  - unfold scanned. by destruct (ScanErr file).
  - exfalso. revert Hloop.
    apply (scanLines_no_panic (λ st, st.2 = true → materialNames st.1 ≠ [])); [| |done].
    + intros line [a ba] [b bb] _ Ha Hrun. cbn [fst snd] in *.
      apply materialLine_effect in Hrun.
      destruct Hrun as [|nm g2 _ _ Hnames _|g2 _ _ _ Hnames Hne _]; [done| |].
      * intros _. rewrite Hnames. by destruct (materialNames a).
      * intros _. by rewrite Hnames.
    + intros line [a ba] Hin Ha. apply materialLine_safe; [done|].
      intros key. by apply Harg.
Qed.

(** A material file is taken only if each of its property statements comes
    behind a [newmtl] of the same file: a property ahead of the first
    [newmtl] makes [ProcessMaterialFile] return its error, also when an
    earlier file has left a material that the statement could change. *)
Theorem material_properties_follow_newmtl (name : string) (g g' : Globals)
    (materialFile : File) (before after : list string) (text key : string) :
  ProcessMaterialFile os_Open name g = Continue g' →
  os_Open name = inr materialFile →
  Text materialFile = before ++ text :: after →
  keyword text = Some key → key ∈ propertyKeys →
  ∃ opener, opener ∈ before ∧ keyword opener = Some "newmtl".
Proof.
  unfold ProcessMaterialFile. intros Hrun Hopen Htext Hkey Hprop.
  rewrite Hopen, Htext in Hrun.
  destruct (scanLines _ _ _) as [st| |] eqn:Hloop; cbn [mbind reading_bind] in Hrun;
    [|done..].
  apply scanLines_app in Hloop as ([g1 b1] & Hbefore & Hafter).
  cbn [scanLines] in Hafter. destruct b1.
  - apply scanLines_opened in Hbefore as [?|?]; done.
  - by rewrite (materialLine_outside text key g1 Hkey Hprop) in Hafter.
Qed.

(** What a turn of the loop of [ProcessOBJFile] can do. *)
Inductive objEffect (text : string) (g : Globals) : Globals → Prop :=
  | obj_skip : objEffect text g g
  | obj_vertex s1 p :
      sameGeometry (Globals.store g) (set_vertexType (vertexType (Globals.store g)) s1) →
      materials s1 = materials (Globals.store g) →
      Vertex.flushed p = false →
      objEffect text g (set_store (set_vertices (vertices s1 ++ [p]) s1) g)
  | obj_textureCoord p :
      TextureCoord.flushed p = false →
      objEffect text g
        (set_store (set_textureCoords (textureCoords (Globals.store g) ++ [p])
                      (Globals.store g)) g)
  | obj_normal x y z :
      objEffect text g (set_store (acceptNormal x y z (Globals.store g)) g)
  | obj_usemtl name : objEffect text g (set_curMaterialName name g)
  | obj_mtllib name g' :
      ProcessMaterialFile os_Open name g = Continue g' → objEffect text g g'
  | obj_face face :
      keyword text = Some "f" →
      readFace (strings_Split (trimmed text) " ") (Globals.curMaterialName g)
        = Continue face →
      objEffect text g (set_store (appendFace face (Globals.store g)) g).

Lemma readVertex_unflushed (line : string) (lineParts : list string) :
  Vertex.flushed (readVertex line lineParts).1 = false.
Proof.
  unfold readVertex.
  repeat case_decide; cbn [fst]; try done;
    (apply (stored_preserves (λ p, Vertex.flushed p = false)); [|done]);
    repeat constructor; by intros v [].
Qed.

Lemma readTextureCoord_unflushed (line : string) (lineParts : list string) :
  TextureCoord.flushed (readTextureCoord line lineParts) = false.
Proof.
  unfold readTextureCoord. cbv zeta.
  repeat case_decide; cbv beta; cbn [TextureCoord.flushed]; try done;
    (apply (stored_preserves (λ p, TextureCoord.flushed p = false)); [|done]);
    repeat constructor; by intros v [].
Qed.

Lemma objLine_effect (text : string) (g g' : Globals) :
  objLine os_Open text g = Continue g' → objEffect text g g'.
Proof.
  unfold objLine. destruct (skipped (trimmed text)) eqn:Hskip; [intros [= <-]; apply obj_skip|].
  pose proof (strings_Split_length (trimmed text) " ") as Hlen.
  destruct (strings_Split (trimmed text) " ") as [|key rest] eqn:Hparts; [cbn in Hlen; lia|].
  cbn [elem lookup list_lookup mbind reading_bind].
  destruct (String.eqb key "v").
  { pose proof (readVertex_unflushed (trimmed text) (key :: rest)) as Hfl.
    destruct (readVertex _ _) as [vertex coloured]. cbn [fst] in Hfl.
    intros [= <-].
    apply (obj_vertex _ _ (if coloured then set_vertexType 1 (Globals.store g)
                           else Globals.store g) vertex); [|by destruct coloured|done].
    destruct coloured; by repeat split. }
  destruct (String.eqb key "vt").
  { intros [= <-]. apply obj_textureCoord. apply readTextureCoord_unflushed. }
  destruct (String.eqb key "vn").
  { destruct (readNormal _) as [[x y] z]. intros [= <-]. apply obj_normal. }
  destruct (String.eqb key "usemtl").
  { destruct rest as [|name rest]; [done|]. cbn. intros [= <-]. apply obj_usemtl. }
  destruct (String.eqb key "mtllib").
  { destruct rest as [|name rest]; [done|]. cbn. apply obj_mtllib. }
  destruct (String.eqb_spec key "f") as [->|_]; [|intros [= <-]; apply obj_skip].
  destruct (readFace _ _) as [face| |] eqn:Hface; cbn [mbind reading_bind]; [|done..].
  intros [= <-]. apply obj_face; [|by rewrite Hparts].
  unfold keyword. by rewrite Hskip, Hparts.
Qed.

(** A face line that the reader gets past has added its face. *)
Lemma objLine_face (text : string) (g g' : Globals) :
  keyword text = Some "f" → objLine os_Open text g = Continue g' →
  ∃ face, readFace (strings_Split (trimmed text) " ") (Globals.curMaterialName g)
            = Continue face ∧
          faces (Globals.store g') = faces (Globals.store g) ++ [face].
Proof.
  unfold keyword, objLine. destruct (skipped (trimmed text)); [done|].
  destruct (strings_Split (trimmed text) " ") as [|key rest]; [done|].
  cbn [head]. intros [= ->]. cbn [elem lookup list_lookup mbind reading_bind].
  change (String.eqb "f" "v") with false. change (String.eqb "f" "vt") with false.
  change (String.eqb "f" "vn") with false. change (String.eqb "f" "usemtl") with false.
  change (String.eqb "f" "mtllib") with false. change (String.eqb "f" "f") with true.
  cbv iota.
  destruct (readFace _ _) as [face| |]; cbn [mbind reading_bind]; [|done..].
  intros [= <-]. by exists face.
Qed.

(** The faces are only ever appended to. *)
Lemma objEffect_faces (text : string) (g g' : Globals) :
  objEffect text g g' → faces (Globals.store g) `prefix_of` faces (Globals.store g').
Proof.
  intros [|s1 p (_ & _ & _ & Hf & _) _ _|p _|x y z|name|name g1 Hrun|face _ _]; cbn;
    try done.
  - by rewrite <- Hf.
  - apply ProcessMaterialFile_inv in Hrun as ((_ & _ & _ & -> & _) & _). done.
  - by apply prefix_app_r.
Qed.

Lemma objEffect_noFlags (text : string) (g g' : Globals) :
  objEffect text g g' → noFlags (Globals.store g) → noFlags (Globals.store g').
Proof.
  intros [|s1 p (Hv & Hn & Ht & _) _ Hp|p Hp|x y z|name|name g1 Hrun|face _ _]
    (Fv & Fn & Ft); unfold noFlags; cbn in *; try done.
  - rewrite <- Hv, <- Hn, <- Ht in *. split; [|done]. apply Forall_app. by repeat constructor.
  - split; [done|]. split; [done|]. apply Forall_app. by repeat constructor.
  - split; [done|]. split; [|done]. apply Forall_app. by repeat constructor.
  - apply ProcessMaterialFile_inv in Hrun as ((-> & -> & -> & _) & _). done.
Qed.

Lemma objEffect_faces_Forall (P : Face → Prop) (text : string) (g g' : Globals) :
  (∀ face, keyword text = Some "f" →
     readFace (strings_Split (trimmed text) " ") (Globals.curMaterialName g) = Continue face →
     P face) →
  objEffect text g g' →
  Forall P (faces (Globals.store g)) → Forall P (faces (Globals.store g')).
Proof.
  intros Hnew [|s1 p (_ & _ & _ & Hf & _) _ _|p _|x y z|name|name g1 Hrun|face Hkey Hface];
    cbn; try done.
  - by rewrite <- Hf.
  - apply ProcessMaterialFile_inv in Hrun as ((_ & _ & _ & -> & _) & _). done.
  - intros Hall. apply Forall_app. split; [done|]. repeat constructor. by apply Hnew.
Qed.

Lemma objEffect_mapFollows (text : string) (g g' : Globals) :
  objEffect text g g' →
  mapFollows (materialNames g) (Globals.materialMap g) →
  mapFollows (materialNames g') (Globals.materialMap g').
Proof.
  intros [|s1 p _ Hm _|p _|x y z|name|name g1 Hrun|face _ _]; unfold materialNames; cbn;
    try done.
  - by rewrite Hm.
  - apply ProcessMaterialFile_inv in Hrun as (_ & _ & Hmap). done.
Qed.

Lemma ProcessOBJFile_loop (file : File) (g g' : Globals) :
  ProcessOBJFile os_Open file g = Continue g' →
  scanLines (objLine os_Open) (Text file) g = Continue g'.
Proof.
  unfold ProcessOBJFile.
  destruct (scanLines _ _ _) as [g1| |]; cbn [mbind reading_bind]; [|done..].
  unfold scanned. destruct (ScanErr file); [|done]. by intros [= <-].
Qed.

Lemma readerFace_wellFormed (f : Face) : readerFace f → faceCovered f → wellFormedFace f.
Proof.
  intros (He & _ & _ & Ht & _) Hcov. split; [destruct He as [->| ->]; lia|].
  split; [done|]. by rewrite Ht.
Qed.

Lemma ProcessOBJFile_inv (file : File) (g : Globals) :
  ProcessOBJFile os_Open file initial = Continue g →
  noFlags (Globals.store g) ∧ Forall readerFace (faces (Globals.store g)) ∧
  mapFollows (materialNames g) (Globals.materialMap g).
Proof.
  intros Hrun%ProcessOBJFile_loop.
  apply (scanLines_inv (λ g, noFlags (Globals.store g) ∧
                              Forall readerFace (faces (Globals.store g)) ∧
                              mapFollows (materialNames g) (Globals.materialMap g)))
    in Hrun; [done| |].
  - intros line a b _ (Hfl & Hsh & Hmap) Hline%objLine_effect. split; [|split].
    + by eapply objEffect_noFlags.
    + eapply objEffect_faces_Forall; [|done..]. intros face _. apply readFace_readerFace.
    + by eapply objEffect_mapFollows.
  - split; [by repeat split|]. split; [constructor|]. split; [done|].
    intros name Hin. by apply elem_of_nil in Hin.
Qed.

(** After a successful read no entry is flagged and every face is a
    triangle or a quad of the reader's shape. *)
Theorem reader_leaves_shaped_faces (file : File) (g : Globals) :
  ProcessOBJFile os_Open file initial = Continue g →
  noFlags (Globals.store g) ∧ Forall readerFace (faces (Globals.store g)).
Proof. intros (Hfl & Hsh & _)%ProcessOBJFile_inv. by split. Qed.

(** The reader panics on nothing but a statement without its argument:
    when every [usemtl] and [mtllib] line of the input and every [newmtl]
    and [Tf] line of the material files has a second field, it ends with
    the store or with an error.  In particular the writes to
    [materials[len(materials)-1]] are safe. *)
Theorem reader_never_panics (file : File) (g : Globals) :
  (∀ text key, text ∈ Text file → keyword text = Some key →
     key ∈ ["usemtl"; "mtllib"] → hasArgument text) →
  (∀ name materialFile text key, os_Open name = inr materialFile →
     text ∈ Text materialFile → keyword text = Some key →
     key ∈ ["newmtl"; "Tf"] → hasArgument text) →
  ProcessOBJFile os_Open file g ≠ Panic.
Proof.
  intros Hobj Hmtl. unfold ProcessOBJFile.
  destruct (scanLines _ _ _) as [g1| |] eqn:Hloop; cbn [mbind reading_bind]; [|done|].
  - unfold scanned. by destruct (ScanErr file).
  - exfalso. revert Hloop. apply (scanLines_no_panic (λ _, True)); [done| |done].
    intros text a Hin _. specialize (Hobj text). unfold keyword, hasArgument in Hobj.
    unfold objLine. destruct (skipped (trimmed text)); [done|].
    pose proof (strings_Split_length (trimmed text) " ") as Hlen.
    destruct (strings_Split (trimmed text) " ") as [|key rest]; [cbn in Hlen; lia|].
    cbn [elem lookup list_lookup mbind reading_bind head] in *.
    specialize (Hobj key Hin eq_refl).
    destruct (String.eqb key "v"); [by destruct (readVertex _ _)|].
    destruct (String.eqb key "vt"); [done|].
    destruct (String.eqb key "vn"); [by destruct (readNormal _) as [[??]?]|].
    destruct (String.eqb_spec key "usemtl") as [->|_].
    { destruct rest; [|done]. cbn in Hobj. assert ((2 ≤ 1)%nat) by (apply Hobj; set_solver).
      lia. }
    destruct (String.eqb_spec key "mtllib") as [->|_].
    { destruct rest as [|name rest].
      - cbn in Hobj. assert ((2 ≤ 1)%nat) by (apply Hobj; set_solver). lia.
      - cbn. apply ProcessMaterialFile_safe. intros mfile t k. apply Hmtl. }
    destruct (String.eqb key "f"); [|done].
    pose proof (readFace_safe (key :: rest) (Globals.curMaterialName a)) as Hface.
    by destruct (readFace _ _).
Qed.

End ReaderFacts.

(** ** [main] needs every index of every corner *)

Lemma faceCovered_sameShape (fs fs' : list Face) :
  Forall2 sameShape fs fs' → Forall faceCovered fs' → Forall faceCovered fs.
Proof.
  induction 1 as [|f f' fs fs' [(He & _) Hlen] _ IH]; [done|].
  intros [Hf Hfs]%Forall_cons. constructor; [|by apply IH].
  unfold faceCovered, covers in *. rewrite He in Hf.
  pose proof (Hlen AttrV) as Hv. pose proof (Hlen AttrN) as Hn. pose proof (Hlen AttrUV) as Hu.
  cbn in Hv, Hn, Hu. by rewrite <- Hv, <- Hn, <- Hu.
Qed.

Lemma faceCovered_sameButCode (fs fs' : list Face) :
  Forall2 sameButCode fs fs' → Forall faceCovered fs' → Forall faceCovered fs.
Proof.
  induction 1 as [|f f' fs fs' (He & Hv & Hn & _ & Hu & _) _ IH]; [done|].
  intros [Hf Hfs]%Forall_cons. constructor; [|by apply IH].
  unfold faceCovered in *. by rewrite <- He, <- Hv, <- Hn, <- Hu.
Qed.

Section MainCovered.
Context `{FO : FloatOps} `{RT : GoRuntime}.
Variable Float32bits : f32 → N.

Lemma ConvertQuadToTriangles_covered (i : nat) (s s' : Store) (f : Face) :
  faces s !! i = Some f → Face.edges f = 4 →
  ConvertQuadToTriangles i s = Some s' →
  Forall faceCovered (faces s') → Forall faceCovered (faces s).
Proof.
  intros Hf He Hrun Hall.
  apply ConvertQuadToTriangles_shape in Hrun
    as (f0 & f' & v0 & v1 & v2 & v3 & vr & n0 & n1 & n2 & n3 & nr & u0 & u1 & u2 & u3 & ur &
        Hf0 & Hv & Hn & Hu & Hfaces & _).
  assert (f0 = f) as -> by congruence.
  rewrite Hfaces in Hall. apply Forall_app in Hall as [Hall _].
  rewrite Forall_lookup in Hall. apply Forall_lookup. intros j x Hx.
  destruct (decide (j = i)) as [->|Hne].
  - assert (x = f) as -> by congruence.
    unfold faceCovered, covers. rewrite He, Hv, Hn, Hu. cbn. repeat split; lia.
  - apply (Hall j). by rewrite list_lookup_insert_ne.
Qed.

Lemma validateQuads_covered (fuel : nat) (q : Z) (i : nat) (s s' : Store) :
  validateQuads fuel q i s = Completed s' →
  Forall faceCovered (faces s') → Forall faceCovered (faces s).
Proof.
  revert i s. induction fuel as [|fuel IH]; intros i s Hrun; [done|].
  cbn [validateQuads] in Hrun.
  destruct (faces s !! i) as [f|] eqn:Hf; [|by injection Hrun as <-].
  destruct (Face.edges f =? 4) eqn:He; cbn [andb] in Hrun.
  - apply N.eqb_eq in He.
    destruct (if negb (q =? 3)%Z then FakeQuadCheck f else Some ()); [|done].
    destruct (q =? 3)%Z.
    + destruct (ConvertQuadToTriangles i s) as [s1|] eqn:Hc; cbn [ofOption] in Hrun; [|done].
      intros Hall. eapply ConvertQuadToTriangles_covered; [done..|]. by eapply IH.
    + destruct (0 <? q)%Z; [|by eapply IH].
      destruct (ValidateQuad s f) as [[|msg]|]; [by eapply IH| |done].
      destruct (q =? 1)%Z; [done|]. destruct (q =? 2)%Z; [|by eapply IH].
      destruct (ConvertQuadToTriangles i s) as [s1|] eqn:Hc; cbn [ofOption] in Hrun; [|done].
      intros Hall. eapply ConvertQuadToTriangles_covered; [done..|]. by eapply IH.
  - by eapply IH.
Qed.

Lemma DeDupe_sameShape (vT nT uvT : f64) (s s' : Store) (counts : nat * nat * nat) :
  DeDupe vT nT uvT s = Some (s', counts) → Forall2 sameShape (faces s) (faces s').
Proof.
  unfold DeDupe, dedupeVertices, dedupeNormals, dedupeTextureCoords. intros Hrun.
  destruct (dedupePass _ _ _ _ _ _ (vertices s) _) as [[[vs fs1] dv]|] eqn:Hv;
    cbn [mbind option_bind] in Hrun; [|done].
  destruct (dedupePass _ _ _ _ _ _ (normals s) _) as [[[ns fs2] dn]|] eqn:Hn;
    cbn [mbind option_bind] in Hrun; [|done].
  destruct (dedupePass _ _ _ _ _ _ (textureCoords s) _) as [[[ts fs3] du]|] eqn:Hu;
    cbn [mbind option_bind] in Hrun; [|done].
  injection Hrun as <- _. cbn [faces set_faces].
  apply (dedupePass_frame _ _ _ _ AttrV) in Hv as (_ & Hf1 & _); [|done].
  apply (dedupePass_frame _ _ _ _ AttrN) in Hn as (_ & Hf2 & _); [|done].
  apply (dedupePass_frame _ _ _ _ AttrUV) in Hu as (_ & Hf3 & _); [|done].
  eapply Forall2_sameShape_trans; [by eapply Forall2_sameExcept_sameShape|].
  eapply Forall2_sameShape_trans; by eapply Forall2_sameExcept_sameShape.
Qed.

Lemma OptimiseMesh_covered (s s' : Store) :
  OptimiseMesh s = Some s' → Forall faceCovered (faces s') → Forall faceCovered (faces s).
Proof.
  intros Hrun Hall.
  destruct (OptimiseMesh_steps s s' Hrun) as (s1 & fsv & fsn & H1 & Hv & Hn & Hu & _).
  apply assignMortonCodes_spec in H1 as (_ & _ & _ & _ & _ & _ & _ & Hcode).
  apply reindex_frame in Hv, Hn, Hu.
  eapply faceCovered_sameButCode; [exact Hcode|].
  assert (Hsorted : faces (sortFaces s1) ≡ₚ faces s1) by apply sortFunc_Permutation.
  rewrite <- Hsorted.
  eapply faceCovered_sameShape; [by eapply Forall2_sameExcept_sameShape|].
  eapply faceCovered_sameShape; [by eapply Forall2_sameExcept_sameShape|].
  eapply faceCovered_sameShape; [by eapply Forall2_sameExcept_sameShape|done].
Qed.

Lemma finish_covered (d mo le : bool) (materialMap : gmap string N) (s : Store)
    (r : Z * Z * list N) :
  finish Float32bits d mo le materialMap s = Some r → Forall faceCovered (faces s).
Proof.
  unfold finish.
  set (s1 := GenerateBoundingSphere (resolveMaterials materialMap s)).
  assert (Hs1 : Forall faceCovered (faces s1) → Forall faceCovered (faces s)).
  { unfold s1, GenerateBoundingSphere.
    destruct (RitterBoundingSphere _) as [c rad]. cbn.
    intros Hall. rewrite Forall_forall in Hall. apply Forall_forall. intros f Hf.
    apply (Hall (set_materialID (default 0 (materialMap !! Face.materialName f)) f)).
    by apply (list_elem_of_fmap_2
                (λ f, set_materialID (default 0 (materialMap !! Face.materialName f)) f)). }
  destruct (if d then _ else _) as [s2|] eqn:Hd; cbn [mbind option_bind]; [|done].
  assert (Hs2 : Forall faceCovered (faces s2) → Forall faceCovered (faces s1)).
  { destruct d; [|by injection Hd as <-].
    destruct (DeDupe _ _ _ s1) as [[s2' counts]|] eqn:Hrun; [|done].
    injection Hd as <-. apply faceCovered_sameShape. by eapply DeDupe_sameShape. }
  destruct (strideDistance (faces s2)) as [stride|]; cbn [mbind option_bind]; [|done].
  destruct (if mo then _ else _) as [s3|] eqn:Hmo; cbn [mbind option_bind]; [|done].
  assert (Hs3 : Forall faceCovered (faces s3) → Forall faceCovered (faces s2)).
  { destruct mo; [|by injection Hmo as <-]. by apply OptimiseMesh_covered. }
  destruct (strideDistance (faces s3)) as [strideAfter|]; cbn [mbind option_bind]; [|done].
  rewrite WriteOutput_spec.
  destruct (decide (Forall faceCovered (faces s3))); [|done]. auto.
Qed.

Lemma main_covered (q : Z) (d mo le : bool) (materialMap : gmap string N) (s : Store)
    (stride strideAfter : Z) (file : list N) :
  main Float32bits q d mo le materialMap s = Written stride strideAfter file →
  Forall faceCovered (faces s).
Proof.
  unfold main, validateStage.
  destruct (validateQuads _ q 0 s) as [s1| | |] eqn:Hq; [|done..].
  destruct (finish _ _ _ _ _ s1) as [[[a b] c]|] eqn:Hfin; [|done].
  intros _. eapply validateQuads_covered; [done|]. by eapply finish_covered.
Qed.

(** [main] writes the file only for a store in which every face has all
    its indices: with a face that lacks a texture or normal index for one of
    its corners, no combination of flags gets to the end. *)
Theorem main_writes_only_covered_faces (q : Z) (d mo le : bool)
    (materialMap : gmap string N) (s : Store) (stride strideAfter : Z) (file : list N) :
  main Float32bits q d mo le materialMap s = Written stride strideAfter file →
  Forall faceCovered (faces s).
Proof. apply main_covered. Qed.

End MainCovered.

(** ** From the input file to the output file *)

Section Conversion.
Context `{FO : FloatOps} `{RT : GoRuntime} `{FM : !GoFmt}.
Variable os_Open : string → error + File.
Variable Float32bits : f32 → N.

(** The face of every face line of a file that was read is in the store. *)
Lemma reader_keeps_faces (file : File) (g0 g : Globals) (text : string) :
  ProcessOBJFile os_Open file g0 = Continue g →
  text ∈ Text file → keyword text = Some "f" →
  ∃ cur face, readFace (strings_Split (trimmed text) " ") cur = Continue face ∧
              face ∈ faces (Globals.store g).
Proof.
  intros Hrun%ProcessOBJFile_loop Hin Hkey.
  destruct (scanLines_elem
              (λ a b : Globals, faces (Globals.store a) `prefix_of` faces (Globals.store b))
              (objLine os_Open) (Text file) g0 g text) as (a & b & Hab & _ & Hb);
    [done|by intros; etrans|by intros l a b ?%objLine_effect%objEffect_faces|done..|].
  destruct (objLine_face os_Open text a b Hkey Hab) as (face & Hface & Hfaces).
  exists (Globals.curMaterialName a), face. split; [done|].
  destruct Hb as [more ->]. rewrite Hfaces. set_solver.
Qed.

Lemma reader_wellFormed (file : File) (g : Globals) :
  ProcessOBJFile os_Open file initial = Continue g → fullFaceLines file →
  Forall wellFormedFace (faces (Globals.store g)).
Proof.
  intros Hrun%ProcessOBJFile_loop Hfull.
  apply (scanLines_inv (λ g, Forall wellFormedFace (faces (Globals.store g)))) in Hrun;
    [done| |constructor].
  intros line a b Hin Ha Hline%objLine_effect.
  eapply objEffect_faces_Forall; [|done..]. intros face Hkey Hface.
  apply readerFace_wellFormed; [by eapply readFace_readerFace|].
  eapply faceCovered_fieldCount; [done|]. by apply Hfull.
Qed.

(** An input file that the reader accepts, whose face lines give all three
    indices on every corner, each within the arrays read, and that has a
    face, is converted: [main] writes the output file, whatever the flags,
    unless [-q 1] stops it at an invalid quad. *)
Theorem obj_file_is_converted (file : File) (g : Globals) (q : Z) (d mo le : bool) :
  ProcessOBJFile os_Open file initial = Continue g →
  fullFaceLines file →
  validStore (Globals.store g) →
  faces (Globals.store g) ≠ [] →
  N.of_nat (length (vertices (Globals.store g))) < 2 ^ 32 →
  N.of_nat (length (normals (Globals.store g))) < 2 ^ 32 →
  N.of_nat (length (textureCoords (Globals.store g))) < 2 ^ 32 →
  2 * N.of_nat (length (faces (Globals.store g))) < 2 ^ 32 →
  (∃ stride strideAfter out,
     main Float32bits q d mo le (Globals.materialMap g) (Globals.store g)
       = Written stride strideAfter out) ∨
  (q = 1%Z ∧ ∃ e, main Float32bits q d mo le (Globals.materialMap g) (Globals.store g)
                   = Stopped e).
Proof.
  intros Hrun Hfull Hvalid Hne Av An Au Af. apply main_total; [|done].
  destruct (ProcessOBJFile_inv os_Open file g Hrun) as (Hflags & _ & _).
  split; [done|]. split; [done|]. split; [by eapply reader_wellFormed|]. done.
Qed.

(** Conversely, the output file is written only for an input in which
    every corner of every face line has the three fields [v/vt/vn]: the
    reader takes a file of [f 1 2 3] or [f 1/1 2/2 3/3] lines without an
    error, and the run then ends in a panic (or at [-q 1]) for every
    combination of flags. *)
Theorem written_only_with_full_face_lines (file : File) (g : Globals) (q : Z)
    (d mo le : bool) (stride strideAfter : Z) (out : list N) :
  ProcessOBJFile os_Open file initial = Continue g →
  main Float32bits q d mo le (Globals.materialMap g) (Globals.store g)
    = Written stride strideAfter out →
  fullFaceLines file.
Proof.
  intros Hrun Hmain text Hin Hkey.
  apply main_covered in Hmain.
  destruct (reader_keeps_faces file initial g text Hrun Hin Hkey)
    as (cur & face & Hface & Hmem).
  apply (faceCovered_fieldCount _ _ _ Hface).
  rewrite Forall_forall in Hmain. by apply Hmain.
Qed.

(** What the reader takes for a face: a read that succeeds has seen only
    face lines of three or four corners, each corner of one to three
    [/]-separated fields, each field a decimal number.  It has no face line
    of five corners, and none in the form [v//vn], whose middle field is
    empty. *)
Theorem reader_accepts_only_numbered_triangles_and_quads (file : File) (g0 g : Globals)
    (text : string) :
  ProcessOBJFile os_Open file g0 = Continue g →
  text ∈ Text file → keyword text = Some "f" →
  let parts := drop 1 (strings_Split (trimmed text) " ") in
  (length parts = 3 ∨ length parts = 4)%nat ∧
  Forall (λ part, (1 ≤ fieldCount part ≤ 3)%nat ∧
                  Forall numeric (strings_Split part "/")) parts.
Proof.
  intros Hrun Hin Hkey. cbv zeta.
  destruct (reader_keeps_faces file g0 g text Hrun Hin Hkey) as (cur & face & Hface & _).
  pose proof (readFace_numeric _ _ _ Hface) as Hnum.
  apply readFace_spec in Hface as (Hlen & _ & Hle & _). split; [done|].
  rewrite Forall_forall in Hle, Hnum. apply Forall_forall. intros part Hpart.
  split; [|by apply Hnum]. split; [apply strings_Split_length|by apply Hle].
Qed.

(** The material a face ends up with: the index of the last material the
    material files define under the name the face uses, and 0, the first
    material, when they define none of that name. *)
Theorem materials_resolved_by_name (file : File) (g : Globals) (f : Face) :
  ProcessOBJFile os_Open file initial = Continue g →
  f ∈ faces (resolveMaterials (Globals.materialMap g) (Globals.store g)) →
  (∃ i, lastNamed (materialNames g) (Face.materialName f) i ∧
        Face.materialID f = u32 (N.of_nat i)) ∨
  ((Face.materialName f ∉ materialNames g) ∧ Face.materialID f = 0).
Proof.
  intros (_ & _ & Hkeys & Hall)%ProcessOBJFile_inv Hf.
  unfold resolveMaterials in Hf. cbn in Hf.
  apply list_elem_of_fmap in Hf as (f0 & -> & _). cbn.
  destruct (Globals.materialMap g !! Face.materialName f0) as [x|] eqn:Hx; cbn.
  - left. destruct (Hkeys _ _ Hx) as (i & -> & Hlast). by exists i.
  - right. split; [|done]. intros Hin. apply Hall in Hin as [y Hy]. congruence.
Qed.

End Conversion.

(** A sample input: a textured square with one material. *)
Module SampleReader.

(** A scanner for lines whose numbers are plain decimal integers: the
    fields behind the keyword, as many as the format has verbs, up to the
    first that is no integer. *)
Definition fields (line : string) : list string :=
  filter (λ p, p ≠ EmptyString) (drop 1 (strings_Split line " ")).

Definition verbs (format : string) : nat := (length (strings_Split format "%") - 1)%nat.

Fixpoint integers (l : list string) : list Z :=
  match l with
  | [] => []
  | p :: l' =>
      match strconv_Atoi p with
      | inr z => z :: integers l'
      | inl _ => []
      end
  end.

Definition scanner : GoFmt (H := IEEE.ops) :=
  Build_GoFmt IEEE.ops
    (λ line format, map IEEE.of_Z32 (take (verbs format) (integers (fields line))))
    (λ line format, map Z.to_N (take (verbs format) (integers (fields line))))
    (λ line format, take (verbs format) (fields line)).

Definition squareMtl : File :=
  mkFile ["# one material"; "newmtl m"; "Kd 1 0 0"; "illum 2"; "map_Kd wall.png"] nil_error.

Definition os_Open (name : string) : error + File :=
  if String.eqb name "square.mtl" then inr squareMtl
  else inl (errors_New "open: no such file or directory").

Definition squareObj : File :=
  mkFile ["# a square"; "mtllib square.mtl";
          "v 0 0 0"; "v 1 0 0"; "v 1 1 0"; "v 0 1 0";
          "vt 0 0"; "vt 1 0"; "vt 1 1"; "vt 0 1";
          "vn 0 0 1"; "usemtl m";
          "  f 1/1/1 2/2/1 3/3/1 4/4/1 "] nil_error.

Definition read (file : File) : reading (Globals (H := IEEE.ops)) :=
  ProcessOBJFile (FO := IEEE.ops) (RT := plainRuntime) (FM := scanner) os_Open file initial.

Definition continued {St : Type} (r : reading St) : bool :=
  match r with
  | Continue _ => true
  | _ => false
  end.

(** The variables after the read. *)
Definition result (file : File) : Globals (H := IEEE.ops) :=
  match read file with
  | Continue g => g
  | _ => initial
  end.

(** The variables after the material file alone. *)
Definition materialsRead : Globals (H := IEEE.ops) :=
  match ProcessMaterialFile (FO := IEEE.ops) (FM := scanner) os_Open "square.mtl" initial with
  | Continue g => g
  | _ => initial
  end.

(** The face of the line ["f 1/1/1 2/2/1 3/3/1 4/4/1"]. *)
Definition squareFace : Face := Face.mk 4 [0; 1; 2; 3] [0; 0; 0; 0] [] [0; 1; 2; 3] 0 "m" 0 false.

End SampleReader.

Lemma SampleReader_read (file : File) :
  SampleReader.continued (SampleReader.read file) = true →
  ProcessOBJFile (FO := IEEE.ops) (RT := plainRuntime) (FM := SampleReader.scanner)
    SampleReader.os_Open file initial = Continue (SampleReader.result file).
Proof.
  unfold SampleReader.result, SampleReader.read. by destruct (ProcessOBJFile _ _ _).
Qed.

Lemma SampleReader_square :
  ProcessOBJFile (FO := IEEE.ops) (RT := plainRuntime) (FM := SampleReader.scanner)
    SampleReader.os_Open SampleReader.squareObj initial
  = Continue (SampleReader.result SampleReader.squareObj).
Proof. apply SampleReader_read. by vm_compute. Qed.

Lemma SampleReader_square_faces :
  faces (Globals.store (SampleReader.result SampleReader.squareObj))
  = [SampleReader.squareFace].
Proof. by vm_compute. Qed.

Lemma SampleReader_square_sizes :
  length (vertices (Globals.store (SampleReader.result SampleReader.squareObj))) = 4%nat ∧
  length (normals (Globals.store (SampleReader.result SampleReader.squareObj))) = 1%nat ∧
  length (textureCoords (Globals.store (SampleReader.result SampleReader.squareObj)))
    = 4%nat.
Proof. repeat split; by vm_compute. Qed.

Lemma SampleReader_square_valid :
  validStore (Globals.store (SampleReader.result SampleReader.squareObj)).
Proof.
  destruct SampleReader_square_sizes as (Hv & Hn & Ht).
  unfold validStore. rewrite SampleReader_square_faces, Hv, Hn, Ht.
  repeat split; apply validAttr_Forall; unfold corners; cbn;
    repeat (constructor; try (cbn; lia)).
Qed.

Ltac each_line Hin :=
  repeat (apply elem_of_cons in Hin as [->|Hin]); [..|by apply elem_of_nil in Hin].

Lemma SampleReader_square_full : fullFaceLines SampleReader.squareObj.
Proof.
  intros text Hin Hkey. cbn [Text SampleReader.squareObj] in Hin. each_line Hin;
    first [ by vm_compute in Hkey | vm_compute; repeat constructor ].
Qed.

Lemma SampleReader_square_argued (text key : string) :
  text ∈ Text SampleReader.squareObj → keyword text = Some key →
  key ∈ ["usemtl"; "mtllib"] → hasArgument text.
Proof.
  intros Hin _ _. cbn [Text SampleReader.squareObj] in Hin. each_line Hin;
    unfold hasArgument; vm_compute; lia.
Qed.

Lemma SampleReader_materials_argued (name : string) (materialFile : File) (text key : string) :
  SampleReader.os_Open name = inr materialFile → text ∈ Text materialFile →
  keyword text = Some key → key ∈ ["newmtl"; "Tf"] → hasArgument text.
Proof.
  unfold SampleReader.os_Open. destruct (String.eqb name "square.mtl"); [|done].
  intros [= <-] Hin _ _. cbn [Text SampleReader.squareMtl] in Hin. each_line Hin;
    unfold hasArgument; vm_compute; lia.
Qed.

Lemma SampleReader_square_resolved :
  faces (resolveMaterials
           (Globals.materialMap (SampleReader.result SampleReader.squareObj))
           (Globals.store (SampleReader.result SampleReader.squareObj)))
  = [SampleReader.squareFace].
Proof. by vm_compute. Qed.

Lemma SampleReader_square_wellFormed :
  wellFormed (Globals.store (SampleReader.result SampleReader.squareObj)).
Proof.
  destruct (ProcessOBJFile_inv _ _ _ SampleReader_square) as (Hflags & _ & _).
  destruct SampleReader_square_sizes as (Hv & Hn & Ht).
  split; [exact SampleReader_square_valid|]. split; [exact Hflags|].
  split; [exact (reader_wellFormed _ _ _ SampleReader_square SampleReader_square_full)|].
  rewrite SampleReader_square_faces, Hv, Hn, Ht. clear. by vm_compute.
Qed.

Lemma SampleReader_square_written :
  ∃ stride strideAfter out,
    main (FO := IEEE.ops) (RT := plainRuntime) IEEE_Float32bits 3 true true true
      (Globals.materialMap (SampleReader.result SampleReader.squareObj))
      (Globals.store (SampleReader.result SampleReader.squareObj))
    = Written stride strideAfter out.
Proof.
  destruct (main_total (FO := IEEE.ops) (RT := plainRuntime) IEEE_Float32bits 3 true true true
              (Globals.materialMap (SampleReader.result SampleReader.squareObj))
              (Globals.store (SampleReader.result SampleReader.squareObj))
              SampleReader_square_wellFormed) as [Hdone|[Hq _]]; [|exact Hdone|discriminate Hq].
  by rewrite SampleReader_square_faces.
Qed.

Lemma Sample_square_written :
  ∃ stride strideAfter out,
    main (FO := IEEE.ops) (RT := plainRuntime) IEEE_Float32bits 3 true true true
      SampleMain.materialMap Sample.square = Written stride strideAfter out.
Proof.
  assert (Hwf : wellFormed Sample.square).
  { split; [check_store|]. split; [check_store|]. split.
    - check_faces.
    - repeat split; by vm_compute. }
  destruct (main_total (FO := IEEE.ops) (RT := plainRuntime) IEEE_Float32bits 3 true true true
              SampleMain.materialMap Sample.square Hwf) as [Hdone|[Hq _]];
    [done|exact Hdone|discriminate Hq].
Qed.

Lemma SampleReader_materials :
  ProcessMaterialFile (FO := IEEE.ops) (FM := SampleReader.scanner) SampleReader.os_Open
    "square.mtl" initial = Continue SampleReader.materialsRead.
Proof.
  assert (Hok : SampleReader.continued
                  (ProcessMaterialFile (FO := IEEE.ops) (FM := SampleReader.scanner)
                     SampleReader.os_Open "square.mtl" initial) = true) by (by vm_compute).
  unfold SampleReader.materialsRead. by destruct (ProcessMaterialFile _ _ _).
Qed.

Lemma readFace_covered_iff_witness :
  readFace ["f"; "1/1/1"; "2/2/1"; "3/3/1"; "4/4/1"] "m" = Continue SampleReader.squareFace ∧
  (faceCovered SampleReader.squareFace ↔
   Forall (λ part, fieldCount part = 3%nat)
     (drop 1 ["f"; "1/1/1"; "2/2/1"; "3/3/1"; "4/4/1"])).
Proof.
  assert (Hread : readFace ["f"; "1/1/1"; "2/2/1"; "3/3/1"; "4/4/1"] "m"
                  = Continue SampleReader.squareFace) by (vm_compute; reflexivity).
  split; [exact Hread|].
  exact (readFace_covered_iff _ _ _ Hread).
Defined.

Lemma reader_leaves_shaped_faces_witness :
  ProcessOBJFile (FO := IEEE.ops) (RT := plainRuntime) (FM := SampleReader.scanner)
    SampleReader.os_Open SampleReader.squareObj initial
    = Continue (SampleReader.result SampleReader.squareObj) ∧
  noFlags (Globals.store (SampleReader.result SampleReader.squareObj)) ∧
  Forall readerFace (faces (Globals.store (SampleReader.result SampleReader.squareObj))).
Proof.
  split; [exact SampleReader_square|].
  exact (reader_leaves_shaped_faces (FO := IEEE.ops) (RT := plainRuntime)
           (FM := SampleReader.scanner) SampleReader.os_Open SampleReader.squareObj
           (SampleReader.result SampleReader.squareObj) SampleReader_square).
Defined.

Lemma reader_never_panics_witness :
  (∀ text key, text ∈ Text SampleReader.squareObj → keyword text = Some key →
     key ∈ ["usemtl"; "mtllib"] → hasArgument text) ∧
  (∀ name materialFile text key, SampleReader.os_Open name = inr materialFile →
     text ∈ Text materialFile → keyword text = Some key →
     key ∈ ["newmtl"; "Tf"] → hasArgument text) ∧
  ProcessOBJFile (FO := IEEE.ops) (RT := plainRuntime) (FM := SampleReader.scanner)
    SampleReader.os_Open SampleReader.squareObj initial ≠ Panic.
Proof.
  split; [exact SampleReader_square_argued|].
  split; [exact SampleReader_materials_argued|].
  exact (reader_never_panics (FO := IEEE.ops) (RT := plainRuntime)
           (FM := SampleReader.scanner) SampleReader.os_Open SampleReader.squareObj initial
           SampleReader_square_argued SampleReader_materials_argued).
Defined.

Lemma materials_resolved_by_name_witness :
  ProcessOBJFile (FO := IEEE.ops) (RT := plainRuntime) (FM := SampleReader.scanner)
    SampleReader.os_Open SampleReader.squareObj initial
    = Continue (SampleReader.result SampleReader.squareObj) ∧
  SampleReader.squareFace
    ∈ faces (resolveMaterials
               (Globals.materialMap (SampleReader.result SampleReader.squareObj))
               (Globals.store (SampleReader.result SampleReader.squareObj))) ∧
  ((∃ i, lastNamed (materialNames (SampleReader.result SampleReader.squareObj))
           (Face.materialName SampleReader.squareFace) i ∧
         Face.materialID SampleReader.squareFace = u32 (N.of_nat i)) ∨
   ((Face.materialName SampleReader.squareFace
       ∉ materialNames (SampleReader.result SampleReader.squareObj)) ∧
    Face.materialID SampleReader.squareFace = 0)).
Proof.
  assert (Hin : SampleReader.squareFace
                  ∈ faces (resolveMaterials
                             (Globals.materialMap (SampleReader.result SampleReader.squareObj))
                             (Globals.store (SampleReader.result SampleReader.squareObj)))).
  { rewrite SampleReader_square_resolved. apply list_elem_of_here. }
  split; [exact SampleReader_square|]. split; [exact Hin|].
  exact (materials_resolved_by_name (FO := IEEE.ops) (RT := plainRuntime)
           (FM := SampleReader.scanner) SampleReader.os_Open SampleReader.squareObj
           (SampleReader.result SampleReader.squareObj) SampleReader.squareFace
           SampleReader_square Hin).
Defined.

Lemma obj_file_is_converted_witness :
  ProcessOBJFile (FO := IEEE.ops) (RT := plainRuntime) (FM := SampleReader.scanner)
    SampleReader.os_Open SampleReader.squareObj initial
    = Continue (SampleReader.result SampleReader.squareObj) ∧
  fullFaceLines SampleReader.squareObj ∧
  validStore (Globals.store (SampleReader.result SampleReader.squareObj)) ∧
  faces (Globals.store (SampleReader.result SampleReader.squareObj)) ≠ [] ∧
  ∃ stride strideAfter out,
    main (FO := IEEE.ops) (RT := plainRuntime) IEEE_Float32bits 3 true true true
      (Globals.materialMap (SampleReader.result SampleReader.squareObj))
      (Globals.store (SampleReader.result SampleReader.squareObj))
    = Written stride strideAfter out.
Proof.
  assert (Hne : faces (Globals.store (SampleReader.result SampleReader.squareObj)) ≠ [])
    by (by rewrite SampleReader_square_faces).
  destruct SampleReader_square_wellFormed as (_ & _ & _ & Av & An & Au & Af).
  split; [exact SampleReader_square|]. split; [exact SampleReader_square_full|].
  split; [exact SampleReader_square_valid|]. split; [exact Hne|].
  destruct (obj_file_is_converted (FO := IEEE.ops) (RT := plainRuntime)
              (FM := SampleReader.scanner) SampleReader.os_Open IEEE_Float32bits
              SampleReader.squareObj (SampleReader.result SampleReader.squareObj)
              3 true true true SampleReader_square SampleReader_square_full
              SampleReader_square_valid Hne Av An Au Af) as [Hdone|[Hq _]];
    [exact Hdone|discriminate Hq].
Defined.

Lemma written_only_with_full_face_lines_witness :
  ∃ stride strideAfter out,
    ProcessOBJFile (FO := IEEE.ops) (RT := plainRuntime) (FM := SampleReader.scanner)
      SampleReader.os_Open SampleReader.squareObj initial
      = Continue (SampleReader.result SampleReader.squareObj) ∧
    main (FO := IEEE.ops) (RT := plainRuntime) IEEE_Float32bits 3 true true true
      (Globals.materialMap (SampleReader.result SampleReader.squareObj))
      (Globals.store (SampleReader.result SampleReader.squareObj))
      = Written stride strideAfter out ∧
    fullFaceLines SampleReader.squareObj.
Proof.
  destruct SampleReader_square_written as (stride & strideAfter & out & Hmain).
  exists stride, strideAfter, out.
  split; [exact SampleReader_square|]. split; [exact Hmain|].
  exact (written_only_with_full_face_lines (FO := IEEE.ops) (RT := plainRuntime)
           (FM := SampleReader.scanner) SampleReader.os_Open IEEE_Float32bits
           SampleReader.squareObj (SampleReader.result SampleReader.squareObj)
           3 true true true stride strideAfter out SampleReader_square Hmain).
Defined.

Lemma main_writes_only_covered_faces_witness :
  ∃ stride strideAfter out,
    main (FO := IEEE.ops) (RT := plainRuntime) IEEE_Float32bits 3 true true true
      SampleMain.materialMap Sample.square = Written stride strideAfter out ∧
    Forall faceCovered (faces (Sample.square)).
Proof.
  destruct Sample_square_written as (stride & strideAfter & out & Hmain).
  exists stride, strideAfter, out. split; [exact Hmain|].
  exact (main_writes_only_covered_faces (FO := IEEE.ops) (RT := plainRuntime)
           IEEE_Float32bits 3 true true true SampleMain.materialMap Sample.square
           stride strideAfter out Hmain).
Defined.

Lemma reader_accepts_witness :
  ProcessOBJFile (FO := IEEE.ops) (RT := plainRuntime) (FM := SampleReader.scanner)
    SampleReader.os_Open SampleReader.squareObj initial
    = Continue (SampleReader.result SampleReader.squareObj) ∧
  "  f 1/1/1 2/2/1 3/3/1 4/4/1 " ∈ Text SampleReader.squareObj ∧
  keyword "  f 1/1/1 2/2/1 3/3/1 4/4/1 " = Some "f" ∧
  (length (drop 1 (strings_Split (trimmed "  f 1/1/1 2/2/1 3/3/1 4/4/1 ") " ")) = 3 ∨
   length (drop 1 (strings_Split (trimmed "  f 1/1/1 2/2/1 3/3/1 4/4/1 ") " ")) = 4)%nat ∧
  Forall (λ part, (1 ≤ fieldCount part ≤ 3)%nat ∧ Forall numeric (strings_Split part "/"))
    (drop 1 (strings_Split (trimmed "  f 1/1/1 2/2/1 3/3/1 4/4/1 ") " ")).
Proof.
  assert (Hin : "  f 1/1/1 2/2/1 3/3/1 4/4/1 " ∈ Text SampleReader.squareObj).
  { cbn [Text SampleReader.squareObj]. do 12 apply list_elem_of_further.
    apply list_elem_of_here. }
  assert (Hkey : keyword "  f 1/1/1 2/2/1 3/3/1 4/4/1 " = Some "f") by (vm_compute; reflexivity).
  split; [exact SampleReader_square|]. split; [exact Hin|]. split; [exact Hkey|].
  exact (reader_accepts_only_numbered_triangles_and_quads (FO := IEEE.ops)
           (RT := plainRuntime) (FM := SampleReader.scanner) SampleReader.os_Open
           SampleReader.squareObj initial (SampleReader.result SampleReader.squareObj)
           "  f 1/1/1 2/2/1 3/3/1 4/4/1 " SampleReader_square Hin Hkey).
Defined.

Lemma material_properties_follow_newmtl_witness :
  ProcessMaterialFile (FO := IEEE.ops) (FM := SampleReader.scanner) SampleReader.os_Open
    "square.mtl" initial = Continue SampleReader.materialsRead ∧
  SampleReader.os_Open "square.mtl" = inr SampleReader.squareMtl ∧
  Text SampleReader.squareMtl
    = ["# one material"; "newmtl m"] ++ "Kd 1 0 0" :: ["illum 2"; "map_Kd wall.png"] ∧
  keyword "Kd 1 0 0" = Some "Kd" ∧ "Kd" ∈ propertyKeys ∧
  ∃ opener, opener ∈ ["# one material"; "newmtl m"] ∧ keyword opener = Some "newmtl".
Proof.
  assert (Hopen : SampleReader.os_Open "square.mtl" = inr SampleReader.squareMtl)
    by reflexivity.
  assert (Htext : Text SampleReader.squareMtl
                  = ["# one material"; "newmtl m"] ++ "Kd 1 0 0"
                    :: ["illum 2"; "map_Kd wall.png"]) by reflexivity.
  assert (Hkey : keyword "Kd 1 0 0" = Some "Kd") by (vm_compute; reflexivity).
  assert (Hprop : "Kd" ∈ propertyKeys) by apply list_elem_of_here.
  split; [exact SampleReader_materials|]. split; [exact Hopen|]. split; [exact Htext|].
  split; [exact Hkey|]. split; [exact Hprop|].
  exact (material_properties_follow_newmtl (FO := IEEE.ops) (FM := SampleReader.scanner)
           SampleReader.os_Open "square.mtl" initial SampleReader.materialsRead
           SampleReader.squareMtl ["# one material"; "newmtl m"]
           ["illum 2"; "map_Kd wall.png"] "Kd 1 0 0" "Kd"
           SampleReader_materials Hopen Htext Hkey Hprop).
Defined.

(** ** [main] never checks an index *)

Lemma wellFormedFace_sameShape (fs fs' : list Face) :
  Forall2 sameShape fs fs' → Forall wellFormedFace fs → Forall wellFormedFace fs'.
Proof.
  induction 1 as [|f f' fs fs' [(He & Ht & _) Hlen] _ IH]; [done|].
  intros [(Hpos & (Hv & Hn & Hu) & Htan) Hfs]%Forall_cons. constructor; [|by apply IH].
  pose proof (Hlen AttrV) as Lv. pose proof (Hlen AttrN) as Ln. pose proof (Hlen AttrUV) as Lu.
  cbn in Lv, Ln, Lu. unfold wellFormedFace, faceCovered, covers in *.
  by rewrite He, Ht, Lv, Ln, Lu.
Qed.

Section Unchecked.
Context `{FO : FloatOps} `{RT : GoRuntime}.
Variable Float32bits : f32 → N.

(** With [-q 0] the quad pass only looks at the four vertex indices of each
    quad. *)
Lemma validateQuads_passes (fuel : nat) (q : Z) (i : nat) (s : Store) :
  (q ≤ 0)%Z → Forall wellFormedFace (faces s) → (length (faces s) - i < fuel)%nat →
  validateQuads fuel q i s = Completed s.
Proof.
  intros Hq Hwf. revert i. induction fuel as [|fuel IH]; intros i Hfuel; [lia|].
  cbn [validateQuads].
  destruct (faces s !! i) as [f|] eqn:Hf; [|done].
  assert (Hf' : wellFormedFace f).
  { rewrite Forall_forall in Hwf. apply Hwf. by eapply list_elem_of_lookup_2. }
  destruct (Z.eqb_spec q 3) as [|_]; [lia|].
  destruct (Z.ltb_spec 0 q) as [|_]; [lia|].
  rewrite !andb_false_r. cbn [negb]. rewrite andb_true_r.
  assert (Hcheck : (if Face.edges f =? 4 then FakeQuadCheck f else Some ()) = Some ()).
  { destruct (N.eqb_spec (Face.edges f) 4) as [He|_]; [|done].
    destruct Hf' as (_ & (Hv & _) & _). unfold covers in Hv. rewrite He in Hv.
    unfold FakeQuadCheck.
    destruct (Face.v f) as [|v0 [|v1 [|v2 [|v3 vr]]]]; cbn in Hv; try lia. done. }
  rewrite Hcheck. apply IH. apply lookup_lt_Some in Hf. lia.
Qed.

(** Without [-mo] and with [-q 0], the default, nothing in [main] uses an
    index of a face to index an array: the run ends with the output file for
    every store whose faces have their indices, in range or not, and without
    [-d] the file is the store as read, with the indices as they are. *)
Theorem main_without_mo_never_checks_an_index (q : Z) (d le : bool)
    (materialMap : gmap string N) (s : Store) :
  (q ≤ 0)%Z → Forall wellFormedFace (faces s) → faces s ≠ [] →
  ∃ stride strideAfter out,
    main Float32bits q d false le materialMap s = Written stride strideAfter out ∧
    (d = false →
     out = fileBytes Float32bits (if le then LittleEndian else BigEndian)
             (GenerateBoundingSphere (resolveMaterials materialMap s))).
Proof.
  intros Hq Hwf Hne. unfold main, validateStage.
  rewrite validateQuads_passes by (done || lia).
  destruct (prepare_keeps materialMap s) as (_ & _ & _ & Hlen & _ & Hwf1).
  unfold finish. set (s1 := GenerateBoundingSphere (resolveMaterials materialMap s)) in *.
  specialize (Hwf1 Hwf).
  assert (Hne1 : faces s1 ≠ []).
  { intros Hnil. rewrite Hnil in Hlen. by destruct (faces s). }
  assert (∃ s2, (if d then fst <$> DeDupe (f64_lit 1 10000) (f64_lit 1 100000)
                                    (f64_lit 1 100000) s1 else Some s1) = Some s2 ∧
                Forall wellFormedFace (faces s2) ∧ faces s2 ≠ [] ∧ (d = false → s2 = s1))
    as (s2 & -> & Hwf2 & Hne2 & Hsame).
  { destruct d; [|by eauto 6].
    destruct (DeDupe_total (f64_lit 1 10000) (f64_lit 1 100000) (f64_lit 1 100000) s1)
      as (s2 & counts & Hrun); [by apply wellFormedFace_covered|].
    rewrite Hrun. exists s2. split; [done|].
    pose proof (DeDupe_sameShape _ _ _ _ _ _ Hrun) as Hshape.
    split; [by eapply wellFormedFace_sameShape|]. split; [|done].
    apply Forall2_length in Hshape. intros Hnil. rewrite Hnil in Hshape.
    by destruct (faces s1). }
  cbn [mbind option_bind].
  destruct (strideDistance_total (faces s2) Hwf2 Hne2) as [stride Hstride].
  rewrite Hstride. cbn [mbind option_bind].
  rewrite WriteOutput_spec, decide_True by (by apply wellFormedFace_covered).
  cbn [mbind option_bind]. eexists _, _, _. split; [done|].
  intros Hd. by rewrite (Hsame Hd).
Qed.

End Unchecked.

Module SampleUnchecked.
Import Sample.

(** A triangle whose third corner names a vertex that does not exist. *)
Definition dangling : Store :=
  store [V 0 0 0; V 1 0 0; V 0 1 0] [Nm 0 0 1] [T 0 0]
    [Face.mk 3 [0; 1; 7] [0; 0; 0] [] [0; 0; 0] 0 "m" 0 false] 1.

End SampleUnchecked.

Lemma main_without_mo_witness :
  (0 ≤ 0)%Z ∧ Forall wellFormedFace (faces SampleUnchecked.dangling) ∧
  faces SampleUnchecked.dangling ≠ [] ∧ ¬ validStore SampleUnchecked.dangling ∧
  ∃ stride strideAfter out,
    main (FO := IEEE.ops) (RT := plainRuntime) IEEE_Float32bits 0 false false true
      SampleMain.materialMap SampleUnchecked.dangling = Written stride strideAfter out ∧
    (false = false →
     out = fileBytes (FO := IEEE.ops) IEEE_Float32bits LittleEndian
             (GenerateBoundingSphere
                (resolveMaterials SampleMain.materialMap SampleUnchecked.dangling))).
Proof.
  assert (Hq : (0 ≤ 0)%Z) by lia.
  assert (Hwf : Forall wellFormedFace (faces SampleUnchecked.dangling)) by check_faces.
  assert (Hne : faces SampleUnchecked.dangling ≠ []) by discriminate.
  split; [exact Hq|]. split; [exact Hwf|]. split; [exact Hne|]. split.
  - intros (Hv & _).
    specialize (Hv (Face.mk 3 [0; 1; 7] [0; 0; 0] [] [0; 0; 0] 0 "m" 0 false) 7).
    cbn in Hv. assert ((7 < 3)%nat); [|lia]. apply Hv; repeat constructor.
  - exact (main_without_mo_never_checks_an_index (FO := IEEE.ops) (RT := plainRuntime)
             IEEE_Float32bits 0 false true SampleMain.materialMap SampleUnchecked.dangling
             Hq Hwf Hne).
Defined.

(** ** Inputs the reader accepts and the invariants do not survive *)

(** Every entry of every index array of every face is below the length of
    its attribute array: all the slots of the arrays, not only the corners. *)
Definition entriesValid `{FloatOps} (s : Store) : bool :=
  forallb
    (λ f, forallb (λ x, N.to_nat x <? length (vertices s))%nat (Face.v f)
          && forallb (λ x, N.to_nat x <? length (normals s))%nat (Face.n f)
          && forallb (λ x, N.to_nat x <? length (textureCoords s))%nat (Face.uv f))
    (faces s).

(** The run time of Go 1.21: the sort of the library, and a [slices.Delete]
    that leaves the vacated slot as it was. *)
Definition go121Runtime : GoRuntime := {|
  growslice := λ c, (2 * c + 1)%nat;
  deleteTail := λ x, x;
  sortFunc := @checkedSortFunc;
  sortFunc_Permutation := checkedSortFunc_Permutation;
  sortFunc_Sorted := checkedSortFunc_Sorted
|}.

Module SampleStages.
#[local] Existing Instance IEEE.ops.

(** The vertex and normal index arrays of the faces, the lengths of the
    three attribute arrays, and whether every entry is valid. *)
Definition survey (s : Store)
  : list (list N) * list (list N) * (nat * nat * nat) * bool :=
  (map Face.v (faces s), map Face.n (faces s),
   (length (vertices s), length (normals s), length (textureCoords s)),
   entriesValid s).

Section Stages.
Context `{RT : GoRuntime}.

(** The variables after [ProcessOBJFile]. *)
Definition read (file : File) : option Globals :=
  match ProcessOBJFile (FM := SampleReader.scanner) SampleReader.os_Open file initial with
  | Continue g => Some g
  | _ => None
  end.

(** The store at the end of the quad pass under [-q q]. *)
Definition quads (q : Z) (file : File) : option Store :=
  g ← read file;
  match validateStage q (Globals.store g) with
  | Completed s => Some s
  | _ => None
  end.

(** The store at the end of [DeDupe], called as [main] calls it. *)
Definition deduped (q : Z) (file : File) : option Store :=
  g ← read file; s ← quads q file;
  fst <$> DeDupe (f64_lit 1 10000) (f64_lit 1 100000) (f64_lit 1 100000)
            (GenerateBoundingSphere (resolveMaterials (Globals.materialMap g) s)).

(** The store at the end of [OptimiseMesh], without [-d]. *)
Definition optimised (q : Z) (file : File) : option Store :=
  g ← read file; s ← quads q file;
  OptimiseMesh (GenerateBoundingSphere (resolveMaterials (Globals.materialMap g) s)).

(** How [main] ends. *)
Definition exitOf (q : Z) (d mo : bool) (file : File) : option exit :=
  g ← read file;
  Some (main IEEE_Float32bits q d mo true (Globals.materialMap g) (Globals.store g)).

End Stages.

(** A triangle whose third corner names the eighth of three vertices. *)
Definition danglingObj : File :=
  mkFile ["v 0 0 0"; "v 1 0 0"; "v 0 1 0"; "vt 0 0"; "vn 0 0 1";
          "f 1/1/1 2/1/1 8/1/1"] nil_error.

(** A quad with four normals that are one and the same. *)
Definition slackObj : File :=
  mkFile ["v 0 0 0"; "v 1 0 0"; "v 1 1 0"; "v 0 1 0"; "vt 0 0";
          "vn 0 0 1"; "vn 0 0 1"; "vn 0 0 1"; "vn 0 0 1";
          "f 1/1/1 2/1/2 3/1/3 4/1/4"] nil_error.

(** A quad without normal and uv indices. *)
Definition bareObj : File :=
  mkFile ["v 0 0 0"; "v 1 0 0"; "v 1 1 0"; "v 0 1 0"; "f 1 2 3 4"] nil_error.

(** A normal of length zero. *)
Definition zeroNormalObj : File := mkFile ["vn 0 0 0"] nil_error.

Definition crashed (r : option exit) : bool :=
  match r with
  | Some Crashed => true
  | _ => false
  end.

Definition written (r : option exit) : bool :=
  match r with
  | Some (Written _ _ _) => true
  | _ => false
  end.

End SampleStages.

(** C1 as stated fails.  The reader checks no index against the length of
    an array: it accepts a face whose third corner names a vertex that does
    not exist, the quad pass and [DeDupe] run to their ends with that index
    in the store, [main] writes the file, and only [OptimiseMesh], under
    [-mo], panics on it.  And the loops of every stage stop at the degree
    of the face: a quad that [ConvertQuadToTriangles] turned into a triangle
    after [append] moved the face array keeps a fourth slot in each array,
    which under Go 1.21 holds the index it held, and [DeDupe], having merged
    the four equal normals into one, leaves that slot naming the fourth of
    one normal. *)
Lemma C1_counterexample_dangling_index :
  (SampleStages.survey <$> SampleStages.quads (RT := libraryRuntime) 0 SampleStages.danglingObj
   = Some ([[0; 1; 7]], [[0; 0; 0]], (3, 1, 1)%nat, false) ∧
   SampleStages.survey <$> SampleStages.deduped (RT := libraryRuntime) 0 SampleStages.danglingObj
   = Some ([[0; 1; 7]], [[0; 0; 0]], (3, 1, 1)%nat, false) ∧
   isNone (SampleStages.optimised (RT := libraryRuntime) 0 SampleStages.danglingObj) = true ∧
   SampleStages.written
     (SampleStages.exitOf (RT := libraryRuntime) 0 true false SampleStages.danglingObj) = true ∧
   SampleStages.crashed
     (SampleStages.exitOf (RT := libraryRuntime) 0 true true SampleStages.danglingObj) = true) ∧
  (SampleStages.survey <$> SampleStages.quads (RT := go121Runtime) 3 SampleStages.slackObj
   = Some ([[0; 1; 2; 3]; [0; 2; 3]], [[0; 1; 2; 3]; [0; 2; 3]], (4, 4, 1)%nat, true) ∧
   map Face.edges <$> (faces <$> SampleStages.quads (RT := go121Runtime) 3 SampleStages.slackObj)
   = Some [3; 3] ∧
   SampleStages.survey <$> SampleStages.deduped (RT := go121Runtime) 3 SampleStages.slackObj
   = Some ([[0; 1; 2; 3]; [0; 2; 3]], [[0; 0; 0; 3]; [0; 0; 0]], (4, 1, 1)%nat, false)).
Proof. repeat split; by vm_compute. Qed.

(** The quad of the line ["f 1 2 3 4"] has no normal and no uv index, and
    [main] under [-q 3] panics in [ConvertQuadToTriangles]; without [-q] it
    panics in [WriteOutput]. *)
Lemma bare_quad_crashes :
  (map (λ f, (Face.edges f, Face.v f, Face.n f, Face.uv f)) <$>
     (faces <$> SampleStages.quads (RT := libraryRuntime) 0 SampleStages.bareObj))
  = Some [(4, [0; 1; 2; 3], [], [])] ∧
  isNone (SampleStages.quads (RT := libraryRuntime) 3 SampleStages.bareObj) = true ∧
  SampleStages.crashed
    (SampleStages.exitOf (RT := libraryRuntime) 3 false false SampleStages.bareObj) = true ∧
  SampleStages.crashed
    (SampleStages.exitOf (RT := libraryRuntime) 0 false false SampleStages.bareObj) = true.
Proof. repeat split; by vm_compute. Qed.

(** The normal the reader stores for the line ["vn 0 0 0"]. *)
Lemma zero_normal_is_stored :
  (map SampleC9.components <$>
     (normals <$> (Globals.store <$>
        SampleStages.read (RT := libraryRuntime) SampleStages.zeroNormalObj)))
  = Some [(S754_nan, S754_nan, S754_nan)].
Proof. by vm_compute. Qed.
